(** * PToyDB: a shallow embedding of the storage engine, the indexes, the SQL
    parser, the query executor, the consensus log and the node coordinator,
    with the properties of the specification checked against it.

    Source files: [distdb/storage_engine.py], [distdb/index_manager.py],
    [distdb/sql_parser.py], [distdb/query_executor.py],
    [distdb/replication.py], [distdb/node.py], [distdb/shard_manager.py],
    [distdb/cluster_manager.py], [distdb/utils.py], [distdb/client.py]. *)

From Stdlib Require Import ZArith QArith String Ascii List Lia Bool.
From Stdlib Require Import DecimalString.
From Stdlib Require DecimalNat DecimalFacts DecimalPos DecimalZ.
From Stdlib Require Import Permutation Sorted.
From Stdlib Require Import Floats.SpecFloat.
Import ListNotations.

Local Open Scope Z_scope.
Local Open Scope list_scope.
Local Open Scope string_scope.

Set Implicit Arguments.

(* ================================================================== *)
(** * Python scalars *)
(* ================================================================== *)

(** The scalars a row can hold: [None], [int] (unbounded), [float] (IEEE
    binary64, as the Standard Library's [spec_float]) and [str]. *)
Inductive value : Type :=
| VNone
| VInt (n : Z)
| VFloat (f : spec_float)
| VStr (s : string).

(** The exact numeric value of an [int] or a [float]: Python compares the
    two kinds exactly, not after a conversion. *)
Inductive number : Type :=
| NaN
| NegInf
| Fin (q : Q)
| PosInf.

Definition float_number (f : spec_float) : number :=
  match f with
  | S754_zero _ => Fin 0
  | S754_infinity s => if s then NegInf else PosInf
  | S754_nan => NaN
  | S754_finite s m e =>
      Fin (((if s then Z.neg m else Z.pos m) # 1) * Qpower 2 e)
  end.

Definition as_number (v : value) : option number :=
  match v with
  | VInt n => Some (Fin (n # 1))
  | VFloat f => Some (float_number f)
  | VNone | VStr _ => None
  end.

Definition number_eqb (x y : number) : bool :=
  match x, y with
  | Fin p, Fin q => Qeq_bool p q
  | NegInf, NegInf | PosInf, PosInf => true
  | _, _ => false
  end.

Definition number_ltb (x y : number) : bool :=
  match x, y with
  | NaN, _ | _, NaN => false
  | NegInf, NegInf => false
  | NegInf, _ => true
  | _, NegInf => false
  | PosInf, _ => false
  | Fin _, PosInf => true
  | Fin p, Fin q => negb (Qle_bool q p)
  end.

(** Python's [a == b] on scalars. *)
Definition py_eq (a b : value) : bool :=
  match a, b with
  | VNone, VNone => true
  | VStr s, VStr t => String.eqb s t
  | _, _ =>
      match as_number a, as_number b with
      | Some x, Some y => number_eqb x y
      | _, _ => false
      end
  end.

(** Python's [a < b] on scalars; [None] stands for the [TypeError] that
    ordering [None] or a string against a number raises. *)
Definition py_lt (a b : value) : option bool :=
  match a, b with
  | VStr s, VStr t => Some (String.ltb s t)
  | _, _ =>
      match as_number a, as_number b with
      | Some x, Some y => Some (number_ltb x y)
      | _, _ => None
      end
  end.

Definition is_nan (v : value) : bool :=
  match v with VFloat S754_nan => true | _ => false end.

(** Key equality of [dict], [set] and [tuple]: identity first, then [==].
    Identity is not part of this embedding; the one place where it differs
    from [==] on scalars is NaN, and an index key rebuilt from a stored row
    holds the very object that was indexed, so NaN is its own key here. *)
Definition key_eq (a b : value) : bool :=
  (is_nan a && is_nan b) || py_eq a b.

Fixpoint tuple_eq (a b : list value) : bool :=
  match a, b with
  | [], [] => true
  | x :: a', y :: b' => key_eq x y && tuple_eq a' b'
  | _, _ => false
  end.

(* ================================================================== *)
(** * Python containers *)
(* ================================================================== *)

(** A [dict] keeps its items in insertion order; assigning to a key that is
    present replaces the value in place. *)
Section Dict.
Context {K V : Type}.
Variable eqb : K -> K -> bool.

Definition dict := list (K * V).

Fixpoint dict_get (d : dict) (k : K) : option V :=
  match d with
  | [] => None
  | (k', v) :: d' => if eqb k k' then Some v else dict_get d' k
  end.

Definition dict_mem (d : dict) (k : K) : bool :=
  match dict_get d k with Some _ => true | None => false end.

Fixpoint dict_set (d : dict) (k : K) (v : V) : dict :=
  match d with
  | [] => [(k, v)]
  | (k', v') :: d' =>
      if eqb k k' then (k', v) :: d' else (k', v') :: dict_set d' k v
  end.

Definition dict_del (d : dict) (k : K) : dict :=
  filter (fun kv => negb (eqb k (fst kv))) d.

Definition dict_keys (d : dict) : list K := map fst d.
Definition dict_values (d : dict) : list V := map snd d.

(** [{**a, **b}] *)
Definition dict_merge (a b : dict) : dict :=
  fold_left (fun acc kv => dict_set acc (fst kv) (snd kv)) b a.
End Dict.

Arguments dict : clear implicits.

(** A [set] of strings, kept without duplicates. *)
Definition pyset := list string.

Definition set_mem (s : pyset) (x : string) : bool :=
  existsb (String.eqb x) s.

Definition set_add (s : pyset) (x : string) : pyset :=
  if set_mem s x then s else (s ++ [x])%list.

Definition set_discard (s : pyset) (x : string) : pyset :=
  filter (fun y => negb (String.eqb x y)) s.

Definition set_update (s t : pyset) : pyset := fold_left set_add t s.

(** A row maps column names to scalars; [row.get(col)] is [None] for a
    missing column. *)
Definition row := dict string value.
Definition schema := dict string string.

Definition row_get (r : row) (col : string) : value :=
  match dict_get String.eqb r col with Some v => v | None => VNone end.

(* ================================================================== *)
(** * Exceptions and stateful code *)
(* ================================================================== *)

Inductive exn : Type :=
| ValueError (msg : string)
| TypeError (msg : string)
| KeyError (msg : string)
| OverflowError (msg : string)
| OSError (msg : string).

(** [str(e)] *)
Definition str_exn (e : exn) : string :=
  match e with
  | ValueError m | TypeError m | OverflowError m | OSError m => m
  | KeyError m => "'" ++ m ++ "'"
  end.

(** [str(n)] for an integer. *)
Definition str_int (n : Z) : string := NilZero.string_of_int (Z.to_int n).

Inductive outcome (A : Type) : Type :=
| Return (a : A)
| Raise (e : exn).

Arguments Return {A} a.
Arguments Raise {A} e.

(** A method of an object with state [S]: it returns or raises, and the
    mutations made before a [raise] stay. *)
Definition M (S A : Type) : Type := S -> outcome A * S.

Definition ret {S A} (a : A) : M S A := fun s => (Return a, s).
Definition raise {S A} (e : exn) : M S A := fun s => (Raise e, s).
Definition bind {S A B} (m : M S A) (f : A -> M S B) : M S B :=
  fun s => match m s with
           | (Return a, s') => f a s'
           | (Raise e, s') => (Raise e, s')
           end.
Definition gets {S A} (f : S -> A) : M S A := fun s => (Return (f s), s).
Definition modify {S} (f : S -> S) : M S unit := fun s => (Return tt, f s).

Declare Scope py_scope.
Delimit Scope py_scope with py.
Notation "x <- m ;; k" := (bind m (fun x => k))
  (at level 61, m at next level, right associativity) : py_scope.
Notation "m ;; k" := (bind m (fun _ => k))
  (at level 61, right associativity) : py_scope.

(** [for x in xs: body x] *)
Fixpoint for_each {S A} (xs : list A) (body : A -> M S unit) : M S unit :=
  match xs with
  | [] => ret tt
  | x :: xs' => bind (body x) (fun _ => for_each xs' body)
  end.

(* ================================================================== *)
(** * Write-ahead log and storage engine ([storage_engine.py]) *)
(* ================================================================== *)

(** One WAL record; the payload is the row for [PUT] and the schema for
    [CREATE_TABLE]. The timestamp is left out: recovery never reads it. *)
Inductive entry : Type :=
| PUT (table key : string) (value : row)
| DELETE (table key : string)
| CREATE_TABLE (table : string) (value : schema)
| DROP_TABLE (table : string).

Definition tables_t := dict string (dict string row).
Definition schemas_t := dict string schema.

(** The two directories. There is one log segment: [__init__] and
    [truncate] both restart [log_index] at 0 and open segment 1.
    [io_error] says that writing to the directory fails ([OSError]). *)
Record disk : Type := {
  snapshot_json : option (tables_t * schemas_t);
  wal_log : list entry;
  io_error : bool
}.

Definition empty_disk : disk :=
  {| snapshot_json := None; wal_log := []; io_error := false |}.

Record engine : Type := {
  tables : tables_t;
  schemas : schemas_t;
  snapshot_interval : Z;
  operations_since_snapshot : Z;
  files : disk
}.

Definition set_tables (f : tables_t -> tables_t) (e : engine) : engine :=
  {| tables := f (tables e); schemas := schemas e;
     snapshot_interval := snapshot_interval e;
     operations_since_snapshot := operations_since_snapshot e;
     files := files e |}.

Definition set_schemas (f : schemas_t -> schemas_t) (e : engine) : engine :=
  {| tables := tables e; schemas := f (schemas e);
     snapshot_interval := snapshot_interval e;
     operations_since_snapshot := operations_since_snapshot e;
     files := files e |}.

Definition set_operations (f : Z -> Z) (e : engine) : engine :=
  {| tables := tables e; schemas := schemas e;
     snapshot_interval := snapshot_interval e;
     operations_since_snapshot := f (operations_since_snapshot e);
     files := files e |}.

Definition set_files (f : disk -> disk) (e : engine) : engine :=
  {| tables := tables e; schemas := schemas e;
     snapshot_interval := snapshot_interval e;
     operations_since_snapshot := operations_since_snapshot e;
     files := f (files e) |}.

(** [msgpack.packb] takes integers of at most 64 bits. *)
Definition packable (v : value) : bool :=
  match v with
  | VInt n => ((- 2 ^ 63 <=? n) && (n <? 2 ^ 64))%Z
  | _ => true
  end.

Definition serializable (en : entry) : bool :=
  match en with
  | PUT _ _ r => forallb packable (dict_values r)
  | _ => true
  end.

Module WriteAheadLog.

(** [append]: serialize, write the frame, flush, fsync. *)
Definition append (en : entry) : M disk unit :=
  fun d =>
    if negb (serializable en) then
      (Raise (OverflowError "Integer value out of range"), d)
    else if io_error d then
      (Raise (OSError "write failed"), d)
    else
      (Return tt, {| snapshot_json := snapshot_json d;
                     wal_log := (wal_log d ++ [en])%list;
                     io_error := io_error d |}).

Definition read_all_entries (d : disk) : list entry := wal_log d.

Definition truncate : M disk unit :=
  modify (fun d => {| snapshot_json := snapshot_json d;
                      wal_log := [];
                      io_error := io_error d |}).

End WriteAheadLog.

Module StorageEngine.

Local Open Scope py_scope.

(** Runs a method of the log on the engine's directory. *)
Definition wal {A} (m : M disk A) : M engine A :=
  fun e => let (r, d) := m (files e) in (r, set_files (fun _ => d) e).

(** [self.tables[table]] on the [defaultdict(dict)]. *)
Definition tables_default (t : tables_t) (table : string) : dict string row :=
  match dict_get String.eqb t table with Some rows => rows | None => [] end.

(** One step of the replay loop of [_recover]. *)
Definition replay (e : engine) (en : entry) : engine :=
  match en with
  | PUT table key value =>
      set_tables (fun t =>
        dict_set String.eqb t table
          (dict_set String.eqb (tables_default t table) key value)) e
  | DELETE table key =>
      set_tables (fun t =>
        dict_set String.eqb t table
          (dict_del String.eqb (tables_default t table) key)) e
  | CREATE_TABLE table value =>
      set_schemas (fun s => dict_set String.eqb s table value) e
  | DROP_TABLE table =>
      set_schemas (fun s => dict_del String.eqb s table)
        (set_tables (fun t => dict_del String.eqb t table) e)
  end.

Definition _recover (e : engine) : engine :=
  let e1 :=
    match snapshot_json (files e) with
    | Some (t, s) => set_schemas (fun _ => s) (set_tables (fun _ => t) e)
    | None => e
    end in
  fold_left replay (WriteAheadLog.read_all_entries (files e1)) e1.

(** [StorageEngine(data_dir, wal_dir, snapshot_interval)] over the
    directories [d]. *)
Definition init (d : disk) (interval : Z) : engine :=
  _recover {| tables := []; schemas := []; snapshot_interval := interval;
              operations_since_snapshot := 0; files := d |}.

Definition snapshot : M engine unit :=
  fun e =>
    if io_error (files e) then (Raise (OSError "write failed"), e)
    else
      let d := {| snapshot_json := Some (tables e, schemas e);
                  wal_log := wal_log (files e);
                  io_error := io_error (files e) |} in
      (wal WriteAheadLog.truncate ;;
       modify (set_operations (fun _ => 0))) (set_files (fun _ => d) e).

Definition _check_snapshot : M engine unit :=
  fun e =>
    if (snapshot_interval e <=? operations_since_snapshot e)%Z
    then snapshot e else (Return tt, e).

Definition create_table (table_name : string) (sch : schema) : M engine unit :=
  fun e =>
    if dict_mem String.eqb (schemas e) table_name then
      (Raise (ValueError ("Table " ++ table_name ++ " already exists")), e)
    else
      (modify (set_schemas (fun s => dict_set String.eqb s table_name sch)) ;;
       modify (set_tables (fun t => dict_set String.eqb t table_name [])) ;;
       wal (WriteAheadLog.append (CREATE_TABLE table_name sch)) ;;
       _check_snapshot) e.

Definition drop_table (table_name : string) : M engine unit :=
  fun e =>
    if negb (dict_mem String.eqb (schemas e) table_name) then
      (Raise (ValueError ("Table " ++ table_name ++ " does not exist")), e)
    else
      (modify (set_schemas (fun s => dict_del String.eqb s table_name)) ;;
       (fun e1 =>
          if dict_mem String.eqb (tables e1) table_name
          then (Return tt,
                set_tables (fun t => dict_del String.eqb t table_name) e1)
          else (Raise (KeyError table_name), e1)) ;;
       wal (WriteAheadLog.append (DROP_TABLE table_name)) ;;
       _check_snapshot) e.

Definition get_schema (e : engine) (table_name : string) : option schema :=
  dict_get String.eqb (schemas e) table_name.

Definition list_tables (e : engine) : list string := dict_keys (schemas e).

(** The first column of [value] that the schema lacks, if any. *)
Definition unknown_column (sch : schema) (value : row) : option string :=
  find (fun col => negb (dict_mem String.eqb sch col)) (dict_keys value).

Definition put (table key : string) (value : row) : M engine unit :=
  fun e =>
    match dict_get String.eqb (schemas e) table with
    | None => (Raise (ValueError ("Table " ++ table ++ " does not exist")), e)
    | Some sch =>
        match unknown_column sch value with
        | Some col_name =>
            (Raise (ValueError ("Column " ++ col_name
                               ++ " not in schema for table " ++ table)), e)
        | None =>
            (modify (set_tables (fun t =>
               dict_set String.eqb t table
                 (dict_set String.eqb (tables_default t table) key value))) ;;
             wal (WriteAheadLog.append (PUT table key value)) ;;
             modify (set_operations (fun n => n + 1)) ;;
             _check_snapshot) e
        end
    end.

Definition get (e : engine) (table key : string) : option row :=
  match dict_get String.eqb (tables e) table with
  | Some rows => dict_get String.eqb rows key
  | None => None
  end.

Definition delete (table key : string) : M engine bool :=
  fun e =>
    match dict_get String.eqb (tables e) table with
    | Some rows =>
        if dict_mem String.eqb rows key then
          (modify (set_tables (fun t =>
             dict_set String.eqb t table (dict_del String.eqb rows key))) ;;
           wal (WriteAheadLog.append (DELETE table key)) ;;
           modify (set_operations (fun n => n + 1)) ;;
           _check_snapshot ;;
           ret true) e
        else (Return false, e)
    | None => (Return false, e)
    end.

Definition scan (e : engine) (table : string) : list (string * row) :=
  match dict_get String.eqb (tables e) table with
  | Some rows => rows
  | None => []
  end.

End StorageEngine.

(** A storage operation, for sequences of calls on one engine. *)
Inductive storage_op : Type :=
| Create_table (table : string) (sch : schema)
| Drop_table (table : string)
| Put (table key : string) (value : row)
| Delete (table key : string)
| Snapshot.

Definition run_op (o : storage_op) (e : engine) : engine :=
  match o with
  | Create_table t s => snd (StorageEngine.create_table t s e)
  | Drop_table t => snd (StorageEngine.drop_table t e)
  | Put t k v => snd (StorageEngine.put t k v e)
  | Delete t k => snd (StorageEngine.delete t k e)
  | Snapshot => snd (StorageEngine.snapshot e)
  end.

(** The caller goes on after an operation that raised. *)
Definition run_ops (ops : list storage_op) (e : engine) : engine :=
  fold_left (fun e o => run_op o e) ops e.

(** The process stops and a new one opens the same directories. *)
Definition restart (e : engine) : engine :=
  StorageEngine.init (files e) (snapshot_interval e).

(* ================================================================== *)
(** * Indexes and the index manager ([index_manager.py]) *)
(* ================================================================== *)

(** [index] is the [defaultdict(set)] of a hash index, keyed by tuples, and
    the [SortedDict] of a B-tree index, keyed by one scalar and kept in key
    order. *)
Inductive index : Type :=
| HashIndex (table : string) (columns : list string)
            (index : dict (list value) pyset)
| BTreeIndex (table : string) (columns : list string)
             (index : dict value pyset).

Definition columns (i : index) : list string :=
  match i with HashIndex _ c _ | BTreeIndex _ c _ => c end.

Definition bucket {K} (eqb : K -> K -> bool) (d : dict K pyset) (k : K) : pyset :=
  match dict_get eqb d k with Some s => s | None => [] end.

Module Hash.

Definition _get_index_key (cols : list string) (r : row) : list value :=
  map (row_get r) cols.

Definition insert (cols : list string) (key : string) (r : row)
    (d : dict (list value) pyset) : dict (list value) pyset :=
  let index_key := _get_index_key cols r in
  dict_set tuple_eq d index_key (set_add (bucket tuple_eq d index_key) key).

Definition delete (cols : list string) (key : string) (r : row)
    (d : dict (list value) pyset) : dict (list value) pyset :=
  let index_key := _get_index_key cols r in
  match dict_get tuple_eq d index_key with
  | Some s =>
      match set_discard s key with
      | [] => dict_del tuple_eq d index_key
      | s' => dict_set tuple_eq d index_key s'
      end
  | None => d
  end.

Definition lookup (cols : list string) (conditions : row)
    (d : dict (list value) pyset) : pyset :=
  bucket tuple_eq d (map (row_get conditions) cols).

End Hash.

Module BTree.

(** [columns[0]]; the constructor admits one column only. *)
Definition column (cols : list string) : string := hd "" cols.

Definition _get_index_value (cols : list string) (r : row) : value :=
  row_get r (column cols).

(** The keys of a [SortedDict] are held here in one list with their
    values, in the order of the keys. The library keeps that order by
    bisection, which is the order of [<] as long as no key is NaN: a NaN
    is below nothing and above nothing, it lands where the bisection stops
    and later keys are placed around it out of order. The functions below
    are the library's on keys that are in order and hold no NaN; the
    properties proved of them say so where they depend on it.

    [SortedDict.__setitem__] for a key that is absent: the key goes to
    its place in the order; comparing it with a key of another kind
    raises before anything is stored. *)
Fixpoint sorted_add (d : dict value pyset) (v : value) (s : pyset)
    : outcome (dict value pyset) :=
  match d with
  | [] => Return [(v, s)]
  | (k, sk) :: d' =>
      match py_lt v k with
      | None =>
          Raise (TypeError "'<' not supported between instances")
      | Some true => Return ((v, s) :: d)
      | Some false =>
          match sorted_add d' v s with
          | Return d'' => Return ((k, sk) :: d'')
          | Raise e => Raise e
          end
      end
  end.

Definition insert (cols : list string) (key : string) (r : row)
    (d : dict value pyset) : outcome (dict value pyset) :=
  match _get_index_value cols r with
  | VNone => Return d
  | v =>
      match dict_get key_eq d v with
      | Some s => Return (dict_set key_eq d v (set_add s key))
      | None => sorted_add d v (set_add [] key)
      end
  end.

(** [del self.index[value]] takes the key out of the dictionary and out
    of the sorted list, where bisection finds every key other than NaN. *)
Definition delete (cols : list string) (key : string) (r : row)
    (d : dict value pyset) : dict value pyset :=
  match _get_index_value cols r with
  | VNone => d
  | v =>
      match dict_get key_eq d v with
      | Some s =>
          match set_discard s key with
          | [] => dict_del key_eq d v
          | s' => dict_set key_eq d v s'
          end
      | None => d
      end
  end.

Definition lookup (cols : list string) (conditions : row)
    (d : dict value pyset) : pyset :=
  match dict_get String.eqb conditions (column cols) with
  | Some v => bucket key_eq d v
  | None => []
  end.

(** [irange(minimum, maximum)], both bounds inclusive and optional: the
    keys [k] with neither [k < minimum] nor [maximum < k]. The library
    cuts that stretch out of the sorted list by bisection; on keys in
    order it is the keys that pass the test. *)
Definition in_range (start stop : option value) (k : value) : option bool :=
  match match start with Some lo => py_lt k lo | None => Some false end,
        match stop with Some hi => py_lt hi k | None => Some false end with
  | Some a, Some b => Some (negb a && negb b)
  | _, _ => None
  end.

Fixpoint irange (start stop : option value) (d : dict value pyset)
    : outcome (list pyset) :=
  match d with
  | [] => Return []
  | (k, s) :: d' =>
      match in_range start stop k, irange start stop d' with
      | Some b, Return l => Return (if b then s :: l else l)
      | None, _ => Raise (TypeError "'<' not supported between instances")
      | _, Raise e => Raise e
      end
  end.

Definition range_scan (cols : list string) (col : string)
    (start stop : option value) (d : dict value pyset) : outcome pyset :=
  if negb (String.eqb col (column cols)) then
    Raise (ValueError ("Index is on " ++ column cols ++ ", not " ++ col))
  else
    match irange start stop d with
    | Return l => Return (fold_left set_update l [])
    | Raise e => Raise e
    end.

End BTree.

Definition index_insert (key : string) (r : row) (i : index) : outcome index :=
  match i with
  | HashIndex t c d => Return (HashIndex t c (Hash.insert c key r d))
  | BTreeIndex t c d =>
      match BTree.insert c key r d with
      | Return d' => Return (BTreeIndex t c d')
      | Raise e => Raise e
      end
  end.

Definition index_delete (key : string) (r : row) (i : index) : index :=
  match i with
  | HashIndex t c d => HashIndex t c (Hash.delete c key r d)
  | BTreeIndex t c d => BTreeIndex t c (BTree.delete c key r d)
  end.

(** The body of [lookup], on the dictionary [conditions] of its keyword
    arguments. *)
Definition index_lookup (conditions : row) (i : index) : pyset :=
  match i with
  | HashIndex _ c d => Hash.lookup c conditions d
  | BTreeIndex _ c d => BTree.lookup c conditions d
  end.

Definition class_name (i : index) : string :=
  match i with
  | HashIndex _ _ _ => "HashIndex"
  | BTreeIndex _ _ _ => "BTreeIndex"
  end.

(** The call of [lookup] with [conditions] unpacked by the double star:
    every key of [conditions] becomes a keyword argument. The key [self] names the parameter that
    the receiver of the call has taken, and the call raises before the
    body runs; every other key goes into the dictionary of the body. *)
Definition index_lookup_call (conditions : row) (i : index) : outcome pyset :=
  if dict_mem String.eqb conditions "self"
  then Raise (TypeError (class_name i
                ++ ".lookup() got multiple values for argument 'self'"))
  else Return (index_lookup conditions i).

Definition index_range_scan (col : string) (start stop : option value)
    (i : index) : outcome pyset :=
  match i with
  | HashIndex _ _ _ =>
      Raise (ValueError "Hash indexes don't support range scans")
  | BTreeIndex _ c d => BTree.range_scan c col start stop d
  end.

(** [indexes]: table -> index name -> index. *)
Definition manager := dict string (dict string index).

Module IndexManager.

Definition indexes_of (m : manager) (table : string) : dict string index :=
  match dict_get String.eqb m table with Some d => d | None => [] end.

Definition create_index (index_name table : string) (cols : list string)
    (index_type : string) : M manager unit :=
  fun m =>
    (* [self.indexes[table]] on the [defaultdict(dict)] *)
    let m1 := dict_set String.eqb m table (indexes_of m table) in
    if dict_mem String.eqb (indexes_of m1 table) index_name then
      (Raise (ValueError ("Index " ++ index_name
                          ++ " already exists on table " ++ table)), m1)
    else if String.eqb index_type "hash" then
      (Return tt,
       dict_set String.eqb m1 table
         (dict_set String.eqb (indexes_of m1 table) index_name
            (HashIndex table cols [])))
    else if String.eqb index_type "btree" then
      if Nat.eqb (List.length cols) 1 then
        (Return tt,
         dict_set String.eqb m1 table
           (dict_set String.eqb (indexes_of m1 table) index_name
              (BTreeIndex table cols [])))
      else
        (Raise (ValueError "BTreeIndex only supports single column"), m1)
    else
      (Raise (ValueError ("Unknown index type: " ++ index_type)), m1).

Definition drop_index (table index_name : string) (m : manager) : manager :=
  match dict_get String.eqb m table with
  | Some d =>
      if dict_mem String.eqb d index_name
      then dict_set String.eqb m table (dict_del String.eqb d index_name)
      else m
  | None => m
  end.

Definition get_index (m : manager) (table index_name : string)
    : option index :=
  dict_get String.eqb (indexes_of m table) index_name.

Definition get_indexes_for_table (m : manager) (table : string)
    : dict string index :=
  indexes_of m table.

(** [for index in ...values(): index.insert(key, row)]: the indexes
    already visited keep the row when a later one raises. *)
Fixpoint insert_all (key : string) (r : row) (d : dict string index)
    : outcome unit * dict string index :=
  match d with
  | [] => (Return tt, [])
  | (name, i) :: d' =>
      match index_insert key r i with
      | Return i' =>
          let (res, d'') := insert_all key r d' in (res, (name, i') :: d'')
      | Raise e => (Raise e, d)
      end
  end.

Definition insert_row (table key : string) (r : row) : M manager unit :=
  fun m =>
    match dict_get String.eqb m table with
    | Some d =>
        let (res, d') := insert_all key r d in
        (res, dict_set String.eqb m table d')
    | None => (Return tt, m)
    end.

Definition delete_row (table key : string) (r : row) (m : manager)
    : manager :=
  match dict_get String.eqb m table with
  | Some d =>
      dict_set String.eqb m table
        (map (fun ni => (fst ni, index_delete key r (snd ni))) d)
  | None => m
  end.

Definition score (conditions : row) (i : index) : Z :=
  Z.of_nat (List.length
    (filter (fun col => dict_mem String.eqb conditions col) (columns i))).

Definition find_best_index (m : manager) (table : string)
    (conditions : row) : option index :=
  let step (best : option index * Z) (i : index) :=
    if (snd best <? score conditions i)%Z
    then (Some i, score conditions i) else best in
  let best := fold_left step (dict_values (indexes_of m table)) (None, (-1)%Z) in
  if (0 <? snd best)%Z then fst best else None.

End IndexManager.

(* ================================================================== *)
(** * Parsed queries ([sql_parser.py], class [ParsedQuery]) *)
(* ================================================================== *)

Module ParsedQuery.
Record t : Type := {
  query_type : string;
  table : string;
  columns : list string;
  conditions : row;
  values : row;
  schema : dict string string;
  order_by : list (string * string);
  limit : option Z;
  index_name : string;
  index_columns : list string;
  index_type : string
}.

(** [ParsedQuery(query_type)] *)
Definition init (qt : string) : t :=
  {| query_type := qt; table := ""; columns := []; conditions := [];
     values := []; schema := []; order_by := []; limit := None;
     index_name := ""; index_columns := []; index_type := "btree" |}.
End ParsedQuery.

(* ================================================================== *)
(** * Query executor ([query_executor.py]) *)
(* ================================================================== *)

(** The result dictionary; a key that is absent is [None]. *)
Record result : Type := {
  status : string;
  message : option string;
  rows_affected : option Z;
  rows : option (list row);
  row_count : option Z;
  inserted_key : option string;
  node_id : option string;
  is_leader : option bool
}.

Definition success (msg : option string) (affected : option Z) : result :=
  {| status := "success"; message := msg; rows_affected := affected;
     rows := None; row_count := None; inserted_key := None;
     node_id := None; is_leader := None |}.

(** [list.sort(key=..., reverse=...)]: stable, by [<] alone, and with
    [reverse] as if each comparison were reversed. An element that came
    first stays before the elements it equals. *)
Section Sort.
Context {A : Type}.
Variable lt : A -> A -> option bool.

Fixpoint sort_insert (x : A) (l : list A) : outcome (list A) :=
  match l with
  | [] => Return [x]
  | y :: l' =>
      match lt y x with
      | None => Raise (TypeError "'<' not supported between instances")
      | Some true =>
          match sort_insert x l' with
          | Return s => Return (y :: s)
          | Raise e => Raise e
          end
      | Some false => Return (x :: l)
      end
  end.

Fixpoint py_sort (l : list A) : outcome (list A) :=
  match l with
  | [] => Return []
  | x :: l' =>
      match py_sort l' with
      | Return s => sort_insert x s
      | Raise e => Raise e
      end
  end.
End Sort.

(** [uuid.uuid4()] is read off a stream that the state carries. *)
Record executor : Type := {
  storage : engine;
  index_manager : manager;
  uuid4 : nat -> string;
  uuid_calls : nat
}.

Definition on_storage {A} (m : M engine A) : M executor A :=
  fun x =>
    let (r, e) := m (storage x) in
    (r, {| storage := e; index_manager := index_manager x;
           uuid4 := uuid4 x; uuid_calls := uuid_calls x |}).

Definition on_indexes {A} (m : M manager A) : M executor A :=
  fun x =>
    let (r, im) := m (index_manager x) in
    (r, {| storage := storage x; index_manager := im;
           uuid4 := uuid4 x; uuid_calls := uuid_calls x |}).

Definition next_uuid : M executor string :=
  fun x =>
    (Return (uuid4 x (uuid_calls x)),
     {| storage := storage x; index_manager := index_manager x;
        uuid4 := uuid4 x; uuid_calls := S (uuid_calls x) |}).

Module QueryExecutor.

Local Open Scope py_scope.
Import ParsedQuery.

Definition _matches_conditions (r : row) (conds : row) : bool :=
  forallb (fun cv => py_eq (row_get r (fst cv)) (snd cv)) conds.

Definition _execute_create_table (q : ParsedQuery.t) : M executor result :=
  on_storage (StorageEngine.create_table (table q) (schema q)) ;;
  ret (success (Some ("Table " ++ table q ++ " created")) (Some 0%Z)).

Definition _execute_drop_table (q : ParsedQuery.t) : M executor result :=
  on_storage (StorageEngine.drop_table (table q)) ;;
  names <- gets (fun x =>
    dict_keys (IndexManager.get_indexes_for_table (index_manager x) (table q))) ;;
  for_each names (fun index_name =>
    on_indexes (modify (IndexManager.drop_index (table q) index_name))) ;;
  ret (success (Some ("Table " ++ table q ++ " dropped")) (Some 0%Z)).

(** [index.insert(key, row)] on the index object that [create_index]
    returned, which is the one the manager holds under this name. *)
Definition insert_into (tbl name key : string) (r : row) : M manager unit :=
  fun m =>
    match IndexManager.get_index m tbl name with
    | Some i =>
        match index_insert key r i with
        | Return i' =>
            (Return tt,
             dict_set String.eqb m tbl
               (dict_set String.eqb (IndexManager.indexes_of m tbl) name i'))
        | Raise e => (Raise e, m)
        end
    | None => (Return tt, m)
    end.

Definition _execute_create_index (q : ParsedQuery.t) : M executor result :=
  on_indexes (IndexManager.create_index (index_name q) (table q)
                (index_columns q) (index_type q)) ;;
  items <- gets (fun x => StorageEngine.scan (storage x) (table q)) ;;
  for_each items (fun kr =>
    on_indexes (insert_into (table q) (index_name q) (fst kr) (snd kr))) ;;
  ret (success (Some ("Index " ++ index_name q ++ " created on " ++ table q))
         (Some 0%Z)).

Definition _execute_drop_index (q : ParsedQuery.t) : M executor result :=
  on_indexes (modify (IndexManager.drop_index (table q) (index_name q))) ;;
  ret (success (Some ("Index " ++ index_name q ++ " dropped")) (Some 0%Z)).

Definition _execute_insert (q : ParsedQuery.t) : M executor result :=
  key <- next_uuid ;;
  on_storage (StorageEngine.put (table q) key (values q)) ;;
  on_indexes (IndexManager.insert_row (table q) key (values q)) ;;
  ret {| status := "success"; message := Some "Row inserted";
         rows_affected := Some 1%Z; rows := None; row_count := None;
         inserted_key := Some key; node_id := None; is_leader := None |}.

(** [{**row, '_key': key}] *)
Definition with_key (key : string) (r : row) : row :=
  dict_set String.eqb r "_key" (VStr key).

(** The candidate rows of a SELECT, before ORDER BY. The keys that an
    index returns are visited in the order in which the set holds them. *)
Definition candidates (x : executor) (q : ParsedQuery.t)
    : outcome (list row) :=
  match conditions q with
  | _ :: _ =>
      match IndexManager.find_best_index (index_manager x) (table q)
              (conditions q) with
      | Some i =>
          match index_lookup_call (conditions q) i with
          | Return candidate_keys =>
              Return
                (flat_map (fun key =>
                   match StorageEngine.get (storage x) (table q) key with
                   | Some ((_ :: _) as r) =>
                       if _matches_conditions r (conditions q)
                       then [with_key key r] else []
                   | _ => []
                   end) candidate_keys)
          | Raise e => Raise e
          end
      | None =>
          Return
            (flat_map (fun kr =>
               if _matches_conditions (snd kr) (conditions q)
               then [with_key (fst kr) (snd kr)] else [])
               (StorageEngine.scan (storage x) (table q)))
      end
  | [] =>
      Return (map (fun kr => with_key (fst kr) (snd kr))
                (StorageEngine.scan (storage x) (table q)))
  end.

(** [r.get(col, '')] *)
Definition sort_key (col : string) (r : row) : value :=
  match dict_get String.eqb r col with Some v => v | None => VStr "" end.

Definition sort_lt (col : string) (reverse : bool) (a b : row) : option bool :=
  if reverse then py_lt (sort_key col b) (sort_key col a)
  else py_lt (sort_key col a) (sort_key col b).

(** [for col, direction in reversed(query.order_by): rows.sort(...)] *)
Definition apply_order_by (ob : list (string * string)) (rs : list row)
    : outcome (list row) :=
  fold_left (fun acc cd =>
    match acc with
    | Return l => py_sort (sort_lt (fst cd) (String.eqb (snd cd) "DESC")) l
    | Raise e => Raise e
    end) (rev ob) (Return rs).

(** [rows[:n]] *)
Definition slice_to {A} (n : Z) (l : list A) : list A :=
  if (0 <=? n)%Z then firstn (Z.to_nat n) l
  else firstn (Z.to_nat (Z.of_nat (List.length l) + n)) l.

Definition apply_limit (lim : option Z) (rs : list row) : list row :=
  match lim with Some n => slice_to n rs | None => rs end.

(** [{col: row.get(col) for col in query.columns if col in row}] *)
Definition project (cols : list string) (r : row) : row :=
  fold_left (fun acc col =>
    match dict_get String.eqb r col with
    | Some v => dict_set String.eqb acc col v
    | None => acc
    end) cols [].

Definition apply_projection (cols : list string) (rs : list row) : list row :=
  match cols with
  | [] => rs
  | _ => if list_eq_dec string_dec cols ["*"] then rs
         else map (project cols) rs
  end.

Definition _execute_select (q : ParsedQuery.t) : M executor result :=
  fun x =>
    match candidates x q with
    | Raise e => (Raise e, x)
    | Return found =>
        match apply_order_by (order_by q) found with
        | Raise e => (Raise e, x)
        | Return sorted =>
            let rs :=
              apply_projection (columns q) (apply_limit (limit q) sorted) in
            (Return {| status := "success"; message := None;
                       rows_affected := None; rows := Some rs;
                       row_count := Some (Z.of_nat (List.length rs));
                       inserted_key := None; node_id := None;
                       is_leader := None |}, x)
        end
    end.

(** The body of the UPDATE loop for one scanned item; it returns whether
    the row was updated. *)
Definition update_row (q : ParsedQuery.t) (kr : string * row)
    : M executor bool :=
  let (key, r) := kr in
  if _matches_conditions r (conditions q) then
    on_indexes (modify (IndexManager.delete_row (table q) key r)) ;;
    (let updated_row := dict_merge String.eqb r (values q) in
     on_storage (StorageEngine.put (table q) key updated_row) ;;
     on_indexes (IndexManager.insert_row (table q) key updated_row) ;;
     ret true)
  else ret false.

Fixpoint count_loop {A} (items : list A) (body : A -> M executor bool)
    (n : Z) : M executor Z :=
  match items with
  | [] => ret n
  | it :: items' =>
      b <- body it ;; count_loop items' body (if b then (n + 1)%Z else n)
  end.

Definition _execute_update (q : ParsedQuery.t) : M executor result :=
  items <- gets (fun x => StorageEngine.scan (storage x) (table q)) ;;
  n <- count_loop items (update_row q) 0%Z ;;
  ret (success (Some (str_int n ++ " rows updated")) (Some n)).

Definition delete_row (q : ParsedQuery.t) (kr : string * row)
    : M executor bool :=
  on_storage (StorageEngine.delete (table q) (fst kr)) ;;
  on_indexes (modify (IndexManager.delete_row (table q) (fst kr) (snd kr))) ;;
  ret true.

Definition _execute_delete (q : ParsedQuery.t) : M executor result :=
  items <- gets (fun x => StorageEngine.scan (storage x) (table q)) ;;
  n <- count_loop
         (filter (fun kr => _matches_conditions (snd kr) (conditions q)) items)
         (delete_row q) 0%Z ;;
  ret (success (Some (str_int n ++ " rows deleted")) (Some n)).

Definition execute (q : ParsedQuery.t) : M executor result :=
  if String.eqb (query_type q) "CREATE_TABLE" then _execute_create_table q
  else if String.eqb (query_type q) "DROP_TABLE" then _execute_drop_table q
  else if String.eqb (query_type q) "CREATE_INDEX" then _execute_create_index q
  else if String.eqb (query_type q) "DROP_INDEX" then _execute_drop_index q
  else if String.eqb (query_type q) "INSERT" then _execute_insert q
  else if String.eqb (query_type q) "SELECT" then _execute_select q
  else if String.eqb (query_type q) "UPDATE" then _execute_update q
  else if String.eqb (query_type q) "DELETE" then _execute_delete q
  else raise (ValueError ("Unknown query type: " ++ query_type q)).

End QueryExecutor.

(* ================================================================== *)
(** * Consensus log ([replication.py]) *)
(* ================================================================== *)

Definition command := dict string string.

Module Raft.

Local Open Scope py_scope.

Inductive NodeState : Type := FOLLOWER | CANDIDATE | LEADER.

Definition NodeState_eqb (a b : NodeState) : bool :=
  match a, b with
  | FOLLOWER, FOLLOWER | CANDIDATE, CANDIDATE | LEADER, LEADER => true
  | _, _ => false
  end.

Record LogEntry : Type := {
  term : Z;
  index : Z;
  command_of : command
}.

Record RaftNode : Type := {
  node_id : string;
  all_nodes : list string;
  current_term : Z;
  voted_for : option string;
  log : list LogEntry;
  commit_index : Z;
  last_applied : Z;
  state : NodeState;
  next_index : dict string Z;
  match_index : dict string Z
}.

(** [RaftNode(node_id, all_nodes)] *)
Definition init (id : string) (nodes : list string) : RaftNode :=
  {| node_id := id; all_nodes := nodes; current_term := 0;
     voted_for := None; log := []; commit_index := 0; last_applied := 0;
     state := FOLLOWER; next_index := []; match_index := [] |}.

Definition with_log (l : list LogEntry) (r : RaftNode) : RaftNode :=
  {| node_id := node_id r; all_nodes := all_nodes r;
     current_term := current_term r; voted_for := voted_for r; log := l;
     commit_index := commit_index r; last_applied := last_applied r;
     state := state r; next_index := next_index r;
     match_index := match_index r |}.

Definition with_commit_index (n : Z) (r : RaftNode) : RaftNode :=
  {| node_id := node_id r; all_nodes := all_nodes r;
     current_term := current_term r; voted_for := voted_for r;
     log := log r; commit_index := n; last_applied := last_applied r;
     state := state r; next_index := next_index r;
     match_index := match_index r |}.

Definition with_last_applied (n : Z) (r : RaftNode) : RaftNode :=
  {| node_id := node_id r; all_nodes := all_nodes r;
     current_term := current_term r; voted_for := voted_for r;
     log := log r; commit_index := commit_index r; last_applied := n;
     state := state r; next_index := next_index r;
     match_index := match_index r |}.

Definition with_term (t : Z) (v : option string) (st : NodeState)
    (r : RaftNode) : RaftNode :=
  {| node_id := node_id r; all_nodes := all_nodes r;
     current_term := t; voted_for := v; log := log r;
     commit_index := commit_index r; last_applied := last_applied r;
     state := st; next_index := next_index r;
     match_index := match_index r |}.

Definition with_leader_state (ni mi : dict string Z) (r : RaftNode)
    : RaftNode :=
  {| node_id := node_id r; all_nodes := all_nodes r;
     current_term := current_term r; voted_for := voted_for r;
     log := log r; commit_index := commit_index r;
     last_applied := last_applied r; state := state r;
     next_index := ni; match_index := mi |}.

Definition len (r : RaftNode) : Z := Z.of_nat (List.length (log r)).

Definition is_leader (r : RaftNode) : bool := NodeState_eqb (state r) LEADER.

Definition get_leader_id (r : RaftNode) : option string :=
  if is_leader r then Some (node_id r) else None.

(** The methods act on the node and on whatever the apply callback
    touches, a state of type [W]. The callback may raise; it does not
    call back into the node. *)
Section WithCallback.
Context {W : Type}.
Variable apply_callback : option (command -> M W unit).

Definition on_node {A} (f : RaftNode -> A * RaftNode) : M (RaftNode * W) A :=
  fun s => let (a, r) := f (fst s) in (Return a, (r, snd s)).

Definition on_world (m : M W unit) : M (RaftNode * W) unit :=
  fun s => let (res, w) := m (snd s) in (res, (fst s, w)).

(** The [while] loop of [_apply_committed_entries], for at most [n]
    rounds. *)
Fixpoint apply_loop (n : nat) : M (RaftNode * W) unit :=
  match n with
  | O => ret tt
  | S n' =>
      fun s =>
        let r := fst s in
        if (last_applied r <? commit_index r)%Z then
          let r1 := with_last_applied (last_applied r + 1) r in
          let s1 := (r1, snd s) in
          (match
             (if (last_applied r1 <=? len r1)%Z
              then nth_error (log r1) (Z.to_nat (last_applied r1 - 1))
              else None), apply_callback with
           | Some en, Some cb => on_world (cb (command_of en))
           | _, _ => ret tt
           end ;; apply_loop n') s1
        else (Return tt, s)
  end.

(** The loop runs once per index between [last_applied] and
    [commit_index]. *)
Definition _apply_committed_entries : M (RaftNode * W) unit :=
  fun s =>
    apply_loop (Z.to_nat (commit_index (fst s) - last_applied (fst s))) s.

Definition _try_commit : M (RaftNode * W) unit :=
  fun s =>
    let r := fst s in
    if is_leader r && (commit_index r <? len r)%Z then
      _apply_committed_entries (with_commit_index (len r) r, snd s)
    else (Return tt, s).

Definition append_entry (c : command) : M (RaftNode * W) bool :=
  fun s =>
    let r := fst s in
    if negb (is_leader r) then (Return false, s)
    else
      let en := {| term := current_term r; index := len r;
                   command_of := c |} in
      (_try_commit ;; ret true) (with_log (log r ++ [en])%list r, snd s).

Definition _send_heartbeat (r : RaftNode) : RaftNode := r.

Definition _become_leader (r : RaftNode) : RaftNode :=
  let r1 := with_term (current_term r) (voted_for r) LEADER r in
  let others :=
    filter (fun n => negb (String.eqb n (node_id r1))) (all_nodes r1) in
  _send_heartbeat
    (fold_left (fun r2 n =>
       with_leader_state (dict_set String.eqb (next_index r2) n (len r2))
         (dict_set String.eqb (match_index r2) n 0%Z) r2) others r1).

Definition _start_election (r : RaftNode) : RaftNode :=
  let r1 := with_term (current_term r + 1) (Some (node_id r)) CANDIDATE r in
  if Nat.eqb (List.length (all_nodes r1)) 1 then _become_leader r1 else r1.

Definition _on_election_timeout (r : RaftNode) : RaftNode :=
  if negb (is_leader r) then _start_election r else r.

Definition request_vote (candidate_term : Z) (candidate_id : string)
    (last_log_index last_log_term : Z) (r : RaftNode) : bool * RaftNode :=
  let r1 :=
    if (current_term r <? candidate_term)%Z
    then with_term candidate_term None FOLLOWER r else r in
  if (candidate_term =? current_term r1)%Z
     && match voted_for r1 with
        | None => true
        | Some v => String.eqb v candidate_id
        end
  then
    let our_last_index := (len r1 - 1)%Z in
    let our_last_term :=
      match last (map Some (log r1)) None with
      | Some en => term en
      | None => 0%Z
      end in
    if (our_last_term <? last_log_term)%Z
       || ((last_log_term =? our_last_term)%Z
           && (our_last_index <=? last_log_index)%Z)
    then (true, with_term (current_term r1) (Some candidate_id) (state r1) r1)
    else (false, r1)
  else (false, r1).

Definition append_entries (leader_term : Z) (leader_id : string)
    (prev_log_index prev_log_term : Z) (entries : list LogEntry)
    (leader_commit : Z) : M (RaftNode * W) bool :=
  fun s =>
    let r := fst s in
    let r1 :=
      if (current_term r <? leader_term)%Z
      then with_term leader_term None FOLLOWER r else r in
    if (leader_term <? current_term r1)%Z then (Return false, (r1, snd s))
    else if (commit_index r1 <? leader_commit)%Z then
      (_apply_committed_entries ;; ret true)
        (with_commit_index (Z.min leader_commit (len r1)) r1, snd s)
    else (Return true, (r1, snd s)).

End WithCallback.

(** What can happen to a node: a call of one of its public methods or
    the expiry of the election timer. *)
Inductive event : Type :=
| Append_entry (c : command)
| Append_entries (leader_term : Z) (leader_id : string)
    (prev_log_index prev_log_term : Z) (entries : list LogEntry)
    (leader_commit : Z)
| Request_vote (candidate_term : Z) (candidate_id : string)
    (last_log_index last_log_term : Z)
| Election_timeout.

(** One event; an exception of the callback reaches the caller, who goes
    on. *)
Definition step {W} (cb : option (command -> M W unit)) (ev : event)
    (s : RaftNode * W) : RaftNode * W :=
  match ev with
  | Append_entry c => snd (append_entry cb c s)
  | Append_entries lt li pi pt es lc =>
      snd (append_entries cb lt li pi pt es lc s)
  | Request_vote ct ci li lt => (snd (request_vote ct ci li lt (fst s)), snd s)
  | Election_timeout => (_on_election_timeout (fst s), snd s)
  end.

(** A stretch of events during which the callback stays [cb]. *)
Definition run {W} (cb : option (command -> M W unit)) (evs : list event)
    (s : RaftNode * W) : RaftNode * W :=
  fold_left (fun s ev => step cb ev s) evs s.

(** What reaches a node when [set_apply_callback] is counted in. The
    callback that is installed is part of the state of the node, and an
    event meets the callback that is installed when it comes. *)
Inductive action (W : Type) : Type :=
| Set_apply_callback (callback : option (command -> M W unit))
| Call (ev : event).

Arguments Call {W} ev.

Definition act {W} (a : action W)
    (s : option (command -> M W unit) * (RaftNode * W))
    : option (command -> M W unit) * (RaftNode * W) :=
  match a with
  | Set_apply_callback callback => (callback, snd s)
  | Call ev => (fst s, step (fst s) ev (snd s))
  end.

Definition execution {W} (acts : list (action W))
    (s : option (command -> M W unit) * (RaftNode * W))
    : option (command -> M W unit) * (RaftNode * W) :=
  fold_left (fun s a => act a s) acts s.

(** [RaftNode(node_id, all_nodes)] with its [apply_callback], which is
    [None]. *)
Definition start {W} (id : string) (nodes : list string) (w : W)
    : option (command -> M W unit) * (RaftNode * W) :=
  (None, (init id nodes, w)).

End Raft.

Module ReplicationManager.

Definition replicate_write {W} (cb : option (command -> M W unit))
    (operation : command) : M (Raft.RaftNode * W) bool :=
  fun s =>
    if negb (Raft.is_leader (fst s)) then (Return false, s)
    else Raft.append_entry cb operation s.

Definition is_leader (r : Raft.RaftNode) : bool := Raft.is_leader r.

End ReplicationManager.

(* ================================================================== *)
(** * Node coordinator ([node.py]) *)
(* ================================================================== *)

(** An error result, with the keys [node_id] and [is_leader] where the
    caller sets them. *)
Definition error (msg : string) (id : option string) (leader : option bool)
    : result :=
  {| status := "error"; message := Some msg; rows_affected := None;
     rows := None; row_count := None; inserted_key := None;
     node_id := id; is_leader := leader |}.

(** [result['node_id'] = ...; result['is_leader'] = ...] *)
Definition tag_result (r : result) (id : string) (leader : bool) : result :=
  {| status := status r; message := message r;
     rows_affected := rows_affected r; rows := rows r;
     row_count := row_count r; inserted_key := inserted_key r;
     node_id := Some id; is_leader := Some leader |}.

Module Node.

Local Open Scope py_scope.

Record t : Type := {
  node_id : string;
  query_executor : executor;
  raft : Raft.RaftNode
}.

(** The statements that go through the consensus log. *)
Definition write_types : list string :=
  ["INSERT"; "UPDATE"; "DELETE"; "CREATE_TABLE"; "DROP_TABLE"].

Definition is_write (qt : string) : bool :=
  existsb (String.eqb qt) write_types.

Section WithParser.
(** [SQLParser.parse] rests on the [sqlparse] package; the coordinator
    is modelled over any parser. *)
Variable parse : string -> outcome ParsedQuery.t.

(** [_apply_replicated_command]: every exception is logged and
    dropped. *)
Definition _apply_replicated_command (c : command) : M executor unit :=
  fun x =>
    match dict_get String.eqb c "type" with
    | Some "sql" =>
        match dict_get String.eqb c "sql" with
        | Some (String _ _ as sql) =>
            match parse sql with
            | Return q => (Return tt, snd (QueryExecutor.execute q x))
            | Raise _ => (Return tt, x)
            end
        | _ => (Return tt, x)
        end
    | _ => (Return tt, x)
    end.

(** The body of [execute_query] inside [try]. *)
Definition execute_query_body (sql : string) (n : t)
    : outcome result * t :=
  match parse sql with
  | Raise e => (Raise e, n)
  | Return parsed_query =>
      let run_query (n1 : t) :=
        let (res, x) :=
          QueryExecutor.execute parsed_query (query_executor n1) in
        let n2 := {| node_id := node_id n1; query_executor := x;
                     raft := raft n1 |} in
        match res with
        | Return r =>
            (Return (tag_result r (node_id n2)
                       (ReplicationManager.is_leader (raft n2))), n2)
        | Raise e => (Raise e, n2)
        end in
      if is_write (ParsedQuery.query_type parsed_query) then
        if negb (ReplicationManager.is_leader (raft n)) then
          (Return (error "Not the leader, cannot write" None (Some false)),
           n)
        else
          let cmd : command := [("type", "sql"); ("sql", sql)] in
          let '(ok, (r, x)) :=
            ReplicationManager.replicate_write
              (Some _apply_replicated_command) cmd
              (raft n, query_executor n) in
          let n1 := {| node_id := node_id n; query_executor := x;
                       raft := r |} in
          match ok with
          | Return true => run_query n1
          | Return false =>
              (Return (error "Failed to replicate write" None None), n1)
          | Raise e => (Raise e, n1)
          end
      else run_query n
  end.

(** [execute_query]: [except Exception as e] turns whatever the body
    raised into an error result. *)
Definition execute_query (sql : string) (n : t) : result * t :=
  match execute_query_body sql n with
  | (Return r, n') => (r, n')
  | (Raise e, n') => (error (str_exn e) (Some (node_id n')) None, n')
  end.

End WithParser.

End Node.

(* ================================================================== *)
(** * SQL parser: values, WHERE, SET, ORDER BY, INSERT ([sql_parser.py]) *)
(* ================================================================== *)

(** A [str] is taken as ASCII text, one character a code below 128. The
    classes below are those of Python on such characters; the properties
    that depend on a class are stated for ASCII text ([is_ascii]). *)
Module Str.

Definition code (c : ascii) : N := N_of_ascii c.

Fixpoint is_ascii (s : string) : bool :=
  match s with
  | EmptyString => true
  | String c s' => (code c <? 128)%N && is_ascii s'
  end.

(** [str.isspace], which is also the class [\s] and what [str.strip()]
    removes: tab to carriage return, the four separators FS to US, and
    the space. *)
Definition is_space (c : ascii) : bool :=
  ((9 <=? code c) && (code c <=? 13) || (28 <=? code c) && (code c <=? 32))%N.

(** The blanks that [int()] and [float()] skip at both ends: tab to
    carriage return, and the space, without the separators FS to US. *)
Definition is_c_space (c : ascii) : bool :=
  ((9 <=? code c) && (code c <=? 13) || (code c =? 32))%N.

Definition is_digit (c : ascii) : bool :=
  ((48 <=? code c) && (code c <=? 57))%N.

(** [\w] on ASCII text: a letter, a digit or the underscore. *)
Definition is_word (c : ascii) : bool :=
  (is_digit c
   || (65 <=? code c) && (code c <=? 90)
   || (97 <=? code c) && (code c <=? 122)
   || (code c =? 95))%N.

Definition lower (c : ascii) : ascii :=
  if ((65 <=? code c) && (code c <=? 90))%N
  then ascii_of_N (code c + 32) else c.

Definition upper (c : ascii) : ascii :=
  if ((97 <=? code c) && (code c <=? 122))%N
  then ascii_of_N (code c - 32) else c.

Fixpoint map_chars (f : ascii -> ascii) (s : string) : string :=
  match s with
  | EmptyString => EmptyString
  | String c s' => String (f c) (map_chars f s')
  end.

Fixpoint contains (cs : string) (c : ascii) : bool :=
  match cs with
  | EmptyString => false
  | String c' cs' => Ascii.eqb c c' || contains cs' c
  end.

Fixpoint rev_onto (s acc : string) : string :=
  match s with
  | EmptyString => acc
  | String c s' => rev_onto s' (String c acc)
  end.

Definition reverse (s : string) : string := rev_onto s EmptyString.

Fixpoint lstrip_by (p : ascii -> bool) (s : string) : string :=
  match s with
  | EmptyString => EmptyString
  | String c s' => if p c then lstrip_by p s' else s
  end.

Definition strip_by (p : ascii -> bool) (s : string) : string :=
  reverse (lstrip_by p (reverse (lstrip_by p s))).

(** [s.strip()] *)
Definition strip (s : string) : string := strip_by is_space s.

(** [s.strip(chars)] *)
Definition strip_chars (chars s : string) : string :=
  strip_by (contains chars) s.

(** [s.split(sep)] for a separator of one character. *)
Fixpoint split (sep : ascii) (s : string) : list string :=
  match s with
  | EmptyString => [EmptyString]
  | String c s' =>
      if Ascii.eqb c sep then EmptyString :: split sep s'
      else match split sep s' with
           | h :: t => String c h :: t
           | [] => [String c EmptyString]
           end
  end.

(** [s.split(sep, 1)] when [sep in s]. *)
Fixpoint split_once (sep : ascii) (s : string) : option (string * string) :=
  match s with
  | EmptyString => None
  | String c s' =>
      if Ascii.eqb c sep then Some (EmptyString, s')
      else match split_once sep s' with
           | Some (a, b) => Some (String c a, b)
           | None => None
           end
  end.

Fixpoint skip (n : nat) (s : string) : string :=
  match n, s with
  | S n', String _ s' => skip n' s'
  | _, _ => s
  end.

Fixpoint take (n : nat) (s : string) : string :=
  match n, s with
  | S n', String c s' => String c (take n' s')
  | _, _ => EmptyString
  end.

(** [s.replace(old, '', 1)] *)
Fixpoint remove_first (old s : string) : string :=
  if String.prefix old s then skip (String.length old) s
  else match s with
       | EmptyString => EmptyString
       | String c s' => String c (remove_first old s')
       end.

End Str.

(** The regular expressions the parser uses: a sequence of character
    classes, greedy repetitions of a class and capturing groups, matched
    by backtracking as [re] does. *)
Module Re.

Inductive atom : Type :=
| Chr (p : ascii -> bool)
| Star (p : ascii -> bool)
| Plus (p : ascii -> bool)
| Open
| Close.

Definition regex := list atom.

Fixpoint run_length (p : ascii -> bool) (s : string) : nat :=
  match s with
  | String c s' => if p c then S (run_length p s') else O
  | EmptyString => O
  end.

(** The first of [f k], [f (k-1)], ..., [f lo] that matches. *)
Fixpoint first_down {A} (f : nat -> option A) (k lo : nat) : option A :=
  if Nat.ltb k lo then None
  else match f k with
       | Some r => Some r
       | None => match k with
                 | O => None
                 | S k' => first_down f k' lo
                 end
       end.

Definition push (t : string) (cur : option string) : option string :=
  match cur with
  | Some buf => Some (buf ++ t)
  | None => None
  end.

(** Matches [re] at the start of [s]; gives the text after the match and
    the groups. [cur] is the text of the group that is open. *)
Fixpoint match_at (re : regex) (s : string) (cur : option string)
    (groups : list string) : option (string * list string) :=
  match re with
  | [] => Some (s, rev groups)
  | Open :: re' => match_at re' s (Some EmptyString) groups
  | Close :: re' =>
      match_at re' s None
        (match cur with Some buf => buf :: groups | None => groups end)
  | Chr p :: re' =>
      match s with
      | String c s' =>
          if p c then match_at re' s' (push (String c EmptyString) cur) groups
          else None
      | EmptyString => None
      end
  | Star p :: re' =>
      first_down (fun k =>
        match_at re' (Str.skip k s) (push (Str.take k s) cur) groups)
        (run_length p s) 0
  | Plus p :: re' =>
      first_down (fun k =>
        match_at re' (Str.skip k s) (push (Str.take k s) cur) groups)
        (run_length p s) 1
  end.

(** [re.search]: the leftmost match, as the text before it, the groups
    and the text after it. *)
Fixpoint search (re : regex) (s : string)
    : option (string * list string * string) :=
  match match_at re s None [] with
  | Some (rest, groups) => Some (EmptyString, groups, rest)
  | None =>
      match s with
      | EmptyString => None
      | String c s' =>
          match search re s' with
          | Some (before, groups, rest) => Some (String c before, groups, rest)
          | None => None
          end
      end
  end.

(** [re.split] for a pattern without groups that matches no empty
    text. *)
Fixpoint split_fuel (fuel : nat) (re : regex) (s : string) : list string :=
  match fuel with
  | O => [s]
  | S fuel' =>
      match search re s with
      | Some (before, _, rest) => before :: split_fuel fuel' re rest
      | None => [s]
      end
  end.

Definition split (re : regex) (s : string) : list string :=
  split_fuel (String.length s) re s.

(** One letter, whatever its case ([re.IGNORECASE]). *)
Definition letter (c : ascii) : atom :=
  Chr (fun x => Ascii.eqb (Str.lower x) (Str.lower c)).

Definition lit (c : ascii) : atom := Chr (Ascii.eqb c).

(** [.] *)
Definition dot (c : ascii) : bool := negb (Ascii.eqb c "010"%char).

End Re.

Module SQLParser.

(** The digits of [s], which holds digits and single underscores between
    them, most significant first. *)
Fixpoint digits_value (s : string) (acc : Z) : Z :=
  match s with
  | EmptyString => acc
  | String c s' =>
      if Str.is_digit c
      then digits_value s' (10 * acc + Z.of_N (Str.code c - 48))%Z
      else digits_value s' acc
  end.

Fixpoint count_digits (s : string) : nat :=
  match s with
  | EmptyString => O
  | String c s' =>
      if Str.is_digit c then S (count_digits s') else count_digits s'
  end.

(** [s] is one or more digits with single underscores between them;
    [prev] says whether the character before was a digit. *)
Fixpoint digit_run (s : string) (prev : bool) : bool :=
  match s with
  | EmptyString => prev
  | String c s' =>
      if Str.is_digit c then digit_run s' true
      else if Ascii.eqb c "_"%char then prev && digit_run s' false
      else false
  end.

Definition split_sign (s : string) : bool * string :=
  match s with
  | String "-"%char r => (true, r)
  | String "+"%char r => (false, r)
  | _ => (false, s)
  end.

(** [sys.get_int_max_str_digits()], as Python sets it. *)
Definition max_str_digits : nat := 4300.

(** [int(value)]; [None] is [ValueError], which a text of more than
    [max_str_digits] digits raises as well. *)
Definition py_int (s : string) : option Z :=
  let (neg, body) := split_sign (Str.strip_by Str.is_c_space s) in
  if digit_run body false && (count_digits body <=? max_str_digits)%nat
  then Some (if neg then (- digits_value body 0)%Z else digits_value body 0)
  else None.

Definition is_digit_or_underscore (c : ascii) : bool :=
  Str.is_digit c || Ascii.eqb c "_"%char.

(** The float nearest to [m * 10 ^ e10], ties to even. *)
Definition decimal_float (neg : bool) (m e10 : Z) : spec_float :=
  match m with
  | Z.pos p =>
      if (0 <=? e10)%Z then
        binary_normalize 53 1024
          ((if neg then Z.neg p else Z.pos p) * 10 ^ e10)%Z 0 false
      else
        SFdiv 53 1024 (S754_finite neg p 0)
          (S754_finite false (Z.to_pos (10 ^ (- e10))) 0)
  | _ => S754_zero neg
  end.

(** [float(value)]; [None] is [ValueError]. *)
Definition py_float (s : string) : option spec_float :=
  let (neg, body) := split_sign (Str.strip_by Str.is_c_space s) in
  let low := Str.map_chars Str.lower body in
  if String.eqb low "inf" || String.eqb low "infinity"
  then Some (S754_infinity neg)
  else if String.eqb low "nan" then Some S754_nan
  else
    let n1 := Re.run_length is_digit_or_underscore body in
    let int_part := Str.take n1 body in
    let after_int := Str.skip n1 body in
    let (frac_part, after_frac) :=
      match after_int with
      | String "."%char r =>
          let n2 := Re.run_length is_digit_or_underscore r in
          (Str.take n2 r, Str.skip n2 r)
      | _ => (EmptyString, after_int)
      end in
    let exponent :=
      match after_frac with
      | EmptyString => Some 0%Z
      | String c r =>
          if Ascii.eqb (Str.lower c) "e"%char then
            let (eneg, edigits) := split_sign r in
            if digit_run edigits false
            then Some (if eneg then (- digits_value edigits 0)%Z
                       else digits_value edigits 0)
            else None
          else None
      end in
    let part_ok (p : string) :=
      match p with EmptyString => true | _ => digit_run p false end in
    match exponent with
    | Some e =>
        if part_ok int_part && part_ok frac_part
           && negb (Nat.eqb (count_digits int_part + count_digits frac_part) 0)
        then Some (decimal_float neg
                     (digits_value frac_part (digits_value int_part 0))
                     (e - Z.of_nat (count_digits frac_part)))
        else None
    | None => None
    end.

Definition _convert_value (v : string) : value :=
  match py_int v with
  | Some n => VInt n
  | None =>
      match py_float v with
      | Some f => VFloat f
      | None => VStr v
      end
  end.

(** The single and the double quote, the argument of the second
    [strip]. *)
Definition quote_chars : string :=
  String "'"%char (String (ascii_of_N 34) EmptyString).

(** What the three callers do with a value token: strip the blanks,
    strip the quote characters, then [_convert_value]. *)

Definition value_of_token (tok : string) : value :=
  _convert_value (Str.strip_chars quote_chars (Str.strip tok)).

(** [\s+AND\s+] with [re.IGNORECASE] *)
Definition and_re : Re.regex :=
  [Re.Plus Str.is_space; Re.letter "A"; Re.letter "N"; Re.letter "D";
   Re.Plus Str.is_space].

(** [(\w+)\s*=\s*(.+)] *)
Definition equality_re : Re.regex :=
  [Re.Open; Re.Plus Str.is_word; Re.Close; Re.Star Str.is_space;
   Re.lit "="; Re.Star Str.is_space; Re.Open; Re.Plus Re.dot; Re.Close].

(** The body of the loop of [_parse_where] for one part. *)
Definition where_part (conditions : row) (part : string) : row :=
  match Re.search equality_re (Str.strip part) with
  | Some (_, [g1; g2], _) =>
      dict_set String.eqb conditions (Str.strip g1) (value_of_token g2)
  | _ => conditions
  end.

(** [where_clause] is the text of the WHERE token. *)
Definition _parse_where (where_clause : string) : row :=
  let where_str := Str.strip (Str.remove_first "WHERE" where_clause) in
  fold_left where_part (Re.split and_re where_str) [].

Definition _parse_set_clause (set_str : string) : row :=
  fold_left (fun values assignment =>
    match Str.split_once "="%char assignment with
    | Some (col, val) =>
        dict_set String.eqb values (Str.strip col) (value_of_token val)
    | None => values
    end) (Str.split ","%char set_str) [].

(** The loop of [_parse_insert] over the two groups of
    [\(([^)]+)\)\s+VALUES\s+\(([^)]+)\)]. *)
Definition insert_values (columns_group values_group : string) : row :=
  let cols := map Str.strip (Str.split ","%char columns_group) in
  let values_str :=
    map (fun v => Str.strip_chars quote_chars (Str.strip v))
      (Str.split ","%char values_group) in
  fold_left (fun values cv =>
    dict_set String.eqb values (fst cv) (_convert_value (snd cv)))
    (combine cols values_str) [].

Definition not_paren (c : ascii) : bool := negb (Ascii.eqb c ")"%char).

Definition insert_re : Re.regex :=
  [Re.lit "("; Re.Open; Re.Plus not_paren; Re.Close; Re.lit ")";
   Re.Plus Str.is_space;
   Re.letter "V"; Re.letter "A"; Re.letter "L"; Re.letter "U";
   Re.letter "E"; Re.letter "S";
   Re.Plus Str.is_space;
   Re.lit "("; Re.Open; Re.Plus not_paren; Re.Close; Re.lit ")"].

(** The values of [_parse_insert] on the text of the statement. *)
Definition _parse_insert_values (sql : string) : row :=
  match Re.search insert_re (Str.strip sql) with
  | Some (_, [g1; g2], _) => insert_values g1 g2
  | _ => []
  end.

End SQLParser.

(* ================================================================== *)
(** * Shard ring ([shard_manager.py], [utils.py]) *)
(* ================================================================== *)

(** [hash_key] is the MD5 digest of the key read as an integer; the ring
    is modelled over any function in its place. *)
Module ShardRing.

Section WithHash.
Variable hash_key : string -> Z.

(** [VirtualNode(node_id, virtual_id)] *)
Record VirtualNode : Type := {
  node_id : string;
  virtual_id : Z;
  hash_value : Z
}.

Definition vnode (id : string) (i : Z) : VirtualNode :=
  {| node_id := id; virtual_id := i;
     hash_value := hash_key (id ++ ":" ++ str_int i) |}.

(** The two classes of objects that the ring compares: a virtual node,
    and the probe that [get_node] builds with
    [type('obj', (object,), {'hash_value': key_hash})()]. *)
Inductive obj : Type :=
| Vnode (v : VirtualNode)
| Probe (key_hash : Z).

Definition hash_of (o : obj) : Z :=
  match o with Vnode v => hash_value v | Probe h => h end.

(** [VirtualNode] defines [__lt__] and no other comparison; the class of
    the probe defines none. *)
Definition defines_lt (o : obj) : bool :=
  match o with Vnode _ => true | Probe _ => false end.

Definition defines_gt (o : obj) : bool := false.

(** [a < b]: [type(a).__lt__(a, b)] where the class of [a] defines it,
    else the reflected [type(b).__gt__(b, a)], else [TypeError]. *)
Definition py_less (a b : obj) : outcome bool :=
  if defines_lt a then Return (hash_of a <? hash_of b)%Z
  else if defines_gt b then Return (hash_of a <? hash_of b)%Z
  else Raise (TypeError
         "'<' not supported between instances of 'obj' and 'VirtualNode'").

(** The loop of [bisect.bisect_right(a, x)]: halve [lo, hi) by [x < a[mid]]
    until it is empty. [mid] is below [hi], which is at most [len(a)]. *)
Fixpoint bisect_loop (fuel : nat) (x : obj) (a : list VirtualNode)
    (lo hi : nat) : outcome nat :=
  match fuel with
  | O => Return lo
  | S fuel' =>
      if (lo <? hi)%nat then
        let mid := ((lo + hi) / 2)%nat in
        match nth_error a mid with
        | Some y =>
            match py_less x (Vnode y) with
            | Return true => bisect_loop fuel' x a lo mid
            | Return false => bisect_loop fuel' x a (S mid) hi
            | Raise e => Raise e
            end
        | None => Return lo
        end
      else Return lo
  end.

Definition bisect_right (a : list VirtualNode) (x : obj) : outcome nat :=
  bisect_loop (S (List.length a)) x a 0 (List.length a).

(** [bisect.insort(ring, x)]: [ring.insert(bisect_right(ring, x), x)].
    Two virtual nodes compare by [VirtualNode.__lt__], so the search
    raises nothing here. *)
Definition insort (x : VirtualNode) (ring : list VirtualNode)
    : list VirtualNode :=
  match bisect_right ring (Vnode x) with
  | Return i => (firstn i ring ++ x :: skipn i ring)%list
  | Raise _ => ring
  end.

(** [ConsistentHashRing] *)
Record HashRing : Type := {
  num_virtual_nodes : Z;
  ring : list VirtualNode;
  nodes : pyset
}.

(** [ConsistentHashRing(num_virtual_nodes)] *)
Definition init (n : Z) : HashRing :=
  {| num_virtual_nodes := n; ring := []; nodes := [] |}.

Definition add_node (id : string) (h : HashRing) : HashRing :=
  if set_mem (nodes h) id then h
  else
    {| num_virtual_nodes := num_virtual_nodes h;
       ring :=
         fold_left (fun r i => insort (vnode id (Z.of_nat i)) r)
           (seq 0 (Z.to_nat (num_virtual_nodes h))) (ring h);
       nodes := set_add (nodes h) id |}.

Definition remove_node (id : string) (h : HashRing) : HashRing :=
  if negb (set_mem (nodes h) id) then h
  else
    {| num_virtual_nodes := num_virtual_nodes h;
       ring := filter (fun vn => negb (String.eqb (node_id vn) id)) (ring h);
       nodes := set_discard (nodes h) id |}.

(** The index at which the walk round the ring starts. *)
Definition start_index (key : string) (h : HashRing) : outcome nat :=
  match bisect_right (ring h) (Probe (hash_key key)) with
  | Return idx =>
      Return (if Nat.eqb idx (List.length (ring h)) then O else idx)
  | Raise e => Raise e
  end.

Definition get_node (key : string) (h : HashRing) : outcome (option string) :=
  match ring h with
  | [] => Return None
  | _ :: _ =>
      match start_index key h with
      | Return idx => Return (option_map node_id (nth_error (ring h) idx))
      | Raise e => Raise e
      end
  end.

(** The walk of [get_nodes_for_replication] from [idx]: the first
    [replication_factor] distinct nodes. *)
Fixpoint walk (steps : list nat) (h : HashRing) (idx : nat)
    (replication_factor : Z) (found : list string) : list string :=
  match steps with
  | [] => found
  | i :: steps' =>
      match nth_error (ring h) ((idx + i) mod List.length (ring h)) with
      | Some vn =>
          if existsb (String.eqb (node_id vn)) found
          then walk steps' h idx replication_factor found
          else
            let found' := (found ++ [node_id vn])%list in
            if (replication_factor <=? Z.of_nat (List.length found'))%Z
            then found'
            else walk steps' h idx replication_factor found'
      | None => found
      end
  end.

Definition get_nodes_for_replication (key : string)
    (replication_factor : Z) (h : HashRing) : outcome (list string) :=
  match ring h with
  | [] => Return []
  | _ :: _ =>
      match start_index key h with
      | Return idx =>
          Return (walk (seq 0 (List.length (ring h))) h idx
                    replication_factor [])
      | Raise e => Raise e
      end
  end.

(** [ShardManager] *)
Record ShardManager : Type := {
  self_id : string;
  replication_factor : Z;
  hash_ring : HashRing
}.

(** [ShardManager(node_id, replication_factor)]: a ring of 150 virtual
    nodes per node, with the node itself on it. *)
Definition manager (id : string) (rf : Z) : ShardManager :=
  {| self_id := id; replication_factor := rf;
     hash_ring := add_node id (init 150) |}.

Definition on_ring (f : HashRing -> HashRing) (m : ShardManager)
    : ShardManager :=
  {| self_id := self_id m; replication_factor := replication_factor m;
     hash_ring := f (hash_ring m) |}.

Definition manager_add_node (id : string) : ShardManager -> ShardManager :=
  on_ring (add_node id).

Definition manager_remove_node (id : string) : ShardManager -> ShardManager :=
  on_ring (remove_node id).

Definition get_primary_node (key : string) (m : ShardManager)
    : outcome string :=
  match get_node key (hash_ring m) with
  | Return (Some node) =>
      Return (match node with EmptyString => self_id m | _ => node end)
  | Return None => Return (self_id m)
  | Raise e => Raise e
  end.

Definition get_replica_nodes (key : string) (m : ShardManager)
    : outcome (list string) :=
  get_nodes_for_replication key (replication_factor m) (hash_ring m).

Definition is_responsible_for (key : string) (m : ShardManager)
    : outcome bool :=
  match get_replica_nodes key m with
  | Return replicas => Return (existsb (String.eqb (self_id m)) replicas)
  | Raise e => Raise e
  end.

Definition is_primary_for (key : string) (m : ShardManager) : outcome bool :=
  match get_primary_node key m with
  | Return node => Return (String.eqb node (self_id m))
  | Raise e => Raise e
  end.

End WithHash.

End ShardRing.

(* ================================================================== *)
(** * Cluster membership ([cluster_manager.py], [node.py]) *)
(* ================================================================== *)

(** The readings of [time.time()] and the heartbeat interval are floats.
    The model takes each reading from outside, and with it the test
    [(now - last_seen) > heartbeat_interval * 3] of the monitor. *)
Module ClusterManager.

Section WithClock.
Variable clock : Type.
Variable timed_out : clock -> clock -> clock -> bool.

(** [NodeInfo] *)
Record NodeInfo : Type := {
  info_node_id : string;
  info_host : string;
  info_port : Z;
  last_seen : clock;
  is_alive : bool
}.

(** [ClusterManager]. A callback is set or [None]; what is set is known
    to the owner of the manager. *)
Record t : Type := {
  node_id : string;
  host : string;
  port : Z;
  heartbeat_interval : clock;
  nodes : dict string NodeInfo;
  on_node_added : bool;
  on_node_removed : bool
}.

(** The calls of the callbacks, in the order in which they are made. No
    callback reaches the cluster manager. *)
Inductive call : Type :=
| Node_added (id : string)
| Node_removed (id : string).

Definition fire (callback : bool) (c : call) : list call :=
  if callback then [c] else [].

Definition with_nodes (cm : t) (d : dict string NodeInfo) : t :=
  {| node_id := node_id cm; host := host cm; port := port cm;
     heartbeat_interval := heartbeat_interval cm; nodes := d;
     on_node_added := on_node_added cm;
     on_node_removed := on_node_removed cm |}.

(** [ClusterManager(node_id, host, port, heartbeat_interval)] at the
    time [now] *)
Definition init (id h : string) (p : Z) (interval now : clock) : t :=
  {| node_id := id; host := h; port := p; heartbeat_interval := interval;
     nodes :=
       [(id, {| info_node_id := id; info_host := h; info_port := p;
                last_seen := now; is_alive := true |})];
     on_node_added := false; on_node_removed := false |}.

Definition set_callbacks (added removed : bool) (cm : t) : t :=
  {| node_id := node_id cm; host := host cm; port := port cm;
     heartbeat_interval := heartbeat_interval cm; nodes := nodes cm;
     on_node_added := added; on_node_removed := removed |}.

Definition add_node (id h : string) (p : Z) (now : clock) (cm : t)
    : t * list call :=
  match dict_get String.eqb (nodes cm) id with
  | None =>
      (with_nodes cm
         (dict_set String.eqb (nodes cm) id
            {| info_node_id := id; info_host := h; info_port := p;
               last_seen := now; is_alive := true |}),
       fire (on_node_added cm) (Node_added id))
  | Some info =>
      (with_nodes cm
         (dict_set String.eqb (nodes cm) id
            {| info_node_id := info_node_id info; info_host := h;
               info_port := p; last_seen := now; is_alive := true |}),
       [])
  end.

Definition remove_node (id : string) (cm : t) : t * list call :=
  if dict_mem String.eqb (nodes cm) id
     && negb (String.eqb id (node_id cm))
  then (with_nodes cm (dict_del String.eqb (nodes cm) id),
        fire (on_node_removed cm) (Node_removed id))
  else (cm, []).

Definition update_heartbeat (id : string) (now : clock) (cm : t)
    : t * list call :=
  match dict_get String.eqb (nodes cm) id with
  | None => (cm, [])
  | Some info =>
      (with_nodes cm
         (dict_set String.eqb (nodes cm) id
            {| info_node_id := info_node_id info;
               info_host := info_host info; info_port := info_port info;
               last_seen := now; is_alive := true |}),
       if negb (is_alive info)
       then fire (on_node_added cm) (Node_added id) else [])
  end.

Definition get_alive_nodes (cm : t) : list string :=
  map fst (filter (fun item => is_alive (snd item)) (nodes cm)).

Definition get_node_info (id : string) (cm : t) : option NodeInfo :=
  dict_get String.eqb (nodes cm) id.

Definition get_all_nodes (cm : t) : list string := dict_keys (nodes cm).

(** One round of [_monitor_loop] at the time [now], over
    [list(self.nodes.items())]: the entries are those of the dictionary
    itself. *)
Definition check_node (now : clock) (acc : t * list call)
    (item : string * NodeInfo) : t * list call :=
  let (cm, calls) := acc in
  let (id, info) := item in
  if String.eqb id (node_id cm) then acc
  else if is_alive info
          && timed_out now (last_seen info) (heartbeat_interval cm)
  then (with_nodes cm
          (dict_set String.eqb (nodes cm) id
             {| info_node_id := info_node_id info;
                info_host := info_host info; info_port := info_port info;
                last_seen := last_seen info; is_alive := false |}),
        (calls ++ fire (on_node_removed cm) (Node_removed id))%list)
  else acc.

Definition monitor_round (now : clock) (cm : t) : t * list call :=
  fold_left (check_node now) (nodes cm) (cm, []).

End WithClock.

End ClusterManager.

(** The membership that a [Node] keeps: its cluster manager and its
    shard manager, with the callbacks of the one bound to the other. *)
Module Membership.

Section WithClockAndHash.
Variable clock : Type.
Variable hash_key : string -> Z.

Record t : Type := {
  cluster_manager : ClusterManager.t clock;
  shard_manager : ShardRing.ShardManager
}.

(** [Node._on_node_added], [Node._on_node_removed] *)
Definition deliver (sm : ShardRing.ShardManager) (c : ClusterManager.call)
    : ShardRing.ShardManager :=
  match c with
  | ClusterManager.Node_added id => ShardRing.manager_add_node hash_key id sm
  | ClusterManager.Node_removed id => ShardRing.manager_remove_node id sm
  end.

Definition on_cluster
    (f : ClusterManager.t clock
         -> ClusterManager.t clock * list ClusterManager.call)
    (m : t) : t :=
  let (cm, calls) := f (cluster_manager m) in
  {| cluster_manager := cm;
     shard_manager := fold_left deliver calls (shard_manager m) |}.

(** The part of [Node.__init__] before the initial cluster nodes. *)
Definition init (id h : string) (p replication_factor : Z)
    (interval now : clock) : t :=
  {| cluster_manager :=
       ClusterManager.set_callbacks true true
         (ClusterManager.init id h p interval now);
     shard_manager := ShardRing.manager hash_key id replication_factor |}.

(** The two calls of [Node.__init__] for an initial cluster node
    [node_id@host:port]. *)
Definition add_cluster_node (id h : string) (p : Z) (now : clock) (m : t)
    : t :=
  let m' := on_cluster (ClusterManager.add_node id h p now) m in
  {| cluster_manager := cluster_manager m';
     shard_manager :=
       ShardRing.manager_add_node hash_key id (shard_manager m') |}.

End WithClockAndHash.

End Membership.

(* ================================================================== *)
(** * Notions used in the statements *)
(* ================================================================== *)

(** No [=] of [s] comes right after a word character or a blank; this is
    so for [col > v], [col < v], [col != v], [col >= v], [col <= v] and
    [col <> v] when [v] holds no [=]. *)
Fixpoint no_equality (s : string) : bool :=
  match s with
  | String c (String d _ as s') =>
      negb ((Str.is_word c || Str.is_space c) && Ascii.eqb d "="%char)
      && no_equality s'
  | _ => true
  end.

(** The callback [cb], with a record of the commands it was called with,
    in the order of the calls. *)
Definition recording {W} (cb : command -> M W unit)
    : command -> M (W * list command) unit :=
  fun c s =>
    let (res, w) := cb c (fst s) in (res, (w, (snd s ++ [c])%list)).

(** The actions, with every callback that is installed recording its
    calls. *)
Definition recorded {W} (a : Raft.action W)
    : Raft.action (W * list command) :=
  match a with
  | Raft.Set_apply_callback callback =>
      Raft.Set_apply_callback (option_map recording callback)
  | Raft.Call ev => Raft.Call ev
  end.

(** No action takes the callback away. *)
Definition keeps_callback {W} (acts : list (Raft.action W)) : bool :=
  forallb (fun a => match a with
                    | Raft.Set_apply_callback None => false
                    | _ => true
                    end) acts.

(** A callback is installed before anything else reaches the node, as
    the coordinator does it, and none is taken away later. *)
Definition installed_first {W} (acts : list (Raft.action W)) : bool :=
  match acts with
  | Raft.Set_apply_callback (Some _) :: rest => keeps_callback rest
  | _ => false
  end.

(** No callback that is installed raises. *)
Definition callbacks_return {W} (acts : list (Raft.action W)) : Prop :=
  Forall (fun a => match a with
                   | Raft.Set_apply_callback (Some cb) =>
                       forall c w, fst (cb c w) = Return tt
                   | _ => True
                   end) acts.

(** The log, the commit index and the number of applied entries, on which
    the order of the calls depends. *)
Definition raft_core (r : Raft.RaftNode) : list Raft.LogEntry * Z * Z :=
  (Raft.log r, Raft.commit_index r, Raft.last_applied r).

(** The calls so far are those for the first [last_applied] entries, in
    the order of the log; what is applied is committed, what is committed
    is in the log, and an entry's [index] is its place in the log. *)
Definition raft_inv (r : Raft.RaftNode) (tr : list command) : Prop :=
  (0 <= Raft.last_applied r <= Raft.commit_index r)%Z
  /\ (Raft.commit_index r <= Raft.len r)%Z
  /\ tr = map Raft.command_of
            (firstn (Z.to_nat (Raft.last_applied r)) (Raft.log r))
  /\ (forall i en, nth_error (Raft.log r) i = Some en ->
                   Raft.index en = Z.of_nat i).

(** A state that is quiescent: nothing committed waits for the callback. *)
Definition caught_up (r : Raft.RaftNode) : Prop :=
  Raft.last_applied r = Raft.commit_index r.

(** The commands of the examples. *)
Definition sql_command (sql : string) : command := [("type", "sql"); ("sql", sql)].

(** A callback that counts its calls and never raises. *)
Definition counting : command -> M nat unit := fun _ n => (Return tt, S n).

(** The values that [<] orders among themselves: the strings, and the
    numbers other than NaN. *)
Definition is_str (v : value) : bool :=
  match v with VStr _ => true | _ => false end.

Definition is_num (v : value) : bool :=
  match v with
  | VInt _ => true
  | VFloat S754_nan => false
  | VFloat _ => true
  | _ => false
  end.

Definition one_kind (vs : list value) : bool :=
  forallb is_str vs || forallb is_num vs.

(** Every ORDER BY column holds values of one kind in the rows [rs]. *)
Definition sortable (ob : list (string * string)) (rs : list row) : bool :=
  forallb (fun cd => one_kind (map (QueryExecutor.sort_key (fst cd)) rs)) ob.

(** [a] goes before [b] by the order [lt], and by [R] when [lt] does not
    tell them apart. *)
Definition lex1 {A} (lt : A -> A -> option bool) (R : A -> A -> Prop)
    (a b : A) : Prop :=
  lt a b = Some true \/ (lt b a <> Some true /\ R a b).

(** The ordering that ORDER BY asks for: the first key decides, then the
    second, and so on; rows that agree on every key are ordered by
    [base]. *)
Fixpoint lex_le (ob : list (string * string)) (base : row -> row -> Prop)
    : row -> row -> Prop :=
  match ob with
  | [] => base
  | (col, direction) :: ob' =>
      lex1 (QueryExecutor.sort_lt col (String.eqb direction "DESC"))
        (lex_le ob' base)
  end.

(** The number that an [int] or a [float] stands for. *)
Definition num (v : value) : number :=
  match as_number v with Some n => n | None => NaN end.

(** A kind: the strings, or the numbers other than NaN. *)
Definition is_kind (cls : value -> bool) : Prop := cls = is_str \/ cls = is_num.

(** Each key is below the next. *)
Fixpoint increasing (ks : list value) : bool :=
  match ks with
  | k1 :: ((k2 :: _) as rest) =>
      match py_lt k1 k2 with
      | Some true => increasing rest
      | _ => false
      end
  | _ => true
  end.

(** The index holds no NaN, and the keys of a B-tree index are in order:
    the state of a [SortedDict] into which no NaN has been put. *)
Definition keys_in_order (i : index) : bool :=
  match i with
  | HashIndex _ _ d => negb (existsb (existsb is_nan) (map fst d))
  | BTreeIndex _ _ d =>
      negb (existsb is_nan (map fst d)) && increasing (map fst d)
  end.

(** Two calls end alike: both raise the same exception, or both return
    a set with the same members. *)
Definition same_members (a b : outcome pyset) : Prop :=
  match a, b with
  | Return s, Return s' => forall k, set_mem s k = set_mem s' k
  | Raise e, Raise e' => e = e'
  | _, _ => False
  end.

(** The tuple under which index [i] files the row [r]; a B-tree index files
    no row whose column is missing or null. *)
Definition index_key (i : index) (r : row) : option (list value) :=
  match i with
  | HashIndex _ c _ => Some (Hash._get_index_key c r)
  | BTreeIndex _ c _ =>
      match BTree._get_index_value c r with
      | VNone => None
      | v => Some [v]
      end
  end.

(** The row identifiers that index [i] holds under the tuple [t]. *)
Definition index_bucket (i : index) (t : list value) : pyset :=
  match i with
  | HashIndex _ _ d => bucket tuple_eq d t
  | BTreeIndex _ _ d => match t with [v] => bucket key_eq d v | _ => [] end
  end.

(** The tuple that [lookup], called with the conditions [conds], looks
    for in index [i]. *)
Definition lookup_key (i : index) (conds : row) : list value :=
  match i with
  | HashIndex _ c _ => map (row_get conds) c
  | BTreeIndex _ c _ => [row_get conds (BTree.column c)]
  end.

(** [r] restricted to the columns [cols]. *)
Definition restrict (cols : list string) (r : row) : row :=
  filter (fun cv => existsb (String.eqb (fst cv)) cols) r.

(** The row [r] is filed in [i] under the key that [conds] looks up. *)
Definition agrees (i : index) (conds r : row) : Prop :=
  exists t, index_key i r = Some t /\ tuple_eq t (lookup_key i conds) = true.

(** Index-storage consistency, as in section 8 of the specification, for
    the rows that an index files: a stored row is found by a lookup of its
    own indexed columns, and what a lookup or a range scan returns is the
    key of a stored row that agrees with the lookup key or lies in the
    range. *)
Definition consistent (x : executor) : Prop :=
  forall tbl name i,
    IndexManager.get_index (index_manager x) tbl name = Some i ->
    (forall key r t,
        StorageEngine.get (storage x) tbl key = Some r ->
        index_key i r = Some t ->
        set_mem (index_lookup (restrict (columns i) r) i) key = true)
    /\ (forall conds key,
          set_mem (index_lookup conds i) key = true ->
          exists r, StorageEngine.get (storage x) tbl key = Some r
                    /\ agrees i conds r)
    /\ (forall col start stop keys key,
          index_range_scan col start stop i = Return keys ->
          set_mem keys key = true ->
          exists r, StorageEngine.get (storage x) tbl key = Some r
                    /\ BTree.in_range start stop (row_get r col) = Some true).

(** No two keys of the dictionary are equal. *)
Fixpoint dict_wf {K V} (eqb : K -> K -> bool) (d : dict K V) : Prop :=
  match d with
  | [] => True
  | (k, _) :: d' => dict_get eqb d' k = None /\ dict_wf eqb d'
  end.

Definition index_wf (i : index) : Prop :=
  match i with
  | HashIndex _ _ _ => True
  | BTreeIndex _ c d => List.length c = 1%nat /\ dict_wf key_eq d
  end.

(** Index [i] holds exactly the rows that [g] gives, each under its key. *)
Definition index_ok (g : string -> option row) (i : index) : Prop :=
  index_wf i
  /\ forall t key,
       set_mem (index_bucket i t) key = true
       <-> exists r t', g key = Some r /\ index_key i r = Some t'
                        /\ tuple_eq t' t = true.

(** The invariant of the executor's state in the form that its operations
    keep: every index holds exactly the rows of its table; a table without
    a schema has no rows; no row identifier occurs twice in a table; the
    row identifiers are those that [uuid4] gave out, and [uuid4] never
    gives the same one twice. *)
Definition index_inv (x : executor) : Prop :=
  (forall tbl name i,
      IndexManager.get_index (index_manager x) tbl name = Some i ->
      index_ok (StorageEngine.get (storage x) tbl) i)
  /\ (forall tbl,
        dict_get String.eqb (schemas (storage x)) tbl = None ->
        forall key, StorageEngine.get (storage x) tbl key = None)
  /\ (forall tbl rws,
        dict_get String.eqb (tables (storage x)) tbl = Some rws ->
        NoDup (map fst rws))
  /\ (forall tbl key r,
        StorageEngine.get (storage x) tbl key = Some r ->
        exists n, (n < uuid_calls x)%nat /\ key = uuid4 x n)
  /\ (forall m n, uuid4 x m = uuid4 x n -> m = n).

(** The class of a scalar as a key: what [key_eq] compares. *)
Inductive key_class : Type :=
| KNone
| KStr (s : string)
| KNum (x : number).

Definition class_of (v : value) : key_class :=
  match v with
  | VNone => KNone
  | VStr s => KStr s
  | VInt n => KNum (Fin (n # 1))
  | VFloat f => KNum (float_number f)
  end.

Definition class_eqb (a b : key_class) : bool :=
  match a, b with
  | KNone, KNone => true
  | KStr s, KStr t => String.eqb s t
  | KNum NaN, KNum NaN => true
  | KNum x, KNum y => number_eqb x y
  | _, _ => false
  end.

(** The place [(t', k')] is the place [(t, k)]. *)
Definition same_key (t k t' k' : string) : bool :=
  String.eqb t' t && String.eqb k' k.

(** The rows still to visit are as they were when the scan was taken. *)
Definition pending (t : string) (x : executor) (rem : list (string * row))
    : Prop :=
  index_inv x
  /\ NoDup (map fst rem)
  /\ forall k r, In (k, r) rem -> StorageEngine.get (storage x) t k = Some r.

(** While CREATE INDEX fills the new index: storage and the other indexes
    are as at the start, and the new index holds the rows already
    visited. *)
Definition backfilling (t name : string) (x0 : executor) (x : executor)
    (rem : list (string * row)) : Prop :=
  storage x = storage x0
  /\ uuid4 x = uuid4 x0
  /\ uuid_calls x = uuid_calls x0
  /\ (forall t' name', same_key t name t' name' = false ->
        IndexManager.get_index (index_manager x) t' name'
        = IndexManager.get_index (index_manager x0) t' name')
  /\ NoDup (map fst rem)
  /\ (forall k r, In (k, r) rem ->
        StorageEngine.get (storage x0) t k = Some r)
  /\ exists i,
       IndexManager.get_index (index_manager x) t name = Some i
       /\ index_ok (fun k => if existsb (String.eqb k) (map fst rem) then None
                             else StorageEngine.get (storage x0) t k) i.

(** Every plan of [qs], run in order from [x], returns. *)
Fixpoint all_return (qs : list ParsedQuery.t) (x : executor) : bool :=
  match qs with
  | [] => true
  | q :: qs' =>
      match fst (QueryExecutor.execute q x) with
      | Return _ => all_return qs' (snd (QueryExecutor.execute q x))
      | Raise _ => false
      end
  end.

Definition is_return {A} (o : outcome A) : bool :=
  match o with Return _ => true | Raise _ => false end.

(** Whether the storage operation [o] returns on the engine [e]. *)
Definition op_returns (o : storage_op) (e : engine) : bool :=
  match o with
  | Create_table t s => is_return (fst (StorageEngine.create_table t s e))
  | Drop_table t => is_return (fst (StorageEngine.drop_table t e))
  | Put t k v => is_return (fst (StorageEngine.put t k v e))
  | Delete t k => is_return (fst (StorageEngine.delete t k e))
  | Snapshot => is_return (fst (StorageEngine.snapshot e))
  end.

(** Every operation of [ops], run in order from [e], returns. *)
Fixpoint ops_return (ops : list storage_op) (e : engine) : bool :=
  match ops with
  | [] => true
  | o :: ops' => op_returns o e && ops_return ops' (run_op o e)
  end.

(** What is on disk gives back the schemas and every row of [e], and [e]
    holds no row of a table without a schema. *)
Definition recoverable (e : engine) : Prop :=
  schemas (restart e) = schemas e
  /\ (forall t k, StorageEngine.get (restart e) t k = StorageEngine.get e t k)
  /\ (forall t, dict_get String.eqb (schemas e) t = None ->
        forall k, StorageEngine.get e t k = None).

(** Every column of the row [v] is a column of the schema [sch]. *)
Definition fits (sch : schema) (v : row) : bool :=
  forallb (fun col => dict_mem String.eqb sch col) (dict_keys v).

(** The step from [e] to [e'] left the record [en] at the end of the log,
    or ended in a snapshot of [e']. *)
Definition logged (en : entry) (e e' : engine) : Prop :=
  (snapshot_json (files e') = snapshot_json (files e)
   /\ wal_log (files e') = (wal_log (files e) ++ [en])%list)
  \/ (snapshot_json (files e') = Some (tables e', schemas e')
      /\ wal_log (files e') = []).

(** What the apply loop leaves alone: the identity of the node, its term,
    its vote, its role and its log. *)
Definition raft_role (r : Raft.RaftNode)
    : string * list string * Z * option string * Raft.NodeState
      * list Raft.LogEntry :=
  (Raft.node_id r, Raft.all_nodes r, Raft.current_term r, Raft.voted_for r,
   Raft.state r, Raft.log r).

(** The votes that the node gives while the events [evs] reach it: the
    term and the candidate of each [request_vote] that it answers with
    [True], and its vote for itself in each election that it starts. *)
Fixpoint votes {W} (cb : option (command -> M W unit))
    (evs : list Raft.event) (s : Raft.RaftNode * W) : list (Z * string) :=
  match evs with
  | [] => []
  | ev :: evs' =>
      (match ev with
       | Raft.Request_vote ct ci li lt =>
           if fst (Raft.request_vote ct ci li lt (fst s))
           then [(ct, ci)] else []
       | Raft.Election_timeout =>
           if Raft.is_leader (fst s) then []
           else [((Raft.current_term (fst s) + 1)%Z, Raft.node_id (fst s))]
       | _ => []
       end ++ votes cb evs' (Raft.step cb ev s))%list
  end.

(** Every character of [s] is in the class [p]. *)
Fixpoint str_all (p : ascii -> bool) (s : string) : bool :=
  match s with
  | EmptyString => true
  | String c s' => p c && str_all p s'
  end.

(** [sep.join(parts)] *)
Fixpoint join (sep : string) (parts : list string) : string :=
  match parts with
  | [] => ""
  | [p] => p
  | p :: ps => p ++ sep ++ join sep ps
  end.

(** The statement that [Client.insert] writes for a row of strings:
    the column names, and each value between single quotes. *)
Definition client_insert (table : string) (values : list (string * string))
    : string :=
  "INSERT INTO " ++ table ++ " (" ++ join ", " (map fst values)
  ++ ") VALUES ("
  ++ join ", " (map (fun cv => "'" ++ snd cv ++ "'") values) ++ ")".

(** The SET clause that [Client.update] writes for integer values:
    [', '.join(f"{col} = {val}" ...)]. *)
Definition client_set_clause (values : list (string * Z)) : string :=
  join ", " (map (fun cv => fst cv ++ " = " ++ str_int (snd cv)) values).

(** A column name as the client passes it on: ASCII text with no blank,
    comma or equals sign in it. *)
Definition plain_name (col : string) : bool :=
  Str.is_ascii col
  && str_all (fun c => negb (Str.is_space c || Ascii.eqb c ","
                             || Ascii.eqb c "=")) col.

(** The ring is in the order of the hash values. *)
Definition ring_sorted (l : list ShardRing.VirtualNode) : Prop :=
  StronglySorted
    (fun a b => (ShardRing.hash_value a <= ShardRing.hash_value b)%Z) l.

(** Every virtual node on the ring is that of a member. *)
Definition ring_of_members (h : ShardRing.HashRing) : Prop :=
  forall vn, In vn (ShardRing.ring h) ->
             set_mem (ShardRing.nodes h) (ShardRing.node_id vn) = true.

(** The place of an entry in a list in order: behind the entries that
    are not greater. *)
Fixpoint insert_in_order (x : ShardRing.VirtualNode)
    (l : list ShardRing.VirtualNode) : list ShardRing.VirtualNode :=
  match l with
  | [] => [x]
  | y :: l' =>
      if (ShardRing.hash_value x <? ShardRing.hash_value y)%Z then x :: l
      else y :: insert_in_order x l'
  end.

(** The number of virtual nodes of a node on a ring. *)
Definition virtual_nodes_of (id : string) (l : list ShardRing.VirtualNode)
    : nat :=
  List.length (filter (fun vn => String.eqb (ShardRing.node_id vn) id) l).

(** The calls that change a ring. *)
Inductive ring_op : Type :=
| Add_node (id : string)
| Remove_node (id : string).

Definition ring_call (hash_key : string -> Z) (h : ShardRing.HashRing)
    (op : ring_op) : ShardRing.HashRing :=
  match op with
  | Add_node id => ShardRing.add_node hash_key id h
  | Remove_node id => ShardRing.remove_node id h
  end.

(** What the calls keep. *)
Definition ring_inv (n : Z) (h : ShardRing.HashRing) : Prop :=
  ShardRing.num_virtual_nodes h = n
  /\ ring_sorted (ShardRing.ring h)
  /\ forall id, virtual_nodes_of id (ShardRing.ring h)
                = if set_mem (ShardRing.nodes h) id then Z.to_nat n else O.

(** What happens to the membership of a node: an initial cluster node is
    added, or the cluster manager is called. *)
Inductive member_op (clock : Type) : Type :=
| Initial_node (id h : string) (p : Z) (now : clock)
| Cluster_add (id h : string) (p : Z) (now : clock)
| Cluster_remove (id : string)
| Cluster_heartbeat (id : string) (now : clock)
| Cluster_monitor (now : clock).

Arguments Cluster_remove {clock} id.

Definition member_call (clock : Type)
    (timed_out : clock -> clock -> clock -> bool) (hash_key : string -> Z)
    (m : Membership.t clock) (op : member_op clock) : Membership.t clock :=
  match op with
  | Initial_node id h p now => Membership.add_cluster_node hash_key id h p now m
  | Cluster_add id h p now =>
      Membership.on_cluster hash_key (ClusterManager.add_node id h p now) m
  | Cluster_remove id =>
      Membership.on_cluster hash_key (ClusterManager.remove_node id) m
  | Cluster_heartbeat id now =>
      Membership.on_cluster hash_key (ClusterManager.update_heartbeat id now) m
  | Cluster_monitor now =>
      Membership.on_cluster hash_key
        (ClusterManager.monitor_round timed_out now) m
  end.

(** The members of the shard ring of a node. *)
Definition on_shard_ring (clock : Type) (m : Membership.t clock)
    (id : string) : bool :=
  set_mem (ShardRing.nodes (ShardRing.hash_ring (Membership.shard_manager m)))
    id.

(** The cluster manager knows the node and holds it for alive. *)
Definition alive (clock : Type) (cm : ClusterManager.t clock) (id : string)
    : bool :=
  match ClusterManager.get_node_info id cm with
  | Some info => ClusterManager.is_alive info
  | None => false
  end.

(** What the membership of a node keeps. *)
Definition membership_inv (clock : Type) (self : string)
    (m : Membership.t clock) : Prop :=
  ClusterManager.node_id (Membership.cluster_manager m) = self
  /\ ClusterManager.on_node_added (Membership.cluster_manager m) = true
  /\ ClusterManager.on_node_removed (Membership.cluster_manager m) = true
  /\ alive (Membership.cluster_manager m) self = true
  /\ on_shard_ring m self = true
  /\ forall id, on_shard_ring m id = true ->
                alive (Membership.cluster_manager m) id = true.

(* ================================================================== *)
(** * States used in the examples *)
(* ================================================================== *)

Module Examples.

Definition users_schema : schema := [("id", "INTEGER"); ("name", "TEXT")].

Definition alice : row := [("id", VInt 1); ("name", VStr "Alice")].

(** A fresh engine over empty directories. *)
Definition fresh_engine : engine := StorageEngine.init empty_disk 1000.

(** An engine holding the table [users], on a disk that stopped taking
    writes. *)
Definition engine_on_bad_disk : engine :=
  set_files (fun d => {| snapshot_json := snapshot_json d;
                         wal_log := wal_log d; io_error := true |})
    (run_ops [Create_table "users" users_schema] fresh_engine).

(** CREATE TABLE and nothing else, without a snapshot. *)
Definition created_only : engine :=
  run_ops [Create_table "users" users_schema] fresh_engine.

(** The stream of row identifiers of the examples. *)
Definition uuid_stream (n : nat) : string :=
  "uuid-" ++ NilZero.string_of_uint (Nat.to_uint n).

Definition fresh_executor : executor :=
  {| storage := fresh_engine; index_manager := [];
     uuid4 := uuid_stream; uuid_calls := 0 |}.

Definition plan (qt table : string) : ParsedQuery.t :=
  {| ParsedQuery.query_type := qt; ParsedQuery.table := table;
     ParsedQuery.columns := []; ParsedQuery.conditions := [];
     ParsedQuery.values := []; ParsedQuery.schema := [];
     ParsedQuery.order_by := []; ParsedQuery.limit := None;
     ParsedQuery.index_name := ""; ParsedQuery.index_columns := [];
     ParsedQuery.index_type := "btree" |}.

(** CREATE TABLE users (id INTEGER, name TEXT) *)
Definition create_users : ParsedQuery.t :=
  {| ParsedQuery.query_type := "CREATE_TABLE"; ParsedQuery.table := "users";
     ParsedQuery.columns := []; ParsedQuery.conditions := [];
     ParsedQuery.values := []; ParsedQuery.schema := users_schema;
     ParsedQuery.order_by := []; ParsedQuery.limit := None;
     ParsedQuery.index_name := ""; ParsedQuery.index_columns := [];
     ParsedQuery.index_type := "btree" |}.

(** INSERT INTO users (...) VALUES (...) with the values [r]. *)
Definition insert_users (r : row) : ParsedQuery.t :=
  {| ParsedQuery.query_type := "INSERT"; ParsedQuery.table := "users";
     ParsedQuery.columns := []; ParsedQuery.conditions := [];
     ParsedQuery.values := r; ParsedQuery.schema := [];
     ParsedQuery.order_by := []; ParsedQuery.limit := None;
     ParsedQuery.index_name := ""; ParsedQuery.index_columns := [];
     ParsedQuery.index_type := "btree" |}.

(** CREATE INDEX name ON users (cols) USING kind *)
Definition create_index_users (name : string) (cols : list string)
    (kind : string) : ParsedQuery.t :=
  {| ParsedQuery.query_type := "CREATE_INDEX"; ParsedQuery.table := "users";
     ParsedQuery.columns := []; ParsedQuery.conditions := [];
     ParsedQuery.values := []; ParsedQuery.schema := [];
     ParsedQuery.order_by := []; ParsedQuery.limit := None;
     ParsedQuery.index_name := name; ParsedQuery.index_columns := cols;
     ParsedQuery.index_type := kind |}.

(** SELECT * FROM users WHERE conds *)
Definition select_users (conds : row) : ParsedQuery.t :=
  {| ParsedQuery.query_type := "SELECT"; ParsedQuery.table := "users";
     ParsedQuery.columns := ["*"]; ParsedQuery.conditions := conds;
     ParsedQuery.values := []; ParsedQuery.schema := [];
     ParsedQuery.order_by := []; ParsedQuery.limit := None;
     ParsedQuery.index_name := ""; ParsedQuery.index_columns := [];
     ParsedQuery.index_type := "btree" |}.

(** UPDATE users SET vals WHERE conds *)
Definition update_users (vals conds : row) : ParsedQuery.t :=
  {| ParsedQuery.query_type := "UPDATE"; ParsedQuery.table := "users";
     ParsedQuery.columns := []; ParsedQuery.conditions := conds;
     ParsedQuery.values := vals; ParsedQuery.schema := [];
     ParsedQuery.order_by := []; ParsedQuery.limit := None;
     ParsedQuery.index_name := ""; ParsedQuery.index_columns := [];
     ParsedQuery.index_type := "btree" |}.

(** The executor after the plans [qs], run in order. *)
Definition after (qs : list ParsedQuery.t) : executor :=
  fold_left (fun x q => snd (QueryExecutor.execute q x)) qs fresh_executor.

(** A node of a cluster of two that has not been elected, with the table
    [users] and one row. *)
Definition follower : Node.t :=
  {| Node.node_id := "node1";
     Node.query_executor := after [create_users; insert_users alice];
     Node.raft := Raft.init "node1" ["node1"; "node2"] |}.

Definition products_schema : schema := [("id", "INTEGER"); ("price", "INTEGER")].

(** CREATE TABLE p (id INTEGER, price INTEGER) *)
Definition create_products : ParsedQuery.t :=
{| ParsedQuery.query_type := "CREATE_TABLE"; ParsedQuery.table := "p";
   ParsedQuery.columns := []; ParsedQuery.conditions := [];
   ParsedQuery.values := []; ParsedQuery.schema := products_schema;
   ParsedQuery.order_by := []; ParsedQuery.limit := None;
   ParsedQuery.index_name := ""; ParsedQuery.index_columns := [];
   ParsedQuery.index_type := "btree" |}.

(** INSERT INTO p (...) VALUES (...) with the values [r]. *)
Definition insert_product (r : row) : ParsedQuery.t :=
{| ParsedQuery.query_type := "INSERT"; ParsedQuery.table := "p";
   ParsedQuery.columns := []; ParsedQuery.conditions := [];
   ParsedQuery.values := r; ParsedQuery.schema := [];
   ParsedQuery.order_by := []; ParsedQuery.limit := None;
   ParsedQuery.index_name := ""; ParsedQuery.index_columns := [];
   ParsedQuery.index_type := "btree" |}.

(** SELECT * FROM p ORDER BY ob LIMIT lim *)
Definition select_products (ob : list (string * string)) (lim : option Z)
    : ParsedQuery.t :=
{| ParsedQuery.query_type := "SELECT"; ParsedQuery.table := "p";
   ParsedQuery.columns := ["*"]; ParsedQuery.conditions := [];
   ParsedQuery.values := []; ParsedQuery.schema := [];
   ParsedQuery.order_by := ob; ParsedQuery.limit := lim;
   ParsedQuery.index_name := ""; ParsedQuery.index_columns := [];
   ParsedQuery.index_type := "btree" |}.

Definition product (id price : Z) : row :=
[("id", VInt id); ("price", VInt price)].

(** The table of the fourth scenario of the specification. *)
Definition products : executor :=
after [create_products; insert_product (product 1 100);
       insert_product (product 2 200); insert_product (product 3 150)].

Definition products_with_tie : executor :=
snd (QueryExecutor.execute (insert_product (product 4 100)) products).

(** A parser that gives the plan [q] for every statement. *)
Definition parsed_as (q : ParsedQuery.t) (sql : string)
    : outcome ParsedQuery.t := Return q.

(** The table [users] with the hash index [by_id] on [id] and one row. *)
Definition indexed_users : executor :=
after [create_users; create_index_users "by_id" ["id"] "hash";
       insert_users alice].

(** UPDATE users SET nickname = 1 WHERE id = 1; [users] has no column
    [nickname]. *)
Definition update_unknown_column : ParsedQuery.t :=
update_users [("nickname", VInt 1)] [("id", VInt 1)].

(** An engine holding the table [users] and one row. *)
Definition one_user : engine :=
run_ops [Create_table "users" users_schema; Put "users" "k1" alice]
  fresh_engine.

Definition bob : row := [("id", VInt 2); ("name", VStr "Bob")].

(** The table [users] with the B-tree index [by_id] on [id] and two
    rows. *)
Definition two_users : executor :=
after [create_users; create_index_users "by_id" ["id"] "btree";
       insert_users alice; insert_users bob].

(** A table with a column named [self], a B-tree index on it, and one
    row. *)
Definition table_with_self : executor :=
after [{| ParsedQuery.query_type := "CREATE_TABLE"; ParsedQuery.table := "t";
          ParsedQuery.columns := []; ParsedQuery.conditions := [];
          ParsedQuery.values := [];
          ParsedQuery.schema := [("self", "INTEGER"); ("v", "INTEGER")];
          ParsedQuery.order_by := []; ParsedQuery.limit := None;
          ParsedQuery.index_name := ""; ParsedQuery.index_columns := [];
          ParsedQuery.index_type := "btree" |};
       {| ParsedQuery.query_type := "CREATE_INDEX"; ParsedQuery.table := "t";
          ParsedQuery.columns := []; ParsedQuery.conditions := [];
          ParsedQuery.values := []; ParsedQuery.schema := [];
          ParsedQuery.order_by := []; ParsedQuery.limit := None;
          ParsedQuery.index_name := "by_self";
          ParsedQuery.index_columns := ["self"];
          ParsedQuery.index_type := "btree" |};
       {| ParsedQuery.query_type := "INSERT"; ParsedQuery.table := "t";
          ParsedQuery.columns := []; ParsedQuery.conditions := [];
          ParsedQuery.values := [("self", VInt 1); ("v", VInt 5)];
          ParsedQuery.schema := [];
          ParsedQuery.order_by := []; ParsedQuery.limit := None;
          ParsedQuery.index_name := ""; ParsedQuery.index_columns := [];
          ParsedQuery.index_type := "btree" |}].

(** SELECT * FROM t WHERE self = 1 ORDER BY v *)
Definition select_self : ParsedQuery.t :=
{| ParsedQuery.query_type := "SELECT"; ParsedQuery.table := "t";
   ParsedQuery.columns := ["*"]; ParsedQuery.conditions := [("self", VInt 1)];
   ParsedQuery.values := []; ParsedQuery.schema := [];
   ParsedQuery.order_by := [("v", "ASC")]; ParsedQuery.limit := None;
   ParsedQuery.index_name := ""; ParsedQuery.index_columns := [];
   ParsedQuery.index_type := "btree" |}.

(** A stand-in for the digest: the length of the text. *)
Definition short_hash (s : string) : Z := Z.of_nat (String.length s).

(** A ring of two virtual nodes for each of two nodes. *)
Definition two_node_ring : ShardRing.HashRing :=
  ShardRing.add_node short_hash "n2"
    (ShardRing.add_node short_hash "n1" (ShardRing.init 2)).

(** The sole node of its cluster, after its first election timeout, with
    the table [users]. *)
Definition leader : Node.t :=
{| Node.node_id := "node1";
   Node.query_executor := after [create_users];
   Node.raft := Raft._on_election_timeout (Raft.init "node1" ["node1"]) |}.

End Examples.

(* ================================================================== *)
(** * Properties *)
(* ================================================================== *)

(** ** Dictionaries with string keys *)

Section DictFacts.
Context {V : Type}.
Implicit Types (d : dict string V) (k : string) (v : V).

Lemma dict_get_set_eq d k v :
  dict_get String.eqb (dict_set String.eqb d k v) k = Some v.
Proof.
  induction d as [|[k' v'] d IH]; simpl.
  - now rewrite String.eqb_refl.
  - destruct (String.eqb k k') eqn:E; simpl; rewrite E; auto.
Qed.

Lemma dict_get_set_neq d k k' v :
  k' <> k ->
  dict_get String.eqb (dict_set String.eqb d k v) k'
  = dict_get String.eqb d k'.
Proof.
  intros N. induction d as [|[k0 v0] d IH]; simpl.
  - apply String.eqb_neq in N. now rewrite N.
  - destruct (String.eqb k k0) eqn:E; simpl.
    + apply String.eqb_eq in E. subst k0.
      apply String.eqb_neq in N. now rewrite N.
    + destruct (String.eqb k' k0); auto.
Qed.

Lemma dict_get_del_eq d k :
  dict_get String.eqb (dict_del String.eqb d k) k = None.
Proof.
  induction d as [|[k' v'] d IH]; simpl; auto.
  destruct (String.eqb k k') eqn:E; simpl; auto. now rewrite E.
Qed.

Lemma dict_get_del_neq d k k' :
  k' <> k ->
  dict_get String.eqb (dict_del String.eqb d k) k'
  = dict_get String.eqb d k'.
Proof.
  intros N. induction d as [|[k0 v0] d IH]; simpl; auto.
  destruct (String.eqb k k0) eqn:E; simpl.
  - apply String.eqb_eq in E. subst k0.
    apply String.eqb_neq in N. now rewrite N.
  - destruct (String.eqb k' k0); auto.
Qed.
End DictFacts.

(** ** C2: the order of the WAL append and the in-memory mutation *)

(** C2. The specification asks that a mutating storage operation append to
    the WAL before it touches the maps in memory, so that a failed append
    leaves them as they were. [put] does it the other way round: when the
    write to the log fails, [put] raises, the log is as before, and the row
    is in memory all the same. *)
Theorem put_mutates_before_wal_append :
  forall (e : engine) (table key : string) (value : row) (sch : schema),
    dict_get String.eqb (schemas e) table = Some sch ->
    StorageEngine.unknown_column sch value = None ->
    io_error (files e) = true ->
    let (res, e') := StorageEngine.put table key value e in
    (exists err, res = Raise err)
    /\ StorageEngine.get e' table key = Some value
    /\ wal_log (files e') = wal_log (files e).
Proof.
  intros e table key value sch Hs Hc Hio.
  unfold StorageEngine.put. rewrite Hs, Hc.
  unfold bind, modify, StorageEngine.wal, WriteAheadLog.append. simpl.
  destruct (forallb packable (dict_values value)); simpl;
    [rewrite Hio|]; simpl;
    (split; [eexists; reflexivity|]); (split; [|reflexivity]);
    unfold StorageEngine.get; simpl;
    rewrite dict_get_set_eq; apply dict_get_set_eq.
Qed.

Lemma put_mutates_before_wal_append_witness :
  let e := Examples.engine_on_bad_disk in
  StorageEngine.get e "users" "k1" = None
  /\ let (res, e') := StorageEngine.put "users" "k1" Examples.alice e in
     (exists err, res = Raise err)
     /\ StorageEngine.get e' "users" "k1" = Some Examples.alice
     /\ wal_log (files e') = wal_log (files e).
Proof.
  split; [reflexivity|].
  apply (put_mutates_before_wal_append Examples.engine_on_bad_disk
           "users" "k1" Examples.alice (sch := Examples.users_schema));
    reflexivity.
Defined.

(** The three other mutating operations have the same order. *)
Lemma create_drop_delete_mutate_before_wal_append :
  let e := Examples.engine_on_bad_disk in
  (let (res, e') := StorageEngine.create_table "t" [("c", "TEXT")] e in
   res = Raise (OSError "write failed")
   /\ StorageEngine.get_schema e' "t" = Some [("c", "TEXT")])
  /\ (let (res, e') := StorageEngine.drop_table "users" e in
      res = Raise (OSError "write failed")
      /\ StorageEngine.get_schema e' "users" = None)
  /\ (let e1 := set_tables (fun _ => [("users", [("k1", Examples.alice)])]) e in
      let (res, e') := StorageEngine.delete "users" "k1" e1 in
      res = Raise (OSError "write failed")
      /\ StorageEngine.get e' "users" "k1" = None).
Proof. repeat split. Qed.

(** ** C3: recovery against direct application *)

(** C3. After CREATE TABLE alone, the engine holds an empty row map for the
    table; the engine re-opened over the same directories holds the schema
    but no row map, because the replay of a CREATE_TABLE record sets the
    schema only. The two [tables] maps differ, and [drop_table] on the
    re-opened engine raises [KeyError] after it has removed the schema. *)
Theorem recovery_loses_empty_table :
  let direct := Examples.created_only in
  let reopened := restart direct in
  tables direct = [("users", [])]
  /\ tables reopened = []
  /\ schemas reopened = schemas direct
  /\ fst (StorageEngine.drop_table "users" direct) = Return tt
  /\ fst (StorageEngine.drop_table "users" reopened) = Raise (KeyError "users")
  /\ StorageEngine.get_schema
       (snd (StorageEngine.drop_table "users" reopened)) "users" = None
  /\ wal_log (files (snd (StorageEngine.drop_table "users" reopened)))
     = wal_log (files reopened).
Proof. repeat split. Qed.

(** ** Strings *)

Lemma append_assoc (a b c : string) : (a ++ b) ++ c = a ++ (b ++ c).
Proof. induction a; simpl; congruence. Qed.

Lemma rev_onto_app s acc : Str.rev_onto s acc = Str.reverse s ++ acc.
Proof.
  unfold Str.reverse. revert acc.
  induction s as [|c s IH]; intros acc; simpl; auto.
  rewrite IH. rewrite (IH (String c EmptyString)).
  now rewrite append_assoc.
Qed.

Lemma reverse_cons c s :
  Str.reverse (String c s) = Str.reverse s ++ String c EmptyString.
Proof. unfold Str.reverse at 1. simpl. apply rev_onto_app. Qed.

Lemma append_empty_r s : s ++ EmptyString = s.
Proof. induction s; simpl; congruence. Qed.

Lemma reverse_app a b : Str.reverse (a ++ b) = Str.reverse b ++ Str.reverse a.
Proof.
  induction a as [|c a IH]; simpl.
  - now rewrite append_empty_r.
  - rewrite !reverse_cons, IH. now rewrite append_assoc.
Qed.

Lemma reverse_involutive s : Str.reverse (Str.reverse s) = s.
Proof.
  induction s as [|c s IH]; auto.
  rewrite reverse_cons, reverse_app, IH. reflexivity.
Qed.

(** ** Regular expressions *)

Lemma first_down_none {A} (f : nat -> option A) k lo :
  (forall i, (lo <= i <= k)%nat -> f i = None) ->
  Re.first_down f k lo = None.
Proof.
  induction k as [|k IH]; intros H; simpl.
  - destruct (Nat.ltb 0 lo) eqn:E; auto.
    apply Nat.ltb_ge in E. rewrite H by lia. reflexivity.
  - destruct (Nat.ltb (S k) lo) eqn:E; auto.
    apply Nat.ltb_ge in E. rewrite H by lia.
    destruct (Nat.eq_dec lo (S k)) as [->|N].
    + destruct k; simpl.
      * reflexivity.
      * replace (Nat.ltb (S k) (S (S k))) with true; auto.
        symmetry. apply Nat.ltb_lt. lia.
    + apply IH. intros i Hi. apply H. lia.
Qed.

(** Inside a run of a class, the text from any place on starts with a
    character of the class. *)
Lemma skip_in_run p s n :
  (n < Re.run_length p s)%nat ->
  exists c t, Str.skip n s = String c t /\ p c = true
              /\ Str.skip (S n) s = t.
Proof.
  revert s. induction n as [|n IH]; intros s H.
  - destruct s as [|c t]; simpl in H; [lia|].
    destruct (p c) eqn:E; [|lia]. exists c, t. auto.
  - destruct s as [|c t]; simpl in H; [lia|].
    destruct (p c) eqn:E; [|lia].
    destruct (IH t) as (c' & t' & H1 & H2 & H3); [lia|].
    exists c', t'. auto.
Qed.

Lemma no_equality_tail c s :
  no_equality (String c s) = true -> no_equality s = true.
Proof.
  destruct s as [|d s]; auto. cbn [no_equality].
  intros H. apply andb_true_iff in H. tauto.
Qed.

Lemma no_equality_skip n s :
  no_equality s = true -> no_equality (Str.skip n s) = true.
Proof.
  revert s. induction n as [|n IH]; intros s H; simpl; auto.
  destruct s as [|c s]; auto. apply IH. eapply no_equality_tail; eauto.
Qed.

(** After a word character or a blank, such a text does not go on
    with [=]. *)
Lemma no_equality_next c t re cur groups :
  no_equality (String c t) = true ->
  Str.is_word c || Str.is_space c = true ->
  Re.match_at (Re.lit "=" :: re) t cur groups = None.
Proof.
  intros H Hc. destruct t as [|d t]; auto.
  cbn [no_equality] in H. rewrite Hc in H. simpl in H.
  apply andb_true_iff in H. destruct H as [H _].
  apply negb_true_iff in H. unfold Re.lit.
  change (Re.match_at (Re.Chr (Ascii.eqb "=") :: re) (String d t) cur groups)
    with (if Ascii.eqb "=" d
          then Re.match_at re t (Re.push (String d EmptyString) cur) groups
          else None).
  rewrite Ascii.eqb_sym, H. reflexivity.
Qed.

Lemma match_at_open re s cur groups :
  Re.match_at (Re.Open :: re) s cur groups
  = Re.match_at re s (Some EmptyString) groups.
Proof. reflexivity. Qed.

Lemma match_at_close re s cur groups :
  Re.match_at (Re.Close :: re) s cur groups
  = Re.match_at re s None
      (match cur with Some buf => buf :: groups | None => groups end).
Proof. reflexivity. Qed.

Lemma match_at_star p re s cur groups :
  Re.match_at (Re.Star p :: re) s cur groups
  = Re.first_down (fun k =>
      Re.match_at re (Str.skip k s) (Re.push (Str.take k s) cur) groups)
      (Re.run_length p s) 0.
Proof. reflexivity. Qed.

Lemma match_at_plus p re s cur groups :
  Re.match_at (Re.Plus p :: re) s cur groups
  = Re.first_down (fun k =>
      Re.match_at re (Str.skip k s) (Re.push (Str.take k s) cur) groups)
      (Re.run_length p s) 1.
Proof. reflexivity. Qed.

Lemma equality_re_no_match_at s cur groups :
  no_equality s = true ->
  Re.match_at SQLParser.equality_re s cur groups = None.
Proof.
  intros H. unfold SQLParser.equality_re.
  rewrite match_at_open, match_at_plus.
  apply first_down_none. intros k Hk.
  rewrite match_at_close, match_at_star.
  apply first_down_none. intros j Hj.
  destruct (skip_in_run Str.is_word s (n := k - 1)) as (c & t & E1 & Hc & E2);
    [lia|].
  replace (S (k - 1)) with k in E2 by lia.
  assert (Hck : no_equality (String c t) = true).
  { rewrite <- E1. now apply no_equality_skip. }
  destruct j as [|j].
  - change (Str.skip 0 (Str.skip k s)) with (Str.skip k s). rewrite E2.
    eapply no_equality_next; eauto. now rewrite Hc.
  - destruct (skip_in_run Str.is_space (Str.skip k s) (n := j))
      as (c' & t' & E3 & Hc' & E4); [lia|].
    rewrite E4. eapply no_equality_next with (c := c').
    + rewrite <- E3. apply no_equality_skip. now apply no_equality_skip.
    + rewrite Hc'. apply orb_true_r.
Qed.

Lemma equality_re_no_match s :
  no_equality s = true -> Re.search SQLParser.equality_re s = None.
Proof.
  induction s as [|c s IH]; intros H.
  - reflexivity.
  - cbn [Re.search]. rewrite equality_re_no_match_at by assumption.
    rewrite IH; auto. eapply no_equality_tail; eauto.
Qed.

(** ** C10: predicates that are not equalities *)

(** C10, as the code has it. A predicate of ASCII text in which no [=]
    comes right after a word character or a blank, as in [col > v] or
    [col != v] with no [=] inside [v], adds no entry to the conditions,
    and the conditions of the clause are those of the other predicates. *)
Theorem non_equality_predicate_is_dropped :
  forall (part : string),
    Str.is_ascii part = true ->
    no_equality (Str.strip part) = true ->
    (forall conditions : row, SQLParser.where_part conditions part = conditions)
    /\ (forall before after : list string,
          fold_left SQLParser.where_part (before ++ part :: after)%list []
          = fold_left SQLParser.where_part (before ++ after)%list []).
Proof.
  intros part _ H.
  assert (E : forall conditions, SQLParser.where_part conditions part = conditions).
  { intros conditions. unfold SQLParser.where_part.
    now rewrite equality_re_no_match. }
  split; [exact E|]. intros before after.
  rewrite !fold_left_app. simpl. now rewrite E.
Qed.

Lemma non_equality_predicate_is_dropped_witness :
  Str.is_ascii "price > 100" = true
  /\ no_equality (Str.strip "price > 100") = true
  /\ (forall conditions : row,
        SQLParser.where_part conditions "price > 100" = conditions)
  /\ (forall before after : list string,
        fold_left SQLParser.where_part
          (before ++ "price > 100" :: after)%list []
        = fold_left SQLParser.where_part (before ++ after)%list []).
Proof.
  split; [reflexivity|]. split; [reflexivity|].
  apply (non_equality_predicate_is_dropped "price > 100"); reflexivity.
Defined.

(** The clause as a whole, on the operators the claim names. *)
Lemma where_drops_comparisons :
  SQLParser._parse_where "WHERE price > 100 AND id = 7" = [("id", VInt 7)]
  /\ SQLParser._parse_where "WHERE id = 7 AND name != 'Bob'" = [("id", VInt 7)]
  /\ SQLParser._parse_where "WHERE age >= 18" = []
  /\ SQLParser._parse_where "WHERE id = 7" = [("id", VInt 7)].
Proof. repeat split. Qed.

(** C10, as stated, fails: the predicate [name != 'a=b'] is not an
    equality, and it adds the condition [a = 'b'], because the pattern is
    searched for anywhere in the predicate, also inside the value. *)
Lemma inequality_with_equals_in_value_adds_condition :
  SQLParser._parse_where "WHERE name != 'a=b'" = [("a", VStr "b")]
  /\ SQLParser._parse_where "WHERE name != 'a=b'" <> []
  /\ SQLParser._parse_where "WHERE id = 7 AND name != 'a=b'"
     <> SQLParser._parse_where "WHERE id = 7".
Proof. repeat split; try reflexivity; discriminate. Qed.

(** ** C6 and C9: the coordinator *)

Lemma execute_query_body_node_id parse sql n :
  Node.node_id (snd (Node.execute_query_body parse sql n)) = Node.node_id n.
Proof.
  unfold Node.execute_query_body.
  destruct (parse sql) as [q|e]; [|reflexivity].
  assert (R : forall n1,
    Node.node_id (snd (let (res, x) :=
        QueryExecutor.execute q (Node.query_executor n1) in
      match res with
      | Return r =>
          (Return (tag_result r (Node.node_id n1)
                     (ReplicationManager.is_leader (Node.raft n1))),
           {| Node.node_id := Node.node_id n1; Node.query_executor := x;
              Node.raft := Node.raft n1 |})
      | Raise e =>
          (Raise e, {| Node.node_id := Node.node_id n1;
                       Node.query_executor := x;
                       Node.raft := Node.raft n1 |})
      end)) = Node.node_id n1).
  { intros n1.
    destruct (QueryExecutor.execute q (Node.query_executor n1)) as [[r|e] x];
      reflexivity. }
  destruct (Node.is_write (ParsedQuery.query_type q)); [|apply R].
  destruct (negb (ReplicationManager.is_leader (Node.raft n))); [reflexivity|].
  destruct (ReplicationManager.replicate_write _ _ _) as [[[|]|e] [r x]];
    try reflexivity.
  apply (R {| Node.node_id := Node.node_id n; Node.query_executor := x;
              Node.raft := r |}).
Qed.

Lemma is_write_kinds qt :
  Node.is_write qt = true
  <-> In qt ["INSERT"; "UPDATE"; "DELETE"; "CREATE_TABLE"; "DROP_TABLE"].
Proof.
  unfold Node.is_write, Node.write_types. rewrite existsb_exists. split.
  - intros (k & I & E). apply String.eqb_eq in E. now subst.
  - intros I. exists qt. split; [exact I|apply String.eqb_refl].
Qed.

(** C6, as the code has it. On a node that is not the leader, a plan of
    one of the five kinds INSERT, UPDATE, DELETE, CREATE_TABLE and
    DROP_TABLE gets the error result with [is_leader = false], and the
    node, its storage and its indexes included, is as before. A plan of
    any other kind, SELECT and also CREATE_INDEX and DROP_INDEX among
    them, goes to the executor without a look at the leadership: the
    result is the executor's, with the node id and [is_leader = false]
    added, or the error result of what the executor raised, and the state
    of the executor is the one that the executor left. *)
Theorem writes_are_rejected_off_leader :
  forall (parse : string -> outcome ParsedQuery.t) (sql : string)
         (n : Node.t) (q : ParsedQuery.t),
    parse sql = Return q ->
    Raft.is_leader (Node.raft n) = false ->
    (In (ParsedQuery.query_type q)
        ["INSERT"; "UPDATE"; "DELETE"; "CREATE_TABLE"; "DROP_TABLE"] ->
     Node.execute_query parse sql n
     = (error "Not the leader, cannot write" None (Some false), n))
    /\ (In (ParsedQuery.query_type q) ["SELECT"; "CREATE_INDEX"; "DROP_INDEX"]
        \/ ~ In (ParsedQuery.query_type q)
               ["INSERT"; "UPDATE"; "DELETE"; "CREATE_TABLE"; "DROP_TABLE"] ->
        Node.execute_query parse sql n
        = (match fst (QueryExecutor.execute q (Node.query_executor n)) with
           | Return r => tag_result r (Node.node_id n) false
           | Raise e => error (str_exn e) (Some (Node.node_id n)) None
           end,
           {| Node.node_id := Node.node_id n;
              Node.query_executor :=
                snd (QueryExecutor.execute q (Node.query_executor n));
              Node.raft := Node.raft n |})).
Proof.
  intros parse sql n q Hp Hl. unfold Node.execute_query, Node.execute_query_body.
  rewrite Hp. split; intros Hw.
  - apply is_write_kinds in Hw. rewrite Hw.
    unfold ReplicationManager.is_leader. rewrite Hl. reflexivity.
  - assert (Nw : Node.is_write (ParsedQuery.query_type q) = false).
    { destruct (Node.is_write (ParsedQuery.query_type q)) eqn:W; auto.
      apply is_write_kinds in W. destruct Hw as [Hw|Hw]; [|contradiction].
      exfalso. simpl in Hw, W.
      repeat match goal with
             | H : _ \/ _ |- _ => destruct H as [H|H]
             end; try contradiction; rewrite <- Hw in W; discriminate. }
    rewrite Nw.
    destruct (QueryExecutor.execute q (Node.query_executor n)) as [[r|e] x];
      cbn [fst snd]; unfold ReplicationManager.is_leader; cbn [Node.raft];
      rewrite ?Hl; reflexivity.
Qed.

Lemma writes_are_rejected_off_leader_witness :
  let q := Examples.update_users [("name", VStr "Bob")] [("id", VInt 1)] in
  let sql := "UPDATE users SET name = 'Bob' WHERE id = 1" in
  let q' := Examples.select_users [] in
  let sql' := "SELECT * FROM users" in
  Node.execute_query (Examples.parsed_as q) sql Examples.follower
  = (error "Not the leader, cannot write" None (Some false), Examples.follower)
  /\ Node.execute_query (Examples.parsed_as q') sql' Examples.follower
     = ({| status := "success"; message := None; rows_affected := None;
           rows := Some [[("id", VInt 1); ("name", VStr "Alice");
                          ("_key", VStr "uuid-0")]];
           row_count := Some 1%Z; inserted_key := None;
           node_id := Some "node1"; is_leader := Some false |},
        Examples.follower).
Proof.
  intros q sql q' sql'. split.
  - apply (@writes_are_rejected_off_leader (Examples.parsed_as q) sql
             Examples.follower q eq_refl eq_refl).
    simpl. auto.
  - rewrite (proj2 (@writes_are_rejected_off_leader (Examples.parsed_as q')
                      sql' Examples.follower q' eq_refl eq_refl)).
    + reflexivity.
    + left. simpl. auto.
Defined.

(** C6, as stated, fails: CREATE INDEX is a CREATE statement, and on a node
    that is not the leader it succeeds and registers the index. *)
Lemma create_index_runs_off_leader :
  let q := Examples.create_index_users "idx_id" ["id"] "hash" in
  let sql := "CREATE INDEX idx_id ON users (id) USING HASH" in
  let (r, n') := Node.execute_query (Examples.parsed_as q) sql Examples.follower in
  Raft.is_leader (Node.raft Examples.follower) = false
  /\ status r = "success"
  /\ is_leader r = Some false
  /\ IndexManager.get_index
       (index_manager (Node.query_executor Examples.follower)) "users" "idx_id"
     = None
  /\ IndexManager.get_index
       (index_manager (Node.query_executor n')) "users" "idx_id"
     = Some (HashIndex "users" ["id"] [([VInt 1], ["uuid-0"])]).
Proof. repeat split. Qed.

(** C9. [execute_query] returns a result for every statement: when the
    parser, the consensus log or the executor raises [e], the result is the
    error result with [str(e)] as message and the node id; otherwise it is
    the result of the body. *)
Theorem execute_query_catches_exceptions :
  forall (parse : string -> outcome ParsedQuery.t) (sql : string) (n : Node.t),
    let (r, n') := Node.execute_query parse sql n in
    n' = snd (Node.execute_query_body parse sql n)
    /\ match fst (Node.execute_query_body parse sql n) with
       | Raise e =>
           status r = "error"
           /\ message r = Some (str_exn e)
           /\ node_id r = Some (Node.node_id n)
       | Return r0 => r = r0
       end
    /\ match parse sql with
       | Raise e => r = error (str_exn e) (Some (Node.node_id n)) None /\ n' = n
       | Return _ => True
       end.
Proof.
  intros parse sql n.
  pose proof (execute_query_body_node_id parse sql n) as Hid.
  unfold Node.execute_query.
  destruct (Node.execute_query_body parse sql n) as [[r|e] n'] eqn:E;
    simpl in *.
  - repeat split; auto.
    destruct (parse sql) eqn:P; auto.
    unfold Node.execute_query_body in E. rewrite P in E. discriminate.
  - repeat split; auto; try (now rewrite Hid).
    destruct (parse sql) eqn:P; auto.
    unfold Node.execute_query_body in E. rewrite P in E.
    inversion E; subst. auto.
Qed.

(** Three statements that go wrong: one the parser rejects, one of a kind
    the executor does not know, and one that the storage engine refuses. *)
Lemma execute_query_error_results :
  fst (Node.execute_query (fun _ => Raise (ValueError "Unknown query type"))
         "EXPLAIN SELECT 1" Examples.follower)
  = error "Unknown query type" (Some "node1") None
  /\ fst (Node.execute_query (Examples.parsed_as (Examples.plan "MERGE" "users"))
            "MERGE" Examples.follower)
     = error "Unknown query type: MERGE" (Some "node1") None
  /\ fst (Node.execute_query
            (Examples.parsed_as (Examples.select_users []))
            "SELECT * FROM users" Examples.follower)
     = {| status := "success"; message := None; rows_affected := None;
          rows := Some [[("id", VInt 1); ("name", VStr "Alice");
                         ("_key", VStr "uuid-0")]];
          row_count := Some 1%Z; inserted_key := None;
          node_id := Some "node1"; is_leader := Some false |}.
Proof. repeat split. Qed.

(** ** C7: the order of the apply callback *)

Lemma raft_inv_core r r' tr :
  raft_core r' = raft_core r -> raft_inv r tr -> raft_inv r' tr.
Proof.
  unfold raft_core, raft_inv, Raft.len. intros E.
  inversion E as [[E1 E2 E3]]. now rewrite E1, E2, E3.
Qed.

Lemma firstn_succ_nth {A} (l : list A) n x :
  nth_error l n = Some x -> firstn (S n) l = (firstn n l ++ [x])%list.
Proof.
  revert n. induction l as [|a l IH]; intros [|n] H; simpl in *;
    try discriminate.
  - now inversion H.
  - f_equal. now apply IH.
Qed.

Lemma with_last_applied_same r :
  Raft.with_last_applied (Raft.last_applied r) r = r.
Proof. now destruct r. Qed.

Lemma recording_run {W} (cb : command -> M W unit) c w tr :
  recording cb c (w, tr)
  = (fst (cb c w), (snd (cb c w), (tr ++ [c])%list)).
Proof. unfold recording. simpl. now destruct (cb c w). Qed.

(** The loop of [_apply_committed_entries]. *)
Lemma apply_loop_spec {W} (cb : command -> M W unit) n :
  forall r w tr,
    raft_inv r tr ->
    exists res la w' tr',
      Raft.apply_loop (Some (recording cb)) n (r, (w, tr))
      = (res, (Raft.with_last_applied la r, (w', tr')))
      /\ raft_inv (Raft.with_last_applied la r) tr'
      /\ ((forall c w0, fst (cb c w0) = Return tt) ->
          res = Return tt
          /\ ((Raft.commit_index r - Raft.last_applied r <= Z.of_nat n)%Z ->
              la = Raft.commit_index r)).
Proof.
  induction n as [|n IH]; intros r w tr Hinv.
  - exists (Return tt), (Raft.last_applied r), w, tr.
    rewrite with_last_applied_same. simpl.
    split; [reflexivity|]. split; [assumption|].
    intros _. split; [reflexivity|]. destruct Hinv as [H _]. lia.
  - cbn [Raft.apply_loop]. cbn [fst snd].
    destruct (Raft.last_applied r <? Raft.commit_index r)%Z eqn:E.
    2:{ exists (Return tt), (Raft.last_applied r), w, tr.
        rewrite with_last_applied_same.
        split; [reflexivity|]. split; [assumption|].
        intros _. split; [reflexivity|].
        apply Z.ltb_ge in E. destruct Hinv as [H _]. lia. }
    apply Z.ltb_lt in E.
    destruct Hinv as (H1 & H2 & H3 & H4).
    set (r1 := Raft.with_last_applied (Raft.last_applied r + 1) r).
    assert (Hlen : (Raft.last_applied r1 <=? Raft.len r1)%Z = true).
    { apply Z.leb_le. unfold r1, Raft.len in *. simpl. lia. }
    rewrite Hlen.
    destruct (nth_error (Raft.log r1)
                (Z.to_nat (Raft.last_applied r1 - 1))) as [en|] eqn:N.
    2:{ apply nth_error_None in N. unfold r1, Raft.len in *. simpl in *. lia. }
    assert (Hinv1 : raft_inv r1 (tr ++ [Raft.command_of en])%list).
    { unfold raft_inv, r1, Raft.len in *. simpl in *.
      repeat split; try lia; auto.
      replace (Z.to_nat (Raft.last_applied r + 1))
        with (S (Z.to_nat (Raft.last_applied r))) by lia.
      replace (Z.to_nat (Raft.last_applied r + 1 - 1))
        with (Z.to_nat (Raft.last_applied r)) in N by lia.
      rewrite (firstn_succ_nth _ _ N), map_app, H3. reflexivity. }
    unfold bind, Raft.on_world. cbn [fst snd].
    rewrite recording_run.
    destruct (cb (Raft.command_of en) w) as [[[]|e] w1] eqn:C; cbn [fst snd].
    + destruct (IH r1 w1 (tr ++ [Raft.command_of en])%list Hinv1)
        as (res & la & w' & tr' & E1 & E2 & E3).
      exists res, la, w', tr'. rewrite E1.
      split; [reflexivity|]. split; [exact E2|].
      intros Hcb. destruct (E3 Hcb) as [E4 E5]. split; [exact E4|].
      intros Hn. rewrite E5; [reflexivity|]. unfold r1. simpl. lia.
    + exists (Raise e), (Raft.last_applied r + 1)%Z, w1,
        (tr ++ [Raft.command_of en])%list.
      split; [reflexivity|]. split; [exact Hinv1|].
      intros Hcb. specialize (Hcb (Raft.command_of en) w).
      rewrite C in Hcb. discriminate.
Qed.

Lemma apply_committed_spec {W} (cb : command -> M W unit) r w tr :
  raft_inv r tr ->
  exists res la w' tr',
    Raft._apply_committed_entries (Some (recording cb)) (r, (w, tr))
    = (res, (Raft.with_last_applied la r, (w', tr')))
    /\ raft_inv (Raft.with_last_applied la r) tr'
    /\ ((forall c w0, fst (cb c w0) = Return tt) ->
        res = Return tt /\ la = Raft.commit_index r).
Proof.
  intros Hinv. unfold Raft._apply_committed_entries. cbn [fst].
  destruct (apply_loop_spec cb
              (Z.to_nat (Raft.commit_index r - Raft.last_applied r)) w Hinv)
    as (res & la & w' & tr' & E1 & E2 & E3).
  exists res, la, w', tr'. split; [exact E1|]. split; [exact E2|].
  intros Hcb. destruct (E3 Hcb) as [E4 E5]. split; [exact E4|].
  apply E5. destruct Hinv as [H _]. lia.
Qed.

Lemma become_leader_core r : raft_core (Raft._become_leader r) = raft_core r.
Proof.
  unfold Raft._become_leader, Raft._send_heartbeat.
  set (r1 := Raft.with_term _ _ _ r).
  assert (E : raft_core r1 = raft_core r) by reflexivity.
  rewrite <- E. clearbody r1.
  generalize (filter (fun n => negb (String.eqb n (Raft.node_id r1)))
                (Raft.all_nodes r1)).
  intros l. clear E. revert r1. induction l as [|x l IH]; intros r1; simpl; auto.
  rewrite IH. reflexivity.
Qed.

Lemma election_timeout_core r :
  raft_core (Raft._on_election_timeout r) = raft_core r.
Proof.
  unfold Raft._on_election_timeout, Raft._start_election.
  destruct (negb (Raft.is_leader r)); auto.
  destruct (Nat.eqb _ 1); auto. now rewrite become_leader_core.
Qed.

Lemma request_vote_core ct ci li lt r :
  raft_core (snd (Raft.request_vote ct ci li lt r)) = raft_core r.
Proof.
  unfold Raft.request_vote.
  destruct (Raft.current_term r <? ct)%Z;
    repeat match goal with
           | |- context [if ?b then _ else _] => destruct b
           end; reflexivity.
Qed.

(** One event keeps the invariant, and leaves the node caught up when the
    callback does not raise. *)
Lemma step_inv {W} (cb : command -> M W unit) ev r w tr :
  raft_inv r tr ->
  let s' := Raft.step (Some (recording cb)) ev (r, (w, tr)) in
  raft_inv (fst s') (snd (snd s'))
  /\ ((forall c w0, fst (cb c w0) = Return tt) ->
      caught_up r -> caught_up (fst s')).
Proof.
  intros Hinv. destruct ev as [c|lt li pi pt es lc|ct ci li lt|]; simpl.
  - (* append_entry *)
    unfold Raft.append_entry. cbn [fst snd].
    destruct (negb (Raft.is_leader r)) eqn:L; [simpl; auto|].
    set (en := {| Raft.term := Raft.current_term r; Raft.index := Raft.len r;
                  Raft.command_of := c |}).
    set (r1 := Raft.with_log (Raft.log r ++ [en])%list r).
    assert (H1 : raft_inv r1 tr).
    { destruct Hinv as (A & B & C & D).
      unfold raft_inv, r1, Raft.len in *. simpl.
      rewrite length_app. simpl. repeat split; try lia.
      - rewrite firstn_app.
        replace (Z.to_nat (Raft.last_applied r) - length (Raft.log r))%nat
          with 0%nat by lia.
        simpl. now rewrite app_nil_r.
      - intros i e' N.
        destruct (Nat.lt_ge_cases i (length (Raft.log r))) as [Lt|Ge].
        + rewrite nth_error_app1 in N by assumption. eauto.
        + rewrite nth_error_app2 in N by assumption.
          destruct (i - length (Raft.log r))%nat as [|k] eqn:K; simpl in N.
          * inversion N; subst e'. unfold en. simpl. lia.
          * destruct k; discriminate. }
    unfold bind, Raft._try_commit. cbn [fst snd].
    assert (Hl : Raft.is_leader r1 = true).
    { apply negb_false_iff in L. exact L. }
    rewrite Hl. cbn [andb].
    destruct (Raft.commit_index r1 <? Raft.len r1)%Z eqn:E.
    + set (r2 := Raft.with_commit_index (Raft.len r1) r1).
      assert (H2 : raft_inv r2 tr).
      { destruct H1 as (A & B & C & D). apply Z.ltb_lt in E.
        unfold raft_inv, r2, Raft.len in *. simpl in *.
        repeat split; try lia; auto. }
      destruct (apply_committed_spec cb w H2)
        as (res & la & w' & tr' & E1 & E2 & E3).
      rewrite E1. destruct res; simpl; (split; [exact E2|]);
        intros Hcb _; destruct (E3 Hcb) as [_ ->]; reflexivity.
    + simpl. split; [exact H1|].
      intros _ Hc. apply Z.ltb_ge in E.
      destruct H1 as (A & B & _). unfold caught_up in *.
      unfold r1, Raft.len in *. simpl in *. rewrite length_app in *.
      simpl in *. lia.
  - (* append_entries *)
    unfold Raft.append_entries. cbn [fst snd].
    set (r1 := if (Raft.current_term r <? lt)%Z
               then Raft.with_term lt None Raft.FOLLOWER r else r).
    assert (C1 : raft_core r1 = raft_core r).
    { unfold r1. destruct (Raft.current_term r <? lt)%Z; reflexivity. }
    assert (H1 : raft_inv r1 tr) by (eapply raft_inv_core; eauto).
    assert (K1 : caught_up r -> caught_up r1).
    { unfold caught_up. unfold raft_core in C1. inversion C1. congruence. }
    destruct (lt <? Raft.current_term r1)%Z; [simpl; auto|].
    destruct (Raft.commit_index r1 <? lc)%Z eqn:E; [|simpl; auto].
    set (r2 := Raft.with_commit_index (Z.min lc (Raft.len r1)) r1).
    assert (H2 : raft_inv r2 tr).
    { destruct H1 as (A & B & C & D). apply Z.ltb_lt in E.
      unfold raft_inv, r2, Raft.len in *. simpl in *.
      repeat split; try lia; auto. }
    unfold bind.
    destruct (apply_committed_spec cb w H2)
      as (res & la & w' & tr' & E1 & E2 & E3).
    rewrite E1. destruct res; simpl; (split; [exact E2|]);
      intros Hcb _; destruct (E3 Hcb) as [_ ->]; reflexivity.
  - (* request_vote *)
    pose proof (request_vote_core ct ci li lt r) as C1.
    split; [eapply raft_inv_core; eauto|].
    intros _. unfold caught_up, raft_core in *. inversion C1. congruence.
  - (* election timeout *)
    pose proof (election_timeout_core r) as C1.
    split; [eapply raft_inv_core; eauto|].
    intros _. unfold caught_up, raft_core in *. inversion C1. congruence.
Qed.

Lemma run_inv {W} (cb : command -> M W unit) evs :
  forall r w tr,
    raft_inv r tr ->
    let s' := Raft.run (Some (recording cb)) evs (r, (w, tr)) in
    raft_inv (fst s') (snd (snd s'))
    /\ ((forall c w0, fst (cb c w0) = Return tt) ->
        caught_up r -> caught_up (fst s')).
Proof.
  induction evs as [|ev evs IH]; intros r w tr Hinv; simpl.
  - auto.
  - pose proof (step_inv cb ev w Hinv) as [S1 S2].
    destruct (Raft.step (Some (recording cb)) ev (r, (w, tr)))
      as [r1 [w1 tr1]] eqn:E.
    simpl in S1, S2.
    destruct (IH r1 w1 tr1 S1) as [I1 I2]. split; auto.
Qed.

(** The actions keep the invariant while a callback is installed. *)
Lemma execution_inv {W} (acts : list (Raft.action W)) :
  forall (cb : command -> M W unit) r w tr,
    raft_inv r tr ->
    keeps_callback acts = true ->
    let s' := Raft.execution (map recorded acts)
                (Some (recording cb), (r, (w, tr))) in
    raft_inv (fst (snd s')) (snd (snd (snd s')))
    /\ ((forall c w0, fst (cb c w0) = Return tt) ->
        callbacks_return acts ->
        caught_up r -> caught_up (fst (snd s'))).
Proof.
  induction acts as [|a acts IH]; intros cb r w tr Hinv K.
  - cbn. auto.
  - cbn [keeps_callback forallb] in K. apply andb_true_iff in K.
    destruct K as [Ka K].
    destruct a as [[cb'|]|ev]; [| discriminate |].
    + cbn [map recorded option_map Raft.execution fold_left Raft.act snd].
      destruct (IH cb' r w tr Hinv K) as [I1 I2]. split; [exact I1|].
      intros _ R. inversion R as [|? ? R1 R2]; subst. apply I2; auto.
    + cbn [map recorded Raft.execution fold_left Raft.act fst snd].
      pose proof (step_inv cb ev w Hinv) as [S1 S2].
      destruct (Raft.step (Some (recording cb)) ev (r, (w, tr)))
        as [r1 [w1 tr1]] eqn:E.
      cbn [fst snd] in S1, S2.
      destruct (IH cb r1 w1 tr1 S1 K) as [I1 I2]. split; [exact I1|].
      intros Hcb R. inversion R as [|? ? R1 R2]; subst. intros C.
      apply I2; auto.
Qed.

(** C7, as the code has it. A new node has no apply callback. When one
    is installed before anything else reaches the node, as the
    coordinator does it, and none is taken away later, then after any
    sequence of calls, timer expiries and changes of the callback, the
    callbacks have been called once for each of the first [last_applied]
    entries of the log, in the order of the log and with no entry left
    out; nothing was applied before it was committed; an entry's index is
    its place in the log, so the indices of the calls go up by one; and
    when no callback raises, every committed entry has been applied. *)
Theorem apply_callback_in_log_order :
  forall (W : Type) (acts : list (Raft.action W))
         (id : string) (nodes : list string) (w : W),
    installed_first acts = true ->
    let s' := Raft.execution (map recorded acts)
                (Raft.start id nodes (w, [])) in
    let r := fst (snd s') in
    let calls := snd (snd (snd s')) in
    calls = map Raft.command_of
              (firstn (Z.to_nat (Raft.last_applied r)) (Raft.log r))
    /\ (0 <= Raft.last_applied r <= Raft.commit_index r)%Z
    /\ (Raft.commit_index r <= Raft.len r)%Z
    /\ (forall i en, nth_error (Raft.log r) i = Some en ->
                     Raft.index en = Z.of_nat i)
    /\ (callbacks_return acts ->
        Raft.last_applied r = Raft.commit_index r).
Proof.
  intros W acts id nodes w Hi.
  destruct acts as [|[[cb|]|ev] acts]; try discriminate.
  cbn [installed_first] in Hi.
  assert (H0 : raft_inv (Raft.init id nodes) []).
  { unfold raft_inv, Raft.len. simpl. repeat split; try lia.
    intros [|i] en N; discriminate. }
  destruct (@execution_inv W acts cb (Raft.init id nodes) w [] H0 Hi)
    as [(A & B & C & D) K].
  cbv zeta.
  cbn [map recorded option_map Raft.execution fold_left Raft.act Raft.start
       snd].
  split; [exact C|]. split; [exact A|]. split; [exact B|].
  split; [exact D|].
  intros R. inversion R as [|? ? R1 R2]; subst. apply K; auto. reflexivity.
Qed.

Lemma apply_callback_in_log_order_witness :
  let acts := [Raft.Set_apply_callback (Some counting);
               Raft.Call Raft.Election_timeout;
               Raft.Call (Raft.Append_entry (sql_command "INSERT 1"));
               Raft.Call (Raft.Append_entry (sql_command "INSERT 2"))] in
  let s' := Raft.execution (map recorded acts)
              (Raft.start "node1" ["node1"] (0%nat, [])) in
  let r := fst (snd s') in
  let calls := snd (snd (snd s')) in
  calls = map Raft.command_of
            (firstn (Z.to_nat (Raft.last_applied r)) (Raft.log r))
  /\ (0 <= Raft.last_applied r <= Raft.commit_index r)%Z
  /\ (Raft.commit_index r <= Raft.len r)%Z
  /\ (forall i en, nth_error (Raft.log r) i = Some en ->
                   Raft.index en = Z.of_nat i)
  /\ (callbacks_return acts ->
      Raft.last_applied r = Raft.commit_index r).
Proof.
  intros acts.
  apply (@apply_callback_in_log_order nat acts "node1" ["node1"] 0%nat).
  reflexivity.
Defined.

(** C7, as stated, fails: not every execution has its committed entries
    applied to the callback. A sole node is elected and commits a first
    command while no callback is installed: [_apply_committed_entries]
    counts the entry as applied and calls nothing. The callback that is
    installed then is called for the second command only. *)
Lemma late_callback_misses_committed_entry :
  let acts := [Raft.Call Raft.Election_timeout;
               Raft.Call (Raft.Append_entry (sql_command "INSERT 1"));
               Raft.Set_apply_callback (Some counting);
               Raft.Call (Raft.Append_entry (sql_command "INSERT 2"))] in
  let s' := Raft.execution (map recorded acts)
              (Raft.start "node1" ["node1"] (0%nat, [])) in
  let r := fst (snd s') in
  map Raft.command_of (Raft.log r)
  = [sql_command "INSERT 1"; sql_command "INSERT 2"]
  /\ Raft.commit_index r = 2%Z
  /\ Raft.last_applied r = 2%Z
  /\ snd (snd (snd s')) = [sql_command "INSERT 2"]
  /\ fst (snd (snd s')) = 1%nat.
Proof. repeat split. Qed.

(** The run of the witness, spelled out: a sole node is elected at its
    first timeout, and each appended command is applied at once. *)
Lemma single_node_applies_each_command_once :
  let evs := [Raft.Append_entry (sql_command "INSERT 0");
              Raft.Election_timeout;
              Raft.Append_entry (sql_command "INSERT 1");
              Raft.Append_entry (sql_command "INSERT 2")] in
  let s' := Raft.run (Some (recording counting)) evs
              (Raft.init "node1" ["node1"], (0%nat, [])) in
  snd (snd s') = [sql_command "INSERT 1"; sql_command "INSERT 2"]
  /\ map Raft.index (Raft.log (fst s')) = [0; 1]%Z
  /\ fst (snd s') = 2%nat.
Proof. repeat split. Qed.

(** ** C1: SELECT through an index *)

(** C1. SELECT has to return every row that satisfies the WHERE
    conjunction, with or without an index. With a hash index on
    [(id, name)] and the condition [id = 1], [find_best_index] picks the
    index (one of its columns is in the conditions), [lookup] builds the
    key [(1, None)], which no row has, and the row of Alice, which the full
    scan returns, is missing from the result. *)
Theorem select_through_partial_hash_index_misses_rows :
  let bob : row := [("id", VInt 2); ("name", VStr "Bob")] in
  let setup := [Examples.create_users; Examples.insert_users Examples.alice;
                Examples.insert_users bob] in
  let scanned := Examples.after setup in
  let indexed :=
    Examples.after
      (setup ++ [Examples.create_index_users "idx" ["id"; "name"] "hash"])%list in
  let q := Examples.select_users [("id", VInt 1)] in
  storage indexed = storage scanned
  /\ StorageEngine.get (storage indexed) "users" "uuid-0" = Some Examples.alice
  /\ QueryExecutor._matches_conditions Examples.alice [("id", VInt 1)] = true
  /\ IndexManager.find_best_index (index_manager indexed) "users"
       [("id", VInt 1)]
     = Some (HashIndex "users" ["id"; "name"]
               [([VInt 1; VStr "Alice"], ["uuid-0"]);
                ([VInt 2; VStr "Bob"], ["uuid-1"])])
  /\ fst (QueryExecutor.execute q scanned)
     = Return {| status := "success"; message := None; rows_affected := None;
                 rows := Some [[("id", VInt 1); ("name", VStr "Alice");
                                ("_key", VStr "uuid-0")]];
                 row_count := Some 1%Z; inserted_key := None;
                 node_id := None; is_leader := None |}
  /\ fst (QueryExecutor.execute q indexed)
     = Return {| status := "success"; message := None; rows_affected := None;
                 rows := Some []; row_count := Some 0%Z;
                 inserted_key := None; node_id := None; is_leader := None |}.
Proof. repeat split. Qed.

(** ** Order on scalars *)

Lemma ascii_compare_N a b :
  Ascii.compare a b = N.compare (N_of_ascii a) (N_of_ascii b).
Proof. reflexivity. Qed.

Lemma string_compare_lt_trans a :
  forall b c, String.compare a b = Lt -> String.compare b c = Lt ->
              String.compare a c = Lt.
Proof.
  induction a as [|x a IH]; intros [|y b] [|z c]; simpl; try congruence.
  rewrite !ascii_compare_N. intros H1 H2.
  destruct (N.compare_spec (N_of_ascii x) (N_of_ascii y));
    destruct (N.compare_spec (N_of_ascii y) (N_of_ascii z));
    try congruence;
    destruct (N.compare_spec (N_of_ascii x) (N_of_ascii z));
    try lia; try congruence; eauto.
Qed.

Lemma string_compare_ge_trans a :
  forall b c, String.compare a b <> Lt -> String.compare b c <> Lt ->
              String.compare a c <> Lt.
Proof.
  induction a as [|x a IH]; intros [|y b] [|z c]; simpl; try congruence.
  rewrite !ascii_compare_N. intros H1 H2.
  destruct (N.compare_spec (N_of_ascii x) (N_of_ascii y));
    destruct (N.compare_spec (N_of_ascii y) (N_of_ascii z));
    try congruence;
    destruct (N.compare_spec (N_of_ascii x) (N_of_ascii z));
    try lia; try congruence; eauto.
Qed.

Lemma is_num_number v :
  is_num v = true -> as_number v = Some (num v) /\ num v <> NaN.
Proof.
  destruct v as [|n|f|s]; try discriminate; unfold num; simpl.
  - intros _. split; [reflexivity|discriminate].
  - destruct f as [z|[|]| |[|] m e]; try discriminate;
      intros _; (split; [reflexivity|discriminate]).
Qed.

Lemma py_lt_num a b :
  is_num a = true -> is_num b = true ->
  py_lt a b = Some (number_ltb (num a) (num b)).
Proof.
  intros Ha Hb.
  destruct (is_num_number a Ha) as [Ea _], (is_num_number b Hb) as [Eb _].
  unfold py_lt. rewrite Ea, Eb.
  destruct a; try discriminate; destruct b; try discriminate; reflexivity.
Qed.

Lemma Qlt_bool_iff p q : negb (Qle_bool q p) = true <-> (p < q)%Q.
Proof.
  rewrite negb_true_iff. split; intros H.
  - apply Qnot_le_lt. intros L. apply Qle_bool_iff in L. congruence.
  - destruct (Qle_bool q p) eqn:E; auto.
    apply Qle_bool_iff in E. exfalso. eapply Qlt_not_le; eauto.
Qed.

Lemma Qlt_bool_false_iff p q : negb (Qle_bool q p) = false <-> (q <= p)%Q.
Proof. rewrite negb_false_iff. apply Qle_bool_iff. Qed.

Lemma number_ltb_trans x y z :
  x <> NaN -> y <> NaN -> z <> NaN ->
  number_ltb x y = true -> number_ltb y z = true -> number_ltb x z = true.
Proof.
  destruct x, y, z; simpl; try congruence; intros _ _ _ H1 H2.
  apply Qlt_bool_iff in H1, H2. apply Qlt_bool_iff.
  eapply Qlt_trans; eauto.
Qed.

Lemma number_ltb_ntrans x y z :
  x <> NaN -> y <> NaN -> z <> NaN ->
  number_ltb x y = false -> number_ltb y z = false -> number_ltb x z = false.
Proof.
  destruct x, y, z; simpl; try congruence; intros _ _ _ H1 H2.
  apply Qlt_bool_false_iff in H1, H2. apply Qlt_bool_false_iff.
  eapply Qle_trans; eauto.
Qed.

Lemma py_lt_total cls a b :
  is_kind cls -> cls a = true -> cls b = true -> exists c, py_lt a b = Some c.
Proof.
  intros [->| ->] Ha Hb.
  - destruct a; try discriminate; destruct b; try discriminate.
    simpl. eauto.
  - rewrite py_lt_num by assumption. eauto.
Qed.

Lemma py_lt_trans cls a b c :
  is_kind cls -> cls a = true -> cls b = true -> cls c = true ->
  py_lt a b = Some true -> py_lt b c = Some true -> py_lt a c = Some true.
Proof.
  intros [->| ->] Ha Hb Hc.
  - destruct a; try discriminate; destruct b; try discriminate;
      destruct c; try discriminate.
    simpl. unfold String.ltb. intros H1 H2. f_equal.
    destruct (String.compare s s0) eqn:E1; try discriminate.
    destruct (String.compare s0 s1) eqn:E2; try discriminate.
    now rewrite (string_compare_lt_trans _ _ _ E1 E2).
  - rewrite !py_lt_num by assumption. intros H1 H2.
    injection H1 as H1. injection H2 as H2. f_equal.
    apply (number_ltb_trans (y := num b)); auto; now apply is_num_number.
Qed.

Lemma py_lt_ntrans cls a b c :
  is_kind cls -> cls a = true -> cls b = true -> cls c = true ->
  py_lt a b = Some false -> py_lt b c = Some false -> py_lt a c = Some false.
Proof.
  intros [->| ->] Ha Hb Hc.
  - destruct a; try discriminate; destruct b; try discriminate;
      destruct c; try discriminate.
    simpl. unfold String.ltb. intros H1 H2. f_equal.
    pose proof (@string_compare_ge_trans s s0 s1) as T.
    destruct (String.compare s s0) eqn:E1; try discriminate;
      destruct (String.compare s0 s1) eqn:E2; try discriminate;
      destruct (String.compare s s1) eqn:E3; auto;
      exfalso; apply T; congruence.
  - rewrite !py_lt_num by assumption. intros H1 H2.
    injection H1 as H1. injection H2 as H2. f_equal.
    apply (number_ltb_ntrans (y := num b)); auto; now apply is_num_number.
Qed.

(** ** Stable sorting *)

Section SortFacts.
Context {A : Type}.
Variable lt : A -> A -> option bool.
Variable D : A -> Prop.
Variable R : A -> A -> Prop.

(** On [D] the comparison never raises and is a strict weak order. *)
Hypothesis lt_total :
  forall a b, D a -> D b -> exists c, lt a b = Some c.
Hypothesis lt_trans :
  forall a b c, D a -> D b -> D c ->
    lt a b = Some true -> lt b c = Some true -> lt a c = Some true.
Hypothesis lt_ntrans :
  forall a b c, D a -> D b -> D c ->
    lt a b = Some false -> lt b c = Some false -> lt a c = Some false.

Lemma sort_insert_spec x :
  forall s,
    D x -> Forall D s ->
    StronglySorted (lex1 lt R) s -> Forall (R x) s ->
    exists s', sort_insert lt x s = Return s'
               /\ Permutation (x :: s) s'
               /\ StronglySorted (lex1 lt R) s'.
Proof.
  induction s as [|y s IH]; intros Dx Ds Ss Rs.
  - exists [x]. simpl. repeat split; auto. repeat constructor.
  - inversion Ds as [|? ? Dy Ds']; subst.
    inversion Ss as [|? ? Ss' Fy]; subst.
    inversion Rs as [|? ? Rxy Rs']; subst.
    simpl. destruct (lt_total Dy Dx) as [[|] Hyx]; rewrite Hyx.
    + destruct (IH Dx Ds' Ss' Rs') as (s' & E & P & S').
      rewrite E. exists (y :: s'). split; [reflexivity|]. split.
      * rewrite perm_swap. now constructor.
      * constructor; auto.
        eapply Permutation_Forall; [exact P|].
        constructor; auto. left. exact Hyx.
    + exists (x :: y :: s). split; [reflexivity|]. split; [reflexivity|].
      constructor; auto. constructor.
      * right. split; [congruence|assumption].
      * rewrite Forall_forall in *. intros z Hz. right. split; auto.
        assert (Dz : D z) by auto.
        destruct (Fy z Hz) as [Hyz|[Hzy Ryz]].
        -- destruct (lt_total Dz Dx) as [[|] Hzx]; [|congruence].
           pose proof (lt_trans Dy Dz Dx Hyz Hzx). congruence.
        -- destruct (lt_total Dz Dy) as [[|] Hzy']; [congruence|].
           rewrite (lt_ntrans Dz Dy Dx Hzy' Hyx). discriminate.
Qed.

(** A sort of a list that [R] orders gives a list that [lt] orders, with
    [R] deciding among the elements that [lt] leaves tied: the sort is
    stable. *)
Lemma py_sort_spec :
  forall l,
    Forall D l -> StronglySorted R l ->
    exists s, py_sort lt l = Return s
              /\ Permutation l s
              /\ StronglySorted (lex1 lt R) s.
Proof.
  induction l as [|x l IH]; intros Dl Sl.
  - exists []. simpl. repeat split; auto. constructor.
  - inversion Dl as [|? ? Dx Dl']; subst.
    inversion Sl as [|? ? Sl' Fx]; subst.
    destruct (IH Dl' Sl') as (s & E & P & S').
    simpl. rewrite E.
    destruct (@sort_insert_spec x s) as (s' & E' & P' & S''); auto.
    + eapply Permutation_Forall; eauto.
    + eapply Permutation_Forall; eauto.
    + exists s'. repeat split; auto.
      etransitivity; [|exact P']. now constructor.
Qed.

End SortFacts.

(** ** C8: ORDER BY and LIMIT *)

Lemma apply_order_by_cons cd ob rs :
  QueryExecutor.apply_order_by (cd :: ob) rs
  = match QueryExecutor.apply_order_by ob rs with
    | Return l =>
        py_sort (QueryExecutor.sort_lt (fst cd) (String.eqb (snd cd) "DESC")) l
    | Raise e => Raise e
    end.
Proof.
  unfold QueryExecutor.apply_order_by. simpl. now rewrite fold_left_app.
Qed.

(** The comparison of one ORDER BY key is a strict weak order on rows
    whose keys are of one kind. *)
Lemma sort_lt_order col reverse cls :
  is_kind cls ->
  let D := fun r : row => cls (QueryExecutor.sort_key col r) = true in
  let lt := QueryExecutor.sort_lt col reverse in
  (forall a b, D a -> D b -> exists c, lt a b = Some c)
  /\ (forall a b c, D a -> D b -> D c ->
        lt a b = Some true -> lt b c = Some true -> lt a c = Some true)
  /\ (forall a b c, D a -> D b -> D c ->
        lt a b = Some false -> lt b c = Some false -> lt a c = Some false).
Proof.
  intros K D lt. unfold D, lt, QueryExecutor.sort_lt.
  destruct reverse; repeat split; intros.
  - eapply py_lt_total; eauto.
  - eapply py_lt_trans with (cls := cls) (b := QueryExecutor.sort_key col b);
      eauto.
  - eapply py_lt_ntrans with (cls := cls) (b := QueryExecutor.sort_key col b);
      eauto.
  - eapply py_lt_total; eauto.
  - eapply py_lt_trans with (cls := cls) (b := QueryExecutor.sort_key col b);
      eauto.
  - eapply py_lt_ntrans with (cls := cls) (b := QueryExecutor.sort_key col b);
      eauto.
Qed.

Lemma one_kind_domain col (rs : list row) :
  one_kind (map (QueryExecutor.sort_key col) rs) = true ->
  exists cls, is_kind cls
    /\ Forall (fun r => cls (QueryExecutor.sort_key col r) = true) rs.
Proof.
  unfold one_kind. intros H. apply orb_true_iff in H.
  destruct H as [H|H]; rewrite forallb_forall in H;
    [exists is_str|exists is_num]; (split; [unfold is_kind; auto|]);
    apply Forall_forall; intros r Hr; apply H; now apply in_map.
Qed.

(** ORDER BY on rows with sortable keys returns, and what it returns is a
    rearrangement of the rows in the requested order, with [base], an
    order that the rows came in, kept among rows that agree on all keys. *)
Lemma apply_order_by_spec (base : row -> row -> Prop) ob :
  forall rs,
    sortable ob rs = true ->
    StronglySorted base rs ->
    exists sorted,
      QueryExecutor.apply_order_by ob rs = Return sorted
      /\ Permutation rs sorted
      /\ StronglySorted (lex_le ob base) sorted.
Proof.
  induction ob as [|[col direction] ob IH]; intros rs Hs Hb.
  - exists rs. repeat split; auto.
  - simpl in Hs. apply andb_true_iff in Hs. destruct Hs as [Hk Hs].
    destruct (IH rs Hs Hb) as (l & E & P & S).
    rewrite apply_order_by_cons, E. cbn [fst snd].
    destruct (one_kind_domain col rs Hk) as (cls & K & Dl).
    destruct (sort_lt_order col (String.eqb direction "DESC") K)
      as (T1 & T2 & T3).
    destruct (@py_sort_spec _
                (QueryExecutor.sort_lt col (String.eqb direction "DESC"))
                (fun r => cls (QueryExecutor.sort_key col r) = true)
                (lex_le ob base) T1 T2 T3 l)
      as (s & E' & P' & S'); auto.
    + eapply Permutation_Forall; eauto.
    + exists s. repeat split; auto. etransitivity; eauto.
Qed.

(** The candidate rows are obtained unless an index is used and a
    condition is on a column named [self]. *)
Lemma candidates_return x q :
  dict_mem String.eqb (ParsedQuery.conditions q) "self" = false ->
  exists found, QueryExecutor.candidates x q = Return found.
Proof.
  intros H. unfold QueryExecutor.candidates, index_lookup_call. rewrite H.
  destruct (ParsedQuery.conditions q); [eexists; reflexivity|].
  destruct (IndexManager.find_best_index _ _ _); eexists; reflexivity.
Qed.

(** C8. For a SELECT whose candidate rows are obtained (they are, unless
    the WHERE clause has a condition on a column named [self] and an
    index is used, when the call of [lookup] raises), whose ORDER BY keys
    are sortable (in each ORDER BY column the candidate rows hold strings
    only, or numbers only) and whose LIMIT, if any, is not negative: the
    sort returns; the sorted rows are the candidate rows rearranged, in
    the requested major-to-minor order, ascending, or descending for DESC,
    with any order [base] in which the candidates came kept among rows
    that tie on every key, as stable sorts applied from the last key to
    the first give it; and the result holds the first [n] of them,
    projected, when LIMIT is [n]. *)
Theorem order_by_then_limit :
  forall (x : executor) (q : ParsedQuery.t) (base : row -> row -> Prop)
         (found : list row),
    QueryExecutor.candidates x q = Return found ->
    sortable (ParsedQuery.order_by q) found = true ->
    StronglySorted base found ->
    match ParsedQuery.limit q with Some n => (0 <= n)%Z | None => True end ->
    exists sorted res,
      QueryExecutor.apply_order_by (ParsedQuery.order_by q) found
      = Return sorted
      /\ Permutation found sorted
      /\ StronglySorted (lex_le (ParsedQuery.order_by q) base) sorted
      /\ QueryExecutor._execute_select q x = (Return res, x)
      /\ status res = "success"
      /\ rows res
         = Some (QueryExecutor.apply_projection (ParsedQuery.columns q)
                   match ParsedQuery.limit q with
                   | Some n => firstn (Z.to_nat n) sorted
                   | None => sorted
                   end)
      /\ row_count res
         = option_map (fun rs => Z.of_nat (List.length rs)) (rows res).
Proof.
  intros x q base found Hc Hs Hb Hl.
  destruct (@apply_order_by_spec base _ _ Hs Hb) as (sorted & E & P & S).
  unfold QueryExecutor._execute_select. rewrite Hc, E.
  eexists. eexists. split; [reflexivity|]. split; [exact P|].
  split; [exact S|]. split; [reflexivity|]. split; [reflexivity|].
  split; [|reflexivity]. cbn [rows]. do 2 f_equal.
  unfold QueryExecutor.apply_limit, QueryExecutor.slice_to.
  destruct (ParsedQuery.limit q) as [n|]; auto.
  apply Z.leb_le in Hl. now rewrite Hl.
Qed.

Lemma order_by_then_limit_witness :
  let x := Examples.products in
  let q := Examples.select_products [("price", "DESC")] (Some 2%Z) in
  let found :=
    [[("id", VInt 1); ("price", VInt 100); ("_key", VStr "uuid-0")];
     [("id", VInt 2); ("price", VInt 200); ("_key", VStr "uuid-1")];
     [("id", VInt 3); ("price", VInt 150); ("_key", VStr "uuid-2")]] in
  QueryExecutor.candidates x q = Return found
  /\ exists sorted res,
       QueryExecutor.apply_order_by (ParsedQuery.order_by q) found
       = Return sorted
       /\ Permutation found sorted
       /\ StronglySorted (lex_le (ParsedQuery.order_by q) (fun _ _ => True))
            sorted
       /\ QueryExecutor._execute_select q x = (Return res, x)
       /\ status res = "success"
       /\ rows res
          = Some (QueryExecutor.apply_projection (ParsedQuery.columns q)
                    match ParsedQuery.limit q with
                    | Some n => firstn (Z.to_nat n) sorted
                    | None => sorted
                    end)
       /\ row_count res
          = option_map (fun rs => Z.of_nat (List.length rs)) (rows res).
Proof.
  intros x q found. split; [reflexivity|].
  apply (@order_by_then_limit x q (fun _ _ => True) found);
    [reflexivity | reflexivity | repeat constructor | simpl; lia].
Defined.

(** The fourth scenario of the specification, and a two-key ordering in
    which the rows that tie on the first key are ordered by the second. *)
Lemma order_by_examples :
  option_map (map (fun r => (row_get r "id", row_get r "price")))
    (match fst (QueryExecutor.execute
                  (Examples.select_products [("price", "DESC")] (Some 2%Z))
                  Examples.products) with
     | Return res => rows res
     | Raise _ => None
     end)
  = Some [(VInt 2, VInt 200); (VInt 3, VInt 150)]
  /\ option_map (map (fun r => (row_get r "id", row_get r "price")))
       (match fst (QueryExecutor.execute
                     (Examples.select_products
                        [("price", "ASC"); ("id", "DESC")] None)
                     Examples.products_with_tie) with
        | Return res => rows res
        | Raise _ => None
        end)
     = Some [(VInt 4, VInt 100); (VInt 1, VInt 100); (VInt 3, VInt 150);
             (VInt 2, VInt 200)].
Proof. split; reflexivity. Qed.

(** Outside the hypotheses of C8: a row without the ORDER BY column sorts
    under the key [''], which does not compare with a number; a negative
    LIMIT cuts from the end; and a SELECT with a condition on a column
    named [self] raises when it goes through an index, before anything is
    sorted. *)
Lemma order_by_outside_hypotheses :
  (exists msg,
     fst (QueryExecutor.execute
            (Examples.select_products [("price", "ASC")] None)
            (snd (QueryExecutor.execute
                    (Examples.insert_product [("id", VInt 9)])
                    Examples.products)))
     = Raise (TypeError msg))
  /\ QueryExecutor.slice_to (-1) [1; 2; 3]%Z = [1; 2]%Z
  /\ fst (QueryExecutor.execute Examples.select_self Examples.table_with_self)
     = Raise (TypeError
                "BTreeIndex.lookup() got multiple values for argument 'self'").
Proof. split; [eexists; reflexivity|]. split; reflexivity. Qed.

(** ** Key equality *)

Lemma key_eq_class a b : key_eq a b = class_eqb (class_of a) (class_of b).
Proof.
  unfold key_eq.
  destruct a as [|n|[z|[|]| |[|] m e]|s], b as [|n'|[z'|[|]| |[|] m' e']|s'];
    try reflexivity.
Qed.

Lemma class_eqb_refl a : class_eqb a a = true.
Proof.
  destruct a as [|s|[| |q|]]; simpl; auto using String.eqb_refl, Qeq_bool_refl.
Qed.

Lemma class_eqb_sym a b : class_eqb a b = class_eqb b a.
Proof.
  destruct a as [|s|[| |p|]], b as [|t|[| |q|]]; simpl;
    auto using String.eqb_sym.
  destruct (Qeq_bool p q) eqn:E, (Qeq_bool q p) eqn:E'; auto.
  - apply Qeq_bool_iff in E. symmetry in E. apply Qeq_bool_iff in E. congruence.
  - apply Qeq_bool_iff in E'. symmetry in E'. apply Qeq_bool_iff in E'.
    congruence.
Qed.

Lemma class_eqb_trans a b c :
  class_eqb a b = true -> class_eqb b c = true -> class_eqb a c = true.
Proof.
  destruct a as [|s|[| |p|]], b as [|t|[| |q|]], c as [|u|[| |r|]]; simpl;
    try congruence.
  - intros H1 H2. apply String.eqb_eq in H1, H2. subst. apply String.eqb_refl.
  - intros H1 H2. apply Qeq_bool_iff in H1, H2. apply Qeq_bool_iff.
    now rewrite H1.
Qed.

Lemma key_eq_refl a : key_eq a a = true.
Proof. rewrite key_eq_class. apply class_eqb_refl. Qed.

Lemma key_eq_sym a b : key_eq a b = key_eq b a.
Proof. rewrite !key_eq_class. apply class_eqb_sym. Qed.

Lemma key_eq_trans a b c :
  key_eq a b = true -> key_eq b c = true -> key_eq a c = true.
Proof. rewrite !key_eq_class. apply class_eqb_trans. Qed.

Lemma tuple_eq_refl a : tuple_eq a a = true.
Proof. induction a; simpl; auto. now rewrite key_eq_refl. Qed.

Lemma tuple_eq_sym a : forall b, tuple_eq a b = tuple_eq b a.
Proof.
  induction a as [|x a IH]; intros [|y b]; simpl; auto.
  now rewrite key_eq_sym, IH.
Qed.

Lemma tuple_eq_trans a :
  forall b c, tuple_eq a b = true -> tuple_eq b c = true ->
              tuple_eq a c = true.
Proof.
  induction a as [|x a IH]; intros [|y b] [|z c]; simpl; try congruence.
  intros H1 H2. apply andb_true_iff in H1, H2. apply andb_true_iff.
  destruct H1, H2. split; eauto using key_eq_trans.
Qed.

(** Equal keys order alike. *)
Lemma number_ltb_eqb_l x y z :
  number_eqb x y = true -> number_ltb x z = number_ltb y z.
Proof.
  destruct x as [| |p|], y as [| |q|]; simpl; try congruence; intros H;
    destruct z as [| |r|]; simpl; auto.
  apply Qeq_bool_iff in H. f_equal.
  destruct (Qle_bool r p) eqn:E1, (Qle_bool r q) eqn:E2; auto.
  - apply Qle_bool_iff in E1. rewrite H in E1. apply Qle_bool_iff in E1.
    congruence.
  - apply Qle_bool_iff in E2. rewrite <- H in E2. apply Qle_bool_iff in E2.
    congruence.
Qed.

Lemma number_ltb_eqb_r x y z :
  number_eqb x y = true -> number_ltb z x = number_ltb z y.
Proof.
  destruct x as [| |p|], y as [| |q|]; simpl; try congruence; intros H;
    destruct z as [| |r|]; simpl; auto.
  apply Qeq_bool_iff in H. f_equal.
  destruct (Qle_bool p r) eqn:E1, (Qle_bool q r) eqn:E2; auto.
  - apply Qle_bool_iff in E1. rewrite H in E1. apply Qle_bool_iff in E1.
    congruence.
  - apply Qle_bool_iff in E2. rewrite <- H in E2. apply Qle_bool_iff in E2.
    congruence.
Qed.

Lemma key_eq_cases a b :
  key_eq a b = true ->
  a = b
  \/ exists x y, as_number a = Some x /\ as_number b = Some y
                 /\ number_eqb x y = true.
Proof.
  intros H.
  destruct a as [|n|[z|[|]| |[|] m e]|s], b as [|n'|[z'|[|]| |[|] m' e']|s'];
    try discriminate H;
    first [ left; reflexivity
          | right; do 2 eexists; split; [reflexivity|]; split; [reflexivity|];
            exact H
          | left; apply String.eqb_eq in H; now subst ].
Qed.

Lemma py_lt_number_l a c x :
  as_number a = Some x ->
  py_lt a c = option_map (number_ltb x) (as_number c).
Proof.
  destruct a; try discriminate; intros H; inversion H; subst;
    destruct c; reflexivity.
Qed.

Lemma py_lt_number_r a c x :
  as_number a = Some x ->
  py_lt c a = option_map (fun z => number_ltb z x) (as_number c).
Proof.
  destruct a; try discriminate; intros H; inversion H; subst;
    destruct c; reflexivity.
Qed.

Lemma py_lt_key_eq_l a b c : key_eq a b = true -> py_lt a c = py_lt b c.
Proof.
  intros H. destruct (key_eq_cases _ _ H) as [->|(x & y & Ea & Eb & E)]; auto.
  rewrite (@py_lt_number_l _ c _ Ea), (@py_lt_number_l _ c _ Eb).
  destruct (as_number c); simpl; auto. f_equal. now apply number_ltb_eqb_l.
Qed.

Lemma py_lt_key_eq_r a b c : key_eq a b = true -> py_lt c a = py_lt c b.
Proof.
  intros H. destruct (key_eq_cases _ _ H) as [->|(x & y & Ea & Eb & E)]; auto.
  rewrite (@py_lt_number_r _ c _ Ea), (@py_lt_number_r _ c _ Eb).
  destruct (as_number c); simpl; auto. f_equal. now apply number_ltb_eqb_r.
Qed.

(** ** Dictionaries and sets *)

Section KeyedDict.
Context {K V : Type}.
Variable keq : K -> K -> bool.
Hypothesis keq_refl : forall a, keq a a = true.
Hypothesis keq_sym : forall a b, keq a b = keq b a.
Hypothesis keq_trans :
  forall a b c, keq a b = true -> keq b c = true -> keq a c = true.

Implicit Types (d : dict K V) (k : K) (v : V).

Lemma keq_false_l a b c : keq a b = true -> keq a c = false -> keq b c = false.
Proof.
  intros H1 H2. destruct (keq b c) eqn:E; auto.
  rewrite (keq_trans H1 E) in H2. discriminate.
Qed.

Lemma kget_compat d k k' :
  keq k k' = true -> dict_get keq d k = dict_get keq d k'.
Proof.
  intros H. induction d as [|[k0 v0] d IH]; simpl; auto.
  destruct (keq k k0) eqn:E.
  - rewrite keq_sym in H. now rewrite (keq_trans H E).
  - now rewrite (keq_false_l H E).
Qed.

Lemma kget_set d k v k' :
  dict_get keq (dict_set keq d k v) k'
  = if keq k' k then Some v else dict_get keq d k'.
Proof.
  induction d as [|[k0 v0] d IH]; simpl.
  - reflexivity.
  - destruct (keq k k0) eqn:E; simpl.
    + destruct (keq k' k0) eqn:E'.
      * rewrite keq_sym in E. now rewrite (keq_trans E' E).
      * destruct (keq k' k) eqn:E''; auto.
        rewrite (keq_trans E'' E) in E'. discriminate.
    + destruct (keq k' k0) eqn:E'; auto.
      destruct (keq k' k) eqn:E''; auto.
      rewrite keq_sym in E''. rewrite (keq_trans E'' E') in E.
      discriminate.
Qed.

Lemma kget_del d k k' :
  dict_get keq (dict_del keq d k) k'
  = if keq k' k then None else dict_get keq d k'.
Proof.
  induction d as [|[k0 v0] d IH]; simpl.
  - now destruct (keq k' k).
  - destruct (keq k k0) eqn:E; simpl.
    + rewrite IH. destruct (keq k' k) eqn:E'; auto.
      destruct (keq k' k0) eqn:E''; auto.
      rewrite keq_sym in E. rewrite (keq_trans E'' E) in E'.
      discriminate.
    + destruct (keq k' k0) eqn:E'.
      * destruct (keq k' k) eqn:E''; auto.
        rewrite keq_sym in E''. rewrite (keq_trans E'' E') in E.
        discriminate.
      * apply IH.
Qed.

Lemma dict_wf_set d k v : dict_wf keq d -> dict_wf keq (dict_set keq d k v).
Proof.
  induction d as [|[k0 v0] d IH]; simpl; auto.
  intros [H1 H2]. destruct (keq k k0) eqn:E; simpl; auto.
  split; auto. rewrite kget_set. rewrite keq_sym, E. exact H1.
Qed.

Lemma dict_wf_del d k : dict_wf keq d -> dict_wf keq (dict_del keq d k).
Proof.
  induction d as [|[k0 v0] d IH]; simpl; auto.
  intros [H1 H2]. destruct (keq k k0) eqn:E; simpl; auto.
  split; auto. rewrite kget_del. now destruct (keq k0 k).
Qed.

(** In a dictionary without equal keys every item is the one that [get]
    finds. *)
Lemma dict_wf_in d k v :
  dict_wf keq d -> In (k, v) d -> dict_get keq d k = Some v.
Proof.
  induction d as [|[k0 v0] d IH]; simpl; [tauto|].
  intros [H1 H2] [E|I].
  - inversion E; subst. now rewrite keq_refl.
  - destruct (keq k k0) eqn:E; auto.
    rewrite (kget_compat d E) in IH. rewrite H1 in IH.
    specialize (IH H2 I). discriminate.
Qed.

Lemma dict_get_in d k v :
  dict_get keq d k = Some v -> exists k', In (k', v) d /\ keq k k' = true.
Proof.
  induction d as [|[k0 v0] d IH]; simpl; [discriminate|].
  destruct (keq k k0) eqn:E.
  - intros H. inversion H; subst. eauto.
  - intros H. destruct (IH H) as (k' & I & E'). eauto.
Qed.

End KeyedDict.

Lemma set_mem_add s x y :
  set_mem (set_add s x) y = String.eqb y x || set_mem s y.
Proof.
  unfold set_add. destruct (set_mem s x) eqn:E.
  - destruct (String.eqb y x) eqn:E'; auto.
    apply String.eqb_eq in E'. now subst.
  - unfold set_mem. rewrite existsb_app. simpl.
    rewrite orb_false_r. apply orb_comm.
Qed.

Lemma set_mem_discard s x y :
  set_mem (set_discard s x) y = negb (String.eqb y x) && set_mem s y.
Proof.
  unfold set_discard, set_mem. induction s as [|z s IH]; simpl.
  - now rewrite andb_false_r.
  - destruct (String.eqb x z) eqn:E; simpl.
    + rewrite IH. apply String.eqb_eq in E. subst z.
      destruct (String.eqb y x); auto.
    + rewrite IH. destruct (String.eqb y z) eqn:E'; simpl.
      * apply String.eqb_eq in E'. subst z. rewrite String.eqb_sym, E. auto.
      * reflexivity.
Qed.

Lemma set_mem_update s t y :
  set_mem (set_update s t) y = set_mem s y || set_mem t y.
Proof.
  unfold set_update. revert s. induction t as [|z t IH]; intros s; simpl.
  - now rewrite orb_false_r.
  - rewrite IH, set_mem_add. 
    destruct (String.eqb y z), (set_mem s y); auto.
Qed.

(** ** Buckets of an index *)

Section Buckets.
Context {K : Type}.
Variable keq : K -> K -> bool.
Hypothesis keq_refl : forall a, keq a a = true.
Hypothesis keq_sym : forall a b, keq a b = keq b a.
Hypothesis keq_trans :
  forall a b c, keq a b = true -> keq b c = true -> keq a c = true.

Implicit Types (d : dict K pyset) (k : K).

Lemma bucket_compat d k k' :
  keq k k' = true -> bucket keq d k = bucket keq d k'.
Proof.
  intros H. unfold bucket. now rewrite (@kget_compat _ _ keq keq_sym keq_trans d _ _ H).
Qed.

Lemma bucket_set d k s k' :
  bucket keq (dict_set keq d k s) k'
  = if keq k' k then s else bucket keq d k'.
Proof.
  unfold bucket. rewrite (@kget_set _ _ keq keq_sym keq_trans).
  now destruct (keq k' k).
Qed.

Lemma bucket_del d k k' :
  bucket keq (dict_del keq d k) k'
  = if keq k' k then [] else bucket keq d k'.
Proof.
  unfold bucket. rewrite (@kget_del _ _ keq keq_sym keq_trans).
  now destruct (keq k' k).
Qed.

(** What [insert] and [delete] of both kinds of index do to a bucket. *)
Lemma bucket_after_add d k key k' :
  bucket keq (dict_set keq d k (set_add (bucket keq d k) key)) k'
  = if keq k' k then set_add (bucket keq d k') key else bucket keq d k'.
Proof.
  rewrite bucket_set. destruct (keq k' k) eqn:E; auto.
  now rewrite (@bucket_compat d _ _ E).
Qed.

Lemma bucket_after_discard d k key k' :
  bucket keq
    (match dict_get keq d k with
     | Some s =>
         match set_discard s key with
         | [] => dict_del keq d k
         | s' => dict_set keq d k s'
         end
     | None => d
     end) k'
  = if keq k' k then set_discard (bucket keq d k') key else bucket keq d k'.
Proof.
  destruct (keq k' k) eqn:E.
  - rewrite (@bucket_compat d _ _ E). unfold bucket at 2.
    destruct (dict_get keq d k) as [s|] eqn:G.
    + destruct (set_discard s key) as [|z s'] eqn:S.
      * now rewrite bucket_del, E.
      * now rewrite bucket_set, E.
    + unfold bucket. rewrite (@kget_compat _ _ keq keq_sym keq_trans d _ _ E), G.
      reflexivity.
  - destruct (dict_get keq d k) as [s|] eqn:G; auto.
    destruct (set_discard s key) as [|z s'] eqn:S.
    + now rewrite bucket_del, E.
    + now rewrite bucket_set, E.
Qed.

Lemma dict_wf_after_discard d k key :
  dict_wf keq d ->
  dict_wf keq
    (match dict_get keq d k with
     | Some s =>
         match set_discard s key with
         | [] => dict_del keq d k
         | s' => dict_set keq d k s'
         end
     | None => d
     end).
Proof.
  intros W. destruct (dict_get keq d k) as [s|]; auto.
  destruct (set_discard s key).
  - apply dict_wf_del; [exact keq_sym|exact keq_trans|exact W].
  - apply dict_wf_set; [exact keq_sym|exact keq_trans|exact W].
Qed.

End Buckets.

Lemma sorted_add_get d v s : forall d',
  BTree.sorted_add d v s = Return d' ->
  dict_get key_eq d v = None ->
  forall k', dict_get key_eq d' k'
             = if key_eq k' v then Some s else dict_get key_eq d k'.
Proof.
  induction d as [|[k sk] d IH]; intros d' H G k'; simpl in H.
  - inversion H; subst. reflexivity.
  - simpl in G. destruct (key_eq v k) eqn:E; [discriminate|].
    destruct (py_lt v k) as [[|]|]; try discriminate.
    + inversion H; subst. reflexivity.
    + destruct (BTree.sorted_add d v s) as [d''|] eqn:A; [|discriminate].
      inversion H; subst. simpl. rewrite (IH d'' eq_refl G k').
      destruct (key_eq k' k) eqn:E1; auto.
      destruct (key_eq k' v) eqn:E2; auto.
      rewrite key_eq_sym in E2. rewrite (key_eq_trans _ _ _ E2 E1) in E.
      discriminate.
Qed.

Lemma sorted_add_wf d v s : forall d',
  BTree.sorted_add d v s = Return d' ->
  dict_get key_eq d v = None ->
  dict_wf key_eq d -> dict_wf key_eq d'.
Proof.
  induction d as [|[k sk] d IH]; intros d' H G W; simpl in H.
  - inversion H; subst. simpl. auto.
  - simpl in G. destruct (key_eq v k) eqn:E; [discriminate|].
    destruct W as [W1 W2].
    destruct (py_lt v k) as [[|]|]; try discriminate.
    + inversion H; subst. simpl. rewrite E. auto.
    + destruct (BTree.sorted_add d v s) as [d''|] eqn:A; [|discriminate].
      inversion H; subst. simpl. split; [|eapply IH; eauto].
      rewrite (@sorted_add_get d v s d'' A G k). rewrite key_eq_sym, E. exact W1.
Qed.

Lemma tuple_eq_single t v :
  tuple_eq t [v] = match t with [v'] => key_eq v' v | _ => false end.
Proof.
  destruct t as [|a [|b t]]; simpl; auto.
  - apply andb_true_r.
  - apply andb_false_r.
Qed.

(** ** Insertion into and deletion from an index *)

Lemma index_insert_spec key r i i' :
  index_insert key r i = Return i' ->
  index_wf i ->
  index_wf i'
  /\ columns i' = columns i
  /\ (forall r0, index_key i' r0 = index_key i r0)
  /\ (forall t,
        index_bucket i' t
        = match index_key i r with
          | Some t0 =>
              if tuple_eq t t0 then set_add (index_bucket i t) key
              else index_bucket i t
          | None => index_bucket i t
          end).
Proof.
  destruct i as [tb c d|tb c d]; simpl.
  - intros H _. inversion H; subst. simpl. repeat split; auto.
    intros t. unfold Hash.insert.
    apply (@bucket_after_add _ tuple_eq tuple_eq_sym tuple_eq_trans).
  - unfold BTree.insert, BTree._get_index_value.
    intros H [L W].
    assert (Hv : forall v, v <> VNone -> row_get r (BTree.column c) = v ->
      match dict_get key_eq d v with
      | Some s => Return (dict_set key_eq d v (set_add s key))
      | None => BTree.sorted_add d v (set_add [] key)
      end = Return (match i' with BTreeIndex _ _ d' => d' | _ => d end) ->
      forall d', i' = BTreeIndex tb c d' ->
      dict_wf key_eq d'
      /\ forall t, match t with [v'] => bucket key_eq d' v' | _ => [] end
                   = if tuple_eq t [v]
                     then set_add (match t with
                                   | [v'] => bucket key_eq d v'
                                   | _ => []
                                   end) key
                     else match t with [v'] => bucket key_eq d v' | _ => [] end).
    { intros v _ _ A d' ->. simpl in A.
      destruct (dict_get key_eq d v) as [s|] eqn:G.
      - inversion A; subst d'.
        split; [apply dict_wf_set;
                 [exact key_eq_sym|exact key_eq_trans|exact W]|].
        intros t. rewrite tuple_eq_single.
        destruct t as [|v' [|b t]]; auto.
        replace s with (bucket key_eq d v)
          by (unfold bucket; now rewrite G).
        apply (@bucket_after_add _ key_eq key_eq_sym key_eq_trans).
      - split; [exact (@sorted_add_wf d v _ d' A G W)|].
        intros t. rewrite tuple_eq_single.
        destruct t as [|v' [|b t]]; auto.
        unfold bucket at 1. rewrite (@sorted_add_get d v _ d' A G v').
        destruct (key_eq v' v) eqn:E; auto.
        unfold bucket.
        rewrite (@kget_compat _ _ key_eq key_eq_sym key_eq_trans d _ _ E), G.
        reflexivity. }
    destruct (row_get r (BTree.column c)) as [|n|f|s] eqn:V.
    + inversion H; subst. simpl. repeat split; auto.
    + destruct (match dict_get key_eq d (VInt n) with
                | Some s => Return (dict_set key_eq d (VInt n) (set_add s key))
                | None => BTree.sorted_add d (VInt n) (set_add [] key)
                end) as [d'|] eqn:A; [|discriminate].
      inversion H; subst i'. simpl.
      destruct (Hv (VInt n) ltac:(discriminate) eq_refl A d' eq_refl) as [W' B].
      repeat split; auto.
    + destruct (match dict_get key_eq d (VFloat f) with
                | Some s => Return (dict_set key_eq d (VFloat f) (set_add s key))
                | None => BTree.sorted_add d (VFloat f) (set_add [] key)
                end) as [d'|] eqn:A; [|discriminate].
      inversion H; subst i'. simpl.
      destruct (Hv (VFloat f) ltac:(discriminate) eq_refl A d' eq_refl) as [W' B].
      repeat split; auto.
    + destruct (match dict_get key_eq d (VStr s) with
                | Some s0 => Return (dict_set key_eq d (VStr s) (set_add s0 key))
                | None => BTree.sorted_add d (VStr s) (set_add [] key)
                end) as [d'|] eqn:A; [|discriminate].
      inversion H; subst i'. simpl.
      destruct (Hv (VStr s) ltac:(discriminate) eq_refl A d' eq_refl) as [W' B].
      repeat split; auto.
Qed.

Lemma index_delete_spec key r i :
  index_wf i ->
  index_wf (index_delete key r i)
  /\ columns (index_delete key r i) = columns i
  /\ (forall r0, index_key (index_delete key r i) r0 = index_key i r0)
  /\ (forall t,
        index_bucket (index_delete key r i) t
        = match index_key i r with
          | Some t0 =>
              if tuple_eq t t0 then set_discard (index_bucket i t) key
              else index_bucket i t
          | None => index_bucket i t
          end).
Proof.
  destruct i as [tb c d|tb c d]; simpl.
  - intros _. repeat split; auto. intros t. unfold Hash.delete.
    apply (@bucket_after_discard _ tuple_eq tuple_eq_sym tuple_eq_trans).
  - unfold BTree.delete, BTree._get_index_value. intros [L W].
    assert (Hv : forall v,
      dict_wf key_eq
        (match dict_get key_eq d v with
         | Some s =>
             match set_discard s key with
             | [] => dict_del key_eq d v
             | s' => dict_set key_eq d v s'
             end
         | None => d
         end)
      /\ forall t,
           match t with
           | [v'] =>
               bucket key_eq
                 (match dict_get key_eq d v with
                  | Some s =>
                      match set_discard s key with
                      | [] => dict_del key_eq d v
                      | s' => dict_set key_eq d v s'
                      end
                  | None => d
                  end) v'
           | _ => []
           end
           = if tuple_eq t [v]
             then set_discard (match t with
                               | [v'] => bucket key_eq d v'
                               | _ => []
                               end) key
             else match t with [v'] => bucket key_eq d v' | _ => [] end).
    { intros v. split.
      - apply (@dict_wf_after_discard _ key_eq key_eq_sym key_eq_trans); auto.
      - intros t. rewrite tuple_eq_single.
        destruct t as [|v' [|b t]]; auto.
        apply (@bucket_after_discard _ key_eq key_eq_sym key_eq_trans). }
    destruct (row_get r (BTree.column c)) as [|n|f|s] eqn:V.
    + repeat split; auto.
    + destruct (Hv (VInt n)). repeat split; auto.
    + destruct (Hv (VFloat f)). repeat split; auto.
    + destruct (Hv (VStr s)). repeat split; auto.
Qed.

Lemma index_ok_ext g g' i :
  (forall k, g k = g' k) -> index_ok g i -> index_ok g' i.
Proof.
  intros E [W H]. split; auto. intros t key. rewrite H.
  split; intros (r & t' & A & B); exists r, t'; split; auto; congruence.
Qed.

(** A row that the index did not hold goes in. *)
Lemma index_ok_insert g i i' key r :
  index_ok g i ->
  g key = None ->
  index_insert key r i = Return i' ->
  index_ok (fun k => if String.eqb k key then Some r else g k) i'.
Proof.
  intros [W H] G I.
  destruct (index_insert_spec _ _ _ I W) as (W' & _ & K & B).
  split; auto. intros t key'. rewrite B.
  assert (Hold : set_mem (index_bucket i t) key' = true
                 <-> String.eqb key' key = false
                     /\ exists r0 t', g key' = Some r0
                          /\ index_key i r0 = Some t' /\ tuple_eq t' t = true).
  { rewrite H. split.
    - intros (r0 & t' & A & A'). split; eauto.
      destruct (String.eqb key' key) eqn:E; auto.
      apply String.eqb_eq in E. subst. congruence.
    - intros [_ A]. exact A. }
  assert (Hnew : (exists r0 t', (if String.eqb key' key then Some r else g key')
                                = Some r0
                    /\ index_key i' r0 = Some t' /\ tuple_eq t' t = true)
                 <-> (String.eqb key' key = true
                      /\ exists t0, index_key i r = Some t0
                                    /\ tuple_eq t t0 = true)
                     \/ (String.eqb key' key = false
                         /\ exists r0 t', g key' = Some r0
                              /\ index_key i r0 = Some t'
                              /\ tuple_eq t' t = true)).
  { destruct (String.eqb key' key) eqn:E; split.
    - intros (r0 & t' & A & A1 & A2). inversion A; subst r0.
      left. split; auto. exists t'. rewrite <- K. split; auto.
      now rewrite tuple_eq_sym.
    - intros [[_ (t0 & A1 & A2)]|[A _]]; [|discriminate].
      exists r, t0. rewrite K. repeat split; auto. now rewrite tuple_eq_sym.
    - intros (r0 & t' & A & A1 & A2). right. split; auto.
      exists r0, t'. rewrite <- K. auto.
    - intros [[A _]|[_ (r0 & t' & A & A1 & A2)]]; [discriminate|].
      exists r0, t'. rewrite K. auto. }
  rewrite Hnew.
  destruct (index_key i r) as [t0|] eqn:IK.
  - destruct (tuple_eq t t0) eqn:T.
    + rewrite set_mem_add, orb_true_iff, Hold.
      split; (intros [A|A]; [left|right]; auto).
      * split; eauto.
      * tauto.
    + rewrite Hold. split; [tauto|].
      intros [[_ (t1 & A1 & A2)]|A]; auto. congruence.
  - rewrite Hold. split; [tauto|].
    intros [[_ (t1 & A1 & A2)]|A]; auto. discriminate.
Qed.

(** A row that the index held goes out. *)
Lemma index_ok_delete g i key r :
  index_ok g i ->
  g key = Some r ->
  index_ok (fun k => if String.eqb k key then None else g k)
    (index_delete key r i).
Proof.
  intros [W H] G.
  destruct (index_delete_spec key r i W) as (W' & _ & K & B).
  split; auto. intros t key'. rewrite B.
  assert (Hnew : (exists r0 t', (if String.eqb key' key then None else g key')
                                = Some r0
                    /\ index_key (index_delete key r i) r0 = Some t'
                    /\ tuple_eq t' t = true)
                 <-> String.eqb key' key = false
                     /\ set_mem (index_bucket i t) key' = true).
  { rewrite H. destruct (String.eqb key' key) eqn:E; split.
    - intros (r0 & t' & A & _). discriminate.
    - intros [A _]. discriminate.
    - intros (r0 & t' & A & A1 & A2). split; auto.
      exists r0, t'. rewrite <- K. auto.
    - intros [_ (r0 & t' & A & A1 & A2)]. exists r0, t'. rewrite K. auto. }
  rewrite Hnew.
  assert (Hkey : String.eqb key' key = true ->
                 set_mem (index_bucket i t) key' = true ->
                 exists t0, index_key i r = Some t0 /\ tuple_eq t t0 = true).
  { intros E M. apply String.eqb_eq in E. subst key'.
    apply H in M. destruct M as (r0 & t' & A & A1 & A2).
    rewrite G in A. inversion A; subst r0. exists t'. split; auto.
    now rewrite tuple_eq_sym. }
  destruct (index_key i r) as [t0|] eqn:IK.
  - destruct (tuple_eq t t0) eqn:T.
    + rewrite set_mem_discard, andb_true_iff, negb_true_iff. tauto.
    + split.
      * intros M. split; auto.
        destruct (String.eqb key' key) eqn:E; auto.
        destruct (Hkey eq_refl M) as (t1 & A1 & A2). congruence.
      * tauto.
  - split.
    + intros M. split; auto.
      destruct (String.eqb key' key) eqn:E; auto.
      destruct (Hkey eq_refl M) as (t1 & A1 & A2). discriminate.
    + tauto.
Qed.

(** An index without entries is that of a table without rows. *)
Lemma index_ok_empty tb c kind :
  (kind = true \/ List.length c = 1%nat) ->
  index_ok (fun _ => None)
    (if kind then HashIndex tb c [] else BTreeIndex tb c []).
Proof.
  intros L. split.
  - destruct kind; simpl; auto. destruct L; [discriminate|auto].
  - intros t key. split.
    + destruct kind; simpl; [discriminate|].
      destruct t as [|v [|b t]]; discriminate.
    + intros (r & t' & A & _). discriminate.
Qed.

(** ** The storage engine, when an operation returns *)

Lemma bind_return {S A B} (m : M S A) (f : A -> M S B) s b s' :
  bind m f s = (Return b, s') ->
  exists a s1, m s = (Return a, s1) /\ f a s1 = (Return b, s').
Proof.
  unfold bind. destruct (m s) as [[a|e] s1]; [eauto|discriminate].
Qed.

Lemma check_snapshot_maps e res e' :
  StorageEngine._check_snapshot e = (res, e') ->
  tables e' = tables e /\ schemas e' = schemas e.
Proof.
  unfold StorageEngine._check_snapshot, StorageEngine.snapshot.
  destruct (snapshot_interval e <=? operations_since_snapshot e)%Z.
  - destruct (io_error (files e)); intros H; inversion H; subst; auto.
  - intros H; inversion H; subst; auto.
Qed.

Lemma wal_append_maps en e res e' :
  StorageEngine.wal (WriteAheadLog.append en) e = (res, e') ->
  tables e' = tables e /\ schemas e' = schemas e.
Proof.
  unfold StorageEngine.wal, WriteAheadLog.append.
  destruct (negb (serializable en)); [|destruct (io_error (files e))];
    intros H; inversion H; subst; auto.
Qed.

Lemma put_return t k v e e' :
  StorageEngine.put t k v e = (Return tt, e') ->
  (exists sch, dict_get String.eqb (schemas e) t = Some sch)
  /\ schemas e' = schemas e
  /\ tables e'
     = dict_set String.eqb (tables e) t
         (dict_set String.eqb (StorageEngine.tables_default (tables e) t) k v).
Proof.
  unfold StorageEngine.put.
  destruct (dict_get String.eqb (schemas e) t) as [sch|]; [|discriminate].
  destruct (StorageEngine.unknown_column sch v); [discriminate|].
  intros H. split; [eauto|].
  apply bind_return in H. destruct H as ([] & e1 & H1 & H).
  apply bind_return in H. destruct H as ([] & e2 & H2 & H).
  apply bind_return in H. destruct H as ([] & e3 & H3 & H).
  apply check_snapshot_maps in H. apply wal_append_maps in H2.
  unfold modify in H1, H3. inversion H1; subst e1. inversion H3; subst e3.
  simpl in *. destruct H as [-> ->], H2 as [-> ->]. auto.
Qed.

Lemma delete_return t k b e e' :
  StorageEngine.delete t k e = (Return b, e') ->
  schemas e' = schemas e
  /\ match StorageEngine.get e t k with
     | Some _ =>
         tables e'
         = dict_set String.eqb (tables e) t
             (dict_del String.eqb (StorageEngine.tables_default (tables e) t) k)
     | None => tables e' = tables e
     end.
Proof.
  unfold StorageEngine.delete, StorageEngine.get, StorageEngine.tables_default,
    dict_mem.
  destruct (dict_get String.eqb (tables e) t) as [rws|];
    [|intros H; inversion H; subst; auto].
  destruct (dict_get String.eqb rws k);
    [|intros H; inversion H; subst; auto].
  intros H.
  apply bind_return in H. destruct H as ([] & e1 & H1 & H).
  apply bind_return in H. destruct H as ([] & e2 & H2 & H).
  apply bind_return in H. destruct H as ([] & e3 & H3 & H).
  apply bind_return in H. destruct H as ([] & e4 & H4 & H).
  apply check_snapshot_maps in H4. apply wal_append_maps in H2.
  unfold modify in H1, H3. inversion H1; subst e1. inversion H3; subst e3.
  inversion H; subst. simpl in *. destruct H4 as [-> ->], H2 as [-> ->]. auto.
Qed.

Lemma create_table_return t sch e e' :
  StorageEngine.create_table t sch e = (Return tt, e') ->
  dict_get String.eqb (schemas e) t = None
  /\ schemas e' = dict_set String.eqb (schemas e) t sch
  /\ tables e' = dict_set String.eqb (tables e) t [].
Proof.
  unfold StorageEngine.create_table, dict_mem.
  destruct (dict_get String.eqb (schemas e) t); [discriminate|].
  intros H. split; auto.
  apply bind_return in H. destruct H as ([] & e1 & H1 & H).
  apply bind_return in H. destruct H as ([] & e2 & H2 & H).
  apply bind_return in H. destruct H as ([] & e3 & H3 & H).
  apply check_snapshot_maps in H. apply wal_append_maps in H3.
  unfold modify in H1, H2. inversion H1; subst e1. inversion H2; subst e2.
  simpl in *. destruct H as [-> ->], H3 as [-> ->]. auto.
Qed.

Lemma drop_table_return t e e' :
  StorageEngine.drop_table t e = (Return tt, e') ->
  schemas e' = dict_del String.eqb (schemas e) t
  /\ tables e' = dict_del String.eqb (tables e) t.
Proof.
  unfold StorageEngine.drop_table.
  destruct (negb (dict_mem String.eqb (schemas e) t)); [discriminate|].
  intros H.
  apply bind_return in H. destruct H as ([] & e1 & H1 & H).
  apply bind_return in H. destruct H as ([] & e2 & H2 & H).
  apply bind_return in H. destruct H as ([] & e3 & H3 & H).
  apply check_snapshot_maps in H. apply wal_append_maps in H3.
  unfold modify in H1. inversion H1; subst e1.
  destruct (dict_mem String.eqb
              (tables (set_schemas
                 (fun s => dict_del String.eqb s t) e)) t); [|discriminate].
  inversion H2; subst e2.
  simpl in *. destruct H as [-> ->], H3 as [-> ->]. auto.
Qed.

(** ** Row maps *)

Lemma dict_get_none_keys {V} (d : dict string V) k :
  dict_get String.eqb d k = None -> ~ In k (map fst d).
Proof.
  induction d as [|[k0 v0] d IH]; simpl; [tauto|].
  destruct (String.eqb k k0) eqn:E; [discriminate|].
  intros H [F|F]; [|now apply IH].
  subst. rewrite String.eqb_refl in E. discriminate.
Qed.

Lemma dict_set_keys {V} (d : dict string V) k v :
  map fst (dict_set String.eqb d k v)
  = if dict_mem String.eqb d k then map fst d else (map fst d ++ [k])%list.
Proof.
  unfold dict_mem. induction d as [|[k0 v0] d IH]; simpl; auto.
  destruct (String.eqb k k0) eqn:E; simpl; auto.
  rewrite IH. now destruct (dict_get String.eqb d k).
Qed.

Lemma dict_set_nodup {V} (d : dict string V) k v :
  NoDup (map fst d) -> NoDup (map fst (dict_set String.eqb d k v)).
Proof.
  intros N. rewrite dict_set_keys. unfold dict_mem.
  destruct (dict_get String.eqb d k) eqn:G; auto.
  apply NoDup_app; auto.
  - repeat constructor. simpl. tauto.
  - intros x Hx [<-|[]]. eapply dict_get_none_keys; eauto.
Qed.

Lemma dict_del_nodup {V} (d : dict string V) k :
  NoDup (map fst d) -> NoDup (map fst (dict_del String.eqb d k)).
Proof.
  unfold dict_del. induction d as [|[k0 v0] d IH]; simpl; auto.
  intros N. inversion N as [|? ? N1 N2]; subst.
  destruct (String.eqb k k0); simpl; auto.
  constructor; auto. intros I. apply N1.
  apply in_map_iff in I. destruct I as ([k1 v1] & E & I).
  apply filter_In in I. apply in_map_iff. exists (k1, v1). tauto.
Qed.

(** In a row map without double keys the items are what [get] finds. *)
Lemma dict_in_get {V} (d : dict string V) k v :
  NoDup (map fst d) -> (In (k, v) d <-> dict_get String.eqb d k = Some v).
Proof.
  induction d as [|[k0 v0] d IH]; simpl.
  - intros _. split; [tauto|discriminate].
  - intros N. inversion N as [|? ? N1 N2]; subst.
    destruct (String.eqb k k0) eqn:E.
    + apply String.eqb_eq in E. subst k0. split.
      * intros [H|H]; [congruence|].
        exfalso. apply N1. apply in_map_iff. exists (k, v). auto.
      * intros H. left. congruence.
    + rewrite <- (IH N2). split; [|tauto].
      intros [H|H]; auto. inversion H; subst.
      rewrite String.eqb_refl in E. discriminate.
Qed.

(** [get] after the tables changed at one table. *)
Lemma get_after_set_table e e' t rws :
  tables e' = dict_set String.eqb (tables e) t rws ->
  forall t' k',
    StorageEngine.get e' t' k'
    = if String.eqb t' t then dict_get String.eqb rws k'
      else StorageEngine.get e t' k'.
Proof.
  intros E t' k'. unfold StorageEngine.get. rewrite E.
  destruct (String.eqb t' t) eqn:T.
  - apply String.eqb_eq in T. subst t'. now rewrite dict_get_set_eq.
  - apply String.eqb_neq in T. now rewrite dict_get_set_neq.
Qed.

Lemma get_tables_default e t k :
  dict_get String.eqb (StorageEngine.tables_default (tables e) t) k
  = StorageEngine.get e t k.
Proof.
  unfold StorageEngine.get, StorageEngine.tables_default.
  now destruct (dict_get String.eqb (tables e) t).
Qed.

Lemma get_after_put t k v e e' :
  StorageEngine.put t k v e = (Return tt, e') ->
  forall t' k',
    StorageEngine.get e' t' k'
    = if same_key t k t' k' then Some v else StorageEngine.get e t' k'.
Proof.
  intros H t' k'. destruct (@put_return _ _ _ _ _ H) as (_ & _ & E).
  rewrite (@get_after_set_table e e' t _ E t' k'). unfold same_key.
  destruct (String.eqb t' t) eqn:T; auto. simpl.
  apply String.eqb_eq in T. subst t'.
  destruct (String.eqb k' k) eqn:K.
  - apply String.eqb_eq in K. subst. apply dict_get_set_eq.
  - apply String.eqb_neq in K. rewrite dict_get_set_neq by assumption.
    apply get_tables_default.
Qed.

Lemma get_after_delete t k b e e' :
  StorageEngine.delete t k e = (Return b, e') ->
  forall t' k',
    StorageEngine.get e' t' k'
    = if same_key t k t' k' then None else StorageEngine.get e t' k'.
Proof.
  intros H t' k'. destruct (@delete_return _ _ _ _ _ H) as (_ & E).
  unfold same_key.
  destruct (StorageEngine.get e t k) eqn:G.
  - rewrite (@get_after_set_table e e' t _ E t' k').
    destruct (String.eqb t' t) eqn:T; auto. simpl.
    apply String.eqb_eq in T. subst t'.
    destruct (String.eqb k' k) eqn:K.
    + apply String.eqb_eq in K. subst. apply dict_get_del_eq.
    + apply String.eqb_neq in K. rewrite dict_get_del_neq by assumption.
      apply get_tables_default.
  - unfold StorageEngine.get in *. rewrite E.
    destruct (String.eqb t' t) eqn:T; auto.
    destruct (String.eqb k' k) eqn:K; auto. simpl.
    apply String.eqb_eq in T, K. now subst.
Qed.

Lemma nodup_after_set_table (tb tb' : tables_t) t rws :
  tb' = dict_set String.eqb tb t rws ->
  NoDup (map fst rws) ->
  (forall t0 r0, dict_get String.eqb tb t0 = Some r0 -> NoDup (map fst r0)) ->
  forall t0 r0, dict_get String.eqb tb' t0 = Some r0 -> NoDup (map fst r0).
Proof.
  intros -> N H t0 r0. destruct (String.eqb t0 t) eqn:T.
  - apply String.eqb_eq in T. subst. rewrite dict_get_set_eq.
    intros E. inversion E. now subst.
  - apply String.eqb_neq in T. rewrite dict_get_set_neq by assumption.
    apply H.
Qed.

Lemma tables_default_nodup (tb : tables_t) t :
  (forall t0 r0, dict_get String.eqb tb t0 = Some r0 -> NoDup (map fst r0)) ->
  NoDup (map fst (StorageEngine.tables_default tb t)).
Proof.
  intros H. unfold StorageEngine.tables_default.
  destruct (dict_get String.eqb tb t) eqn:G; [eauto|constructor].
Qed.

(** ** The index manager *)

Lemma get_index_set m t d t' name :
  IndexManager.get_index (dict_set String.eqb m t d) t' name
  = if String.eqb t' t then dict_get String.eqb d name
    else IndexManager.get_index m t' name.
Proof.
  unfold IndexManager.get_index, IndexManager.indexes_of.
  destruct (String.eqb t' t) eqn:T.
  - apply String.eqb_eq in T. subst. now rewrite dict_get_set_eq.
  - apply String.eqb_neq in T. now rewrite dict_get_set_neq.
Qed.

Lemma insert_all_return key r d : forall d',
  IndexManager.insert_all key r d = (Return tt, d') ->
  forall name i',
    dict_get String.eqb d' name = Some i' ->
    exists i, dict_get String.eqb d name = Some i
              /\ index_insert key r i = Return i'.
Proof.
  induction d as [|[n0 i0] d IH]; intros d' H name i' G; simpl in H.
  - inversion H; subst. discriminate.
  - destruct (index_insert key r i0) as [i1|] eqn:I; [|discriminate].
    destruct (IndexManager.insert_all key r d) as [res d1] eqn:A.
    inversion H; subst. simpl in *.
    destruct (String.eqb name n0).
    + inversion G; subst. eauto.
    + eapply IH; eauto.
Qed.

Lemma insert_row_return t key r m m' :
  IndexManager.insert_row t key r m = (Return tt, m') ->
  forall t' name i',
    IndexManager.get_index m' t' name = Some i' ->
    if String.eqb t' t
    then exists i, IndexManager.get_index m t name = Some i
                   /\ index_insert key r i = Return i'
    else IndexManager.get_index m t' name = Some i'.
Proof.
  unfold IndexManager.insert_row. intros H t' name i' G.
  destruct (dict_get String.eqb m t) as [d|] eqn:D.
  - destruct (IndexManager.insert_all key r d) as [res d'] eqn:A.
    inversion H; subst. rewrite get_index_set in G.
    destruct (String.eqb t' t); auto.
    destruct (@insert_all_return key r d d' A name i' G) as (i & G' & I).
    exists i. split; auto.
    unfold IndexManager.get_index, IndexManager.indexes_of. now rewrite D.
  - inversion H; subst. destruct (String.eqb t' t) eqn:T; auto.
    apply String.eqb_eq in T. subst.
    unfold IndexManager.get_index, IndexManager.indexes_of in G.
    rewrite D in G. discriminate.
Qed.

Lemma dict_get_map_values {V W} (f : V -> W) (d : dict string V) name :
  dict_get String.eqb (map (fun ni => (fst ni, f (snd ni))) d) name
  = option_map f (dict_get String.eqb d name).
Proof.
  induction d as [|[n0 v0] d IH]; simpl; auto.
  now destruct (String.eqb name n0).
Qed.

Lemma delete_row_get t key r m t' name :
  IndexManager.get_index (IndexManager.delete_row t key r m) t' name
  = if String.eqb t' t
    then option_map (index_delete key r) (IndexManager.get_index m t name)
    else IndexManager.get_index m t' name.
Proof.
  unfold IndexManager.delete_row.
  destruct (dict_get String.eqb m t) as [d|] eqn:D.
  - rewrite get_index_set. destruct (String.eqb t' t); auto.
    rewrite dict_get_map_values.
    unfold IndexManager.get_index, IndexManager.indexes_of. now rewrite D.
  - destruct (String.eqb t' t) eqn:T; auto.
    apply String.eqb_eq in T. subst.
    unfold IndexManager.get_index, IndexManager.indexes_of. now rewrite D.
Qed.

Lemma drop_index_get t name m t' name' :
  IndexManager.get_index (IndexManager.drop_index t name m) t' name'
  = if same_key t name t' name' then None
    else IndexManager.get_index m t' name'.
Proof.
  unfold IndexManager.drop_index, same_key.
  destruct (String.eqb t' t) eqn:T; simpl.
  - apply String.eqb_eq in T. subst t'.
    unfold IndexManager.get_index at 2, IndexManager.indexes_of.
    destruct (dict_get String.eqb m t) as [d|] eqn:D.
    + unfold dict_mem. destruct (dict_get String.eqb d name) eqn:G.
      * rewrite get_index_set, String.eqb_refl.
        destruct (String.eqb name' name) eqn:N.
        -- apply String.eqb_eq in N. subst. apply dict_get_del_eq.
        -- apply String.eqb_neq in N. now apply dict_get_del_neq.
      * unfold IndexManager.get_index, IndexManager.indexes_of. rewrite D.
        destruct (String.eqb name' name) eqn:N; auto.
        apply String.eqb_eq in N. now subst.
    + unfold IndexManager.get_index, IndexManager.indexes_of. rewrite D.
      now destruct (String.eqb name' name).
  - destruct (dict_get String.eqb m t) as [d|] eqn:D; auto.
    destruct (dict_mem String.eqb d name); auto.
    rewrite get_index_set, T. reflexivity.
Qed.

Lemma create_index_return name t cols kind m m' :
  IndexManager.create_index name t cols kind m = (Return tt, m') ->
  IndexManager.get_index m t name = None
  /\ exists i,
       index_ok (fun _ => None) i
       /\ forall t' name',
            IndexManager.get_index m' t' name'
            = if same_key t name t' name' then Some i
              else IndexManager.get_index m t' name'.
Proof.
  unfold IndexManager.create_index.
  set (m1 := dict_set String.eqb m t (IndexManager.indexes_of m t)).
  assert (E1 : forall t' name', IndexManager.get_index m1 t' name'
                                = IndexManager.get_index m t' name').
  { intros t' name'. unfold m1. rewrite get_index_set.
    destruct (String.eqb t' t) eqn:T; auto.
    apply String.eqb_eq in T. now subst. }
  assert (E2 : IndexManager.indexes_of m1 t = IndexManager.indexes_of m t).
  { unfold m1, IndexManager.indexes_of at 1. now rewrite dict_get_set_eq. }
  rewrite E2. unfold dict_mem.
  destruct (dict_get String.eqb (IndexManager.indexes_of m t) name) eqn:G;
    [discriminate|].
  assert (R : forall i, forall t' name',
    IndexManager.get_index
      (dict_set String.eqb m1 t
         (dict_set String.eqb (IndexManager.indexes_of m t) name i)) t' name'
    = if same_key t name t' name' then Some i
      else IndexManager.get_index m t' name').
  { intros i t' name'. rewrite get_index_set. unfold same_key.
    destruct (String.eqb t' t) eqn:T; simpl; [|apply E1].
    apply String.eqb_eq in T. subst t'.
    destruct (String.eqb name' name) eqn:N.
    - apply String.eqb_eq in N. subst. apply dict_get_set_eq.
    - apply String.eqb_neq in N. now rewrite dict_get_set_neq. }
  destruct (String.eqb kind "hash").
  - intros H. inversion H; subst. split; auto.
    exists (HashIndex t cols []). split; auto.
    apply (@index_ok_empty t cols true). auto.
  - destruct (String.eqb kind "btree"); [|discriminate].
    destruct (Nat.eqb (List.length cols) 1) eqn:L; [|discriminate].
    apply Nat.eqb_eq in L.
    intros H. inversion H; subst. split; auto.
    exists (BTreeIndex t cols []). split; auto.
    apply (@index_ok_empty t cols false). auto.
Qed.

Lemma insert_into_return t name key r m m' :
  QueryExecutor.insert_into t name key r m = (Return tt, m') ->
  forall t' name',
    IndexManager.get_index m' t' name'
    = if same_key t name t' name'
      then match IndexManager.get_index m t name with
           | Some i =>
               match index_insert key r i with
               | Return i' => Some i'
               | Raise _ => None
               end
           | None => None
           end
      else IndexManager.get_index m t' name'.
Proof.
  unfold QueryExecutor.insert_into. intros H t' name'.
  destruct (IndexManager.get_index m t name) as [i|] eqn:G.
  - destruct (index_insert key r i) as [i'|]; [|discriminate].
    inversion H; subst. rewrite get_index_set. unfold same_key.
    destruct (String.eqb t' t) eqn:T; simpl; auto.
    apply String.eqb_eq in T. subst t'.
    destruct (String.eqb name' name) eqn:N.
    + apply String.eqb_eq in N. subst. apply dict_get_set_eq.
    + apply String.eqb_neq in N. now rewrite dict_get_set_neq.
  - inversion H; subst. unfold same_key.
    destruct (String.eqb t' t) eqn:T; simpl; auto.
    destruct (String.eqb name' name) eqn:N; auto.
    apply String.eqb_eq in T, N. now subst.
Qed.

(** ** The executor, when an operation returns *)

Lemma on_storage_return {A} (m : M engine A) x a x' :
  on_storage m x = (Return a, x') ->
  exists e', m (storage x) = (Return a, e')
             /\ x' = {| storage := e'; index_manager := index_manager x;
                        uuid4 := uuid4 x; uuid_calls := uuid_calls x |}.
Proof.
  unfold on_storage. destruct (m (storage x)) as [r e'].
  intros H. inversion H; subst. eauto.
Qed.

Lemma on_indexes_return {A} (m : M manager A) x a x' :
  on_indexes m x = (Return a, x') ->
  exists im, m (index_manager x) = (Return a, im)
             /\ x' = {| storage := storage x; index_manager := im;
                        uuid4 := uuid4 x; uuid_calls := uuid_calls x |}.
Proof.
  unfold on_indexes. destruct (m (index_manager x)) as [r im].
  intros H. inversion H; subst. eauto.
Qed.

Lemma scan_items x t :
  index_inv x ->
  NoDup (map fst (StorageEngine.scan (storage x) t))
  /\ forall k r, In (k, r) (StorageEngine.scan (storage x) t)
                 <-> StorageEngine.get (storage x) t k = Some r.
Proof.
  intros (_ & _ & I3 & _). unfold StorageEngine.scan, StorageEngine.get.
  destruct (dict_get String.eqb (tables (storage x)) t) as [rws|] eqn:G.
  - split; [eauto|]. intros k r. apply dict_in_get. eauto.
  - split; [constructor|]. intros k r. simpl. split; [tauto|discriminate].
Qed.

Lemma same_key_refl t k : same_key t k t k = true.
Proof. unfold same_key. now rewrite !String.eqb_refl. Qed.

Lemma same_key_eq t k t' k' : same_key t k t' k' = true -> t' = t /\ k' = k.
Proof.
  unfold same_key. intros H. apply andb_true_iff in H.
  destruct H as [H1 H2]. apply String.eqb_eq in H1, H2. auto.
Qed.

(** The state after a row was written at [(t, key)] and every index of
    [t] was brought up to date. *)
Lemma index_inv_after_write x e' im calls t key v :
  index_inv x ->
  (exists sch, dict_get String.eqb (schemas (storage x)) t = Some sch) ->
  schemas e' = schemas (storage x) ->
  tables e'
  = dict_set String.eqb (tables (storage x)) t
      (dict_set String.eqb
         (StorageEngine.tables_default (tables (storage x)) t) key v) ->
  (forall t' k',
      StorageEngine.get e' t' k'
      = if same_key t key t' k' then Some v
        else StorageEngine.get (storage x) t' k') ->
  (exists n, (n < calls)%nat /\ key = uuid4 x n) ->
  (uuid_calls x <= calls)%nat ->
  (forall t' name i',
      IndexManager.get_index im t' name = Some i' ->
      index_ok (StorageEngine.get e' t') i') ->
  index_inv {| storage := e'; index_manager := im;
               uuid4 := uuid4 x; uuid_calls := calls |}.
Proof.
  intros (I1 & I2 & I3 & I4 & I5) [sch S] ES ET EG K C J1.
  unfold index_inv. simpl.
  split; [exact J1|]. split; [|split; [|split; [|exact I5]]].
  - intros t' N k'. rewrite ES in N. rewrite EG.
    destruct (same_key t key t' k') eqn:SK; [|now apply I2].
    apply same_key_eq in SK. destruct SK; subst. congruence.
  - intros t0 r0. apply (@nodup_after_set_table _ _ t _ ET); auto.
    apply dict_set_nodup. now apply tables_default_nodup.
  - intros t' k' r. rewrite EG.
    destruct (same_key t key t' k') eqn:SK.
    + intros _. apply same_key_eq in SK. destruct SK; subst. exact K.
    + intros G. destruct (I4 _ _ _ G) as (n & L & E).
      exists n. split; [lia|exact E].
Qed.

Lemma insert_inv q x res x' :
  index_inv x ->
  QueryExecutor._execute_insert q x = (Return res, x') ->
  index_inv x'.
Proof.
  intros Inv H. unfold QueryExecutor._execute_insert in H.
  apply bind_return in H. destruct H as (key & x1 & H1 & H).
  unfold next_uuid in H1. inversion H1; subst key x1. clear H1.
  apply bind_return in H. destruct H as ([] & x2 & H2 & H).
  apply on_storage_return in H2. destruct H2 as (e' & P & ->).
  apply bind_return in H. destruct H as ([] & x3 & H3 & H).
  apply on_indexes_return in H3. destruct H3 as (im & IR & ->).
  unfold ret in H. inversion H; subst x'. clear H. simpl in *.
  set (key := uuid4 x (uuid_calls x)) in *.
  set (t := ParsedQuery.table q) in *.
  set (v := ParsedQuery.values q) in *.
  pose proof Inv as (I1 & I2 & I3 & I4 & I5).
  destruct (@put_return _ _ _ _ _ P) as (HS & ES & ET).
  pose proof (@get_after_put _ _ _ _ _ P) as EG.
  assert (Fresh : StorageEngine.get (storage x) t key = None).
  { destruct (StorageEngine.get (storage x) t key) eqn:G; auto.
    destruct (I4 _ _ _ G) as (n & L & E). apply I5 in E. lia. }
  apply (@index_inv_after_write x e' im (S (uuid_calls x)) t key v);
    auto.
  - exists (uuid_calls x). split; [lia|reflexivity].
  - intros t' name i' G.
    pose proof (@insert_row_return _ _ _ _ _ IR t' name i' G) as R.
    destruct (String.eqb t' t) eqn:T.
    + apply String.eqb_eq in T. subst t'.
      destruct R as (i & Gi & Ii).
      eapply index_ok_ext;
        [|exact (@index_ok_insert _ _ _ _ _ (I1 _ _ _ Gi) Fresh Ii)].
      intros k. simpl. rewrite EG. unfold same_key.
      now rewrite String.eqb_refl.
    + eapply index_ok_ext; [|exact (I1 _ _ _ R)].
      intros k. simpl. rewrite EG. unfold same_key. now rewrite T.
Qed.

Lemma create_table_inv q x res x' :
  index_inv x ->
  QueryExecutor._execute_create_table q x = (Return res, x') ->
  index_inv x'.
Proof.
  intros (I1 & I2 & I3 & I4 & I5) H.
  unfold QueryExecutor._execute_create_table in H.
  apply bind_return in H. destruct H as ([] & x1 & H1 & H).
  apply on_storage_return in H1. destruct H1 as (e' & C & ->).
  unfold ret in H. inversion H; subst x'. clear H.
  destruct (@create_table_return _ _ _ _ C) as (N & ES & ET).
  set (t := ParsedQuery.table q) in *.
  assert (EG : forall t' k',
             StorageEngine.get e' t' k' = StorageEngine.get (storage x) t' k').
  { intros t' k'. rewrite (@get_after_set_table _ _ t _ ET t' k').
    destruct (String.eqb t' t) eqn:T; auto.
    apply String.eqb_eq in T. subst. simpl. symmetry. now apply I2. }
  unfold index_inv. simpl. split; [|split; [|split; [|split; [|exact I5]]]].
  - intros t' name i G. eapply index_ok_ext; [|exact (I1 _ _ _ G)].
    intros k. simpl. now rewrite EG.
  - intros t' S k. rewrite EG. apply I2. rewrite ES in S.
    destruct (String.eqb t' t) eqn:T.
    + apply String.eqb_eq in T. subst. rewrite dict_get_set_eq in S.
      discriminate.
    + apply String.eqb_neq in T. now rewrite dict_get_set_neq in S.
  - intros t0 r0. apply (@nodup_after_set_table _ _ t _ ET); auto.
    constructor.
  - intros t' k r. rewrite EG. apply I4.
Qed.

Lemma drop_all_get t names : forall m t' name',
  IndexManager.get_index
    (fold_left (fun m n => IndexManager.drop_index t n m) names m) t' name'
  = if String.eqb t' t && existsb (String.eqb name') names then None
    else IndexManager.get_index m t' name'.
Proof.
  induction names as [|n names IH]; intros m t' name'; simpl.
  - now rewrite andb_false_r.
  - rewrite IH, drop_index_get. unfold same_key.
    destruct (String.eqb t' t); simpl; auto.
    destruct (existsb (String.eqb name') names); simpl.
    + now rewrite orb_true_r.
    + now rewrite orb_false_r.
Qed.

Lemma for_each_drop t names : forall x,
  for_each names (fun n =>
    on_indexes (modify (IndexManager.drop_index t n))) x
  = (Return tt,
     {| storage := storage x;
        index_manager :=
          fold_left (fun m n => IndexManager.drop_index t n m) names
            (index_manager x);
        uuid4 := uuid4 x; uuid_calls := uuid_calls x |}).
Proof.
  induction names as [|n names IH]; intros x; simpl.
  - unfold ret. now destruct x.
  - unfold bind, on_indexes, modify. simpl. now rewrite IH.
Qed.

Lemma dict_get_some_keys {V} (d : dict string V) k v :
  dict_get String.eqb d k = Some v ->
  existsb (String.eqb k) (dict_keys d) = true.
Proof.
  induction d as [|[k0 v0] d IH]; simpl; [discriminate|].
  destruct (String.eqb k k0); auto.
Qed.

Lemma drop_table_inv q x res x' :
  index_inv x ->
  QueryExecutor._execute_drop_table q x = (Return res, x') ->
  index_inv x'.
Proof.
  intros (I1 & I2 & I3 & I4 & I5) H.
  unfold QueryExecutor._execute_drop_table in H.
  apply bind_return in H. destruct H as ([] & x1 & H1 & H).
  apply on_storage_return in H1. destruct H1 as (e' & D & ->).
  apply bind_return in H. destruct H as (names & x2 & H2 & H).
  unfold gets in H2. inversion H2; subst names x2. clear H2.
  apply bind_return in H. destruct H as ([] & x3 & H3 & H).
  rewrite for_each_drop in H3. inversion H3; subst x3. clear H3.
  unfold ret in H. inversion H; subst x'. clear H. simpl in *.
  destruct (@drop_table_return _ _ _ D) as (ES & ET).
  set (t := ParsedQuery.table q) in *.
  assert (EG : forall t' k',
             StorageEngine.get e' t' k'
             = if String.eqb t' t then None
               else StorageEngine.get (storage x) t' k').
  { intros t' k'. unfold StorageEngine.get. rewrite ET.
    destruct (String.eqb t' t) eqn:T.
    - apply String.eqb_eq in T. subst. now rewrite dict_get_del_eq.
    - apply String.eqb_neq in T. now rewrite dict_get_del_neq. }
  unfold index_inv. simpl. split; [|split; [|split; [|split; [|exact I5]]]].
  - intros t' name i. rewrite drop_all_get.
    destruct (String.eqb t' t) eqn:T; simpl.
    + apply String.eqb_eq in T. subst t'.
      destruct (existsb (String.eqb name)
                  (dict_keys (IndexManager.get_indexes_for_table
                                (index_manager x) t))) eqn:X;
        [discriminate|].
      intros G. unfold IndexManager.get_index in G.
      apply dict_get_some_keys in G.
      unfold IndexManager.get_indexes_for_table in X. congruence.
    + intros G. eapply index_ok_ext; [|exact (I1 _ _ _ G)].
      intros k. simpl. now rewrite EG, T.
  - intros t' S k. rewrite EG. destruct (String.eqb t' t) eqn:T; auto.
    apply I2. rewrite ES in S. apply String.eqb_neq in T.
    now rewrite dict_get_del_neq in S.
  - intros t0 r0. rewrite ET. destruct (String.eqb t0 t) eqn:T.
    + apply String.eqb_eq in T. subst. now rewrite dict_get_del_eq.
    + apply String.eqb_neq in T. rewrite dict_get_del_neq by assumption.
      apply I3.
  - intros t' k r. rewrite EG. destruct (String.eqb t' t); [discriminate|].
    apply I4.
Qed.

Lemma drop_index_inv q x res x' :
  index_inv x ->
  QueryExecutor._execute_drop_index q x = (Return res, x') ->
  index_inv x'.
Proof.
  intros (I1 & I2 & I3 & I4 & I5) H.
  unfold QueryExecutor._execute_drop_index in H.
  apply bind_return in H. destruct H as ([] & x1 & H1 & H).
  apply on_indexes_return in H1. destruct H1 as (im & D & ->).
  unfold modify in D. inversion D; subst im. clear D.
  unfold ret in H. inversion H; subst x'. clear H.
  unfold index_inv. simpl.
  split; [|auto]. intros t' name i. rewrite drop_index_get.
  destruct (same_key _ _ t' name); [discriminate|]. apply I1.
Qed.

Lemma select_inv q x res x' :
  QueryExecutor._execute_select q x = (Return res, x') -> x' = x.
Proof.
  unfold QueryExecutor._execute_select.
  destruct (QueryExecutor.candidates x q) as [found|e];
    [|intros H; now inversion H].
  destruct (QueryExecutor.apply_order_by _ _); intros H; now inversion H.
Qed.

(** ** The loops of UPDATE, DELETE and CREATE INDEX *)

Lemma count_loop_return {A} (P : executor -> list A -> Prop)
    (body : A -> M executor bool) :
  (forall it rest x b x',
      P x (it :: rest) -> body it x = (Return b, x') -> P x' rest) ->
  forall items n x m x',
    P x items ->
    QueryExecutor.count_loop items body n x = (Return m, x') ->
    P x' [].
Proof.
  intros Step. induction items as [|it items IH]; intros n x m x' HP H.
  - simpl in H. unfold ret in H. inversion H; subst. exact HP.
  - simpl in H. apply bind_return in H. destruct H as (b & x1 & H1 & H).
    eapply IH; [|exact H]. eapply Step; eauto.
Qed.

Lemma for_each_return {A} (P : executor -> list A -> Prop)
    (body : A -> M executor unit) :
  (forall it rest x x',
      P x (it :: rest) -> body it x = (Return tt, x') -> P x' rest) ->
  forall items x x',
    P x items ->
    for_each items body x = (Return tt, x') ->
    P x' [].
Proof.
  intros Step. induction items as [|it items IH]; intros x x' HP H.
  - simpl in H. unfold ret in H. inversion H; subst. exact HP.
  - simpl in H. apply bind_return in H. destruct H as ([] & x1 & H1 & H).
    eapply IH; [|exact H]. eapply Step; eauto.
Qed.

Lemma pending_scan t x :
  index_inv x -> pending t x (StorageEngine.scan (storage x) t).
Proof.
  intros Inv. destruct (@scan_items x t Inv) as [N S].
  split; [exact Inv|]. split; [exact N|]. intros k r. apply S.
Qed.

Lemma pending_tail t x x' k r rest :
  pending t x ((k, r) :: rest) ->
  index_inv x' ->
  (forall k', k' <> k ->
      StorageEngine.get (storage x') t k' = StorageEngine.get (storage x) t k') ->
  pending t x' rest.
Proof.
  intros (_ & N & S) Inv E. simpl in N. inversion N as [|? ? N1 N2]; subst.
  split; [exact Inv|]. split; [exact N2|].
  intros k' r' I. rewrite E; [apply S; now right|].
  intros ->. apply N1. apply in_map_iff. exists (k, r'). auto.
Qed.

Lemma update_row_step q k r rest x b x' :
  pending (ParsedQuery.table q) x ((k, r) :: rest) ->
  QueryExecutor.update_row q (k, r) x = (Return b, x') ->
  pending (ParsedQuery.table q) x' rest.
Proof.
  intros HP H. pose proof HP as (Inv & N & S).
  assert (G : StorageEngine.get (storage x) (ParsedQuery.table q) k = Some r)
    by (apply S; now left).
  unfold QueryExecutor.update_row in H.
  destruct (QueryExecutor._matches_conditions r (ParsedQuery.conditions q)).
  2:{ unfold ret in H. inversion H; subst.
      eapply pending_tail; eauto. }
  apply bind_return in H. destruct H as ([] & x1 & H1 & H).
  apply on_indexes_return in H1. destruct H1 as (im1 & D & ->).
  unfold modify in D. inversion D; subst im1. clear D.
  apply bind_return in H. destruct H as ([] & x2 & H2 & H).
  apply on_storage_return in H2. destruct H2 as (e' & P & ->).
  apply bind_return in H. destruct H as ([] & x3 & H3 & H).
  apply on_indexes_return in H3. destruct H3 as (im & IR & ->).
  unfold ret in H. inversion H; subst x'. clear H. simpl in *.
  set (t := ParsedQuery.table q) in *.
  set (v := dict_merge String.eqb r (ParsedQuery.values q)) in *.
  pose proof Inv as (I1 & I2 & I3 & I4 & I5).
  destruct (@put_return _ _ _ _ _ P) as (HS & ES & ET).
  pose proof (@get_after_put _ _ _ _ _ P) as EG.
  assert (Inv' : index_inv {| storage := e'; index_manager := im;
                              uuid4 := uuid4 x; uuid_calls := uuid_calls x |}).
  { apply (@index_inv_after_write x e' im (uuid_calls x) t k v); auto.
    - eapply I4; eauto.
    - intros t' name i' Gi.
      pose proof (@insert_row_return _ _ _ _ _ IR t' name i' Gi) as R.
      destruct (String.eqb t' t) eqn:T.
      + apply String.eqb_eq in T. subst t'.
        destruct R as (i1 & Gi1 & Ii). rewrite delete_row_get in Gi1.
        rewrite String.eqb_refl in Gi1.
        destruct (IndexManager.get_index (index_manager x) t name)
          as [i|] eqn:Gi0; [|discriminate].
        simpl in Gi1. inversion Gi1; subst i1.
        pose proof (@index_ok_delete _ _ k r (I1 _ _ _ Gi0) G) as OD.
        assert (F : (fun k0 => if String.eqb k0 k then None
                               else StorageEngine.get (storage x) t k0) k
                    = None) by now rewrite String.eqb_refl.
        eapply index_ok_ext; [|exact (@index_ok_insert _ _ _ _ _ OD F Ii)].
        intros k0. simpl. rewrite EG. unfold same_key.
        rewrite String.eqb_refl. simpl. now destruct (String.eqb k0 k).
      + rewrite delete_row_get, T in R.
        eapply index_ok_ext; [|exact (I1 _ _ _ R)].
        intros k0. simpl. rewrite EG. unfold same_key. now rewrite T. }
  eapply pending_tail; eauto.
  intros k' Nk. simpl. rewrite EG. unfold same_key.
  apply String.eqb_neq in Nk. rewrite Nk. now rewrite andb_false_r.
Qed.

Lemma update_inv q x res x' :
  index_inv x ->
  QueryExecutor._execute_update q x = (Return res, x') ->
  index_inv x'.
Proof.
  intros Inv H. unfold QueryExecutor._execute_update in H.
  apply bind_return in H. destruct H as (items & x1 & H1 & H).
  unfold gets in H1. inversion H1; subst items x1. clear H1.
  apply bind_return in H. destruct H as (n & x2 & H2 & H).
  unfold ret in H. inversion H; subst x'. clear H.
  assert (F : pending (ParsedQuery.table q) x2 []).
  { eapply (@count_loop_return _ (pending (ParsedQuery.table q)));
      [|apply pending_scan; exact Inv|exact H2].
    intros [k r] rest y b y'. apply update_row_step. }
  apply F.
Qed.

Lemma delete_row_step q k r rest x b x' :
  pending (ParsedQuery.table q) x ((k, r) :: rest) ->
  QueryExecutor.delete_row q (k, r) x = (Return b, x') ->
  pending (ParsedQuery.table q) x' rest.
Proof.
  intros HP H. pose proof HP as (Inv & N & S).
  assert (G : StorageEngine.get (storage x) (ParsedQuery.table q) k = Some r)
    by (apply S; now left).
  unfold QueryExecutor.delete_row in H. simpl in H.
  apply bind_return in H. destruct H as (b0 & x1 & H1 & H).
  apply on_storage_return in H1. destruct H1 as (e' & D & ->).
  apply bind_return in H. destruct H as ([] & x2 & H2 & H).
  apply on_indexes_return in H2. destruct H2 as (im & DR & ->).
  unfold modify in DR. inversion DR; subst im. clear DR.
  unfold ret in H. inversion H; subst x'. clear H. simpl in *.
  set (t := ParsedQuery.table q) in *.
  pose proof Inv as (I1 & I2 & I3 & I4 & I5).
  destruct (@delete_return _ _ _ _ _ D) as (ES & ET). rewrite G in ET.
  pose proof (@get_after_delete _ _ _ _ _ D) as EG.
  assert (Inv' : index_inv
                   {| storage := e';
                      index_manager :=
                        IndexManager.delete_row t k r (index_manager x);
                      uuid4 := uuid4 x; uuid_calls := uuid_calls x |}).
  { unfold index_inv. simpl.
    split; [|split; [|split; [|split; [|exact I5]]]].
    - intros t' name i'. rewrite delete_row_get.
      destruct (String.eqb t' t) eqn:T.
      + apply String.eqb_eq in T. subst t'.
        destruct (IndexManager.get_index (index_manager x) t name)
          as [i|] eqn:Gi0; [|discriminate].
        simpl. intros E. inversion E; subst i'.
        eapply index_ok_ext;
          [|exact (@index_ok_delete _ _ k r (I1 _ _ _ Gi0) G)].
        intros k0. simpl. rewrite EG. unfold same_key.
        rewrite String.eqb_refl. simpl. now destruct (String.eqb k0 k).
      + intros Gi. eapply index_ok_ext; [|exact (I1 _ _ _ Gi)].
        intros k0. simpl. rewrite EG. unfold same_key. now rewrite T.
    - intros t' HS k'. rewrite EG.
      destruct (same_key t k t' k'); auto. apply I2. now rewrite <- ES.
    - intros t0 r0. apply (@nodup_after_set_table _ _ t _ ET); auto.
      apply dict_del_nodup. now apply tables_default_nodup.
    - intros t' k' r'. rewrite EG.
      destruct (same_key t k t' k'); [discriminate|]. apply I4. }
  eapply pending_tail; eauto.
  intros k' Nk. simpl. rewrite EG. unfold same_key.
  apply String.eqb_neq in Nk. rewrite Nk. now rewrite andb_false_r.
Qed.

Lemma pending_filter t x (f : string * row -> bool) items :
  pending t x items -> pending t x (filter f items).
Proof.
  intros (Inv & N & S). split; [exact Inv|]. split.
  - clear S. induction items as [|[k r] items IH]; simpl; auto.
    inversion N as [|? ? N1 N2]; subst.
    destruct (f (k, r)); simpl; auto. constructor; auto.
    intros I. apply N1. apply in_map_iff in I.
    destruct I as ([k1 r1] & E & I). apply filter_In in I.
    apply in_map_iff. exists (k1, r1). tauto.
  - intros k r I. apply filter_In in I. apply S. tauto.
Qed.

Lemma delete_inv q x res x' :
  index_inv x ->
  QueryExecutor._execute_delete q x = (Return res, x') ->
  index_inv x'.
Proof.
  intros Inv H. unfold QueryExecutor._execute_delete in H.
  apply bind_return in H. destruct H as (items & x1 & H1 & H).
  unfold gets in H1. inversion H1; subst items x1. clear H1.
  apply bind_return in H. destruct H as (n & x2 & H2 & H).
  unfold ret in H. inversion H; subst x'. clear H.
  assert (F : pending (ParsedQuery.table q) x2 []).
  { eapply (@count_loop_return _ (pending (ParsedQuery.table q)));
      [|apply pending_filter; apply pending_scan; exact Inv|exact H2].
    intros [k r] rest y b y'. apply delete_row_step. }
  apply F.
Qed.

Lemma existsb_eqb_in k l : existsb (String.eqb k) l = true <-> In k l.
Proof.
  rewrite existsb_exists. split.
  - intros (y & I & E). apply String.eqb_eq in E. now subst.
  - intros I. exists k. split; auto. apply String.eqb_refl.
Qed.

Lemma backfill_step t name x0 k r rest x x' :
  backfilling t name x0 x ((k, r) :: rest) ->
  on_indexes (QueryExecutor.insert_into t name k r) x = (Return tt, x') ->
  backfilling t name x0 x' rest.
Proof.
  intros (B1 & B2 & B3 & B4 & N & S & i & Gi & Ok) H.
  apply on_indexes_return in H. destruct H as (im & I & ->).
  pose proof (@insert_into_return _ _ _ _ _ _ I) as R.
  simpl in N. inversion N as [|? ? N1 N2]; subst.
  unfold backfilling. simpl.
  split; [exact B1|]. split; [exact B2|]. split; [exact B3|].
  split; [|split; [exact N2|split]].
  - intros t' name' SK. rewrite R, SK. now apply B4.
  - intros k' r' In'. apply S. now right.
  - unfold QueryExecutor.insert_into in I. rewrite Gi in I.
    destruct (index_insert k r i) as [i'|] eqn:Ii; [|discriminate].
    exists i'. split.
    + rewrite R, same_key_refl, Gi, Ii. reflexivity.
    + assert (F : (fun k0 => if existsb (String.eqb k0)
                                  (map fst ((k, r) :: rest))
                             then None
                             else StorageEngine.get (storage x0) t k0) k
                  = None).
      { simpl. now rewrite String.eqb_refl. }
      eapply index_ok_ext; [|exact (@index_ok_insert _ _ _ _ _ Ok F Ii)].
      intros k0. simpl. destruct (String.eqb k0 k) eqn:E.
      * apply String.eqb_eq in E. subst k0.
        destruct (existsb (String.eqb k) (map fst rest)) eqn:X.
        -- apply existsb_eqb_in in X. contradiction.
        -- symmetry. apply S. now left.
      * reflexivity.
Qed.

Lemma create_index_inv q x res x' :
  index_inv x ->
  QueryExecutor._execute_create_index q x = (Return res, x') ->
  index_inv x'.
Proof.
  intros Inv H. unfold QueryExecutor._execute_create_index in H.
  apply bind_return in H. destruct H as ([] & x1 & H1 & H).
  apply on_indexes_return in H1. destruct H1 as (im & C & ->).
  apply bind_return in H. destruct H as (items & x2 & H2 & H).
  unfold gets in H2. inversion H2; subst items x2. clear H2.
  apply bind_return in H. destruct H as ([] & x3 & H3 & H).
  unfold ret in H. inversion H; subst x'. clear H.
  simpl in H3.
  set (t := ParsedQuery.table q) in *.
  set (name := ParsedQuery.index_name q) in *.
  destruct (@create_index_return _ _ _ _ _ _ C) as (G0 & i0 & Ok0 & R0).
  destruct (@scan_items x t Inv) as [N S].
  set (x1 := {| storage := storage x; index_manager := im;
                uuid4 := uuid4 x; uuid_calls := uuid_calls x |}) in *.
  assert (B0 : backfilling t name x x1 (StorageEngine.scan (storage x) t)).
  { unfold backfilling, x1. simpl.
    repeat (split; [reflexivity|]).
    split; [|split; [exact N|split]].
    - intros t' name' SK. now rewrite R0, SK.
    - intros k r. apply S.
    - exists i0. split; [now rewrite R0, same_key_refl|].
      eapply index_ok_ext; [|exact Ok0].
      intros k. simpl.
      destruct (existsb (String.eqb k)
                  (map fst (StorageEngine.scan (storage x) t))) eqn:X; auto.
      destruct (StorageEngine.get (storage x) t k) as [r|] eqn:G; auto.
      apply S in G. assert (In k (map fst (StorageEngine.scan (storage x) t))).
      { apply in_map_iff. exists (k, r). auto. }
      apply existsb_eqb_in in H. congruence. }
  assert (F : backfilling t name x x3 []).
  { eapply (@for_each_return _ (backfilling t name x));
      [|exact B0|exact H3].
    intros [k r] rest y y'. apply backfill_step. }
  destruct F as (B1 & B2 & B3 & B4 & _ & _ & i & Gi & Ok).
  destruct Inv as (I1 & I2 & I3 & I4 & I5).
  unfold index_inv. rewrite B1, B2, B3.
  split; [|auto]. intros t' name' i' G'.
  destruct (same_key t name t' name') eqn:SK.
  - apply same_key_eq in SK. destruct SK; subst t' name'.
    rewrite Gi in G'. inversion G'; subst i'.
    eapply index_ok_ext; [|exact Ok]. intros k. reflexivity.
  - rewrite (B4 _ _ SK) in G'. exact (I1 _ _ _ G').
Qed.

(** ** C4: index-storage consistency *)

Lemma execute_inv q x res x' :
  index_inv x ->
  QueryExecutor.execute q x = (Return res, x') ->
  index_inv x'.
Proof.
  intros Inv. unfold QueryExecutor.execute.
  repeat match goal with
         | |- context [if ?b then _ else _] => destruct b
         end;
    eauto using create_table_inv, drop_table_inv, create_index_inv,
      drop_index_inv, insert_inv, update_inv, delete_inv.
  - intros H. apply select_inv in H. now subst.
  - discriminate.
Qed.

Lemma row_get_restrict cols r col :
  In col cols -> row_get (restrict cols r) col = row_get r col.
Proof.
  intros I. unfold row_get, restrict. f_equal.
  induction r as [|[c v] r IH]; simpl; auto.
  destruct (existsb (String.eqb c) cols) eqn:X; simpl.
  - destruct (String.eqb col c); auto.
  - destruct (String.eqb col c) eqn:E; auto.
    apply String.eqb_eq in E. subst c.
    apply existsb_eqb_in in I. congruence.
Qed.

Lemma dict_get_restrict cols r col :
  In col cols ->
  dict_get String.eqb (restrict cols r) col = dict_get String.eqb r col.
Proof.
  intros I. unfold restrict.
  induction r as [|[c v] r IH]; simpl; auto.
  destruct (existsb (String.eqb c) cols) eqn:X; simpl.
  - destruct (String.eqb col c); auto.
  - destruct (String.eqb col c) eqn:E; auto.
    apply String.eqb_eq in E. subst c.
    apply existsb_eqb_in in I. congruence.
Qed.

Lemma lookup_in_bucket conds i key :
  set_mem (index_lookup conds i) key = true ->
  set_mem (index_bucket i (lookup_key i conds)) key = true.
Proof.
  destruct i as [tb c d|tb c d]; simpl; auto.
  unfold BTree.lookup, row_get.
  destruct (dict_get String.eqb conds (BTree.column c)); auto. discriminate.
Qed.

Lemma irange_items start stop d : forall l s,
  BTree.irange start stop d = Return l -> In s l ->
  exists k, In (k, s) d /\ BTree.in_range start stop k = Some true.
Proof.
  induction d as [|[k0 s0] d IH]; intros l s H I; simpl in H.
  - inversion H; subst. contradiction.
  - destruct (BTree.in_range start stop k0) as [b|] eqn:R; [|discriminate].
    destruct (BTree.irange start stop d) as [l0|]; [|discriminate].
    inversion H; subst l. destruct b.
    + destruct I as [<-|I].
      * exists k0. split; [now left|exact R].
      * destruct (IH l0 s eq_refl I) as (k & Ik & Rk). exists k. split; auto.
        now right.
    + destruct (IH l0 s eq_refl I) as (k & Ik & Rk). exists k. split; auto.
      now right.
Qed.

Lemma set_mem_union l key : forall acc,
  set_mem (fold_left set_update l acc) key = true ->
  set_mem acc key = true \/ exists s, In s l /\ set_mem s key = true.
Proof.
  induction l as [|s l IH]; intros acc H; simpl in *; auto.
  apply IH in H. destruct H as [H|(s' & I & M)].
  - rewrite set_mem_update in H. apply orb_true_iff in H.
    destruct H; eauto.
  - eauto.
Qed.

Lemma in_range_key_eq start stop a b :
  key_eq a b = true -> BTree.in_range start stop a = BTree.in_range start stop b.
Proof.
  intros E. unfold BTree.in_range.
  destruct start as [lo|], stop as [hi|];
    rewrite ?(@py_lt_key_eq_l a b _ E), ?(@py_lt_key_eq_r a b _ E);
    reflexivity.
Qed.

Lemma index_inv_consistent x : index_inv x -> consistent x.
Proof.
  intros (I1 & _) tbl name i Gi.
  destruct (I1 _ _ _ Gi) as [W Ok]. split; [|split].
  - (* a stored row is found under its own columns *)
    intros key r t G K.
    assert (B : set_mem (index_bucket i t) key = true).
    { apply Ok. exists r, t. repeat split; auto. apply tuple_eq_refl. }
    destruct i as [tb c d|tb c d].
    + simpl in *. inversion K; subst t. unfold Hash.lookup.
      replace (map (row_get (restrict c r)) c) with (Hash._get_index_key c r);
        auto.
      unfold Hash._get_index_key. apply map_ext_in.
      intros col I. symmetry. now apply row_get_restrict.
    + destruct W as [L _].
      assert (I : In (BTree.column c) c).
      { destruct c as [|c0 [|c1 c]]; try discriminate. now left. }
      cbn [index_lookup columns]. unfold BTree.lookup.
      rewrite (@dict_get_restrict c r _ I).
      cbn [index_key] in K. unfold BTree._get_index_value, row_get in K.
      destruct (dict_get String.eqb r (BTree.column c)) as [v|];
        [|discriminate].
      cbn [index_bucket] in B.
      destruct v; try discriminate; inversion K; subst t; exact B.
  - (* what a lookup returns is a stored row under that key *)
    intros conds key M. apply lookup_in_bucket in M.
    apply Ok in M. destruct M as (r & t' & G & K & E).
    exists r. split; auto. exists t'. auto.
  - (* what a range scan returns is a stored row in the range *)
    intros col start stop keys key R M.
    destruct i as [tb c d|tb c d]; simpl in R; [discriminate|].
    unfold BTree.range_scan in R.
    destruct (negb (String.eqb col (BTree.column c))) eqn:C; [discriminate|].
    apply negb_false_iff, String.eqb_eq in C. subst col.
    destruct (BTree.irange start stop d) as [l|] eqn:IR; [|discriminate].
    inversion R; subst keys.
    apply set_mem_union in M. destruct M as [M|(s & I & M)]; [discriminate|].
    destruct (@irange_items _ _ _ _ _ IR I) as (k & Ik & Rk).
    destruct W as [L W].
    pose proof (@dict_wf_in _ _ key_eq key_eq_refl key_eq_sym key_eq_trans
                  d k s W Ik) as Gk.
    assert (B : set_mem (index_bucket (BTreeIndex tb c d) [k]) key = true).
    { simpl. unfold bucket. now rewrite Gk. }
    apply Ok in B. destruct B as (r & t' & G & K & E).
    exists r. split; auto. simpl in K. unfold BTree._get_index_value in K.
    rewrite tuple_eq_single in E.
    destruct (row_get r (BTree.column c)) as [|n|f|s0] eqn:V;
      try discriminate; inversion K; subst t';
      now rewrite (@in_range_key_eq start stop _ k E).
Qed.

(** What the operations that return keep: the state in which every index
    holds exactly the rows of its table that it files (a hash index files
    every row, a B-tree index the rows whose column is present and not
    null) stays such a state, and in such a state a row is found under its
    own indexed columns, and every key that an index holds is the key of
    a stored row that agrees with the lookup key or lies in the range. *)
Lemma returning_operations_keep_index_inv :
  forall (x : executor) (q : ParsedQuery.t) (res : result),
    index_inv x ->
    fst (QueryExecutor.execute q x) = Return res ->
    index_inv (snd (QueryExecutor.execute q x))
    /\ consistent (snd (QueryExecutor.execute q x)).
Proof.
  intros x q res Inv H.
  destruct (QueryExecutor.execute q x) as [r x'] eqn:E. simpl in *. subst r.
  pose proof (@execute_inv q x res x' Inv E) as Inv'.
  split; [exact Inv'|]. now apply index_inv_consistent.
Qed.

Lemma to_uint_nonnil n : Nat.to_uint n <> Decimal.Nil.
Proof.
  rewrite <- (DecimalNat.Unsigned.of_to n) at 1.
  rewrite DecimalNat.Unsigned.to_of. apply DecimalFacts.unorm_nonnil.
Qed.

Lemma uuid_stream_inj m n :
  Examples.uuid_stream m = Examples.uuid_stream n -> m = n.
Proof.
  unfold Examples.uuid_stream. intros H. simpl in H.
  injection H as H.
  apply DecimalNat.Unsigned.to_uint_inj.
  assert (E : Some (Nat.to_uint m) = Some (Nat.to_uint n)).
  { rewrite <- (NilZero.usu (Nat.to_uint m) (to_uint_nonnil m)).
    rewrite <- (NilZero.usu (Nat.to_uint n) (to_uint_nonnil n)).
    now rewrite H. }
  now injection E.
Qed.

Lemma index_inv_fresh : index_inv Examples.fresh_executor.
Proof.
  unfold index_inv. simpl. repeat split; try discriminate.
  apply uuid_stream_inj.
Qed.

Lemma all_return_inv qs : forall x,
  index_inv x -> all_return qs x = true ->
  index_inv (fold_left (fun x q => snd (QueryExecutor.execute q x)) qs x).
Proof.
  induction qs as [|q qs IH]; intros x Inv H; simpl in *; auto.
  destruct (QueryExecutor.execute q x) as [[res|e] x'] eqn:E; simpl in *;
    [|discriminate].
  apply IH; auto. eapply execute_inv; eauto.
Qed.

(** Every state that plans which return lead to from the fresh executor
    is consistent. *)
Lemma after_consistent qs :
  all_return qs Examples.fresh_executor = true ->
  consistent (Examples.after qs).
Proof.
  intros H. apply index_inv_consistent. unfold Examples.after.
  apply all_return_inv; auto. apply index_inv_fresh.
Qed.

Lemma index_inv_indexed_users : index_inv Examples.indexed_users.
Proof.
  unfold Examples.indexed_users, Examples.after.
  apply all_return_inv; [apply index_inv_fresh|]. vm_compute. reflexivity.
Qed.

(** C4. The claim has the invariant kept by an UPDATE that fails
    partway, and the code does not keep it there. In the state after
    CREATE TABLE users, CREATE INDEX by_id ON users (id) USING HASH and
    the INSERT of Alice, index and storage are consistent and the lookup
    of Alice's own [id] finds her key. UPDATE users SET nickname = 1
    WHERE id = 1 names a column outside the schema: [_execute_update]
    takes the row out of the index, then [put] refuses the new row, the
    statement raises, storage is as before with Alice stored, and the
    index has lost her: the lookup of her own [id] is empty. *)
Theorem failed_update_takes_row_out_of_index :
  let x := Examples.indexed_users in
  let q := Examples.update_unknown_column in
  let key := Examples.uuid_stream 0 in
  (index_inv x /\ consistent x)
  /\ StorageEngine.get (storage x) "users" key = Some Examples.alice
  /\ IndexManager.get_index (index_manager x) "users" "by_id"
     = Some (HashIndex "users" ["id"] [([VInt 1], [key])])
  /\ index_lookup_call (restrict ["id"] Examples.alice)
       (HashIndex "users" ["id"] [([VInt 1], [key])])
     = Return [key]
  /\ fst (QueryExecutor.execute q x)
     = Raise (ValueError "Column nickname not in schema for table users")
  /\ storage (snd (QueryExecutor.execute q x)) = storage x
  /\ IndexManager.get_index
       (index_manager (snd (QueryExecutor.execute q x))) "users" "by_id"
     = Some (HashIndex "users" ["id"] [])
  /\ index_lookup_call (restrict ["id"] Examples.alice)
       (HashIndex "users" ["id"] [])
     = Return []
  /\ ~ consistent (snd (QueryExecutor.execute q x)).
Proof.
  intros x q key.
  split; [split; [exact index_inv_indexed_users
                 |apply index_inv_consistent; exact index_inv_indexed_users]|].
  split; [reflexivity|]. split; [reflexivity|]. split; [reflexivity|].
  split; [reflexivity|]. split; [reflexivity|]. split; [reflexivity|].
  split; [reflexivity|].
  intros C.
  destruct (C "users" "by_id" (HashIndex "users" ["id"] []) eq_refl)
    as (Found & _).
  specialize (Found key Examples.alice [VInt 1] eq_refl eq_refl).
  discriminate Found.
Qed.

(* ================================================================== *)
(** * Further properties of the storage engine *)
(* ================================================================== *)

Lemma unknown_column_fits sch v :
  StorageEngine.unknown_column sch v = None <-> fits sch v = true.
Proof.
  unfold StorageEngine.unknown_column, fits.
  induction (dict_keys v) as [|c l IH]; simpl; [tauto|].
  destruct (dict_mem String.eqb sch c); simpl; [exact IH|].
  split; discriminate.
Qed.

(** X1. A [put] that returns stores the row under its key and touches
    nothing else: the schemas are as before, and [get] answers as before
    for every other table and key. *)
Theorem put_then_get :
  forall (e e' : engine) (table key : string) (value : row),
    StorageEngine.put table key value e = (Return tt, e') ->
    StorageEngine.get e' table key = Some value
    /\ schemas e' = schemas e
    /\ forall table' key',
         (table', key') <> (table, key) ->
         StorageEngine.get e' table' key' = StorageEngine.get e table' key'.
Proof.
  intros e e' table key value H.
  pose proof (@get_after_put _ _ _ _ _ H) as G.
  destruct (@put_return _ _ _ _ _ H) as (_ & S & _).
  split; [|split; [exact S|]].
  - rewrite G, same_key_refl. reflexivity.
  - intros table' key' N. rewrite G.
    destruct (same_key table key table' key') eqn:K; auto.
    apply same_key_eq in K. destruct K; subst. congruence.
Qed.

Lemma put_then_get_witness :
  let e' := snd (StorageEngine.put "users" "k1" Examples.alice
                   Examples.created_only) in
  StorageEngine.get e' "users" "k1" = Some Examples.alice
  /\ schemas e' = schemas Examples.created_only
  /\ forall table' key',
       (table', key') <> ("users", "k1") ->
       StorageEngine.get e' table' key'
       = StorageEngine.get Examples.created_only table' key'.
Proof.
  apply (@put_then_get Examples.created_only _ "users" "k1" Examples.alice).
  reflexivity.
Defined.



(** X3. A [put] into a table without a schema, or of a row with a column
    that the schema lacks, raises [ValueError] and leaves the engine, the
    log included, as it was. *)
Theorem rejected_put_changes_nothing :
  forall (e : engine) (table key : string) (value : row),
    (forall sch, StorageEngine.get_schema e table = Some sch ->
                 fits sch value = false) ->
    exists msg,
      StorageEngine.put table key value e = (Raise (ValueError msg), e).
Proof.
  intros e table key value H. unfold StorageEngine.put.
  unfold StorageEngine.get_schema in H.
  destruct (dict_get String.eqb (schemas e) table) as [sch|];
    [|eexists; reflexivity].
  specialize (H sch eq_refl).
  destruct (StorageEngine.unknown_column sch value) as [c|] eqn:U;
    [eexists; reflexivity|].
  apply unknown_column_fits in U. congruence.
Qed.

Lemma rejected_put_changes_nothing_witness :
  exists msg,
    StorageEngine.put "users" "k1" [("age", VInt 30)] Examples.created_only
    = (Raise (ValueError msg), Examples.created_only).
Proof.
  apply (@rejected_put_changes_nothing Examples.created_only "users" "k1"
           [("age", VInt 30)]).
  intros sch H. vm_compute in H. injection H as <-. reflexivity.
Defined.

(** X4. [delete] answers whether the key was there. When it returns, the
    key is gone, and every other row and every schema is as before; when
    the key was not there the engine and the log are untouched. *)
Theorem delete_reports_presence :
  forall (e e' : engine) (table key : string) (b : bool),
    StorageEngine.delete table key e = (Return b, e') ->
    (b = true <-> exists r, StorageEngine.get e table key = Some r)
    /\ (b = false -> e' = e)
    /\ StorageEngine.get e' table key = None
    /\ schemas e' = schemas e
    /\ forall table' key',
         (table', key') <> (table, key) ->
         StorageEngine.get e' table' key' = StorageEngine.get e table' key'.
Proof.
  intros e e' table key b H.
  pose proof (@get_after_delete _ _ _ _ _ H) as G.
  destruct (@delete_return _ _ _ _ _ H) as (S & _).
  assert (B : (b = true <-> exists r, StorageEngine.get e table key = Some r)
              /\ (b = false -> e' = e)).
  { revert H. unfold StorageEngine.delete, StorageEngine.get, dict_mem.
    destruct (dict_get String.eqb (tables e) table) as [rws|].
    - destruct (dict_get String.eqb rws key) as [r|].
      + intros H.
        apply bind_return in H. destruct H as ([] & e1 & _ & H).
        apply bind_return in H. destruct H as ([] & e2 & _ & H).
        apply bind_return in H. destruct H as ([] & e3 & _ & H).
        apply bind_return in H. destruct H as ([] & e4 & _ & H).
        inversion H; subst. split; [split; eauto|discriminate].
      + intros H. inversion H; subst. split; [|auto].
        split; [discriminate|]. intros (r & F). discriminate.
    - intros H. inversion H; subst. split; [|auto].
      split; [discriminate|]. intros (r & F). discriminate. }
  destruct B as (B1 & B2).
  split; [exact B1|]. split; [exact B2|].
  split; [|split; [exact S|]].
  - rewrite G, same_key_refl. reflexivity.
  - intros table' key' N. rewrite G.
    destruct (same_key table key table' key') eqn:K; auto.
    apply same_key_eq in K. destruct K; subst. congruence.
Qed.

Lemma delete_reports_presence_witness :
  let e := Examples.one_user in
  let e' := snd (StorageEngine.delete "users" "k1" e) in
  (true = true <-> exists r, StorageEngine.get e "users" "k1" = Some r)
  /\ (true = false -> e' = e)
  /\ StorageEngine.get e' "users" "k1" = None
  /\ schemas e' = schemas e
  /\ forall table' key',
       (table', key') <> ("users", "k1") ->
       StorageEngine.get e' table' key' = StorageEngine.get e table' key'.
Proof.
  apply (@delete_reports_presence Examples.one_user _ "users" "k1" true).
  reflexivity.
Defined.

(** X5. A [create_table] that returns registers the schema and an empty
    table, keeps every other table, and makes a second [create_table] of
    the same name raise [ValueError] without any effect. *)
Theorem create_table_registers_once :
  forall (e e' : engine) (table : string) (sch sch' : schema),
    StorageEngine.create_table table sch e = (Return tt, e') ->
    StorageEngine.get_schema e' table = Some sch
    /\ In table (StorageEngine.list_tables e')
    /\ StorageEngine.scan e' table = []
    /\ (forall table', table' <> table ->
          StorageEngine.get_schema e' table' = StorageEngine.get_schema e table'
          /\ StorageEngine.scan e' table' = StorageEngine.scan e table')
    /\ exists msg,
         StorageEngine.create_table table sch' e'
         = (Raise (ValueError msg), e').
Proof.
  intros e e' table sch sch' H.
  destruct (@create_table_return _ _ _ _ H) as (N & S & T).
  unfold StorageEngine.get_schema, StorageEngine.list_tables,
    StorageEngine.scan, dict_keys.
  assert (G : dict_get String.eqb (schemas e') table = Some sch).
  { rewrite S. apply dict_get_set_eq. }
  split; [exact G|]. split; [|split; [|split]].
  - rewrite S, dict_set_keys. unfold dict_mem. rewrite N.
    apply in_or_app. right. now left.
  - rewrite T, dict_get_set_eq. reflexivity.
  - intros table' D. rewrite S, T.
    rewrite !dict_get_set_neq by assumption. auto.
  - unfold StorageEngine.create_table, dict_mem. rewrite G.
    eexists. reflexivity.
Qed.

Lemma create_table_registers_once_witness :
  let e := Examples.fresh_engine in
  let e' := snd (StorageEngine.create_table "users" Examples.users_schema e) in
  StorageEngine.get_schema e' "users" = Some Examples.users_schema
  /\ In "users" (StorageEngine.list_tables e')
  /\ StorageEngine.scan e' "users" = []
  /\ (forall table', table' <> "users" ->
        StorageEngine.get_schema e' table' = StorageEngine.get_schema e table'
        /\ StorageEngine.scan e' table' = StorageEngine.scan e table')
  /\ exists msg,
       StorageEngine.create_table "users" [("id", "TEXT")] e'
       = (Raise (ValueError msg), e').
Proof.
  apply (@create_table_registers_once Examples.fresh_engine _ "users"
           Examples.users_schema [("id", "TEXT")]).
  reflexivity.
Defined.

(** X6. A [drop_table] that returns removes the schema and every row of
    the table and keeps the other tables. *)
Theorem drop_table_forgets_table :
  forall (e e' : engine) (table : string),
    StorageEngine.drop_table table e = (Return tt, e') ->
    StorageEngine.get_schema e' table = None
    /\ ~ In table (StorageEngine.list_tables e')
    /\ StorageEngine.scan e' table = []
    /\ (forall key, StorageEngine.get e' table key = None)
    /\ forall table', table' <> table ->
         StorageEngine.get_schema e' table' = StorageEngine.get_schema e table'
         /\ StorageEngine.scan e' table' = StorageEngine.scan e table'.
Proof.
  intros e e' table H.
  destruct (@drop_table_return _ _ _ H) as (S & T).
  unfold StorageEngine.get_schema, StorageEngine.list_tables,
    StorageEngine.scan, StorageEngine.get, dict_keys.
  rewrite S, T, !dict_get_del_eq.
  split; [reflexivity|]. split; [|split; [reflexivity|split; [reflexivity|]]].
  - apply dict_get_none_keys. apply dict_get_del_eq.
  - intros table' D. rewrite !dict_get_del_neq by assumption. auto.
Qed.

Lemma drop_table_forgets_table_witness :
  let e := Examples.one_user in
  let e' := snd (StorageEngine.drop_table "users" e) in
  StorageEngine.get_schema e' "users" = None
  /\ ~ In "users" (StorageEngine.list_tables e')
  /\ StorageEngine.scan e' "users" = []
  /\ (forall key, StorageEngine.get e' "users" key = None)
  /\ forall table', table' <> "users" ->
       StorageEngine.get_schema e' table' = StorageEngine.get_schema e table'
       /\ StorageEngine.scan e' table' = StorageEngine.scan e table'.
Proof.
  apply (@drop_table_forgets_table Examples.one_user _ "users").
  reflexivity.
Defined.

(** ** Snapshots and recovery *)

Lemma replay_maps en e1 e2 :
  tables e1 = tables e2 -> schemas e1 = schemas e2 ->
  tables (StorageEngine.replay e1 en) = tables (StorageEngine.replay e2 en)
  /\ schemas (StorageEngine.replay e1 en)
     = schemas (StorageEngine.replay e2 en).
Proof.
  intros T S. destruct en; simpl; rewrite ?T, ?S; auto.
Qed.

Lemma replay_all_maps l : forall e1 e2,
  tables e1 = tables e2 -> schemas e1 = schemas e2 ->
  tables (fold_left StorageEngine.replay l e1)
  = tables (fold_left StorageEngine.replay l e2)
  /\ schemas (fold_left StorageEngine.replay l e1)
     = schemas (fold_left StorageEngine.replay l e2).
Proof.
  induction l as [|en l IH]; intros e1 e2 T S; simpl; auto.
  destruct (@replay_maps en e1 e2 T S). now apply IH.
Qed.

(** Recovery reads the snapshot and the log and nothing else. *)
Lemma init_maps d1 d2 n1 n2 :
  snapshot_json d1 = snapshot_json d2 -> wal_log d1 = wal_log d2 ->
  tables (StorageEngine.init d1 n1) = tables (StorageEngine.init d2 n2)
  /\ schemas (StorageEngine.init d1 n1) = schemas (StorageEngine.init d2 n2).
Proof.
  intros J L. unfold StorageEngine.init, StorageEngine._recover,
    WriteAheadLog.read_all_entries. simpl. rewrite J.
  destruct (snapshot_json d2) as [[t s]|]; simpl; rewrite L;
    apply replay_all_maps; reflexivity.
Qed.

(** One more record in the log is one more step of the replay. *)
Lemma init_appended d n en :
  let d' := {| snapshot_json := snapshot_json d;
               wal_log := (wal_log d ++ [en])%list;
               io_error := io_error d |} in
  tables (StorageEngine.init d' n)
  = tables (StorageEngine.replay (StorageEngine.init d n) en)
  /\ schemas (StorageEngine.init d' n)
     = schemas (StorageEngine.replay (StorageEngine.init d n) en).
Proof.
  unfold StorageEngine.init, StorageEngine._recover,
    WriteAheadLog.read_all_entries. simpl.
  destruct (snapshot_json d) as [[t s]|]; simpl; rewrite fold_left_app; simpl;
    apply replay_maps; apply replay_all_maps; reflexivity.
Qed.

Lemma init_snapshotted d n t s :
  snapshot_json d = Some (t, s) -> wal_log d = [] ->
  tables (StorageEngine.init d n) = t /\ schemas (StorageEngine.init d n) = s.
Proof.
  intros J L. unfold StorageEngine.init, StorageEngine._recover,
    WriteAheadLog.read_all_entries. simpl. rewrite J. simpl. rewrite L.
  simpl. auto.
Qed.

(** X7. Crash idempotence. After a [snapshot] that returns, the engine
    opened again over the same directories holds the very [tables] and
    [schemas] maps of the engine that took the snapshot, and the log is
    empty. *)
Theorem snapshot_then_restart :
  forall (e e' : engine),
    StorageEngine.snapshot e = (Return tt, e') ->
    tables (restart e') = tables e
    /\ schemas (restart e') = schemas e
    /\ tables e' = tables e
    /\ schemas e' = schemas e
    /\ wal_log (files e') = []
    /\ operations_since_snapshot e' = 0%Z.
Proof.
  intros e e'. unfold StorageEngine.snapshot.
  destruct (io_error (files e)); [discriminate|].
  unfold bind, modify, StorageEngine.wal, WriteAheadLog.truncate. simpl.
  intros H. inversion H; subst e'. clear H. simpl.
  unfold restart. simpl. repeat split.
Qed.

Lemma snapshot_then_restart_witness :
  let e := Examples.one_user in
  let e' := snd (StorageEngine.snapshot e) in
  tables (restart e') = tables e
  /\ schemas (restart e') = schemas e
  /\ tables e' = tables e
  /\ schemas e' = schemas e
  /\ wal_log (files e') = []
  /\ operations_since_snapshot e' = 0%Z.
Proof.
  apply (@snapshot_then_restart Examples.one_user). reflexivity.
Defined.

Lemma wal_append_files en e e' :
  StorageEngine.wal (WriteAheadLog.append en) e = (Return tt, e') ->
  snapshot_json (files e') = snapshot_json (files e)
  /\ wal_log (files e') = (wal_log (files e) ++ [en])%list.
Proof.
  unfold StorageEngine.wal, WriteAheadLog.append.
  destruct (negb (serializable en)); [discriminate|].
  destruct (io_error (files e)); [discriminate|].
  intros H. inversion H; subst. simpl. auto.
Qed.

Lemma check_snapshot_files e e' :
  StorageEngine._check_snapshot e = (Return tt, e') ->
  files e' = files e
  \/ (snapshot_json (files e') = Some (tables e', schemas e')
      /\ wal_log (files e') = []).
Proof.
  unfold StorageEngine._check_snapshot, StorageEngine.snapshot.
  destruct (snapshot_interval e <=? operations_since_snapshot e)%Z.
  - destruct (io_error (files e)); [discriminate|].
    intros H. inversion H; subst. simpl. auto.
  - intros H. inversion H; subst. auto.
Qed.

Lemma logged_after en e0 e1 e2 e3 :
  files e1 = files e0 ->
  StorageEngine.wal (WriteAheadLog.append en) e1 = (Return tt, e2) ->
  (files e3 = files e2
   \/ (snapshot_json (files e3) = Some (tables e3, schemas e3)
       /\ wal_log (files e3) = [])) ->
  logged en e0 e3.
Proof.
  intros F A [C|C]; [|right; exact C].
  left. apply wal_append_files in A. rewrite C, <- F. exact A.
Qed.

Lemma put_logged t k v e e' :
  StorageEngine.put t k v e = (Return tt, e') -> logged (PUT t k v) e e'.
Proof.
  unfold StorageEngine.put.
  destruct (dict_get String.eqb (schemas e) t) as [sch|]; [|discriminate].
  destruct (StorageEngine.unknown_column sch v); [discriminate|].
  intros H.
  apply bind_return in H. destruct H as ([] & e1 & H1 & H).
  apply bind_return in H. destruct H as ([] & e2 & H2 & H).
  apply bind_return in H. destruct H as ([] & e3 & H3 & H).
  unfold modify in H1, H3. inversion H1; subst e1. inversion H3; subst e3.
  apply check_snapshot_files in H.
  eapply logged_after; [|exact H2|exact H]. reflexivity.
Qed.

Lemma delete_logged t k e e' :
  StorageEngine.delete t k e = (Return true, e') ->
  logged (DELETE t k) e e'.
Proof.
  unfold StorageEngine.delete.
  destruct (dict_get String.eqb (tables e) t) as [rws|]; [|discriminate].
  destruct (dict_mem String.eqb rws k); [|discriminate].
  intros H.
  apply bind_return in H. destruct H as ([] & e1 & H1 & H).
  apply bind_return in H. destruct H as ([] & e2 & H2 & H).
  apply bind_return in H. destruct H as ([] & e3 & H3 & H).
  apply bind_return in H. destruct H as ([] & e4 & H4 & H).
  unfold modify in H1, H3. inversion H1; subst e1. inversion H3; subst e3.
  inversion H; subst e4.
  apply check_snapshot_files in H4.
  eapply logged_after; [|exact H2|exact H4]. reflexivity.
Qed.

Lemma delete_absent t k e e' :
  StorageEngine.delete t k e = (Return false, e') -> e' = e.
Proof.
  unfold StorageEngine.delete.
  destruct (dict_get String.eqb (tables e) t) as [rws|];
    [|intros H; now inversion H].
  destruct (dict_mem String.eqb rws k); [|intros H; now inversion H].
  intros H.
  apply bind_return in H. destruct H as ([] & e1 & _ & H).
  apply bind_return in H. destruct H as ([] & e2 & _ & H).
  apply bind_return in H. destruct H as ([] & e3 & _ & H).
  apply bind_return in H. destruct H as ([] & e4 & _ & H).
  discriminate.
Qed.

Lemma create_table_logged t sch e e' :
  StorageEngine.create_table t sch e = (Return tt, e') ->
  logged (CREATE_TABLE t sch) e e'.
Proof.
  unfold StorageEngine.create_table.
  destruct (dict_mem String.eqb (schemas e) t); [discriminate|].
  intros H.
  apply bind_return in H. destruct H as ([] & e1 & H1 & H).
  apply bind_return in H. destruct H as ([] & e2 & H2 & H).
  apply bind_return in H. destruct H as ([] & e3 & H3 & H).
  unfold modify in H1, H2. inversion H1; subst e1. inversion H2; subst e2.
  apply check_snapshot_files in H.
  eapply logged_after; [|exact H3|exact H]. reflexivity.
Qed.

Lemma drop_table_logged t e e' :
  StorageEngine.drop_table t e = (Return tt, e') ->
  logged (DROP_TABLE t) e e'.
Proof.
  unfold StorageEngine.drop_table.
  destruct (negb (dict_mem String.eqb (schemas e) t)); [discriminate|].
  intros H.
  apply bind_return in H. destruct H as ([] & e1 & H1 & H).
  apply bind_return in H. destruct H as ([] & e2 & H2 & H).
  apply bind_return in H. destruct H as ([] & e3 & H3 & H).
  unfold modify in H1. inversion H1; subst e1.
  destruct (dict_mem String.eqb
              (tables (set_schemas
                 (fun s => dict_del String.eqb s t) e)) t); [|discriminate].
  inversion H2; subst e2.
  apply check_snapshot_files in H.
  eapply logged_after; [|exact H3|exact H]. reflexivity.
Qed.

(** What the engine opened again holds after a logged step. *)
Lemma logged_restart en e e' :
  logged en e e' ->
  (tables (restart e') = tables (StorageEngine.replay (restart e) en)
   /\ schemas (restart e') = schemas (StorageEngine.replay (restart e) en))
  \/ (tables (restart e') = tables e' /\ schemas (restart e') = schemas e').
Proof.
  intros [[J L]|[J L]]; unfold restart.
  - left.
    destruct (@init_appended (files e) (snapshot_interval e) en) as [T S].
    simpl in T, S. rewrite <- T, <- S.
    apply init_maps; simpl; auto.
  - right. now apply init_snapshotted.
Qed.

Lemma get_of_tables e1 e2 :
  tables e1 = tables e2 ->
  forall t k, StorageEngine.get e1 t k = StorageEngine.get e2 t k.
Proof. intros E t k. unfold StorageEngine.get. now rewrite E. Qed.

Lemma get_after_set_row e e' t k v :
  tables e'
  = dict_set String.eqb (tables e) t
      (dict_set String.eqb (StorageEngine.tables_default (tables e) t) k v) ->
  forall t' k',
    StorageEngine.get e' t' k'
    = if same_key t k t' k' then Some v else StorageEngine.get e t' k'.
Proof.
  intros E t' k'. rewrite (@get_after_set_table e e' t _ E t' k').
  unfold same_key. destruct (String.eqb t' t) eqn:T; auto. simpl.
  apply String.eqb_eq in T. subst t'.
  destruct (String.eqb k' k) eqn:K.
  - apply String.eqb_eq in K. subst. apply dict_get_set_eq.
  - apply String.eqb_neq in K. rewrite dict_get_set_neq by assumption.
    apply get_tables_default.
Qed.

Lemma get_after_del_row e e' t k :
  tables e'
  = dict_set String.eqb (tables e) t
      (dict_del String.eqb (StorageEngine.tables_default (tables e) t) k) ->
  forall t' k',
    StorageEngine.get e' t' k'
    = if same_key t k t' k' then None else StorageEngine.get e t' k'.
Proof.
  intros E t' k'. rewrite (@get_after_set_table e e' t _ E t' k').
  unfold same_key. destruct (String.eqb t' t) eqn:T; auto. simpl.
  apply String.eqb_eq in T. subst t'.
  destruct (String.eqb k' k) eqn:K.
  - apply String.eqb_eq in K. subst. apply dict_get_del_eq.
  - apply String.eqb_neq in K. rewrite dict_get_del_neq by assumption.
    apply get_tables_default.
Qed.

Lemma get_after_del_table e e' t :
  tables e' = dict_del String.eqb (tables e) t ->
  forall t' k',
    StorageEngine.get e' t' k'
    = if String.eqb t' t then None else StorageEngine.get e t' k'.
Proof.
  intros E t' k'. unfold StorageEngine.get. rewrite E.
  destruct (String.eqb t' t) eqn:T.
  - apply String.eqb_eq in T. subst. now rewrite dict_get_del_eq.
  - apply String.eqb_neq in T. now rewrite dict_get_del_neq.
Qed.

Lemma recoverable_fresh n : recoverable (StorageEngine.init empty_disk n).
Proof. repeat split. Qed.

Lemma recoverable_step o e :
  recoverable e -> op_returns o e = true -> recoverable (run_op o e).
Proof.
  intros (RS & RG & RN) H. destruct o as [t sch|t|t k v|t k|]; simpl in *.
  - (* create_table *)
    destruct (StorageEngine.create_table t sch e) as [[[]|] e'] eqn:E;
      [|discriminate]. simpl.
    destruct (@create_table_return _ _ _ _ E) as (N & S & T).
    pose proof (@get_after_set_table e e' t [] T) as G.
    assert (G' : forall t' k', StorageEngine.get e' t' k'
                               = StorageEngine.get e t' k').
    { intros t' k'. rewrite G. destruct (String.eqb t' t) eqn:Q; auto.
      apply String.eqb_eq in Q. subst. simpl. symmetry. now apply RN. }
    assert (N' : forall t', dict_get String.eqb (schemas e') t' = None ->
                            forall k', StorageEngine.get e' t' k' = None).
    { intros t' D k'. rewrite G'. apply RN. rewrite S in D.
      destruct (String.eqb t' t) eqn:Q.
      - apply String.eqb_eq in Q. subst. rewrite dict_get_set_eq in D.
        discriminate.
      - apply String.eqb_neq in Q. now rewrite dict_get_set_neq in D. }
    destruct (logged_restart (@create_table_logged _ _ _ _ E)) as [[T' S']|[T' S']].
    + simpl in T', S'. split; [|split; [|exact N']].
      * rewrite S', S, RS. reflexivity.
      * intros t' k'. rewrite (get_of_tables _ _ T'), G'. apply RG.
    + split; [exact S'|split; [|exact N']].
      intros t' k'. apply get_of_tables. exact T'.
  - (* drop_table *)
    destruct (StorageEngine.drop_table t e) as [[[]|] e'] eqn:E;
      [|discriminate]. simpl.
    destruct (@drop_table_return _ _ _ E) as (S & T).
    pose proof (@get_after_del_table e e' t T) as G.
    assert (N' : forall t', dict_get String.eqb (schemas e') t' = None ->
                            forall k', StorageEngine.get e' t' k' = None).
    { intros t' D k'. rewrite G. destruct (String.eqb t' t) eqn:Q; auto.
      apply RN. rewrite S in D. apply String.eqb_neq in Q.
      now rewrite dict_get_del_neq in D. }
    destruct (logged_restart (@drop_table_logged _ _ _ E)) as [[T' S']|[T' S']].
    + simpl in T', S'. split; [|split; [|exact N']].
      * rewrite S', S, RS. reflexivity.
      * intros t' k'.
        rewrite (@get_after_del_table (restart e) (restart e') t T'), G.
        destruct (String.eqb t' t); auto.
    + split; [exact S'|split; [|exact N']].
      intros t' k'. apply get_of_tables. exact T'.
  - (* put *)
    destruct (StorageEngine.put t k v e) as [[[]|] e'] eqn:E;
      [|discriminate]. simpl.
    destruct (@put_return _ _ _ _ _ E) as ((sch & Sc) & S & T).
    pose proof (@get_after_set_row e e' t k v T) as G.
    assert (N' : forall t', dict_get String.eqb (schemas e') t' = None ->
                            forall k', StorageEngine.get e' t' k' = None).
    { intros t' D k'. rewrite G. rewrite S in D.
      destruct (same_key t k t' k') eqn:Q; [|now apply RN].
      apply same_key_eq in Q. destruct Q; subst. congruence. }
    destruct (logged_restart (@put_logged _ _ _ _ _ E)) as [[T' S']|[T' S']].
    + simpl in T', S'. split; [|split; [|exact N']].
      * rewrite S', S, RS. reflexivity.
      * intros t' k'.
        rewrite (@get_after_set_row (restart e) (restart e') t k v T'), G.
        destruct (same_key t k t' k'); auto.
    + split; [exact S'|split; [|exact N']].
      intros t' k'. apply get_of_tables. exact T'.
  - (* delete *)
    destruct (StorageEngine.delete t k e) as [[b|] e'] eqn:E;
      [|discriminate]. simpl.
    destruct b; [|apply delete_absent in E; subst; now repeat split].
    pose proof (@get_after_delete _ _ _ _ _ E) as G.
    destruct (@delete_return _ _ _ _ _ E) as (S & _).
    assert (N' : forall t', dict_get String.eqb (schemas e') t' = None ->
                            forall k', StorageEngine.get e' t' k' = None).
    { intros t' D k'. rewrite G. rewrite S in D.
      destruct (same_key t k t' k'); auto. }
    destruct (logged_restart (@delete_logged _ _ _ _ E)) as [[T' S']|[T' S']].
    + simpl in T', S'. split; [|split; [|exact N']].
      * rewrite S', S, RS. reflexivity.
      * intros t' k'.
        rewrite (@get_after_del_row (restart e) (restart e') t k T'), G.
        destruct (same_key t k t' k'); auto.
    + split; [exact S'|split; [|exact N']].
      intros t' k'. apply get_of_tables. exact T'.
  - (* snapshot *)
    destruct (StorageEngine.snapshot e) as [[[]|] e'] eqn:E;
      [|discriminate]. simpl.
    revert E. unfold StorageEngine.snapshot.
    destruct (io_error (files e)); [discriminate|].
    unfold bind, modify, StorageEngine.wal, WriteAheadLog.truncate. simpl.
    intros E. inversion E; subst e'. clear E.
    split; [reflexivity|]. split; [reflexivity|]. exact RN.
Qed.

Lemma recoverable_run ops : forall e,
  recoverable e -> ops_return ops e = true -> recoverable (run_ops ops e).
Proof.
  induction ops as [|o ops IH]; intros e R H; simpl in *; auto.
  apply andb_true_iff in H. destruct H as [H1 H2].
  apply IH; auto. now apply recoverable_step.
Qed.

(** X8. WAL completeness, for what [get] and [get_schema] see. After any
    sequence of storage operations that all return, run from an empty
    engine, with or without snapshots in between, the engine opened again
    over the same directories has the same schemas and gives the same row
    for every table and key. *)
Theorem recovery_reproduces_rows_and_schemas :
  forall (ops : list storage_op) (interval : Z),
    ops_return ops (StorageEngine.init empty_disk interval) = true ->
    let e := run_ops ops (StorageEngine.init empty_disk interval) in
    schemas (restart e) = schemas e
    /\ forall table key,
         StorageEngine.get (restart e) table key = StorageEngine.get e table key.
Proof.
  intros ops interval H e.
  destruct (@recoverable_run ops _ (recoverable_fresh interval) H)
    as (S & G & _).
  split; [exact S|exact G].
Qed.

Lemma recovery_reproduces_rows_and_schemas_witness :
  let ops := [Create_table "users" Examples.users_schema;
              Put "users" "k1" Examples.alice;
              Put "users" "k2" [("name", VStr "Bob")];
              Delete "users" "k1";
              Create_table "posts" [("title", "TEXT")]] in
  let e := run_ops ops (StorageEngine.init empty_disk 3) in
  schemas (restart e) = schemas e
  /\ forall table key,
       StorageEngine.get (restart e) table key = StorageEngine.get e table key.
Proof.
  apply (@recovery_reproduces_rows_and_schemas
           [Create_table "users" Examples.users_schema;
            Put "users" "k1" Examples.alice;
            Put "users" "k2" [("name", VStr "Bob")];
            Delete "users" "k1";
            Create_table "posts" [("title", "TEXT")]] 3).
  vm_compute. reflexivity.
Defined.

(* ================================================================== *)
(** * Further properties of the indexes *)
(* ================================================================== *)

Section BestIndex.
Variable conds : row.

Let step (best : option index * Z) (i : index) : option index * Z :=
  if (snd best <? IndexManager.score conds i)%Z
  then (Some i, IndexManager.score conds i) else best.

Lemma best_fold l : forall b s,
  (fold_left step l (b, s) = (b, s)
   /\ forall j, In j l -> (IndexManager.score conds j <= s)%Z)
  \/ exists l1 i l2,
       l = (l1 ++ i :: l2)%list
       /\ fold_left step l (b, s) = (Some i, IndexManager.score conds i)
       /\ (s < IndexManager.score conds i)%Z
       /\ (forall j, In j l1 ->
             (IndexManager.score conds j < IndexManager.score conds i)%Z)
       /\ (forall j, In j l2 ->
             (IndexManager.score conds j <= IndexManager.score conds i)%Z).
Proof.
  induction l as [|i l IH]; intros b s; simpl.
  - left. split; [reflexivity|tauto].
  - destruct (s <? IndexManager.score conds i)%Z eqn:E.
    + assert (St : step (b, s) i = (Some i, IndexManager.score conds i)).
      { unfold step. simpl. now rewrite E. }
      rewrite St. apply Z.ltb_lt in E.
      destruct (IH (Some i) (IndexManager.score conds i))
        as [[F A]|(l1 & i' & l2 & L & F & S & A1 & A2)].
      * right. exists [], i, l. repeat split; auto. simpl. tauto.
      * right. exists (i :: l1), i', l2. subst l. repeat split; auto.
        -- lia.
        -- intros j [<-|I]; auto.
    + assert (St : step (b, s) i = (b, s)).
      { unfold step. simpl. now rewrite E. }
      rewrite St. apply Z.ltb_ge in E.
      destruct (IH b s) as [[F A]|(l1 & i' & l2 & L & F & S & A1 & A2)].
      * left. split; auto. intros j [<-|I]; auto.
      * right. exists (i :: l1), i', l2. subst l. repeat split; auto.
        intros j [<-|I]; auto. lia.
Qed.
End BestIndex.

Lemma score_nonneg conds i : (0 <= IndexManager.score conds i)%Z.
Proof. unfold IndexManager.score. lia. Qed.

(** X9. [find_best_index] returns the first index, in the order of the
    table's dictionary of indexes, among those that have the most columns
    in the conditions, if that number is at least one; it returns nothing
    exactly when no index of the table has a column in the conditions. *)
Theorem find_best_index_is_first_best :
  forall (m : manager) (table : string) (conditions : row),
    match IndexManager.find_best_index m table conditions with
    | Some i =>
        (1 <= IndexManager.score conditions i)%Z
        /\ exists before after,
             dict_values (IndexManager.indexes_of m table)
             = (before ++ i :: after)%list
             /\ (forall j, In j before ->
                   (IndexManager.score conditions j
                    < IndexManager.score conditions i)%Z)
             /\ (forall j, In j after ->
                   (IndexManager.score conditions j
                    <= IndexManager.score conditions i)%Z)
    | None =>
        forall j, In j (dict_values (IndexManager.indexes_of m table)) ->
                  IndexManager.score conditions j = 0%Z
    end.
Proof.
  intros m table conditions. unfold IndexManager.find_best_index.
  destruct (best_fold conditions
              (dict_values (IndexManager.indexes_of m table)) None (-1)%Z)
    as [[F A]|(l1 & i & l2 & L & F & S & A1 & A2)].
  - rewrite F. simpl. intros j I. specialize (A j I).
    pose proof (score_nonneg conditions j). lia.
  - rewrite F. simpl.
    destruct (0 <? IndexManager.score conditions i)%Z eqn:E.
    + apply Z.ltb_lt in E. split; [lia|]. exists l1, l2. auto.
    + apply Z.ltb_ge in E. intros j I. rewrite L in I.
      pose proof (score_nonneg conditions j) as Pj.
      pose proof (score_nonneg conditions i) as Pi.
      apply in_app_or in I. destruct I as [I|[I|I]]; [| subst j |].
      * specialize (A1 j I). lia.
      * lia.
      * specialize (A2 j I). lia.
Qed.

Lemma get_index_touch m t t' name :
  IndexManager.get_index
    (dict_set String.eqb m t (IndexManager.indexes_of m t)) t' name
  = IndexManager.get_index m t' name.
Proof.
  rewrite get_index_set. destruct (String.eqb t' t) eqn:T; auto.
  apply String.eqb_eq in T. now subst.
Qed.

(** X10. [create_index] returns exactly when the table has no index of
    that name and the type is [hash], or [btree] with one column. When it
    raises, it raises [ValueError] and every index of every table is as it
    was. *)
Theorem create_index_returns_or_changes_nothing :
  forall (name table : string) (cols : list string) (kind : string)
         (m : manager),
    (fst (IndexManager.create_index name table cols kind m) = Return tt
     <-> IndexManager.get_index m table name = None
         /\ (kind = "hash" \/ (kind = "btree" /\ List.length cols = 1%nat)))
    /\ forall e m',
         IndexManager.create_index name table cols kind m = (Raise e, m') ->
         (exists msg, e = ValueError msg)
         /\ forall table' name',
              IndexManager.get_index m' table' name'
              = IndexManager.get_index m table' name'.
Proof.
  intros name table cols kind m. unfold IndexManager.create_index.
  set (m1 := dict_set String.eqb m table (IndexManager.indexes_of m table)).
  assert (E2 : IndexManager.indexes_of m1 table
               = IndexManager.indexes_of m table).
  { unfold m1, IndexManager.indexes_of at 1. now rewrite dict_get_set_eq. }
  assert (E1 : forall t' n', IndexManager.get_index m1 t' n'
                             = IndexManager.get_index m t' n').
  { intros. apply get_index_touch. }
  rewrite E2. unfold dict_mem.
  change (dict_get String.eqb (IndexManager.indexes_of m table) name)
    with (IndexManager.get_index m table name).
  destruct (IndexManager.get_index m table name) as [i|].
  { split.
    - split; [discriminate|]. intros [F _]. discriminate.
    - intros e m' H. inversion H; subst. split; [eexists; reflexivity|].
      exact E1. }
  destruct (String.eqb kind "hash") eqn:K1.
  { apply String.eqb_eq in K1. split; [|discriminate].
    split; auto. }
  destruct (String.eqb kind "btree") eqn:K2.
  - apply String.eqb_eq in K2. apply String.eqb_neq in K1.
    destruct (Nat.eqb (List.length cols) 1) eqn:L.
    + apply Nat.eqb_eq in L. split; [|discriminate]. split; auto.
    + apply Nat.eqb_neq in L. split.
      * split; [discriminate|]. intros [_ [F|[_ F]]]; congruence.
      * intros e m' H. inversion H; subst. split; [eexists; reflexivity|].
        exact E1.
  - apply String.eqb_neq in K1, K2. split.
    + split; [discriminate|]. intros [_ [F|[F _]]]; congruence.
    + intros e m' H. inversion H; subst. split; [eexists; reflexivity|].
      exact E1.
Qed.

(** ** An index as a set of entries *)

Lemma lookup_of_filed r i t0 :
  index_key i r = Some t0 -> index_lookup r i = index_bucket i t0.
Proof.
  destruct i as [tb c d|tb c d]; simpl.
  - intros H. inversion H; subst. reflexivity.
  - unfold BTree._get_index_value, BTree.lookup, row_get.
    destruct (dict_get String.eqb r (BTree.column c)) as [v|];
      [|discriminate].
    destruct v; intros H; inversion H; subst; reflexivity.
Qed.

Lemma index_bucket_compat i t t0 :
  tuple_eq t t0 = true -> index_bucket i t = index_bucket i t0.
Proof.
  destruct i as [tb c d|tb c d]; simpl; intros E.
  - now apply (@bucket_compat _ tuple_eq tuple_eq_sym tuple_eq_trans).
  - destruct t as [|v [|v' t]], t0 as [|v0 [|v0' t0]]; simpl in E;
      try discriminate; auto;
      try (rewrite andb_false_r in E; discriminate).
    rewrite andb_true_r in E.
    now apply (@bucket_compat _ key_eq key_eq_sym key_eq_trans).
Qed.

(** Two indexes on the same columns answer a lookup from the same
    bucket. *)
Lemma lookup_shape conds i j :
  columns j = columns i ->
  (forall r0, index_key j r0 = index_key i r0) ->
  (index_lookup conds j = [] /\ index_lookup conds i = [])
  \/ exists t, index_lookup conds j = index_bucket j t
               /\ index_lookup conds i = index_bucket i t.
Proof.
  intros C K.
  destruct i as [tb c d|tb c d], j as [tb' c' d'|tb' c' d']; simpl in *;
    subst c'.
  - right. exists (map (row_get conds) c). auto.
  - specialize (K []). discriminate.
  - specialize (K []). discriminate.
  - unfold BTree.lookup.
    destruct (dict_get String.eqb conds (BTree.column c)) as [v|]; auto.
    right. exists [v]. auto.
Qed.

Lemma class_name_insert key r i i' :
  index_insert key r i = Return i' -> class_name i' = class_name i.
Proof.
  destruct i as [t c d|t c d]; simpl.
  - intros H. now inversion H.
  - destruct (BTree.insert c key r d); intros H; now inversion H.
Qed.

Lemma class_name_delete key r i :
  class_name (index_delete key r i) = class_name i.
Proof. now destruct i. Qed.

(** X11. Insertion and deletion are inverse. Take an index that holds no
    NaN, with the keys of a B-tree index in order, that does not hold a
    row key under the columns of a row, and insert the row under that key;
    when the index is still so after the insertion (the row brings no
    NaN), deleting the row again leaves every call of [lookup] as it was
    before the insertion: it returns a set with the same members, or it
    raises the same exception. *)
Theorem index_insert_then_delete :
  forall (key : string) (r : row) (i i' : index),
    index_wf i ->
    keys_in_order i = true ->
    set_mem (index_lookup r i) key = false ->
    index_insert key r i = Return i' ->
    keys_in_order i' = true ->
    forall conditions : row,
      same_members
        (index_lookup_call conditions (index_delete key r i'))
        (index_lookup_call conditions i).
Proof.
  intros key r i i' W _ A I _ conds.
  unfold index_lookup_call.
  rewrite class_name_delete, (class_name_insert _ _ _ I).
  destruct (dict_mem String.eqb conds "self"); [reflexivity|].
  cbn [same_members]. intros k.
  destruct (index_insert_spec _ _ _ I W) as (W1 & C1 & K1 & B1).
  destruct (index_delete_spec key r i' W1) as (W2 & C2 & K2 & B2).
  destruct (@lookup_shape conds i (index_delete key r i'))
    as [[-> ->]|(t & -> & ->)]; auto.
  - now rewrite C2.
  - intros r0. now rewrite K2.
  - rewrite B2, K1, B1.
    destruct (index_key i r) as [t0|] eqn:Kr; auto.
    destruct (tuple_eq t t0) eqn:E; auto.
    rewrite set_mem_discard, set_mem_add.
    destruct (String.eqb k key) eqn:Q; simpl; auto.
    apply String.eqb_eq in Q. subst k.
    rewrite (index_bucket_compat i _ _ E), <- (lookup_of_filed _ _ Kr).
    now rewrite A.
Qed.

Lemma index_insert_then_delete_witness :
  index_insert "k2" Examples.bob (BTreeIndex "users" ["id"] [(VInt 1, ["k1"])])
  = Return (BTreeIndex "users" ["id"] [(VInt 1, ["k1"]); (VInt 2, ["k2"])])
  /\ index_delete "k2" Examples.bob
       (BTreeIndex "users" ["id"] [(VInt 1, ["k1"]); (VInt 2, ["k2"])])
     = BTreeIndex "users" ["id"] [(VInt 1, ["k1"])]
  /\ forall conditions : row,
       same_members
         (index_lookup_call conditions
            (index_delete "k2" Examples.bob
               (BTreeIndex "users" ["id"]
                  [(VInt 1, ["k1"]); (VInt 2, ["k2"])])))
         (index_lookup_call conditions
            (BTreeIndex "users" ["id"] [(VInt 1, ["k1"])])).
Proof.
  split; [reflexivity|]. split; [reflexivity|].
  apply (@index_insert_then_delete "k2" Examples.bob
           (BTreeIndex "users" ["id"] [(VInt 1, ["k1"])])).
  - simpl. auto.
  - reflexivity.
  - reflexivity.
  - reflexivity.
  - reflexivity.
Defined.

Lemma irange_all start stop d : forall l k s,
  BTree.irange start stop d = Return l ->
  In (k, s) d -> BTree.in_range start stop k = Some true -> In s l.
Proof.
  induction d as [|[k0 s0] d IH]; intros l k s H I R; simpl in *;
    [contradiction|].
  destruct (BTree.in_range start stop k0) as [b|] eqn:R0; [|discriminate].
  destruct (BTree.irange start stop d) as [l0|]; [|discriminate].
  inversion H; subst l. destruct I as [E|I].
  - inversion E; subst. rewrite R in R0. inversion R0; subst. now left.
  - specialize (IH l0 k s eq_refl I R). destruct b; [now right|exact IH].
Qed.

Lemma set_mem_in_union l key s : forall acc,
  In s l -> set_mem s key = true ->
  set_mem (fold_left set_update l acc) key = true.
Proof.
  assert (Keep : forall l acc, set_mem acc key = true ->
                   set_mem (fold_left set_update l acc) key = true).
  { clear. induction l as [|s l IH]; intros acc H; simpl; auto.
    apply IH. now rewrite set_mem_update, H. }
  induction l as [|s0 l IH]; intros acc I M; simpl; [contradiction|].
  destruct I as [<-|I]; [|now apply IH].
  apply Keep. rewrite set_mem_update, M. apply orb_true_r.
Qed.

(** X12. A range scan misses no row. In a state in which every index
    holds the rows of its table, and for an index that holds no NaN and
    has its keys in order, the keys that [range_scan] returns include the
    key of every stored row whose indexed column is not null and lies
    within the bounds. *)
Theorem range_scan_finds_every_row_in_range :
  forall (x : executor) (table name col key : string) (i : index)
         (start stop : option value) (keys : pyset) (r : row),
    index_inv x ->
    IndexManager.get_index (index_manager x) table name = Some i ->
    keys_in_order i = true ->
    index_range_scan col start stop i = Return keys ->
    StorageEngine.get (storage x) table key = Some r ->
    row_get r col <> VNone ->
    BTree.in_range start stop (row_get r col) = Some true ->
    set_mem keys key = true.
Proof.
  intros x table name col key i start stop keys r (I1 & _) Gi _ R G N Rg.
  destruct (I1 _ _ _ Gi) as [W Ok].
  destruct i as [tb c d|tb c d]; simpl in R; [discriminate|].
  unfold BTree.range_scan in R.
  destruct (negb (String.eqb col (BTree.column c))) eqn:C; [discriminate|].
  apply negb_false_iff, String.eqb_eq in C. subst col.
  destruct (BTree.irange start stop d) as [l|] eqn:IR; [|discriminate].
  inversion R; subst keys.
  assert (B : set_mem (index_bucket (BTreeIndex tb c d)
                         [row_get r (BTree.column c)]) key = true).
  { apply Ok. exists r, [row_get r (BTree.column c)].
    split; [exact G|]. split; [|apply tuple_eq_refl].
    simpl. unfold BTree._get_index_value.
    destruct (row_get r (BTree.column c)); congruence. }
  simpl in B. unfold bucket in B.
  destruct (dict_get key_eq d (row_get r (BTree.column c))) as [s|] eqn:D;
    [|discriminate].
  destruct (@dict_get_in _ _ key_eq d _ _ D) as (k0 & In0 & E0).
  apply (@set_mem_in_union l key s []); [|exact B].
  apply (@irange_all start stop d l k0 s IR In0).
  now rewrite <- (@in_range_key_eq start stop _ k0 E0).
Qed.

Lemma index_inv_two_users : index_inv Examples.two_users.
Proof.
  unfold Examples.two_users, Examples.after.
  apply all_return_inv; [apply index_inv_fresh|]. vm_compute. reflexivity.
Qed.

Lemma range_scan_finds_every_row_in_range_witness :
  IndexManager.get_index (index_manager Examples.two_users) "users" "by_id"
  = Some (BTreeIndex "users" ["id"]
            [(VInt 1, ["uuid-0"]); (VInt 2, ["uuid-1"])])
  /\ set_mem ["uuid-0"; "uuid-1"] "uuid-1" = true.
Proof.
  split; [reflexivity|].
  apply (@range_scan_finds_every_row_in_range Examples.two_users
           "users" "by_id" "id" "uuid-1"
           (BTreeIndex "users" ["id"]
              [(VInt 1, ["uuid-0"]); (VInt 2, ["uuid-1"])])
           (Some (VInt 1)) None ["uuid-0"; "uuid-1"] Examples.bob).
  - exact index_inv_two_users.
  - reflexivity.
  - reflexivity.
  - reflexivity.
  - reflexivity.
  - discriminate.
  - reflexivity.
Defined.

(* ================================================================== *)
(** * Further properties of the query executor *)
(* ================================================================== *)

(** ** SELECT through an index that the conditions cover *)

Lemma find_best_index_some m t conds i :
  IndexManager.find_best_index m t conds = Some i ->
  In i (dict_values (IndexManager.indexes_of m t))
  /\ (1 <= IndexManager.score conds i)%Z.
Proof.
  unfold IndexManager.find_best_index.
  destruct (best_fold conds (dict_values (IndexManager.indexes_of m t))
              None (-1)%Z)
    as [[F A]|(l1 & i0 & l2 & L & F & S & A1 & A2)]; rewrite F; simpl.
  - discriminate.
  - destruct (0 <? IndexManager.score conds i0)%Z eqn:E; [|discriminate].
    intros H. inversion H; subst i0. apply Z.ltb_lt in E.
    split; [|lia]. rewrite L. apply in_or_app. right. now left.
Qed.

Lemma score_positive conds i :
  (1 <= IndexManager.score conds i)%Z ->
  exists col, In col (columns i) /\ dict_mem String.eqb conds col = true.
Proof.
  unfold IndexManager.score.
  destruct (filter (fun col => dict_mem String.eqb conds col) (columns i))
    as [|col l] eqn:F; simpl; [lia|].
  intros _. exists col.
  apply (filter_In (fun col => dict_mem String.eqb conds col)).
  rewrite F. now left.
Qed.

Lemma matches_at r conds col v :
  QueryExecutor._matches_conditions r conds = true ->
  dict_get String.eqb conds col = Some v ->
  py_eq (row_get r col) v = true.
Proof.
  unfold QueryExecutor._matches_conditions.
  induction conds as [|[c w] conds IH]; simpl; [discriminate|].
  intros H G. apply andb_true_iff in H. destruct H as [H1 H2].
  destruct (String.eqb col c) eqn:E.
  - apply String.eqb_eq in E. subst c. now inversion G; subst.
  - now apply IH.
Qed.

Lemma py_eq_key_eq a b : py_eq a b = true -> key_eq a b = true.
Proof. intros H. unfold key_eq. rewrite H. apply orb_true_r. Qed.

Lemma py_eq_not_none a b : py_eq a b = true -> b <> VNone -> a <> VNone.
Proof. intros H N ->. destruct b; simpl in H; congruence. Qed.

Lemma values_in_get {V} (d : dict string V) v :
  NoDup (dict_keys d) -> In v (dict_values d) ->
  exists name, dict_get String.eqb d name = Some v.
Proof.
  intros N I. apply in_map_iff in I. destruct I as ([name v'] & E & I).
  simpl in E. subst v'. exists name. now apply dict_in_get.
Qed.

(** X13. A SELECT through an index returns what a scan would. In a state
    in which every index holds the rows of its table, when the chosen
    index has a condition other than null for each of its columns and no
    condition is on a column named [self] (with which the call of
    [lookup] raises [TypeError]), the candidate rows are obtained and are
    exactly the stored rows of the table that meet every condition, each
    with its [_key]. *)
Theorem select_through_covering_index :
  forall (x : executor) (q : ParsedQuery.t) (i : index),
    index_inv x ->
    NoDup (dict_keys (IndexManager.indexes_of (index_manager x)
                        (ParsedQuery.table q))) ->
    IndexManager.find_best_index (index_manager x) (ParsedQuery.table q)
      (ParsedQuery.conditions q) = Some i ->
    (forall col, In col (columns i) ->
                 row_get (ParsedQuery.conditions q) col <> VNone) ->
    dict_mem String.eqb (ParsedQuery.conditions q) "self" = false ->
    exists found,
      QueryExecutor.candidates x q = Return found
      /\ forall row,
           In row found
           <-> exists key r,
                 StorageEngine.get (storage x) (ParsedQuery.table q) key
                 = Some r
                 /\ QueryExecutor._matches_conditions r
                      (ParsedQuery.conditions q) = true
                 /\ row = QueryExecutor.with_key key r.
Proof.
  intros x q i Inv ND F Cov NoSelf.
  destruct (@find_best_index_some _ _ _ _ F) as [Ii Sc].
  destruct (@score_positive _ _ Sc) as (col0 & C0 & M0).
  unfold QueryExecutor.candidates, index_lookup_call. rewrite F, NoSelf.
  destruct (ParsedQuery.conditions q) as [|cv conds] eqn:Cq;
    [discriminate|]. rewrite <- Cq in *. clear cv conds Cq.
  set (conds := ParsedQuery.conditions q) in *.
  set (t := ParsedQuery.table q) in *.
  eexists. split; [reflexivity|]. intros row.
  rewrite in_flat_map. split.
  - intros (key & _ & I).
    destruct (StorageEngine.get (storage x) t key) as [[|c r]|] eqn:G;
      try contradiction.
    destruct (QueryExecutor._matches_conditions (c :: r) conds) eqn:M;
      [|contradiction].
    destruct I as [<-|[]]. exists key, (c :: r). auto.
  - intros (key & r & G & M & ->).
    destruct (@values_in_get _ _ _ ND Ii) as (name & Gi).
    destruct Inv as (I1 & _).
    destruct (I1 t name i Gi) as [W Ok].
    assert (Nonempty : r <> []).
    { unfold dict_mem in M0.
      destruct (dict_get String.eqb conds col0) as [v|] eqn:Gc;
        [|discriminate].
      pose proof (@matches_at _ _ _ _ M Gc) as E.
      assert (Nv : v <> VNone).
      { specialize (Cov col0 C0). unfold row_get in Cov.
        now rewrite Gc in Cov. }
      pose proof (@py_eq_not_none _ _ E Nv) as Nr.
      intros ->. now apply Nr. }
    assert (Mem : set_mem (index_lookup conds i) key = true).
    { destruct i as [tb c d|tb c d]; simpl in *.
      - unfold Hash.lookup. apply (Ok (map (row_get conds) c) key).
        exists r, (Hash._get_index_key c r). split; [exact G|].
        split; [reflexivity|].
        unfold Hash._get_index_key. clear - M Cov.
        induction c as [|col c IH]; simpl; auto.
        apply andb_true_iff. split.
        + apply py_eq_key_eq.
          assert (Nn : row_get conds col <> VNone) by (apply Cov; now left).
          unfold row_get at 2. unfold row_get in Nn.
          destruct (dict_get String.eqb conds col) as [v|] eqn:Gc;
            [|congruence].
          now apply (@matches_at _ _ _ _ M Gc).
        + apply IH. intros col' I'. apply Cov. now right.
      - destruct W as [L _].
        assert (Ic : In (BTree.column c) c).
        { destruct c as [|c0 [|c1 c]]; try discriminate. now left. }
        specialize (Cov _ Ic). unfold row_get in Cov.
        unfold BTree.lookup.
        destruct (dict_get String.eqb conds (BTree.column c)) as [v|] eqn:Gc;
          [|congruence].
        pose proof (@matches_at _ _ _ _ M Gc) as E.
        apply (Ok [v] key). exists r, [row_get r (BTree.column c)].
        split; [exact G|]. split.
        + unfold BTree._get_index_value.
          pose proof (@py_eq_not_none _ _ E Cov) as Nr.
          destruct (row_get r (BTree.column c)); congruence.
        + simpl. rewrite andb_true_r. now apply py_eq_key_eq. }
    exists key. split.
    + unfold set_mem in Mem. apply existsb_exists in Mem.
      destruct Mem as (k' & I & E). apply String.eqb_eq in E. now subst.
    + rewrite G. destruct r as [|c r]; [congruence|]. rewrite M. now left.
Qed.

Lemma select_through_covering_index_witness :
  QueryExecutor.candidates Examples.two_users
    (Examples.select_users [("id", VInt 2)])
  = Return [[("id", VInt 2); ("name", VStr "Bob"); ("_key", VStr "uuid-1")]]
  /\ exists found,
       QueryExecutor.candidates Examples.two_users
         (Examples.select_users [("id", VInt 2)]) = Return found
       /\ forall row,
            In row found
            <-> exists key r,
                  StorageEngine.get (storage Examples.two_users) "users" key
                  = Some r
                  /\ QueryExecutor._matches_conditions r [("id", VInt 2)]
                     = true
                  /\ row = QueryExecutor.with_key key r.
Proof.
  split; [reflexivity|].
  apply (@select_through_covering_index Examples.two_users
           (Examples.select_users [("id", VInt 2)])
           (BTreeIndex "users" ["id"]
              [(VInt 1, ["uuid-0"]); (VInt 2, ["uuid-1"])])).
  - exact index_inv_two_users.
  - vm_compute. repeat constructor. simpl. tauto.
  - reflexivity.
  - intros col [<-|[]]. discriminate.
  - reflexivity.
Defined.

(** ** INSERT, DELETE and UPDATE *)

(** X14. An INSERT that returns reports the key it drew from [uuid4];
    the storage engine then holds the inserted values under that key in
    the table, and every other row is as before. *)
Theorem insert_then_get :
  forall (x x' : executor) (q : ParsedQuery.t) (res : result),
    ParsedQuery.query_type q = "INSERT" ->
    QueryExecutor.execute q x = (Return res, x') ->
    let key := uuid4 x (uuid_calls x) in
    inserted_key res = Some key
    /\ status res = "success"
    /\ rows_affected res = Some 1%Z
    /\ uuid_calls x' = S (uuid_calls x)
    /\ StorageEngine.get (storage x') (ParsedQuery.table q) key
       = Some (ParsedQuery.values q)
    /\ forall table' key',
         (table', key') <> (ParsedQuery.table q, key) ->
         StorageEngine.get (storage x') table' key'
         = StorageEngine.get (storage x) table' key'.
Proof.
  intros x x' q res T H. unfold QueryExecutor.execute in H. rewrite T in H.
  simpl in H. unfold QueryExecutor._execute_insert in H.
  apply bind_return in H. destruct H as (key & x1 & H1 & H).
  unfold next_uuid in H1. inversion H1; subst key x1. clear H1.
  apply bind_return in H. destruct H as ([] & x2 & H2 & H).
  apply on_storage_return in H2. destruct H2 as (e' & P & ->).
  apply bind_return in H. destruct H as ([] & x3 & H3 & H).
  apply on_indexes_return in H3. destruct H3 as (im & IR & ->).
  unfold ret in H. inversion H; subst x' res. clear H. simpl in *.
  pose proof (@get_after_put _ _ _ _ _ P) as G.
  repeat (split; [reflexivity|]). split.
  - rewrite G, same_key_refl. reflexivity.
  - intros table' key' N. rewrite G.
    destruct (same_key _ _ table' key') eqn:K; auto.
    apply same_key_eq in K. destruct K; subst. congruence.
Qed.

Lemma insert_then_get_witness :
  let x := Examples.after [Examples.create_users] in
  let x' := snd (QueryExecutor.execute (Examples.insert_users Examples.alice)
                   x) in
  StorageEngine.get (storage x') "users" "uuid-0" = Some Examples.alice
  /\ forall table' key',
       (table', key') <> ("users", "uuid-0") ->
       StorageEngine.get (storage x') table' key'
       = StorageEngine.get (storage x) table' key'.
Proof.
  pose proof (@insert_then_get (Examples.after [Examples.create_users]) _
                (Examples.insert_users Examples.alice) _ eq_refl eq_refl)
    as (_ & _ & _ & _ & G & F).
  split; [exact G|exact F].
Defined.

Lemma delete_loop_spec q items : forall n y m y',
  QueryExecutor.count_loop items (QueryExecutor.delete_row q) n y
  = (Return m, y') ->
  m = (n + Z.of_nat (List.length items))%Z
  /\ forall t' k',
       StorageEngine.get (storage y') t' k'
       = if String.eqb t' (ParsedQuery.table q)
            && existsb (String.eqb k') (map fst items)
         then None else StorageEngine.get (storage y) t' k'.
Proof.
  induction items as [|[k r] items IH]; intros n y m y' H.
  - simpl in H. unfold ret in H. inversion H; subst. split; [simpl; lia|].
    intros t' k'. simpl. now rewrite andb_false_r.
  - simpl in H. apply bind_return in H. destruct H as (b & y1 & H1 & H).
    unfold QueryExecutor.delete_row in H1. simpl in H1.
    apply bind_return in H1. destruct H1 as (b0 & y2 & H1 & H2).
    apply on_storage_return in H1. destruct H1 as (e' & D & ->).
    apply bind_return in H2. destruct H2 as ([] & y3 & H2 & H3).
    apply on_indexes_return in H2. destruct H2 as (im & _ & ->).
    unfold ret in H3. inversion H3; subst b y1. clear H3.
    destruct (IH _ _ _ _ H) as (Em & Eg). simpl in Eg.
    split; [rewrite Em; simpl List.length; lia|].
    intros t' k'. rewrite Eg.
    rewrite (@get_after_delete _ _ _ _ _ D t' k'). unfold same_key. simpl.
    destruct (String.eqb t' (ParsedQuery.table q)); simpl; auto.
    destruct (String.eqb k' k); simpl; auto.
    now destruct (existsb (String.eqb k') (map fst items)).
Qed.

Lemma in_filtered_keys (f : row -> bool) (items : list (string * row)) k :
  NoDup (map fst items) ->
  existsb (String.eqb k) (map fst (filter (fun kr => f (snd kr)) items))
  = match dict_get String.eqb items k with
    | Some r => f r
    | None => false
    end.
Proof.
  induction items as [|[k0 r0] items IH]; intros N; simpl; auto.
  inversion N as [|? ? N1 N2]; subst.
  destruct (String.eqb k k0) eqn:E.
  - apply String.eqb_eq in E. subst k0.
    destruct (f r0) eqn:F; simpl.
    + now rewrite String.eqb_refl.
    + rewrite (IH N2).
      destruct (dict_get String.eqb items k) eqn:G; auto.
      exfalso. apply N1. apply dict_get_some_keys in G.
      apply existsb_eqb_in in G. exact G.
  - destruct (f r0); simpl; [rewrite E; simpl|]; apply (IH N2).
Qed.

Lemma scan_get e t k :
  dict_get String.eqb (StorageEngine.scan e t) k = StorageEngine.get e t k.
Proof.
  unfold StorageEngine.scan, StorageEngine.get.
  now destruct (dict_get String.eqb (tables e) t).
Qed.

(** X15. DELETE removes the rows that meet the conditions and no other.
    In a state that the executor keeps, after a DELETE that returns, a key
    of the table holds a row exactly when it held one before that does
    not meet every condition, and this is the same row; the other tables
    are as before, and [rows_affected] is the number of rows that met the
    conditions. *)
Theorem delete_removes_matching_rows :
  forall (x x' : executor) (q : ParsedQuery.t) (res : result),
    index_inv x ->
    ParsedQuery.query_type q = "DELETE" ->
    QueryExecutor.execute q x = (Return res, x') ->
    (forall key,
        StorageEngine.get (storage x') (ParsedQuery.table q) key
        = match StorageEngine.get (storage x) (ParsedQuery.table q) key with
          | Some r =>
              if QueryExecutor._matches_conditions r (ParsedQuery.conditions q)
              then None else Some r
          | None => None
          end)
    /\ (forall table' key,
          table' <> ParsedQuery.table q ->
          StorageEngine.get (storage x') table' key
          = StorageEngine.get (storage x) table' key)
    /\ rows_affected res
       = Some (Z.of_nat (List.length
           (filter (fun kr => QueryExecutor._matches_conditions (snd kr)
                                (ParsedQuery.conditions q))
              (StorageEngine.scan (storage x) (ParsedQuery.table q))))).
Proof.
  intros x x' q res Inv T H. unfold QueryExecutor.execute in H.
  rewrite T in H. simpl in H. unfold QueryExecutor._execute_delete in H.
  apply bind_return in H. destruct H as (items & x1 & H1 & H).
  unfold gets in H1. inversion H1; subst items x1. clear H1.
  apply bind_return in H. destruct H as (n & x2 & H2 & H).
  unfold ret in H. inversion H; subst x' res. clear H.
  destruct (delete_loop_spec _ _ _ _ H2) as (Em & Eg).
  destruct (@scan_items x (ParsedQuery.table q) Inv) as [N _].
  split; [|split].
  - intros key. rewrite Eg, String.eqb_refl. simpl.
    rewrite (in_filtered_keys
               (fun r => QueryExecutor._matches_conditions r
                           (ParsedQuery.conditions q)) _ key N).
    rewrite scan_get.
    destruct (StorageEngine.get (storage x) (ParsedQuery.table q) key)
      as [r|]; auto.
  - intros table' key D. rewrite Eg.
    apply String.eqb_neq in D. now rewrite D.
  - simpl. now rewrite Em.
Qed.

Lemma delete_removes_matching_rows_witness :
  let q := {| ParsedQuery.query_type := "DELETE";
              ParsedQuery.table := "users"; ParsedQuery.columns := [];
              ParsedQuery.conditions := [("id", VInt 1)];
              ParsedQuery.values := []; ParsedQuery.schema := [];
              ParsedQuery.order_by := []; ParsedQuery.limit := None;
              ParsedQuery.index_name := ""; ParsedQuery.index_columns := [];
              ParsedQuery.index_type := "btree" |} in
  let x' := snd (QueryExecutor.execute q Examples.two_users) in
  StorageEngine.get (storage x') "users" "uuid-0" = None
  /\ StorageEngine.get (storage x') "users" "uuid-1" = Some Examples.bob
  /\ forall key,
       StorageEngine.get (storage x') "users" key
       = match StorageEngine.get (storage Examples.two_users) "users" key with
         | Some r =>
             if QueryExecutor._matches_conditions r [("id", VInt 1)]
             then None else Some r
         | None => None
         end.
Proof.
  split; [reflexivity|]. split; [reflexivity|].
  apply (@delete_removes_matching_rows Examples.two_users _
           {| ParsedQuery.query_type := "DELETE";
              ParsedQuery.table := "users"; ParsedQuery.columns := [];
              ParsedQuery.conditions := [("id", VInt 1)];
              ParsedQuery.values := []; ParsedQuery.schema := [];
              ParsedQuery.order_by := []; ParsedQuery.limit := None;
              ParsedQuery.index_name := ""; ParsedQuery.index_columns := [];
              ParsedQuery.index_type := "btree" |} _
           index_inv_two_users eq_refl eq_refl).
Defined.

Lemma dict_get_absent {V} (d : dict string V) k :
  ~ In k (map fst d) -> dict_get String.eqb d k = None.
Proof.
  intros N. destruct (dict_get String.eqb d k) eqn:G; auto.
  exfalso. apply N. apply dict_get_some_keys in G.
  now apply existsb_eqb_in in G.
Qed.

Lemma update_loop_spec q items : forall n y m y',
  NoDup (map fst items) ->
  QueryExecutor.count_loop items (QueryExecutor.update_row q) n y
  = (Return m, y') ->
  m = (n + Z.of_nat (List.length
         (filter (fun kr => QueryExecutor._matches_conditions (snd kr)
                              (ParsedQuery.conditions q)) items)))%Z
  /\ forall t' k',
       StorageEngine.get (storage y') t' k'
       = if String.eqb t' (ParsedQuery.table q) then
           match dict_get String.eqb items k' with
           | Some r =>
               if QueryExecutor._matches_conditions r
                    (ParsedQuery.conditions q)
               then Some (dict_merge String.eqb r (ParsedQuery.values q))
               else StorageEngine.get (storage y) t' k'
           | None => StorageEngine.get (storage y) t' k'
           end
         else StorageEngine.get (storage y) t' k'.
Proof.
  induction items as [|[k r] items IH]; intros n y m y' N H.
  - simpl in H. unfold ret in H. inversion H; subst. split; [simpl; lia|].
    intros t' k'. simpl. now destruct (String.eqb t' (ParsedQuery.table q)).
  - simpl in N. inversion N as [|? ? N1 N2]; subst.
    simpl in H. apply bind_return in H. destruct H as (b & y1 & H1 & H).
    destruct (IH _ _ _ _ N2 H) as (Em & Eg). clear IH H.
    simpl filter. simpl dict_get.
    destruct (QueryExecutor._matches_conditions r (ParsedQuery.conditions q))
      eqn:Mt.
    + apply bind_return in H1. destruct H1 as ([] & y2 & H1 & H2).
      apply on_indexes_return in H1. destruct H1 as (im & _ & ->).
      apply bind_return in H2. destruct H2 as ([] & y3 & H2 & H3).
      apply on_storage_return in H2. destruct H2 as (e' & P & ->).
      apply bind_return in H3. destruct H3 as ([] & y4 & H3 & H4).
      apply on_indexes_return in H3. destruct H3 as (im' & _ & ->).
      unfold ret in H4. inversion H4; subst b y1. clear H4.
      simpl in Eg, P.
      pose proof (@get_after_put _ _ _ _ _ P) as Gp.
      split; [rewrite Em; simpl List.length; lia|].
      intros t' k'. rewrite Eg, !Gp. unfold same_key.
      destruct (String.eqb t' (ParsedQuery.table q)); simpl; auto.
      destruct (String.eqb k' k) eqn:E; auto.
      apply String.eqb_eq in E. subst k'.
      rewrite (@dict_get_absent _ _ _ N1), ?Mt. reflexivity.
    + unfold ret in H1. inversion H1; subst b y1. clear H1.
      split; [rewrite Em; lia|].
      intros t' k'. rewrite Eg.
      destruct (String.eqb t' (ParsedQuery.table q)); simpl; auto.
      destruct (String.eqb k' k) eqn:E; auto.
      apply String.eqb_eq in E. subst k'.
      rewrite (@dict_get_absent _ _ _ N1), ?Mt. reflexivity.
Qed.

(** X16. UPDATE rewrites the rows that meet the conditions and no other.
    In a state that the executor keeps, after an UPDATE that returns,
    every row of the table that met the conditions holds the assigned
    values over its old ones, every other row of every table is as
    before, and [rows_affected] is the number of rows that met the
    conditions. *)
Theorem update_rewrites_matching_rows :
  forall (x x' : executor) (q : ParsedQuery.t) (res : result),
    index_inv x ->
    ParsedQuery.query_type q = "UPDATE" ->
    QueryExecutor.execute q x = (Return res, x') ->
    (forall key,
        StorageEngine.get (storage x') (ParsedQuery.table q) key
        = match StorageEngine.get (storage x) (ParsedQuery.table q) key with
          | Some r =>
              if QueryExecutor._matches_conditions r (ParsedQuery.conditions q)
              then Some (dict_merge String.eqb r (ParsedQuery.values q))
              else Some r
          | None => None
          end)
    /\ (forall table' key,
          table' <> ParsedQuery.table q ->
          StorageEngine.get (storage x') table' key
          = StorageEngine.get (storage x) table' key)
    /\ rows_affected res
       = Some (Z.of_nat (List.length
           (filter (fun kr => QueryExecutor._matches_conditions (snd kr)
                                (ParsedQuery.conditions q))
              (StorageEngine.scan (storage x) (ParsedQuery.table q))))).
Proof.
  intros x x' q res Inv T H. unfold QueryExecutor.execute in H.
  rewrite T in H. simpl in H. unfold QueryExecutor._execute_update in H.
  apply bind_return in H. destruct H as (items & x1 & H1 & H).
  unfold gets in H1. inversion H1; subst items x1. clear H1.
  apply bind_return in H. destruct H as (n & x2 & H2 & H).
  unfold ret in H. inversion H; subst x' res. clear H.
  destruct (@scan_items x (ParsedQuery.table q) Inv) as [N _].
  destruct (update_loop_spec _ _ _ _ N H2) as (Em & Eg).
  split; [|split].
  - intros key. rewrite Eg, String.eqb_refl, scan_get.
    destruct (StorageEngine.get (storage x) (ParsedQuery.table q) key)
      as [r|]; auto.
  - intros table' key D. rewrite Eg.
    apply String.eqb_neq in D. now rewrite D.
  - simpl. now rewrite Em.
Qed.

Lemma update_rewrites_matching_rows_witness :
  let q := Examples.update_users [("name", VStr "Robert")] [("id", VInt 2)] in
  let x' := snd (QueryExecutor.execute q Examples.two_users) in
  StorageEngine.get (storage x') "users" "uuid-1"
  = Some [("id", VInt 2); ("name", VStr "Robert")]
  /\ forall key,
       StorageEngine.get (storage x') "users" key
       = match StorageEngine.get (storage Examples.two_users) "users" key with
         | Some r =>
             if QueryExecutor._matches_conditions r [("id", VInt 2)]
             then Some (dict_merge String.eqb r [("name", VStr "Robert")])
             else Some r
         | None => None
         end.
Proof.
  split; [reflexivity|].
  apply (@update_rewrites_matching_rows Examples.two_users _
           (Examples.update_users [("name", VStr "Robert")] [("id", VInt 2)])
           _ index_inv_two_users eq_refl eq_refl).
Defined.

(** ** LIMIT, projection and DROP TABLE *)

(** X17. LIMIT never reorders the rows or adds one: what it returns is a
    prefix of its input, of [min n count] rows for [n >= 0] and of
    [max 0 (count + n)] rows for a negative [n], as the slice [rows[:n]]
    has. *)
Theorem limit_returns_a_prefix :
  forall (rs : list row) (n : Z),
    (exists rest,
        rs = (QueryExecutor.apply_limit (Some n) rs ++ rest)%list)
    /\ Z.of_nat (List.length (QueryExecutor.apply_limit (Some n) rs))
       = (if (0 <=? n)%Z then Z.min n (Z.of_nat (List.length rs))
          else Z.max 0 (Z.of_nat (List.length rs) + n))%Z.
Proof.
  intros rs n. unfold QueryExecutor.apply_limit, QueryExecutor.slice_to.
  destruct (0 <=? n)%Z eqn:E.
  - apply Z.leb_le in E. split.
    + exists (skipn (Z.to_nat n) rs). symmetry. apply firstn_skipn.
    + rewrite length_firstn. lia.
  - apply Z.leb_gt in E. split.
    + eexists. symmetry. apply firstn_skipn.
    + rewrite length_firstn. lia.
Qed.

Lemma project_get cols (r : row) c : forall acc : row,
  dict_get String.eqb
    (fold_left (fun acc col =>
       match dict_get String.eqb r col with
       | Some v => dict_set String.eqb acc col v
       | None => acc
       end) cols acc) c
  = if existsb (String.eqb c) cols
    then match dict_get String.eqb r c with
         | Some v => Some v
         | None => dict_get String.eqb acc c
         end
    else dict_get String.eqb acc c.
Proof.
  induction cols as [|col cols IH]; intros acc; simpl; auto.
  rewrite IH. destruct (String.eqb c col) eqn:E; simpl.
  - apply String.eqb_eq in E. subst col.
    destruct (dict_get String.eqb r c) as [v|] eqn:G.
    + rewrite dict_get_set_eq. now destruct (existsb (String.eqb c) cols).
    + now destruct (existsb (String.eqb c) cols).
  - apply String.eqb_neq in E.
    destruct (dict_get String.eqb r col) as [v|]; auto.
    rewrite dict_get_set_neq by assumption. reflexivity.
Qed.

(** X18. A projection keeps a column exactly when the SELECT list names
    it and the row has it, with the value that the row has; so a row
    comes back without its [_key] unless the list asks for it. *)
Theorem projection_keeps_named_columns :
  forall (cols : list string) (r : row) (c : string),
    dict_get String.eqb (QueryExecutor.project cols r) c
    = if existsb (String.eqb c) cols then dict_get String.eqb r c else None.
Proof.
  intros cols r c. unfold QueryExecutor.project. rewrite project_get. simpl.
  destruct (existsb (String.eqb c) cols); auto.
  now destruct (dict_get String.eqb r c).
Qed.

(** X19. DROP TABLE takes the indexes of the table with it. After a DROP
    TABLE that returns, the table has no schema, no row and no index, and
    the schemas, rows and indexes of the other tables are as before. *)
Theorem drop_table_drops_its_indexes :
  forall (x x' : executor) (q : ParsedQuery.t) (res : result),
    ParsedQuery.query_type q = "DROP_TABLE" ->
    QueryExecutor.execute q x = (Return res, x') ->
    StorageEngine.get_schema (storage x') (ParsedQuery.table q) = None
    /\ (forall key,
          StorageEngine.get (storage x') (ParsedQuery.table q) key = None)
    /\ (forall name,
          IndexManager.get_index (index_manager x') (ParsedQuery.table q) name
          = None)
    /\ forall table', table' <> ParsedQuery.table q ->
         StorageEngine.get_schema (storage x') table'
         = StorageEngine.get_schema (storage x) table'
         /\ (forall key, StorageEngine.get (storage x') table' key
                         = StorageEngine.get (storage x) table' key)
         /\ (forall name,
               IndexManager.get_index (index_manager x') table' name
               = IndexManager.get_index (index_manager x) table' name).
Proof.
  intros x x' q res T H. unfold QueryExecutor.execute in H.
  rewrite T in H. simpl in H. unfold QueryExecutor._execute_drop_table in H.
  apply bind_return in H. destruct H as ([] & x1 & H1 & H).
  apply on_storage_return in H1. destruct H1 as (e' & D & ->).
  apply bind_return in H. destruct H as (names & x2 & H2 & H).
  unfold gets in H2. inversion H2; subst names x2. clear H2.
  apply bind_return in H. destruct H as ([] & x3 & H3 & H).
  rewrite for_each_drop in H3. inversion H3; subst x3. clear H3.
  unfold ret in H. inversion H; subst x' res. clear H. simpl.
  destruct (@drop_table_return _ _ _ D) as (ES & ET).
  pose proof (@get_after_del_table _ _ _ ET) as EG.
  unfold StorageEngine.get_schema. rewrite ES.
  split; [apply dict_get_del_eq|]. split; [|split].
  - intros key. now rewrite EG, String.eqb_refl.
  - intros name. rewrite drop_all_get, String.eqb_refl. simpl.
    destruct (existsb (String.eqb name)
                (dict_keys (IndexManager.get_indexes_for_table
                              (index_manager x) (ParsedQuery.table q))))
      eqn:X; auto.
    destruct (IndexManager.get_index (index_manager x)
                (ParsedQuery.table q) name) eqn:G; auto.
    unfold IndexManager.get_index in G. apply dict_get_some_keys in G.
    unfold IndexManager.get_indexes_for_table in X. congruence.
  - intros table' N. split; [now apply dict_get_del_neq|]. split.
    + intros key. rewrite EG. apply String.eqb_neq in N. now rewrite N.
    + intros name. rewrite drop_all_get.
      apply String.eqb_neq in N. now rewrite N.
Qed.

Lemma drop_table_drops_its_indexes_witness :
  let q := Examples.plan "DROP_TABLE" "users" in
  let x' := snd (QueryExecutor.execute q Examples.two_users) in
  IndexManager.get_index (index_manager Examples.two_users) "users" "by_id"
  <> None
  /\ StorageEngine.get_schema (storage x') "users" = None
  /\ (forall key, StorageEngine.get (storage x') "users" key = None)
  /\ (forall name,
        IndexManager.get_index (index_manager x') "users" name = None).
Proof.
  split; [discriminate|].
  pose proof (@drop_table_drops_its_indexes Examples.two_users _
                (Examples.plan "DROP_TABLE" "users") _ eq_refl eq_refl)
    as (A & B & C & _).
  split; [exact A|]. split; [exact B|exact C].
Defined.

(* ================================================================== *)
(** * Further properties of the consensus log *)
(* ================================================================== *)

Lemma on_world_node {W} (m : M W unit) (s : Raft.RaftNode * W) :
  fst (snd (Raft.on_world m s)) = fst s.
Proof. unfold Raft.on_world. now destruct (m (snd s)). Qed.

Lemma bind_role {W} (m k : M (Raft.RaftNode * W) unit) s :
  (forall s0, fst (snd (m s0)) = fst s0) ->
  (forall s0, raft_role (fst (snd (k s0))) = raft_role (fst s0)) ->
  raft_role (fst (snd (bind m (fun _ => k) s))) = raft_role (fst s).
Proof.
  intros Hm Hk. unfold bind. specialize (Hm s).
  destruct (m s) as [[[]|e] s2]; simpl in *.
  - now rewrite Hk, Hm.
  - now rewrite Hm.
Qed.

Lemma apply_loop_role {W} (cb : option (command -> M W unit)) n :
  forall s, raft_role (fst (snd (Raft.apply_loop cb n s))) = raft_role (fst s).
Proof.
  induction n as [|n IH]; intros [r w]; [reflexivity|].
  cbn [Raft.apply_loop fst snd].
  destruct (Raft.last_applied r <? Raft.commit_index r)%Z; [|reflexivity].
  transitivity
    (raft_role
       (fst (Raft.with_last_applied (Raft.last_applied r + 1) r, w)));
    [|reflexivity].
  apply bind_role; [|exact IH].
  intros s0.
  match goal with
  | |- context [match ?a with Some _ => _ | None => _ end] =>
      destruct a as [en|]; [|reflexivity]
  end.
  destruct cb as [f|]; [|reflexivity]. apply on_world_node.
Qed.

Lemma apply_committed_role {W} (cb : option (command -> M W unit)) s :
  raft_role (fst (snd (Raft._apply_committed_entries cb s)))
  = raft_role (fst s).
Proof. unfold Raft._apply_committed_entries. apply apply_loop_role. Qed.

Lemma become_leader_role r :
  raft_role (Raft._become_leader r)
  = (Raft.node_id r, Raft.all_nodes r, Raft.current_term r, Raft.voted_for r,
     Raft.LEADER, Raft.log r).
Proof.
  unfold Raft._become_leader, Raft._send_heartbeat.
  set (r1 := Raft.with_term _ _ _ r).
  change (Raft.node_id r, Raft.all_nodes r, Raft.current_term r,
          Raft.voted_for r, Raft.LEADER, Raft.log r) with (raft_role r1).
  generalize (filter (fun n => negb (String.eqb n (Raft.node_id r1)))
                (Raft.all_nodes r1)).
  clearbody r1. intros l. revert r1.
  induction l as [|x l IH]; intros r1; simpl; auto.
  rewrite IH. reflexivity.
Qed.

(** What one event does to the role of the node. *)
Lemma append_entry_role {W} (cb : option (command -> M W unit)) c r w :
  let r' := fst (snd (Raft.append_entry cb c (r, w))) in
  if Raft.is_leader r
  then raft_role r'
       = (Raft.node_id r, Raft.all_nodes r, Raft.current_term r,
          Raft.voted_for r, Raft.state r,
          (Raft.log r ++ [{| Raft.term := Raft.current_term r;
                             Raft.index := Raft.len r;
                             Raft.command_of := c |}])%list)
  else r' = r.
Proof.
  unfold Raft.append_entry. simpl.
  destruct (Raft.is_leader r) eqn:L; simpl; auto.
  unfold bind, Raft._try_commit. simpl.
  match goal with
  | |- context [if ?b then _ else _] => destruct b
  end.
  - match goal with
    | |- context [Raft._apply_committed_entries cb ?s] =>
        pose proof (apply_committed_role cb s) as R;
        destruct (Raft._apply_committed_entries cb s) as [[[]|e] s2]
    end; simpl in *; exact R.
  - reflexivity.
Qed.

Lemma append_entries_role {W} (cb : option (command -> M W unit))
    lt li pi pt es lc r w :
  raft_role (fst (snd (Raft.append_entries cb lt li pi pt es lc (r, w))))
  = if (Raft.current_term r <? lt)%Z
    then (Raft.node_id r, Raft.all_nodes r, lt, None, Raft.FOLLOWER,
          Raft.log r)
    else raft_role r.
Proof.
  unfold Raft.append_entries. simpl.
  set (r1 := if (Raft.current_term r <? lt)%Z
             then Raft.with_term lt None Raft.FOLLOWER r else r).
  assert (E : raft_role r1
              = if (Raft.current_term r <? lt)%Z
                then (Raft.node_id r, Raft.all_nodes r, lt, None,
                      Raft.FOLLOWER, Raft.log r)
                else raft_role r).
  { unfold r1. now destruct (Raft.current_term r <? lt)%Z. }
  rewrite <- E. clearbody r1.
  destruct (lt <? Raft.current_term r1)%Z; auto.
  destruct (Raft.commit_index r1 <? lc)%Z; auto.
  unfold bind.
  match goal with
  | |- context [Raft._apply_committed_entries cb ?s] =>
      pose proof (apply_committed_role cb s) as R;
      destruct (Raft._apply_committed_entries cb s) as [[[]|e] s2]
  end; simpl in *; exact R.
Qed.

Lemma request_vote_role ct ci li lt r :
  let r' := snd (Raft.request_vote ct ci li lt r) in
  Raft.node_id r' = Raft.node_id r
  /\ Raft.all_nodes r' = Raft.all_nodes r
  /\ Raft.log r' = Raft.log r
  /\ (Raft.current_term r' = Z.max (Raft.current_term r) ct)
  /\ (Raft.state r' = if (Raft.current_term r <? ct)%Z then Raft.FOLLOWER
                      else Raft.state r)
  /\ (fst (Raft.request_vote ct ci li lt r) = true ->
      Raft.current_term r' = ct /\ Raft.voted_for r' = Some ci
      /\ (Raft.current_term r = ct ->
          forall v, Raft.voted_for r = Some v -> v = ci))
  /\ (Raft.current_term r' = Raft.current_term r ->
      forall v, Raft.voted_for r = Some v -> Raft.voted_for r' = Some v).
Proof.
  unfold Raft.request_vote.
  destruct (Raft.current_term r <? ct)%Z eqn:B;
    [apply Z.ltb_lt in B|apply Z.ltb_ge in B]; cbn [Raft.current_term
      Raft.voted_for Raft.with_term];
    try rewrite Z.eqb_refl;
    (destruct (ct =? Raft.current_term r)%Z eqn:Q;
     [apply Z.eqb_eq in Q|apply Z.eqb_neq in Q]);
    destruct (Raft.voted_for r) as [v|] eqn:V; cbn [andb];
    try (destruct (String.eqb v ci) eqn:Ev;
         [apply String.eqb_eq in Ev; subst v|]);
    repeat match goal with
           | |- context [if ?b then _ else _] => destruct b
           end;
    cbn; repeat split; intros; subst; try lia; try discriminate;
    try congruence; auto.
Qed.

Lemma election_timeout_role r :
  raft_role (Raft._on_election_timeout r)
  = if Raft.is_leader r then raft_role r
    else (Raft.node_id r, Raft.all_nodes r, (Raft.current_term r + 1)%Z,
          Some (Raft.node_id r),
          (if Nat.eqb (List.length (Raft.all_nodes r)) 1
           then Raft.LEADER else Raft.CANDIDATE),
          Raft.log r).
Proof.
  unfold Raft._on_election_timeout, Raft._start_election.
  destruct (Raft.is_leader r); simpl; auto.
  destruct (Nat.eqb (List.length (Raft.all_nodes r)) 1); auto.
  now rewrite become_leader_role.
Qed.

Lemma role_is r id nodes t v st l :
  raft_role r = (id, nodes, t, v, st, l) ->
  Raft.node_id r = id /\ Raft.all_nodes r = nodes
  /\ Raft.current_term r = t /\ Raft.voted_for r = v /\ Raft.state r = st
  /\ Raft.log r = l.
Proof.
  unfold raft_role. intros E.
  injection E as E1 E2 E3 E4 E5 E6. auto 10.
Qed.

Lemma role_fields r r' :
  raft_role r' = raft_role r ->
  Raft.node_id r' = Raft.node_id r /\ Raft.all_nodes r' = Raft.all_nodes r
  /\ Raft.current_term r' = Raft.current_term r
  /\ Raft.voted_for r' = Raft.voted_for r /\ Raft.state r' = Raft.state r
  /\ Raft.log r' = Raft.log r.
Proof. intros E. now apply role_is. Qed.

(** One event: the node keeps its name and its cluster, its term does not
    go down, and its log keeps what it had. *)
Lemma step_grows {W} (cb : option (command -> M W unit)) ev s :
  let r := fst s in
  let r' := fst (Raft.step cb ev s) in
  Raft.node_id r' = Raft.node_id r
  /\ Raft.all_nodes r' = Raft.all_nodes r
  /\ (Raft.current_term r <= Raft.current_term r')%Z
  /\ exists l, Raft.log r' = (Raft.log r ++ l)%list.
Proof.
  destruct s as [r w]. destruct ev as [c|lt li pi pt es lc|ct ci li lt|];
    cbn [Raft.step fst snd].
  - pose proof (append_entry_role cb c r w) as R. cbv zeta in R.
    destruct (Raft.is_leader r).
    + destruct (role_is R) as (E1 & E2 & E3 & _ & _ & E6).
      rewrite E1, E2, E3, E6. repeat split; try lia. eexists. reflexivity.
    + rewrite R. repeat split; try lia. exists []. now rewrite app_nil_r.
  - pose proof (append_entries_role cb lt li pi pt es lc r w) as R.
    destruct (Raft.current_term r <? lt)%Z eqn:B.
    + apply Z.ltb_lt in B.
      destruct (role_is R) as (E1 & E2 & E3 & _ & _ & E6).
      rewrite E1, E2, E3, E6. repeat split; try lia.
      exists []. now rewrite app_nil_r.
    + destruct (role_fields R) as (E1 & E2 & E3 & _ & _ & E6).
      rewrite E1, E2, E3, E6. repeat split; try lia.
      exists []. now rewrite app_nil_r.
  - destruct (request_vote_role ct ci li lt r) as (E1 & E2 & E3 & E4 & _).
    rewrite E1, E2, E3, E4. repeat split; try lia.
    exists []. now rewrite app_nil_r.
  - pose proof (election_timeout_role r) as R.
    destruct (Raft.is_leader r).
    + destruct (role_fields R) as (E1 & E2 & E3 & _ & _ & E6).
      rewrite E1, E2, E3, E6. repeat split; try lia.
      exists []. now rewrite app_nil_r.
    + destruct (role_is R) as (E1 & E2 & E3 & _ & _ & E6).
      rewrite E1, E2, E3, E6. repeat split; try lia.
      exists []. now rewrite app_nil_r.
Qed.

(** X20. Nothing that reaches a node lowers its term or rewrites its log:
    after any sequence of calls and timer expiries, with any callback,
    the term is at least what it was and the log is the old log with
    entries added at the end. *)
Theorem term_and_log_only_grow :
  forall (W : Type) (cb : option (command -> M W unit))
         (evs : list Raft.event) (s : Raft.RaftNode * W),
    let r := fst s in
    let r' := fst (Raft.run cb evs s) in
    Raft.node_id r' = Raft.node_id r
    /\ Raft.all_nodes r' = Raft.all_nodes r
    /\ (Raft.current_term r <= Raft.current_term r')%Z
    /\ exists added, Raft.log r' = (Raft.log r ++ added)%list.
Proof.
  intros W cb evs. unfold Raft.run.
  induction evs as [|ev evs IH]; intros s; cbn [fold_left].
  - repeat split; try lia. exists []. now rewrite app_nil_r.
  - destruct (step_grows cb ev s) as (A1 & A2 & A3 & l1 & A4).
    destruct (IH (Raft.step cb ev s)) as (B1 & B2 & B3 & l2 & B4).
    cbv zeta in *. rewrite B1, B2, B4, A1, A2, A4.
    repeat split; try lia. exists (l1 ++ l2)%list. now rewrite app_assoc.
Qed.

Lemma step_stays_off_leader {W} (cb : option (command -> M W unit)) ev s :
  List.length (Raft.all_nodes (fst s)) <> 1%nat ->
  Raft.is_leader (fst s) = false ->
  Raft.is_leader (fst (Raft.step cb ev s)) = false.
Proof.
  destruct s as [r w]. cbn [fst]. intros N L.
  destruct ev as [c|lt li pi pt es lc|ct ci li lt|]; cbn [Raft.step fst snd].
  - pose proof (append_entry_role cb c r w) as R. cbv zeta in R.
    rewrite L in R. now rewrite R.
  - pose proof (append_entries_role cb lt li pi pt es lc r w) as R.
    unfold Raft.is_leader in *.
    destruct (Raft.current_term r <? lt)%Z.
    + destruct (role_is R) as (_ & _ & _ & _ & E5 & _). now rewrite E5.
    + destruct (role_fields R) as (_ & _ & _ & _ & E5 & _). now rewrite E5.
  - destruct (request_vote_role ct ci li lt r) as (_ & _ & _ & _ & E5 & _).
    unfold Raft.is_leader in *. rewrite E5.
    now destruct (Raft.current_term r <? ct)%Z.
  - pose proof (election_timeout_role r) as R. rewrite L in R.
    apply Nat.eqb_neq in N. rewrite N in R.
    destruct (role_is R) as (_ & _ & _ & _ & E5 & _).
    unfold Raft.is_leader. now rewrite E5.
Qed.

(** X21. A node of a cluster of any size other than one never becomes
    leader: elections are not carried to the other nodes, so after any
    sequence of calls and timer expiries the node is follower or
    candidate, and [append_entry] answers [False] and appends nothing. *)
Theorem node_of_larger_cluster_never_leads :
  forall (W : Type) (cb : option (command -> M W unit))
         (evs : list Raft.event) (id : string) (nodes : list string) (w : W)
         (c : command),
    List.length nodes <> 1%nat ->
    let s := Raft.run cb evs (Raft.init id nodes, w) in
    Raft.is_leader (fst s) = false
    /\ Raft.get_leader_id (fst s) = None
    /\ Raft.append_entry cb c s = (Return false, s).
Proof.
  intros W cb evs id nodes w c N.
  assert (G : forall evs s,
             List.length (Raft.all_nodes (fst s)) <> 1%nat ->
             Raft.is_leader (fst s) = false ->
             Raft.is_leader (fst (Raft.run cb evs s)) = false).
  { clear. unfold Raft.run. induction evs as [|ev evs IH]; intros s N L;
      cbn [fold_left]; auto.
    apply IH.
    - destruct (step_grows cb ev s) as (_ & A2 & _). cbv zeta in A2.
      now rewrite A2.
    - now apply step_stays_off_leader. }
  specialize (G evs (Raft.init id nodes, w) N eq_refl).
  cbv zeta. split; [exact G|]. split.
  - unfold Raft.get_leader_id. now rewrite G.
  - unfold Raft.append_entry. now rewrite G.
Qed.

Lemma node_of_larger_cluster_never_leads_witness :
  let s := Raft.run (Some counting)
             [Raft.Election_timeout;
              Raft.Request_vote 1 "node1" 0 0;
              Raft.Election_timeout]
             (Raft.init "node1" ["node1"; "node2"], 0%nat) in
  Raft.is_leader (fst s) = false
  /\ Raft.get_leader_id (fst s) = None
  /\ Raft.append_entry (Some counting) (sql_command "INSERT 1") s
     = (Return false, s).
Proof.
  apply (@node_of_larger_cluster_never_leads nat (Some counting)
           [Raft.Election_timeout; Raft.Request_vote 1 "node1" 0 0;
            Raft.Election_timeout]
           "node1" ["node1"; "node2"] 0%nat (sql_command "INSERT 1")).
  discriminate.
Defined.

(** One event and the vote of the node: while the term stays, a vote
    that was given stays. *)
Lemma step_keeps_vote {W} (cb : option (command -> M W unit)) ev s v :
  Raft.current_term (fst (Raft.step cb ev s)) = Raft.current_term (fst s) ->
  Raft.voted_for (fst s) = Some v ->
  Raft.voted_for (fst (Raft.step cb ev s)) = Some v.
Proof.
  destruct s as [r w]. cbn [fst].
  destruct ev as [c|lt li pi pt es lc|ct ci li lt|]; cbn [Raft.step fst snd].
  - pose proof (append_entry_role cb c r w) as R. cbv zeta in R.
    destruct (Raft.is_leader r).
    + destruct (role_is R) as (_ & _ & _ & E4 & _). now rewrite E4.
    + now rewrite R.
  - pose proof (append_entries_role cb lt li pi pt es lc r w) as R.
    destruct (Raft.current_term r <? lt)%Z eqn:B.
    + apply Z.ltb_lt in B.
      destruct (role_is R) as (_ & _ & E3 & _). rewrite E3. lia.
    + destruct (role_fields R) as (_ & _ & _ & E4 & _). now rewrite E4.
  - destruct (request_vote_role ct ci li lt r) as (_ & _ & _ & _ & _ & _ & K).
    intros Et V. exact (K Et v V).
  - pose proof (election_timeout_role r) as R.
    destruct (Raft.is_leader r).
    + destruct (role_fields R) as (_ & _ & _ & E4 & _). now rewrite E4.
    + destruct (role_is R) as (_ & _ & E3 & _). rewrite E3. lia.
Qed.

(** A vote given by the first of the events is the vote of the node after
    that event, in the term of the vote. *)
Lemma first_vote {W} (cb : option (command -> M W unit)) ev s t c :
  In (t, c) (votes cb [ev] s) ->
  let r' := fst (Raft.step cb ev s) in
  Raft.current_term r' = t /\ Raft.voted_for r' = Some c
  /\ (Raft.current_term (fst s) <= t)%Z
  /\ (Raft.current_term (fst s) = t ->
      forall v, Raft.voted_for (fst s) = Some v -> c = v).
Proof.
  destruct s as [r w].
  destruct ev as [c0|lt li pi pt es lc|ct ci li lt|];
    cbn [votes Raft.step fst snd app]; try contradiction.
  - destruct (request_vote_role ct ci li lt r)
      as (_ & _ & _ & E4 & _ & G & _).
    destruct (fst (Raft.request_vote ct ci li lt r)); [|contradiction].
    intros [E|[]]. inversion E; subst ct ci.
    destruct (G eq_refl) as (G1 & G2 & G3).
    split; [exact G1|]. split; [exact G2|]. split; [lia|].
    intros Et v V. symmetry. now apply G3.
  - pose proof (election_timeout_role r) as R.
    destruct (Raft.is_leader r); [contradiction|].
    intros [E|[]]. inversion E; subst t c.
    destruct (role_is R) as (_ & _ & E3 & E4 & _).
    split; [exact E3|]. split; [exact E4|]. split; [lia|]. intros F. lia.
Qed.

Lemma votes_cons {W} (cb : option (command -> M W unit)) ev evs s :
  votes cb (ev :: evs) s
  = (votes cb [ev] s ++ votes cb evs (Raft.step cb ev s))%list.
Proof. cbn [votes]. now rewrite app_nil_r. Qed.

(** Every later vote is in a term that is not below the present one, and
    in the present term it is the vote that the node has given. *)
Lemma later_votes {W} (cb : option (command -> M W unit)) evs :
  forall s t c,
    In (t, c) (votes cb evs s) ->
    (Raft.current_term (fst s) <= t)%Z
    /\ (Raft.current_term (fst s) = t ->
        forall v, Raft.voted_for (fst s) = Some v -> c = v).
Proof.
  induction evs as [|ev evs IH]; intros s t c I; [contradiction|].
  rewrite votes_cons in I. apply in_app_or in I. destruct I as [I|I].
  - destruct (@first_vote _ cb ev s _ _ I) as (_ & _ & A & B). auto.
  - destruct (IH _ _ _ I) as [A B].
    destruct (step_grows cb ev s) as (_ & _ & G & _). cbv zeta in G.
    split; [lia|]. intros Et v V. apply B; [lia|].
    apply step_keeps_vote; [lia|exact V].
Qed.

(** X22. One vote per term. Among the votes that a node gives over any
    sequence of calls and timer expiries, those it grants to candidates
    and those it gives itself when it starts an election, no two of the
    same term are for different candidates. *)
Theorem one_vote_per_term :
  forall (W : Type) (cb : option (command -> M W unit))
         (evs : list Raft.event) (s : Raft.RaftNode * W)
         (t : Z) (c c' : string),
    In (t, c) (votes cb evs s) ->
    In (t, c') (votes cb evs s) ->
    c = c'.
Proof.
  intros W cb evs. induction evs as [|ev evs IH]; intros s t c c' I I';
    [contradiction|].
  rewrite votes_cons in I, I'.
  apply in_app_or in I. apply in_app_or in I'.
  assert (One : forall a b, In a (votes cb [ev] s) ->
                            In b (votes cb [ev] s) -> a = b).
  { intros a b. destruct s as [r w].
    destruct ev as [c0|lt li pi pt es lc|ct ci li lt|];
      cbn [votes app fst]; try contradiction.
    - destruct (fst (Raft.request_vote ct ci li lt r)); [|contradiction].
      intros [<-|[]] [<-|[]]. reflexivity.
    - destruct (Raft.is_leader r); [contradiction|].
      intros [<-|[]] [<-|[]]. reflexivity. }
  destruct I as [I|I], I' as [I'|I'].
  - specialize (One _ _ I I'). now inversion One.
  - destruct (@first_vote _ cb ev s _ _ I) as (A & B & _).
    destruct (@later_votes _ cb evs _ _ _ I') as (_ & K).
    symmetry. apply K; auto.
  - destruct (@first_vote _ cb ev s _ _ I') as (A & B & _).
    destruct (@later_votes _ cb evs _ _ _ I) as (_ & K).
    apply K; auto.
  - eapply IH; eauto.
Qed.

Lemma one_vote_per_term_witness :
  votes (Some counting)
    [Raft.Request_vote 1 "node2" 0 0; Raft.Request_vote 1 "node3" 5 1;
     Raft.Request_vote 1 "node2" 0 0]
    (Raft.init "node1" ["node1"; "node2"; "node3"], 0%nat)
  = [(1%Z, "node2"); (1%Z, "node2")]
  /\ "node2" = "node2".
Proof.
  split; [reflexivity|].
  apply (@one_vote_per_term nat (Some counting)
           [Raft.Request_vote 1 "node2" 0 0; Raft.Request_vote 1 "node3" 5 1;
            Raft.Request_vote 1 "node2" 0 0]
           (Raft.init "node1" ["node1"; "node2"; "node3"], 0%nat)
           1%Z "node2" "node2").
  - simpl. auto.
  - simpl. auto.
Defined.

(* ================================================================== *)
(** * Further properties of the node coordinator *)
(* ================================================================== *)

Lemma nth_error_last {A} (l : list A) (x : A) :
  nth_error (l ++ [x]) (List.length l) = Some x.
Proof. induction l as [|a l IH]; simpl; auto. Qed.

(** The leader appends, commits and applies at once: on a leader that has
    applied all of its log, [replicate_write] runs the callback on the new
    command, once. *)
Lemma replicate_on_leader {W} (cb : command -> M W unit) c r w :
  Raft.is_leader r = true ->
  Raft.last_applied r = Raft.len r ->
  Raft.commit_index r = Raft.len r ->
  exists r',
    ReplicationManager.replicate_write (Some cb) c (r, w)
    = (match fst (cb c w) with
       | Return _ => Return true
       | Raise e => Raise e
       end, (r', snd (cb c w)))
    /\ Raft.is_leader r' = true
    /\ Raft.last_applied r' = Raft.len r'
    /\ Raft.commit_index r' = Raft.len r'
    /\ Raft.log r'
       = (Raft.log r ++ [{| Raft.term := Raft.current_term r;
                            Raft.index := Raft.len r;
                            Raft.command_of := c |}])%list.
Proof.
  intros L A C.
  unfold ReplicationManager.replicate_write, Raft.append_entry.
  cbn [fst snd]. rewrite L. cbn [negb].
  set (en := {| Raft.term := Raft.current_term r; Raft.index := Raft.len r;
                Raft.command_of := c |}).
  set (r1 := Raft.with_log (Raft.log r ++ [en]) r).
  assert (Len : Raft.len r1 = (Raft.len r + 1)%Z).
  { unfold r1, Raft.len. simpl. rewrite length_app. simpl. lia. }
  unfold bind, Raft._try_commit. cbn [fst snd].
  replace (Raft.is_leader r1) with true by (symmetry; exact L).
  replace (Raft.commit_index r1) with (Raft.len r) by (symmetry; exact C).
  replace (Raft.len r <? Raft.len r1)%Z with true
    by (symmetry; apply Z.ltb_lt; lia).
  cbn [andb]. unfold Raft._apply_committed_entries. cbn [fst snd].
  set (r2 := Raft.with_commit_index (Raft.len r1) r1).
  replace (Z.to_nat (Raft.commit_index r2 - Raft.last_applied r2)) with 1%nat
    by (unfold r2, r1; simpl; rewrite A; fold r1; lia).
  cbn [Raft.apply_loop fst snd].
  replace (Raft.last_applied r2 <? Raft.commit_index r2)%Z with true
    by (symmetry; apply Z.ltb_lt; unfold r2, r1; simpl; rewrite A;
        fold r1; lia).
  set (r3 := Raft.with_last_applied (Raft.last_applied r2 + 1) r2).
  assert (La : Raft.last_applied r3 = Raft.len r3).
  { unfold r3, r2. simpl. fold r1. change (Raft.last_applied r1)
      with (Raft.last_applied r). rewrite A.
    change (Raft.len (Raft.with_last_applied _ _)) with (Raft.len r1). lia. }
  replace (Raft.last_applied r3 <=? Raft.len r3)%Z with true
    by (symmetry; apply Z.leb_le; lia).
  replace (nth_error (Raft.log r3) (Z.to_nat (Raft.last_applied r3 - 1)))
    with (Some en).
  2:{ change (Raft.log r3) with (Raft.log r ++ [en])%list.
      replace (Z.to_nat (Raft.last_applied r3 - 1))
        with (List.length (Raft.log r)).
      - symmetry. apply nth_error_last.
      - rewrite La. change (Raft.len r3) with (Raft.len r1). rewrite Len.
        unfold Raft.len. lia. }
  unfold bind, Raft.on_world, ret. cbn [fst snd Raft.command_of en].
  exists r3. destruct (cb c w) as [[[]|e] w']; cbn [fst snd].
  - repeat split; auto.
  - repeat split; auto.
Qed.

Lemma apply_replicated_sql parse sql q x :
  parse sql = Return q -> sql <> "" ->
  Node._apply_replicated_command parse (sql_command sql) x
  = (Return tt, snd (QueryExecutor.execute q x)).
Proof.
  intros P N. unfold Node._apply_replicated_command, sql_command. simpl.
  destruct sql as [|a sql]; [congruence|]. now rewrite P.
Qed.

(** X23. A write statement on the leader runs twice. On a leader that has
    applied all of its log, [execute_query] with an INSERT, UPDATE,
    DELETE, CREATE TABLE or DROP TABLE statement appends the statement to
    the log, whose apply callback parses and executes it, and then
    executes the plan once more itself: the executor ends in the state
    that two executions of the plan in a row lead to, and the result is
    that of the second execution. *)
Theorem leader_executes_a_write_twice :
  forall (parse : string -> outcome ParsedQuery.t) (sql : string)
         (q : ParsedQuery.t) (n : Node.t),
    parse sql = Return q ->
    sql <> "" ->
    Node.is_write (ParsedQuery.query_type q) = true ->
    Raft.is_leader (Node.raft n) = true ->
    Raft.last_applied (Node.raft n) = Raft.len (Node.raft n) ->
    Raft.commit_index (Node.raft n) = Raft.len (Node.raft n) ->
    let once := snd (QueryExecutor.execute q (Node.query_executor n)) in
    let twice := QueryExecutor.execute q once in
    let (res, n') := Node.execute_query parse sql n in
    Node.query_executor n' = snd twice
    /\ res = match fst twice with
             | Return r => tag_result r (Node.node_id n) true
             | Raise e => error (str_exn e) (Some (Node.node_id n)) None
             end
    /\ map Raft.command_of (Raft.log (Node.raft n'))
       = (map Raft.command_of (Raft.log (Node.raft n))
          ++ [sql_command sql])%list
    /\ Raft.last_applied (Node.raft n') = Raft.len (Node.raft n').
Proof.
  intros parse sql q n P N Wr L A C. cbv zeta.
  unfold Node.execute_query, Node.execute_query_body.
  rewrite P, Wr. unfold ReplicationManager.is_leader at 1. rewrite L.
  cbn [negb].
  destruct (@replicate_on_leader _ (Node._apply_replicated_command parse)
              (sql_command sql) (Node.raft n) (Node.query_executor n) L A C)
    as (r' & E & L' & A' & C' & Lg).
  unfold sql_command in E at 1. rewrite E.
  rewrite (apply_replicated_sql _ (Node.query_executor n) P N).
  cbn [fst snd Node.query_executor Node.raft Node.node_id].
  unfold ReplicationManager.is_leader. 
  destruct (QueryExecutor.execute q
              (snd (QueryExecutor.execute q (Node.query_executor n))))
    as [[r|e] x2]; cbn [fst snd Node.query_executor Node.raft Node.node_id].
  - rewrite L'. repeat split; auto.
    rewrite Lg, map_app. reflexivity.
  - repeat split; auto. rewrite Lg, map_app. reflexivity.
Qed.

Lemma leader_executes_a_write_twice_witness :
  let q := Examples.insert_users Examples.alice in
  let sql := "INSERT INTO users (id, name) VALUES (1, 'Alice')" in
  StorageEngine.scan
    (storage (Node.query_executor
                (snd (Node.execute_query (Examples.parsed_as q) sql
                        Examples.leader)))) "users"
  = [("uuid-0", Examples.alice); ("uuid-1", Examples.alice)]
  /\ let once := snd (QueryExecutor.execute q
                        (Node.query_executor Examples.leader)) in
     let twice := QueryExecutor.execute q once in
     let (res, n') := Node.execute_query (Examples.parsed_as q) sql
                        Examples.leader in
     Node.query_executor n' = snd twice
     /\ res = match fst twice with
              | Return r => tag_result r (Node.node_id Examples.leader) true
              | Raise e =>
                  error (str_exn e) (Some (Node.node_id Examples.leader)) None
              end
     /\ map Raft.command_of (Raft.log (Node.raft n'))
        = (map Raft.command_of (Raft.log (Node.raft Examples.leader))
           ++ [sql_command sql])%list
     /\ Raft.last_applied (Node.raft n') = Raft.len (Node.raft n').
Proof.
  split; [reflexivity|].
  apply (@leader_executes_a_write_twice
           (Examples.parsed_as (Examples.insert_users Examples.alice))
           "INSERT INTO users (id, name) VALUES (1, 'Alice')"
           (Examples.insert_users Examples.alice) Examples.leader);
    try reflexivity.
  discriminate.
Defined.

(* ================================================================== *)
(** * Further properties of the SQL parser *)
(* ================================================================== *)

Lemma str_all_app p a b :
  str_all p (a ++ b) = str_all p a && str_all p b.
Proof.
  induction a as [|c a IH]; simpl; auto. rewrite IH. apply andb_assoc.
Qed.

Lemma str_all_reverse p s : str_all p (Str.reverse s) = str_all p s.
Proof.
  induction s as [|c s IH]; auto.
  rewrite reverse_cons, str_all_app, IH. simpl.
  rewrite andb_true_r. apply andb_comm.
Qed.

Lemma lstrip_by_none p s :
  str_all (fun c => negb (p c)) s = true -> Str.lstrip_by p s = s.
Proof.
  destruct s as [|c s]; simpl; auto. intros H.
  apply andb_true_iff in H. destruct H as [H _].
  apply negb_true_iff in H. now rewrite H.
Qed.

(** Stripping leaves a text alone when it holds no character of the
    class. *)
Lemma strip_by_none p s :
  str_all (fun c => negb (p c)) s = true -> Str.strip_by p s = s.
Proof.
  intros H. unfold Str.strip_by. rewrite (lstrip_by_none _ _ H).
  rewrite lstrip_by_none by (now rewrite str_all_reverse).
  apply reverse_involutive.
Qed.

Lemma str_all_impl (p q : ascii -> bool) s :
  (forall c, p c = true -> q c = true) ->
  str_all p s = true -> str_all q s = true.
Proof.
  intros I. induction s as [|c s IH]; simpl; auto. intros H.
  apply andb_true_iff in H. destruct H as [H1 H2].
  now rewrite (I _ H1), IH.
Qed.

(** The decimal digits of a number, as [str] writes them. *)
Lemma decimal_digits d :
  str_all Str.is_digit (NilEmpty.string_of_uint d) = true.
Proof. induction d; simpl; auto. Qed.

Lemma digit_run_digits s :
  str_all Str.is_digit s = true ->
  forall prev, (s <> "" \/ prev = true) ->
               SQLParser.digit_run s prev = true.
Proof.
  induction s as [|c s IH]; simpl; intros H prev N.
  - destruct N; congruence.
  - apply andb_true_iff in H. destruct H as [H1 H2]. rewrite H1.
    apply IH; auto.
Qed.

Lemma digits_value_acc d : forall acc,
  SQLParser.digits_value (NilEmpty.string_of_uint d) (Z.pos acc)
  = Z.pos (Pos.of_uint_acc d acc).
Proof.
  induction d; intros acc;
    cbn [NilEmpty.string_of_uint SQLParser.digits_value Pos.of_uint_acc];
    [reflexivity|..];
    match goal with
    | |- context [Str.is_digit ?c] =>
        change (Str.is_digit c) with true; cbv iota;
        let v := eval vm_compute in (Z.of_N (Str.code c - 48)) in
        change (Z.of_N (Str.code c - 48)) with v
    end;
    rewrite <- IHd; f_equal; lia.
Qed.

Lemma digits_value_uint d :
  SQLParser.digits_value (NilEmpty.string_of_uint d) 0 = Z.of_uint d.
Proof.
  unfold Z.of_uint.
  induction d;
    cbn [NilEmpty.string_of_uint SQLParser.digits_value Pos.of_uint Z.of_N];
    [reflexivity|..];
    match goal with
    | |- context [Str.is_digit ?c] =>
        change (Str.is_digit c) with true; cbv iota;
        let v := eval vm_compute in (Z.of_N (Str.code c - 48)) in
        change (Z.of_N (Str.code c - 48)) with v
    end;
    cbn [Z.mul Z.add]; try exact IHd; apply digits_value_acc.
Qed.

Lemma string_of_uint_nonempty d :
  d <> Decimal.Nil -> NilEmpty.string_of_uint d <> "".
Proof. destruct d; simpl; congruence. Qed.

Lemma not_space_digit c : Str.is_digit c = true -> Str.is_space c = false.
Proof.
  unfold Str.is_digit, Str.is_space. intros H.
  apply andb_true_iff in H. destruct H as [H1 H2].
  apply N.leb_le in H1, H2.
  destruct (9 <=? Str.code c)%N eqn:A, (Str.code c <=? 13)%N eqn:B,
    (28 <=? Str.code c)%N eqn:C, (Str.code c <=? 32)%N eqn:D; simpl; auto;
    try apply N.leb_le in B; try apply N.leb_le in D; lia.
Qed.

Lemma split_sign_digits c s :
  Str.is_digit c = true ->
  SQLParser.split_sign (String c s) = (false, String c s).
Proof.
  intros H. unfold SQLParser.split_sign.
  destruct c as [[] [] [] [] [] [] [] []]; try reflexivity; discriminate.
Qed.

Lemma not_c_space_digit c :
  Str.is_digit c = true -> Str.is_c_space c = false.
Proof.
  unfold Str.is_digit, Str.is_c_space. intros H.
  apply andb_true_iff in H. destruct H as [H1 H2].
  apply N.leb_le in H1, H2.
  destruct (9 <=? Str.code c)%N eqn:A, (Str.code c <=? 13)%N eqn:B,
    (Str.code c =? 32)%N eqn:C; simpl; auto;
    try apply N.leb_le in B; try apply N.eqb_eq in C; lia.
Qed.

Lemma count_digits_all s :
  str_all Str.is_digit s = true -> SQLParser.count_digits s = String.length s.
Proof.
  induction s as [|c s IH]; simpl; auto. intros H.
  apply andb_true_iff in H. destruct H as [H1 H2]. now rewrite H1, IH.
Qed.

(** The value of a run of digits is at least what stood before it, moved
    up by the length of the run. *)
Lemma digits_value_lower s : forall acc,
  str_all Str.is_digit s = true ->
  (0 <= acc)%Z ->
  (acc * 10 ^ Z.of_nat (String.length s) <= SQLParser.digits_value s acc)%Z.
Proof.
  induction s as [|c s IH]; intros acc D A.
  - cbn [String.length SQLParser.digits_value Z.of_nat]. rewrite Z.pow_0_r.
    lia.
  - cbn [String.length SQLParser.digits_value].
    cbn [str_all] in D. apply andb_true_iff in D. destruct D as [Dc Ds].
    rewrite Dc.
    rewrite Nat2Z.inj_succ, Z.pow_succ_r by lia.
    set (P := (10 ^ Z.of_nat (String.length s))%Z) in *.
    assert (HP : (0 < P)%Z) by (apply Z.pow_pos_nonneg; lia).
    set (v := Z.of_N (Str.code c - 48)).
    assert (V : (0 <= v)%Z) by (unfold v; lia).
    assert (I : ((10 * acc + v) * P
                 <= SQLParser.digits_value s (10 * acc + v))%Z)
      by (apply IH; [exact Ds|lia]).
    nia.
Qed.

(** [str] writes a positive number without a leading zero. *)
Lemma to_uint_leading p :
  exists c s, NilEmpty.string_of_uint (Pos.to_uint p) = String c s
              /\ Str.is_digit c = true
              /\ (1 <= Z.of_N (Str.code c - 48))%Z.
Proof.
  assert (U : Decimal.unorm (Pos.to_uint p) = Pos.to_uint p).
  { rewrite <- (DecimalPos.Unsigned.to_of (Pos.to_uint p)).
    now rewrite DecimalPos.Unsigned.of_to. }
  pose proof (DecimalPos.Unsigned.to_uint_nonzero p) as Z0.
  pose proof (DecimalPos.Unsigned.to_uint_nonnil p) as N0.
  destruct (Pos.to_uint p) as [|d|d|d|d|d|d|d|d|d|d] eqn:Q;
    try (now (do 2 eexists; split; [reflexivity|]; split;
              [reflexivity|vm_compute; discriminate])).
  - congruence.
  - exfalso. rewrite DecimalFacts.unorm_D0 in U.
    assert (Nn : d <> Decimal.Nil) by (intros ->; apply Z0; reflexivity).
    pose proof (@DecimalFacts.nb_digits_unorm d Nn) as L.
    rewrite U in L. simpl in L. lia.
Qed.

(** A positive number below [10 ^ k] is written with at most [k]
    digits. *)
Lemma digits_of_bounded p (k : nat) :
  (Z.pos p < 10 ^ Z.of_nat k)%Z ->
  (SQLParser.count_digits (NilEmpty.string_of_uint (Pos.to_uint p)) <= k)%nat.
Proof.
  intros B.
  pose proof (decimal_digits (Pos.to_uint p)) as D.
  pose proof (digits_value_uint (Pos.to_uint p)) as V.
  assert (E : Z.of_uint (Pos.to_uint p) = Z.pos p).
  { unfold Z.of_uint. now rewrite DecimalPos.Unsigned.of_to. }
  rewrite E in V. rewrite (count_digits_all _ D).
  destruct (to_uint_leading p) as (c & s & Q & Dc & L).
  rewrite Q in *. cbn [String.length].
  cbn [SQLParser.digits_value] in V. rewrite Dc in V.
  cbn [str_all] in D. apply andb_true_iff in D. destruct D as [_ Ds].
  assert (A : (0 <= 10 * 0 + Z.of_N (Str.code c - 48))%Z) by lia.
  pose proof (@digits_value_lower s _ Ds A) as Lw. rewrite V in Lw.
  set (P := (10 ^ Z.of_nat (String.length s))%Z) in *.
  assert (HP : (0 < P)%Z) by (apply Z.pow_pos_nonneg; lia).
  assert (Lt : (P < 10 ^ Z.of_nat k)%Z) by nia.
  unfold P in Lt. apply Z.pow_lt_mono_r_iff in Lt; lia.
Qed.

(** The text that [str] gives for the integer [n], read by [int]. *)
Lemma py_int_of_str n :
  (Z.abs n < 10 ^ 4300)%Z -> SQLParser.py_int (str_int n) = Some n.
Proof.
  intros Bn. unfold str_int.
  assert (U : forall d, d <> Decimal.Nil ->
            (SQLParser.count_digits (NilEmpty.string_of_uint d)
             <= SQLParser.max_str_digits)%nat ->
            SQLParser.py_int (NilEmpty.string_of_uint d) = Some (Z.of_uint d)
            /\ SQLParser.py_int
                 (String "-" (NilEmpty.string_of_uint d))
               = Some (- Z.of_uint d)%Z).
  { intros d N C. apply Nat.leb_le in C.
    pose proof (decimal_digits d) as D.
    pose proof (string_of_uint_nonempty N) as E.
    assert (Sp : str_all (fun c => negb (Str.is_c_space c))
                   (NilEmpty.string_of_uint d) = true).
    { apply (str_all_impl Str.is_digit); auto.
      intros c H. now rewrite (not_c_space_digit _ H). }
    unfold SQLParser.py_int. split.
    - rewrite (strip_by_none _ _ Sp).
      destruct (NilEmpty.string_of_uint d) as [|c s] eqn:Q; [congruence|].
      rewrite split_sign_digits
        by (simpl in D; apply andb_true_iff in D; tauto).
      rewrite <- Q in *. rewrite digit_run_digits, C; auto.
      now rewrite digits_value_uint.
    - rewrite strip_by_none by (simpl; exact Sp).
      cbn [SQLParser.split_sign].
      rewrite digit_run_digits, C; auto. now rewrite digits_value_uint. }
  assert (Cp : forall p, (Z.pos p < 10 ^ 4300)%Z ->
             (SQLParser.count_digits
                (NilEmpty.string_of_uint (Pos.to_uint p))
              <= SQLParser.max_str_digits)%nat).
  { intros p B. apply digits_of_bounded.
    unfold SQLParser.max_str_digits.
    replace (Z.of_nat 4300) with 4300%Z by (vm_compute; reflexivity).
    exact B. }
  rewrite <- (DecimalZ.of_to n) at 2.
  destruct n as [|p|p]; cbn [Z.to_int NilZero.string_of_int Z.of_int].
  - reflexivity.
  - pose proof (DecimalPos.Unsigned.to_uint_nonnil p) as N.
    specialize (Cp p Bn).
    unfold NilZero.string_of_uint.
    destruct (Pos.to_uint p) eqn:Q; try congruence;
      rewrite <- Q in *; apply U; congruence.
  - pose proof (DecimalPos.Unsigned.to_uint_nonnil p) as N.
    specialize (Cp p Bn).
    unfold NilZero.string_of_uint.
    destruct (Pos.to_uint p) eqn:Q; try congruence;
      rewrite <- Q in *; apply U; congruence.
Qed.

(** X24. An integer survives the way from the client to the plan: the
    text that [str] writes for an integer, which is what the client puts
    into the statement, is converted back to that integer and not to a
    float or a string; integers of more than 4300 digits, which [str]
    and [int] refuse, are left aside. *)
Theorem integer_text_converts_back :
  forall n : Z,
    (Z.abs n < 10 ^ 4300)%Z ->
    SQLParser._convert_value (str_int n) = VInt n
    /\ SQLParser.value_of_token (str_int n) = VInt n.
Proof.
  intros n Bn. unfold SQLParser._convert_value.
  rewrite (@py_int_of_str n Bn). split; [reflexivity|].
  unfold SQLParser.value_of_token, SQLParser._convert_value.
  assert (E : Str.strip_chars SQLParser.quote_chars (Str.strip (str_int n))
              = str_int n).
  { assert (A : str_all (fun c => Str.is_digit c || Ascii.eqb c "-")
                  (str_int n) = true).
    { unfold str_int. destruct n as [|p|p]; simpl; auto.
      - unfold NilZero.string_of_uint.
        destruct (Pos.to_uint p) eqn:Q; auto; rewrite <- Q;
          apply (str_all_impl Str.is_digit); try apply decimal_digits;
          intros c H; now rewrite H.
      - unfold NilZero.string_of_uint.
        destruct (Pos.to_uint p) eqn:Q; auto; rewrite <- Q;
          apply (str_all_impl Str.is_digit); try apply decimal_digits;
          intros c H; now rewrite H. }
    unfold Str.strip, Str.strip_chars.
    rewrite (strip_by_none Str.is_space).
    - apply strip_by_none. revert A. apply str_all_impl.
      intros c H. apply orb_true_iff in H. destruct H as [H|H].
      + destruct c as [[] [] [] [] [] [] [] []]; try reflexivity;
          discriminate.
      + apply Ascii.eqb_eq in H. subst c. reflexivity.
    - revert A. apply str_all_impl.
      intros c H. apply orb_true_iff in H. destruct H as [H|H].
      + now rewrite (not_space_digit _ H).
      + apply Ascii.eqb_eq in H. subst c. reflexivity. }
  rewrite E, (@py_int_of_str n Bn). reflexivity.
Qed.

Lemma integer_text_converts_back_witness :
  str_int (-42) = "-42"
  /\ SQLParser._convert_value (str_int (-42)) = VInt (-42)
  /\ SQLParser.value_of_token (str_int (-42)) = VInt (-42).
Proof.
  split; [reflexivity|].
  apply (integer_text_converts_back (-42)). 
  apply Z.ltb_lt. vm_compute. reflexivity.
Defined.

(** ** The SET clause of the client *)

Lemma lstrip_by_all p a t :
  str_all p a = true -> Str.lstrip_by p (a ++ t) = Str.lstrip_by p t.
Proof.
  induction a as [|c a IH]; simpl; auto. intros H.
  apply andb_true_iff in H. destruct H as [H1 H2]. rewrite H1. auto.
Qed.

Lemma lstrip_by_whole p a :
  str_all p a = true -> Str.lstrip_by p a = "".
Proof.
  intros H. rewrite <- (append_empty_r a) at 1.
  now rewrite lstrip_by_all.
Qed.

(** Stripping takes the padding off a text that holds no character of the
    class. *)
Lemma strip_by_padded p a s b :
  str_all p a = true -> str_all p b = true ->
  str_all (fun c => negb (p c)) s = true ->
  Str.strip_by p (a ++ s ++ b) = s.
Proof.
  intros A B S. unfold Str.strip_by. rewrite lstrip_by_all by exact A.
  destruct s as [|c s].
  - simpl. rewrite (@lstrip_by_whole p b B). reflexivity.
  - assert (L : Str.lstrip_by p (String c s ++ b) = String c s ++ b).
    { simpl in S. apply andb_true_iff in S. destruct S as [S1 _].
      apply negb_true_iff in S1. simpl. now rewrite S1. }
    rewrite L, reverse_app, lstrip_by_all
      by (now rewrite str_all_reverse).
    rewrite lstrip_by_none by (now rewrite str_all_reverse).
    apply reverse_involutive.
Qed.

(** ** C5: a quoted token *)

Lemma digit_not_quote c :
  Str.is_digit c = true -> Str.contains SQLParser.quote_chars c = false.
Proof.
  intros H. destruct c as [[] [] [] [] [] [] [] []]; try reflexivity;
    discriminate.
Qed.

(** [int] reads a run of at most 4300 digits as the number it writes. *)
Lemma py_int_digits d :
  d <> "" -> str_all Str.is_digit d = true ->
  (String.length d <= 4300)%nat ->
  SQLParser.py_int d = Some (SQLParser.digits_value d 0).
Proof.
  intros N D L. unfold SQLParser.py_int.
  rewrite strip_by_none.
  - destruct d as [|c t] eqn:Q; [congruence|].
    rewrite split_sign_digits
      by (simpl in D; apply andb_true_iff in D; tauto).
    rewrite <- Q in *. rewrite digit_run_digits by auto.
    rewrite (count_digits_all _ D).
    unfold SQLParser.max_str_digits. apply Nat.leb_le in L. now rewrite L.
  - revert D. apply str_all_impl. intros c H.
    now rewrite (not_c_space_digit _ H).
Qed.

(** C5. The specification keeps a quoted token as a string, and the
    client of the repository puts exactly the strings between quotes. The
    parser strips the quotes and converts what is left all the same: a
    quoted run of digits becomes the integer that the digits write, in a
    VALUES list, in a SET assignment and in a WHERE predicate, so the
    string ['01234'] that [Client.insert] sends arrives as the integer
    1234. *)
Theorem quoted_digits_become_an_integer :
  (forall d : string,
      d <> "" ->
      str_all Str.is_digit d = true ->
      (String.length d <= 4300)%nat ->
      SQLParser.value_of_token ("'" ++ d ++ "'")
      = VInt (SQLParser.digits_value d 0)
      /\ SQLParser.value_of_token ("'" ++ d ++ "'") <> VStr d)
  /\ client_insert "users" [("zip", "01234")]
     = "INSERT INTO users (zip) VALUES ('01234')"
  /\ SQLParser._parse_insert_values
       (client_insert "users" [("zip", "01234")])
     = [("zip", VInt 1234)]
  /\ SQLParser._parse_set_clause "zip = '01234'" = [("zip", VInt 1234)]
  /\ SQLParser._parse_where "WHERE zip = '01234'" = [("zip", VInt 1234)].
Proof.
  split; [|repeat split].
  intros d N D L.
  assert (E : SQLParser.value_of_token ("'" ++ d ++ "'")
              = VInt (SQLParser.digits_value d 0)).
  { unfold SQLParser.value_of_token, Str.strip, Str.strip_chars.
    rewrite (strip_by_none Str.is_space).
    - change ("'" ++ d ++ "'") with ("'" ++ d ++ "'")%string.
      rewrite strip_by_padded; [|reflexivity|reflexivity|].
      + unfold SQLParser._convert_value. now rewrite py_int_digits.
      + revert D. apply str_all_impl. intros c H.
        now rewrite (digit_not_quote _ H).
    - rewrite !str_all_app. cbn [str_all]. rewrite !andb_true_r.
      change (negb (Str.is_space "'")) with true. cbn [andb].
      revert D. apply str_all_impl. intros c H.
      now rewrite (not_space_digit _ H). }
  split; [exact E|]. rewrite E. discriminate.
Qed.

Lemma split_plain sep s :
  str_all (fun c => negb (Ascii.eqb c sep)) s = true ->
  Str.split sep s = [s].
Proof.
  induction s as [|c s IH]; simpl; auto. intros H.
  apply andb_true_iff in H. destruct H as [H1 H2].
  apply negb_true_iff in H1. rewrite H1, (IH H2). reflexivity.
Qed.

Lemma split_at_sep sep a b :
  str_all (fun c => negb (Ascii.eqb c sep)) a = true ->
  Str.split sep (a ++ String sep b) = a :: Str.split sep b.
Proof.
  induction a as [|c a IH]; simpl.
  - intros _. now rewrite Ascii.eqb_refl.
  - intros H. apply andb_true_iff in H. destruct H as [H1 H2].
    apply negb_true_iff in H1. rewrite H1, (IH H2). reflexivity.
Qed.

Lemma split_once_at sep a b :
  str_all (fun c => negb (Ascii.eqb c sep)) a = true ->
  Str.split_once sep (a ++ String sep b) = Some (a, b).
Proof.
  induction a as [|c a IH]; simpl.
  - intros _. now rewrite Ascii.eqb_refl.
  - intros H. apply andb_true_iff in H. destruct H as [H1 H2].
    apply negb_true_iff in H1. rewrite H1, (IH H2). reflexivity.
Qed.

Lemma str_int_chars n :
  str_all (fun c => Str.is_digit c || Ascii.eqb c "-") (str_int n) = true.
Proof.
  unfold str_int. destruct n as [|p|p]; simpl; auto;
    unfold NilZero.string_of_uint;
    destruct (Pos.to_uint p) eqn:Q; auto; rewrite <- Q;
    apply (str_all_impl Str.is_digit); try apply decimal_digits;
    intros c H; now rewrite H.
Qed.

Lemma digit_or_minus c :
  Str.is_digit c || Ascii.eqb c "-" = true ->
  Str.is_space c = false /\ Ascii.eqb c "," = false
  /\ Ascii.eqb c "=" = false
  /\ Str.contains SQLParser.quote_chars c = false.
Proof.
  intros H. apply orb_true_iff in H. destruct H as [H|H].
  - split; [now apply not_space_digit|].
    destruct c as [[] [] [] [] [] [] [] []]; try discriminate;
      repeat split.
  - apply Ascii.eqb_eq in H. subst c. repeat split.
Qed.

(** The value of an integer written after a blank. *)
Lemma value_of_padded_integer n :
  (Z.abs n < 10 ^ 4300)%Z ->
  SQLParser.value_of_token (" " ++ str_int n) = VInt n.
Proof.
  intros Bn. unfold SQLParser.value_of_token, Str.strip, Str.strip_chars.
  pose proof (str_int_chars n) as A.
  replace (" " ++ str_int n) with (" " ++ str_int n ++ "")
    by (now rewrite append_empty_r).
  rewrite strip_by_padded; auto.
  - rewrite strip_by_none.
    + unfold SQLParser._convert_value. now rewrite (@py_int_of_str n Bn).
    + revert A. apply str_all_impl. intros c H.
      destruct (@digit_or_minus c H) as (_ & _ & _ & Q). now rewrite Q.
  - revert A. apply str_all_impl. intros c H.
    destruct (@digit_or_minus c H) as (Q & _). now rewrite Q.
Qed.

Lemma plain_name_chars col :
  plain_name col = true ->
  str_all (fun c => negb (Str.is_space c)) col = true
  /\ str_all (fun c => negb (Ascii.eqb c ",")) col = true
  /\ str_all (fun c => negb (Ascii.eqb c "=")) col = true.
Proof.
  unfold plain_name. intros H. apply andb_true_iff in H.
  destruct H as [_ H].
  repeat split; revert H; apply str_all_impl; intros c H;
    apply negb_true_iff in H; apply orb_false_iff in H;
    destruct H as [H H3]; apply orb_false_iff in H; destruct H as [H1 H2];
    now rewrite ?H1, ?H2, ?H3.
Qed.

(** One assignment of the clause, with the blank that [', '.join] leaves
    before all but the first. *)
Lemma set_piece (pre col : string) (n : Z) (values : row) :
  (Z.abs n < 10 ^ 4300)%Z ->
  plain_name col = true ->
  pre = "" \/ pre = " " ->
  match Str.split_once "=" (pre ++ col ++ " = " ++ str_int n) with
  | Some (c, v) =>
      dict_set String.eqb values (Str.strip c) (SQLParser.value_of_token v)
  | None => values
  end
  = dict_set String.eqb values col (VInt n).
Proof.
  intros Bn P Pre. destruct (plain_name_chars _ P) as (Sp & _ & Eq).
  replace (pre ++ col ++ " = " ++ str_int n)
    with ((pre ++ col ++ " ") ++ String "=" (" " ++ str_int n))
    by (rewrite !append_assoc; reflexivity).
  rewrite split_once_at.
  - rewrite (@value_of_padded_integer n Bn). f_equal.
    unfold Str.strip. apply strip_by_padded; auto.
    destruct Pre; subst; reflexivity.
  - rewrite !str_all_app, Eq. destruct Pre; subst; reflexivity.
Qed.

Lemma piece_has_no_comma (pre col : string) (n : Z) :
  plain_name col = true ->
  pre = "" \/ pre = " " ->
  str_all (fun c => negb (Ascii.eqb c ","))
    (pre ++ col ++ " = " ++ str_int n) = true.
Proof.
  intros P Pre. destruct (plain_name_chars _ P) as (_ & Cm & _).
  rewrite !str_all_app, Cm.
  assert (A : str_all (fun c => negb (Ascii.eqb c ",")) (str_int n) = true).
  { generalize (str_int_chars n). apply str_all_impl. intros c H.
    destruct (@digit_or_minus c H) as (_ & Q & _). now rewrite Q. }
  simpl. rewrite A. destruct Pre; subst; reflexivity.
Qed.

(** The pieces into which [split(',')] cuts the clause. *)
Lemma split_client_clause (values : list (string * Z)) :
  forallb (fun cv => plain_name (fst cv)) values = true ->
  forall pre cv,
    plain_name (fst cv) = true ->
    pre = "" \/ pre = " " ->
    Str.split ","
      (pre ++ join ", "
                (map (fun cv => fst cv ++ " = " ++ str_int (snd cv))
                   (cv :: values)))
    = (pre ++ fst cv ++ " = " ++ str_int (snd cv))
      :: map (fun cv => " " ++ fst cv ++ " = " ++ str_int (snd cv)) values.
Proof.
  induction values as [|cv' values IH]; intros F pre cv P Pre.
  - simpl. apply split_plain. now apply piece_has_no_comma.
  - simpl in F. apply andb_true_iff in F. destruct F as [F1 F2].
    change (join ", " (map _ (cv :: cv' :: values)))
      with ((fst cv ++ " = " ++ str_int (snd cv))
            ++ ", " ++ join ", "
                 (map (fun cv => fst cv ++ " = " ++ str_int (snd cv))
                    (cv' :: values))).
    replace (pre ++ (fst cv ++ " = " ++ str_int (snd cv))
             ++ ", " ++ join ", "
                  (map (fun cv => fst cv ++ " = " ++ str_int (snd cv))
                     (cv' :: values)))
      with ((pre ++ fst cv ++ " = " ++ str_int (snd cv))
            ++ String ","
                 (" " ++ join ", "
                    (map (fun cv => fst cv ++ " = " ++ str_int (snd cv))
                       (cv' :: values))))
      by (rewrite !append_assoc; reflexivity).
    rewrite split_at_sep by (now apply piece_has_no_comma).
    rewrite (IH F2 " " cv' F1) by auto. reflexivity.
Qed.

Lemma split_client_clause_first (values : list (string * Z)) cv :
  forallb (fun cv => plain_name (fst cv)) (cv :: values) = true ->
  Str.split "," (client_set_clause (cv :: values))
  = (fst cv ++ " = " ++ str_int (snd cv))
    :: map (fun cv => " " ++ fst cv ++ " = " ++ str_int (snd cv)) values.
Proof.
  intros P. simpl in P. apply andb_true_iff in P. destruct P as [P1 P2].
  exact (@split_client_clause values P2 "" cv P1 (or_introl eq_refl)).
Qed.

Lemma set_piece_first (col : string) (n : Z) (values : row) :
  (Z.abs n < 10 ^ 4300)%Z ->
  plain_name col = true ->
  match Str.split_once "=" (col ++ " = " ++ str_int n) with
  | Some (c, v) =>
      dict_set String.eqb values (Str.strip c) (SQLParser.value_of_token v)
  | None => values
  end
  = dict_set String.eqb values col (VInt n).
Proof.
  intros Bn P. exact (@set_piece "" col n values Bn P (or_introl eq_refl)).
Qed.

Lemma dict_set_fresh {V} (d : dict string V) k v :
  ~ In k (map fst d) -> dict_set String.eqb d k v = (d ++ [(k, v)])%list.
Proof.
  induction d as [|[k0 v0] d IH]; simpl; auto. intros N.
  destruct (String.eqb k k0) eqn:E.
  - apply String.eqb_eq in E. subst. tauto.
  - rewrite IH; auto.
Qed.

Lemma set_all_fresh (l : list (string * Z)) : forall acc : row,
  NoDup (map fst acc ++ map fst l) ->
  fold_left (fun acc cv => dict_set String.eqb acc (fst cv) (VInt (snd cv)))
    l acc
  = (acc ++ map (fun cv => (fst cv, VInt (snd cv))) l)%list.
Proof.
  induction l as [|[c n] l IH]; intros acc N; simpl.
  - now rewrite app_nil_r.
  - rewrite dict_set_fresh.
    + rewrite IH.
      * now rewrite <- app_assoc.
      * rewrite map_app. simpl. rewrite <- app_assoc. exact N.
    + apply NoDup_remove_2 in N. intros I. apply N.
      apply in_or_app. now left.
Qed.

(** X25. The SET clause that the client writes is read back as written.
    For integer values of at most 4300 digits under distinct column names
    of ASCII text that hold no blank, comma or equals sign,
    [_parse_set_clause] gives, from the text [col1 = n1, col2 = n2, ...],
    the assignments of the client in their order, each value an
    integer. *)
Theorem client_set_clause_parses_back :
  forall values : list (string * Z),
    forallb (fun cv => plain_name (fst cv)) values = true ->
    NoDup (map fst values) ->
    Forall (fun cv => (Z.abs (snd cv) < 10 ^ 4300)%Z) values ->
    SQLParser._parse_set_clause (client_set_clause values)
    = map (fun cv => (fst cv, VInt (snd cv))) values.
Proof.
  intros values P N B. unfold SQLParser._parse_set_clause.
  destruct values as [|cv values]; [reflexivity|].
  rewrite (split_client_clause_first _ _ P).
  simpl in P. apply andb_true_iff in P. destruct P as [P1 P2].
  inversion B as [|? ? B1 B2]; subst.
  cbn [fold_left].
  rewrite (@set_piece_first (fst cv) (snd cv) [] B1 P1).
  cbn [dict_set].
  assert (G : forall l (acc : row),
    forallb (fun cv => plain_name (fst cv)) l = true ->
    Forall (fun cv => (Z.abs (snd cv) < 10 ^ 4300)%Z) l ->
    fold_left (fun values assignment =>
      match Str.split_once "=" assignment with
      | Some (col, val) =>
          dict_set String.eqb values (Str.strip col)
            (SQLParser.value_of_token val)
      | None => values
      end)
      (map (fun cv => " " ++ fst cv ++ " = " ++ str_int (snd cv)) l) acc
    = fold_left (fun acc cv =>
        dict_set String.eqb acc (fst cv) (VInt (snd cv))) l acc).
  { clear. induction l as [|cv l IH]; intros acc P B; simpl; auto.
    simpl in P. apply andb_true_iff in P. destruct P as [P1 P2].
    inversion B as [|? ? B1 B2]; subst.
    rewrite <- (IH _ P2 B2). f_equal.
    apply (@set_piece " " (fst cv) (snd cv) acc B1 P1). now right. }
  rewrite (G values _ P2 B2).
  rewrite set_all_fresh by exact N. destruct cv. reflexivity.
Qed.

Lemma client_set_clause_parses_back_witness :
  client_set_clause [("age", 31%Z); ("score", (-5)%Z)]
  = "age = 31, score = -5"
  /\ SQLParser._parse_set_clause
       (client_set_clause [("age", 31%Z); ("score", (-5)%Z)])
     = [("age", VInt 31); ("score", VInt (-5))].
Proof.
  split; [reflexivity|].
  apply (@client_set_clause_parses_back [("age", 31%Z); ("score", (-5)%Z)]).
  - reflexivity.
  - repeat constructor; simpl; intuition discriminate.
  - repeat constructor; apply Z.ltb_lt; vm_compute; reflexivity.
Defined.

(* ================================================================== *)
(** * Properties of the shard ring *)
(* ================================================================== *)

Section RingFacts.
Variable hash_key : string -> Z.

(** The search among virtual nodes returns an index, and on a list in
    order it returns the place behind the entries that are not greater. *)
Lemma bisect_loop_vnode x a : forall fuel lo hi,
  (lo <= hi)%nat -> (hi <= List.length a)%nat -> (hi - lo < fuel)%nat ->
  exists r,
    ShardRing.bisect_loop fuel (ShardRing.Vnode x) a lo hi = Return r
    /\ (lo <= r <= hi)%nat
    /\ (ring_sorted a ->
        (forall j y, (j < lo)%nat -> nth_error a j = Some y ->
           (ShardRing.hash_value y <= ShardRing.hash_value x)%Z) ->
        (forall j y, (hi <= j)%nat -> nth_error a j = Some y ->
           (ShardRing.hash_value x < ShardRing.hash_value y)%Z) ->
        (forall j y, (j < r)%nat -> nth_error a j = Some y ->
           (ShardRing.hash_value y <= ShardRing.hash_value x)%Z)
        /\ (forall j y, (r <= j)%nat -> nth_error a j = Some y ->
           (ShardRing.hash_value x < ShardRing.hash_value y)%Z)).
Proof.
  induction fuel as [|fuel IH]; intros lo hi L H F; [lia|].
  cbn [ShardRing.bisect_loop].
  destruct (lo <? hi)%nat eqn:E.
  2:{ apply Nat.ltb_ge in E. exists lo. split; [reflexivity|].
      split; [lia|]. intros _ P Q. split; [exact P|].
      intros j y J. apply Q. lia. }
  apply Nat.ltb_lt in E. cbv zeta.
  assert (M : (lo <= (lo + hi) / 2 < hi)%nat).
  { pose proof (Nat.div_mod_eq (lo + hi) 2) as D.
    pose proof (Nat.mod_upper_bound (lo + hi) 2) as U. lia. }
  set (mid := ((lo + hi) / 2)%nat) in *.
  destruct (nth_error a mid) as [y|] eqn:N.
  2:{ apply nth_error_None in N. lia. }
  unfold ShardRing.py_less. cbn [ShardRing.defines_lt ShardRing.hash_of].
  assert (Srt : ring_sorted a -> forall i j yi yj, (i <= j)%nat ->
            nth_error a i = Some yi -> nth_error a j = Some yj ->
            (ShardRing.hash_value yi <= ShardRing.hash_value yj)%Z).
  { clear. unfold ring_sorted. intros S. induction S as [|z l S IHS F].
    - intros i j yi yj _ Hi. now destruct i.
    - intros i j yi yj Le Hi Hj. destruct i as [|i], j as [|j]; simpl in *.
      + injection Hi as <-. injection Hj as <-. lia.
      + injection Hi as <-. rewrite Forall_forall in F. apply F.
        eapply nth_error_In; eauto.
      + lia.
      + eapply IHS; [|eauto|eauto]. lia. }
  destruct (ShardRing.hash_value x <? ShardRing.hash_value y)%Z eqn:C.
  - apply Z.ltb_lt in C.
    destruct (IH lo mid) as (r & R & B & I); [lia|lia|lia|].
    exists r. split; [exact R|]. split; [lia|].
    intros S P Q. apply I; auto.
    intros j z J Z. pose proof (Srt S mid j y z J N Z). lia.
  - apply Z.ltb_ge in C.
    destruct (IH (S mid) hi) as (r & R & B & I); [lia|lia|lia|].
    exists r. split; [exact R|]. split; [lia|].
    intros S P Q. apply I; auto.
    intros j z J Z. assert (J' : (j <= mid)%nat) by lia.
    pose proof (Srt S j mid z y J' Z N). lia.
Qed.

Lemma insert_at_place x : forall a r,
  (r <= List.length a)%nat ->
  (forall j y, (j < r)%nat -> nth_error a j = Some y ->
     (ShardRing.hash_value y <= ShardRing.hash_value x)%Z) ->
  (forall j y, (r <= j)%nat -> nth_error a j = Some y ->
     (ShardRing.hash_value x < ShardRing.hash_value y)%Z) ->
  (firstn r a ++ x :: skipn r a)%list = insert_in_order x a.
Proof.
  induction a as [|y a IH]; intros r L P Q.
  - simpl in L. now replace r with O by lia.
  - destruct r as [|r]; cbn [firstn skipn app insert_in_order].
    + assert (C : (ShardRing.hash_value x < ShardRing.hash_value y)%Z)
        by (apply (Q O y); [lia|reflexivity]).
      apply Z.ltb_lt in C. now rewrite C.
    + assert (C : (ShardRing.hash_value y <= ShardRing.hash_value x)%Z)
        by (apply (P O y); [lia|reflexivity]).
      apply Z.ltb_ge in C. rewrite C. f_equal. apply IH.
      * simpl in L. lia.
      * intros j z J Z. apply (P (S j) z); [lia|exact Z].
      * intros j z J Z. apply (Q (S j) z); [lia|exact Z].
Qed.

(** [insort] puts the entry somewhere into the list ... *)
Lemma insort_at x l :
  exists r, (r <= List.length l)%nat
            /\ ShardRing.insort x l = (firstn r l ++ x :: skipn r l)%list.
Proof.
  unfold ShardRing.insort, ShardRing.bisect_right.
  destruct (@bisect_loop_vnode x l (S (List.length l)) O (List.length l))
    as (r & R & B & _); [lia|lia|lia|].
  rewrite R. exists r. split; [lia|reflexivity].
Qed.

(** ... and in a list in order, at its place. *)
Lemma insort_in_order x l :
  ring_sorted l -> ShardRing.insort x l = insert_in_order x l.
Proof.
  intros Srt. unfold ShardRing.insort, ShardRing.bisect_right.
  destruct (@bisect_loop_vnode x l (S (List.length l)) O (List.length l))
    as (r & R & B & I); [lia|lia|lia|].
  rewrite R. destruct (I Srt) as [P Q].
  - intros j y J. lia.
  - intros j y J N. assert (nth_error l j <> None) by congruence.
    apply nth_error_Some in H. lia.
  - apply insert_at_place; [lia|exact P|exact Q].
Qed.

Lemma insort_perm x l : Permutation (ShardRing.insort x l) (x :: l).
Proof.
  destruct (insort_at x l) as (r & _ & E). rewrite E.
  rewrite <- Permutation_middle. now rewrite firstn_skipn.
Qed.

Lemma insert_in_order_perm x l : Permutation (insert_in_order x l) (x :: l).
Proof.
  induction l as [|y l IH]; simpl; auto.
  destruct (ShardRing.hash_value x <? ShardRing.hash_value y)%Z; auto.
  rewrite IH. apply perm_swap.
Qed.

Lemma insort_sorted x l :
  ring_sorted l -> ring_sorted (ShardRing.insort x l).
Proof.
  intros S0. rewrite (@insort_in_order x l S0). revert S0.
  unfold ring_sorted. induction l as [|y l IH]; intros S; simpl.
  - repeat constructor.
  - inversion S as [|? ? S1 S2]; subst.
    destruct (ShardRing.hash_value x <? ShardRing.hash_value y)%Z eqn:E.
    + apply Z.ltb_lt in E. constructor; auto. constructor; [lia|].
      eapply Forall_impl; [|exact S2]. simpl. intros a H. lia.
    + apply Z.ltb_ge in E. constructor; auto.
      eapply Permutation_Forall; [symmetry; apply insert_in_order_perm|].
      constructor; auto.
Qed.

Lemma insort_others id x l :
  ShardRing.node_id x = id ->
  filter (fun vn => negb (String.eqb (ShardRing.node_id vn) id))
    (ShardRing.insort x l)
  = filter (fun vn => negb (String.eqb (ShardRing.node_id vn) id)) l.
Proof.
  intros E. destruct (insort_at x l) as (r & _ & R). rewrite R.
  rewrite filter_app. cbn [filter]. rewrite E, String.eqb_refl.
  cbn [negb]. rewrite <- filter_app. now rewrite firstn_skipn.
Qed.

(** The loop of [add_node]. *)
Lemma insort_all id (ks : list nat) : forall l,
  let l' := fold_left (fun r i => ShardRing.insort (ShardRing.vnode hash_key id (Z.of_nat i)) r)
              ks l in
  (ring_sorted l -> ring_sorted l')
  /\ Permutation l' (l ++ map (fun i => ShardRing.vnode hash_key id (Z.of_nat i)) ks)
  /\ filter (fun vn => negb (String.eqb (ShardRing.node_id vn) id)) l'
     = filter (fun vn => negb (String.eqb (ShardRing.node_id vn) id)) l.
Proof.
  induction ks as [|i ks IH]; intros l; simpl.
  - split; auto. split; [now rewrite app_nil_r|reflexivity].
  - destruct (IH (ShardRing.insort (ShardRing.vnode hash_key id (Z.of_nat i)) l))
      as (A & B & C).
    split; [|split].
    + intros S. apply A. now apply insort_sorted.
    + rewrite B, insort_perm. simpl.
      now rewrite Permutation_middle.
    + rewrite C. now apply insort_others.
Qed.

Lemma filter_members id (h : ShardRing.HashRing) :
  ring_of_members h ->
  set_mem (ShardRing.nodes h) id = false ->
  filter (fun vn => negb (String.eqb (ShardRing.node_id vn) id))
    (ShardRing.ring h)
  = ShardRing.ring h.
Proof.
  intros W N. unfold ring_of_members in W.
  induction (ShardRing.ring h) as [|vn l IH]; simpl; auto.
  destruct (String.eqb (ShardRing.node_id vn) id) eqn:E; simpl.
  - apply String.eqb_eq in E. specialize (W vn (or_introl eq_refl)).
    congruence.
  - rewrite IH; auto. intros v I. apply W. now right.
Qed.

Lemma discard_added s id :
  set_mem s id = false -> set_discard (set_add s id) id = s.
Proof.
  intros N. unfold set_add. rewrite N. unfold set_discard.
  rewrite filter_app. simpl. rewrite String.eqb_refl. simpl.
  rewrite app_nil_r. unfold set_mem in N.
  induction s as [|y s IH]; simpl in *; auto.
  apply orb_false_iff in N. destruct N as [N1 N2].
  rewrite N1. simpl. now rewrite IH.
Qed.

End RingFacts.

(** X26. [add_node] puts the virtual nodes of a new node on the ring and
    keeps the ring in hash order: the ring afterwards is a reordering of
    the old ring with the [num_virtual_nodes] virtual nodes of the node,
    the virtual nodes of the other nodes are in the order they were in,
    and the node is among the members. For a node that is a member
    already, [add_node] does nothing. *)
Theorem add_node_extends_the_ring :
  forall (hash_key : string -> Z) (id : string) (h : ShardRing.HashRing),
    let h' := ShardRing.add_node hash_key id h in
    (set_mem (ShardRing.nodes h) id = true -> h' = h)
    /\ (set_mem (ShardRing.nodes h) id = false ->
        (ring_sorted (ShardRing.ring h) -> ring_sorted (ShardRing.ring h'))
        /\ Permutation (ShardRing.ring h')
             (ShardRing.ring h
              ++ map (fun i => ShardRing.vnode hash_key id (Z.of_nat i))
                   (seq 0 (Z.to_nat (ShardRing.num_virtual_nodes h))))
        /\ filter (fun vn => negb (String.eqb (ShardRing.node_id vn) id))
             (ShardRing.ring h')
           = filter (fun vn => negb (String.eqb (ShardRing.node_id vn) id))
               (ShardRing.ring h)
        /\ forall id', set_mem (ShardRing.nodes h') id'
                       = String.eqb id' id || set_mem (ShardRing.nodes h) id')
    /\ ShardRing.add_node hash_key id h' = h'.
Proof.
  intros hash_key id h. cbv zeta.
  destruct (set_mem (ShardRing.nodes h) id) eqn:M.
  - assert (E : ShardRing.add_node hash_key id h = h)
      by (unfold ShardRing.add_node; now rewrite M).
    rewrite !E. split; [auto|]. split; [discriminate|reflexivity].
  - split; [discriminate|]. split.
    + intros _. unfold ShardRing.add_node. rewrite M.
      cbn [ShardRing.ring ShardRing.nodes].
      destruct (insort_all hash_key id
                  (seq 0 (Z.to_nat (ShardRing.num_virtual_nodes h)))
                  (ShardRing.ring h)) as (A & B & C).
      split; [exact A|]. split; [exact B|]. split; [exact C|].
      intros id'. apply set_mem_add.
    + unfold ShardRing.add_node at 1.
      replace (set_mem (ShardRing.nodes (ShardRing.add_node hash_key id h)) id)
        with true; [reflexivity|].
      unfold ShardRing.add_node. rewrite M. cbn [ShardRing.nodes].
      now rewrite set_mem_add, String.eqb_refl.
Qed.

(** X27. Removing a node undoes its addition. On a ring whose virtual
    nodes all belong to members, adding a node that is not a member and
    removing it again gives back the ring and the members as they
    were. *)
Theorem remove_node_undoes_add_node :
  forall (hash_key : string -> Z) (id : string) (h : ShardRing.HashRing),
    ring_of_members h ->
    set_mem (ShardRing.nodes h) id = false ->
    ShardRing.remove_node id (ShardRing.add_node hash_key id h) = h.
Proof.
  intros hash_key id h W N. unfold ShardRing.add_node. rewrite N.
  unfold ShardRing.remove_node. cbn [ShardRing.nodes ShardRing.ring
    ShardRing.num_virtual_nodes].
  rewrite set_mem_add, String.eqb_refl. cbn [orb negb].
  destruct (insort_all hash_key id
              (seq 0 (Z.to_nat (ShardRing.num_virtual_nodes h)))
              (ShardRing.ring h)) as (_ & _ & C).
  cbv zeta in C. rewrite C, (@filter_members id h W N), (@discard_added _ id N).
  now destruct h.
Qed.

Lemma remove_node_undoes_add_node_witness :
  ring_of_members Examples.two_node_ring
  /\ set_mem (ShardRing.nodes Examples.two_node_ring) "n10" = false
  /\ ShardRing.remove_node "n10"
       (ShardRing.add_node Examples.short_hash "n10" Examples.two_node_ring)
     = Examples.two_node_ring.
Proof.
  assert (W : ring_of_members Examples.two_node_ring).
  { intros vn I. vm_compute in I.
    repeat (destruct I as [<-|I]; [reflexivity|]). destruct I. }
  split; [exact W|]. split; [reflexivity|].
  apply (@remove_node_undoes_add_node Examples.short_hash "n10" Examples.two_node_ring W).
  reflexivity.
Defined.

Section RingInvariant.
Variable hash_key : string -> Z.

Lemma virtual_nodes_of_perm id l l' :
  Permutation l l' -> virtual_nodes_of id l = virtual_nodes_of id l'.
Proof.
  unfold virtual_nodes_of. induction 1; simpl; auto.
  - destruct (String.eqb (ShardRing.node_id x) id); simpl; auto.
  - destruct (String.eqb (ShardRing.node_id x) id),
             (String.eqb (ShardRing.node_id y) id); simpl; auto.
  - congruence.
Qed.

Lemma virtual_nodes_of_app id l l' :
  virtual_nodes_of id (l ++ l')
  = (virtual_nodes_of id l + virtual_nodes_of id l')%nat.
Proof.
  unfold virtual_nodes_of. now rewrite filter_app, length_app.
Qed.

Lemma virtual_nodes_of_new id id' (ks : list nat) :
  virtual_nodes_of id'
    (map (fun i => ShardRing.vnode hash_key id (Z.of_nat i)) ks)
  = if String.eqb id id' then List.length ks else O.
Proof.
  unfold virtual_nodes_of. induction ks as [|k ks IH]; simpl.
  - now destruct (String.eqb id id').
  - destruct (String.eqb id id'); simpl; auto.
Qed.

Lemma virtual_nodes_of_rest id id' l :
  virtual_nodes_of id'
    (filter (fun vn => negb (String.eqb (ShardRing.node_id vn) id)) l)
  = if String.eqb id' id then O else virtual_nodes_of id' l.
Proof.
  unfold virtual_nodes_of. induction l as [|vn l IH]; simpl.
  - now destruct (String.eqb id' id).
  - destruct (String.eqb (ShardRing.node_id vn) id) eqn:E; simpl.
    + apply String.eqb_eq in E. rewrite E, IH.
      rewrite (String.eqb_sym id id').
      now destruct (String.eqb id' id).
    + destruct (String.eqb id' id) eqn:E'.
      * apply String.eqb_eq in E'. subst id'. now rewrite E.
      * destruct (String.eqb (ShardRing.node_id vn) id'); simpl;
          now rewrite IH.
Qed.

Lemma filter_sorted f l : ring_sorted l -> ring_sorted (filter f l).
Proof.
  unfold ring_sorted. induction 1 as [|x l S0 IH F]; simpl.
  - constructor.
  - destruct (f x); auto. constructor; auto.
    rewrite Forall_forall in *. intros y I. apply filter_In in I.
    now apply F.
Qed.

Lemma ring_inv_call n h op :
  ring_inv n h -> ring_inv n (ring_call hash_key h op).
Proof.
  intros (N & Srt & C). destruct op as [id|id]; cbn [ring_call].
  - unfold ShardRing.add_node.
    destruct (set_mem (ShardRing.nodes h) id) eqn:M.
    + now repeat split.
    + destruct (insort_all hash_key id
                  (seq 0 (Z.to_nat (ShardRing.num_virtual_nodes h)))
                  (ShardRing.ring h)) as (A & B & _).
      cbv zeta in A, B. split; [exact N|]. split; [exact (A Srt)|].
      intros id'. cbn [ShardRing.ring ShardRing.nodes].
      rewrite (virtual_nodes_of_perm id' B), virtual_nodes_of_app,
        virtual_nodes_of_new, length_seq, set_mem_add, C, N.
      rewrite (String.eqb_sym id id').
      destruct (String.eqb id' id) eqn:E; cbn [orb].
      * apply String.eqb_eq in E. subst id'. now rewrite M.
      * lia.
  - unfold ShardRing.remove_node.
    destruct (set_mem (ShardRing.nodes h) id) eqn:M; cbn [negb].
    + split; [exact N|]. split.
      * cbn [ShardRing.ring]. now apply filter_sorted.
      * intros id'. cbn [ShardRing.ring ShardRing.nodes].
        rewrite virtual_nodes_of_rest, set_mem_discard, C.
        now destruct (String.eqb id' id).
    + now repeat split.
Qed.

Lemma ring_inv_calls n ops : forall h,
  ring_inv n h -> ring_inv n (fold_left (ring_call hash_key) ops h).
Proof.
  induction ops as [|op ops IH]; intros h I; simpl; auto.
  apply IH. now apply ring_inv_call.
Qed.

End RingInvariant.

(** X28. Whatever nodes are added to and removed from a ring, in any
    order and however often, the ring stays in the order of the hash
    values, and it holds [num_virtual_nodes] virtual nodes of every
    member and none of any other node. *)
Theorem ring_holds_the_virtual_nodes_of_its_members :
  forall (hash_key : string -> Z) (n : Z) (ops : list ring_op) (id : string),
    let h := fold_left (ring_call hash_key) ops (ShardRing.init n) in
    ring_sorted (ShardRing.ring h)
    /\ virtual_nodes_of id (ShardRing.ring h)
       = if set_mem (ShardRing.nodes h) id then Z.to_nat n else O.
Proof.
  intros hash_key n ops id h.
  assert (I : ring_inv n h).
  { apply ring_inv_calls. split; [reflexivity|]. split; [constructor|].
    intros id'. reflexivity. }
  destruct I as (_ & Srt & C). split; [exact Srt|apply C].
Qed.

Lemma bisect_probe k a :
  a <> [] ->
  ShardRing.bisect_right a (ShardRing.Probe k)
  = Raise (TypeError
      "'<' not supported between instances of 'obj' and 'VirtualNode'").
Proof.
  intros NE. unfold ShardRing.bisect_right.
  cbn [ShardRing.bisect_loop].
  assert (L : (0 < List.length a)%nat) by (destruct a; simpl; [congruence|lia]).
  apply Nat.ltb_lt in L. rewrite L. cbv zeta.
  destruct (nth_error a ((0 + List.length a) / 2)) eqn:N; [reflexivity|].
  apply nth_error_None in N. apply Nat.ltb_lt in L.
  pose proof (Nat.div_mod_eq (0 + List.length a) 2) as D.
  pose proof (Nat.mod_upper_bound (0 + List.length a) 2) as U. lia.
Qed.

(** X29. On a ring that holds a virtual node, [get_node] and
    [get_nodes_for_replication] raise [TypeError] for every key: the
    search compares the probe made from the hash of the key with a
    virtual node, and neither class defines that comparison. The four
    lookups of a shard manager raise with them. *)
Theorem ring_lookup_raises_type_error :
  forall (hash_key : string -> Z) (key : string) (rf : Z)
         (m : ShardRing.ShardManager),
    ShardRing.ring (ShardRing.hash_ring m) <> [] ->
    let h := ShardRing.hash_ring m in
    let e := TypeError
      "'<' not supported between instances of 'obj' and 'VirtualNode'" in
    ShardRing.get_node hash_key key h = Raise e
    /\ ShardRing.get_nodes_for_replication hash_key key rf h = Raise e
    /\ ShardRing.get_primary_node hash_key key m = Raise e
    /\ ShardRing.get_replica_nodes hash_key key m = Raise e
    /\ ShardRing.is_responsible_for hash_key key m = Raise e
    /\ ShardRing.is_primary_for hash_key key m = Raise e.
Proof.
  intros hash_key key rf m NE h e.
  assert (G : ShardRing.get_node hash_key key h = Raise e).
  { unfold ShardRing.get_node, ShardRing.start_index.
    rewrite (@bisect_probe (hash_key key) (ShardRing.ring h) NE).
    subst h. destruct (ShardRing.ring (ShardRing.hash_ring m));
      [congruence|reflexivity]. }
  assert (R : forall n,
             ShardRing.get_nodes_for_replication hash_key key n h = Raise e).
  { intros n. unfold ShardRing.get_nodes_for_replication,
      ShardRing.start_index.
    rewrite (@bisect_probe (hash_key key) (ShardRing.ring h) NE).
    subst h. destruct (ShardRing.ring (ShardRing.hash_ring m));
      [congruence|reflexivity]. }
  split; [exact G|]. split; [apply R|].
  unfold ShardRing.is_primary_for, ShardRing.is_responsible_for,
    ShardRing.get_primary_node, ShardRing.get_replica_nodes.
  fold h. rewrite G, R. repeat split.
Qed.

Lemma ring_lookup_raises_type_error_witness :
  let m := ShardRing.manager Examples.short_hash "n1" 3 in
  ShardRing.ring (ShardRing.hash_ring m) <> []
  /\ ShardRing.get_primary_node Examples.short_hash "users:7" m
     = Raise (TypeError
         "'<' not supported between instances of 'obj' and 'VirtualNode'")
  /\ ShardRing.is_responsible_for Examples.short_hash "users:7" m
     = Raise (TypeError
         "'<' not supported between instances of 'obj' and 'VirtualNode'").
Proof.
  cbv zeta.
  assert (NE : ShardRing.ring
                 (ShardRing.hash_ring
                    (ShardRing.manager Examples.short_hash "n1" 3)) <> []).
  { vm_compute. discriminate. }
  split; [exact NE|].
  pose proof (@ring_lookup_raises_type_error Examples.short_hash "users:7" 3
                (ShardRing.manager Examples.short_hash "n1" 3) NE)
    as (_ & _ & P & _ & Q & _).
  split; [exact P|exact Q].
Defined.

(* ================================================================== *)
(** * Properties of the cluster membership *)
(* ================================================================== *)

Section MembershipFacts.
Variable clock : Type.
Variable timed_out : clock -> clock -> clock -> bool.
Variable hash_key : string -> Z.

Lemma ring_nodes_add id id' h :
  set_mem (ShardRing.nodes (ShardRing.add_node hash_key id h)) id'
  = String.eqb id' id || set_mem (ShardRing.nodes h) id'.
Proof.
  unfold ShardRing.add_node.
  destruct (set_mem (ShardRing.nodes h) id) eqn:M.
  - destruct (String.eqb id' id) eqn:E; auto.
    apply String.eqb_eq in E. now subst.
  - cbn [ShardRing.nodes]. apply set_mem_add.
Qed.

Lemma ring_nodes_remove id id' h :
  set_mem (ShardRing.nodes (ShardRing.remove_node id h)) id'
  = negb (String.eqb id' id) && set_mem (ShardRing.nodes h) id'.
Proof.
  unfold ShardRing.remove_node.
  destruct (set_mem (ShardRing.nodes h) id) eqn:M; cbn [negb].
  - cbn [ShardRing.nodes]. apply set_mem_discard.
  - destruct (String.eqb id' id) eqn:E; auto.
    apply String.eqb_eq in E. subst. now rewrite M.
Qed.

Lemma alive_set (cm : ClusterManager.t clock) id id' info :
  alive (ClusterManager.with_nodes cm
           (dict_set String.eqb (ClusterManager.nodes cm) id info)) id'
  = if String.eqb id' id then ClusterManager.is_alive info
    else alive cm id'.
Proof.
  unfold alive, ClusterManager.get_node_info. cbn [ClusterManager.nodes
    ClusterManager.with_nodes].
  destruct (String.eqb id' id) eqn:E.
  - apply String.eqb_eq in E. subst. now rewrite dict_get_set_eq.
  - apply String.eqb_neq in E. now rewrite (dict_get_set_neq _ _ E).
Qed.

Lemma alive_del (cm : ClusterManager.t clock) id id' :
  alive (ClusterManager.with_nodes cm
           (dict_del String.eqb (ClusterManager.nodes cm) id)) id'
  = negb (String.eqb id' id) && alive cm id'.
Proof.
  unfold alive, ClusterManager.get_node_info. cbn [ClusterManager.nodes
    ClusterManager.with_nodes].
  destruct (String.eqb id' id) eqn:E.
  - apply String.eqb_eq in E. subst. now rewrite dict_get_del_eq.
  - apply String.eqb_neq in E. now rewrite (dict_get_del_neq _ E).
Qed.

(** The invariant, on the two managers. *)
Lemma membership_inv_revived self (cm : ClusterManager.t clock) sm id info :
  membership_inv self
    {| Membership.cluster_manager := cm; Membership.shard_manager := sm |} ->
  ClusterManager.is_alive info = true ->
  membership_inv self
    {| Membership.cluster_manager :=
         ClusterManager.with_nodes cm
           (dict_set String.eqb (ClusterManager.nodes cm) id info);
       Membership.shard_manager := sm |}.
Proof.
  intros (N & A & R & L & O & I) Al. unfold membership_inv, on_shard_ring in *.
  cbn [Membership.cluster_manager Membership.shard_manager
       ClusterManager.node_id ClusterManager.on_node_added
       ClusterManager.on_node_removed ClusterManager.with_nodes] in *.
  repeat split; auto.
  - rewrite alive_set, L, Al. now destruct (String.eqb self id).
  - intros id' H. rewrite alive_set, Al, (I id' H).
    now destruct (String.eqb id' id).
Qed.

Lemma membership_inv_added self (cm : ClusterManager.t clock) sm id :
  membership_inv self
    {| Membership.cluster_manager := cm; Membership.shard_manager := sm |} ->
  alive cm id = true ->
  membership_inv self
    {| Membership.cluster_manager := cm;
       Membership.shard_manager :=
         ShardRing.manager_add_node hash_key id sm |}.
Proof.
  intros (N & A & R & L & O & I) Al. unfold membership_inv, on_shard_ring in *.
  cbn [Membership.cluster_manager Membership.shard_manager
       ShardRing.manager_add_node ShardRing.on_ring ShardRing.hash_ring] in *.
  repeat split; auto.
  - rewrite ring_nodes_add, O. apply orb_true_r.
  - intros id'. rewrite ring_nodes_add.
    destruct (String.eqb id' id) eqn:E; auto.
    apply String.eqb_eq in E. now subst.
Qed.

Lemma membership_inv_dropped self (cm : ClusterManager.t clock) sm id d :
  membership_inv self
    {| Membership.cluster_manager := cm; Membership.shard_manager := sm |} ->
  String.eqb id self = false ->
  (forall id', id' <> id ->
     alive (ClusterManager.with_nodes cm d) id' = alive cm id') ->
  membership_inv self
    {| Membership.cluster_manager := ClusterManager.with_nodes cm d;
       Membership.shard_manager := ShardRing.manager_remove_node id sm |}.
Proof.
  intros (N & A & R & L & O & I) NS K.
  unfold membership_inv, on_shard_ring in *.
  cbn [Membership.cluster_manager Membership.shard_manager
       ClusterManager.node_id ClusterManager.on_node_added
       ClusterManager.on_node_removed ClusterManager.with_nodes
       ShardRing.manager_remove_node ShardRing.on_ring
       ShardRing.hash_ring] in *.
  assert (NS' : self <> id)
    by (intros ->; now rewrite String.eqb_refl in NS).
  repeat split; auto.
  - change (alive (ClusterManager.with_nodes cm d) self = true).
    now rewrite (K self NS').
  - rewrite ring_nodes_remove, O. apply String.eqb_neq in NS'.
    now rewrite NS'.
  - intros id'. rewrite ring_nodes_remove.
    destruct (String.eqb id' id) eqn:E; [discriminate|].
    apply String.eqb_neq in E. cbn [negb andb]. intros H.
    change (alive (ClusterManager.with_nodes cm d) id' = true).
    rewrite (K id' E). now apply I.
Qed.

Lemma membership_inv_check self now sm item :
  forall (cm : ClusterManager.t clock) calls,
    membership_inv self
      {| Membership.cluster_manager := cm;
         Membership.shard_manager :=
           fold_left (Membership.deliver hash_key) calls sm |} ->
    membership_inv self
      {| Membership.cluster_manager :=
           fst (ClusterManager.check_node timed_out now (cm, calls) item);
         Membership.shard_manager :=
           fold_left (Membership.deliver hash_key)
             (snd (ClusterManager.check_node timed_out now (cm, calls) item))
             sm |}.
Proof.
  intros cm calls H. destruct item as [id info].
  unfold ClusterManager.check_node.
  pose proof H as (N & _ & R & _).
  cbn [Membership.cluster_manager] in N, R.
  destruct (String.eqb id (ClusterManager.node_id cm)) eqn:E; [exact H|].
  destruct (ClusterManager.is_alive info
            && timed_out now (ClusterManager.last_seen info)
                 (ClusterManager.heartbeat_interval cm)); [|exact H].
  cbn [fst snd]. rewrite R. cbn [ClusterManager.fire].
  rewrite fold_left_app. cbn [fold_left Membership.deliver].
  apply membership_inv_dropped; [exact H|now rewrite <- N|].
  intros id' D. rewrite alive_set. apply String.eqb_neq in D.
  now rewrite D.
Qed.

Lemma membership_inv_round self now sm items :
  forall (cm : ClusterManager.t clock) calls,
    membership_inv self
      {| Membership.cluster_manager := cm;
         Membership.shard_manager :=
           fold_left (Membership.deliver hash_key) calls sm |} ->
    membership_inv self
      {| Membership.cluster_manager :=
           fst (fold_left (ClusterManager.check_node timed_out now) items
                  (cm, calls));
         Membership.shard_manager :=
           fold_left (Membership.deliver hash_key)
             (snd (fold_left (ClusterManager.check_node timed_out now) items
                     (cm, calls)))
             sm |}.
Proof.
  induction items as [|item items IH]; intros cm calls H; [exact H|].
  cbn [fold_left].
  pose proof (@membership_inv_check self now sm item cm calls H) as H'.
  destruct (ClusterManager.check_node timed_out now (cm, calls) item)
    as [cm' calls'].
  now apply IH.
Qed.

Lemma alive_after_set (cm : ClusterManager.t clock) id info :
  ClusterManager.is_alive info = true ->
  alive (ClusterManager.with_nodes cm
           (dict_set String.eqb (ClusterManager.nodes cm) id info)) id
  = true.
Proof.
  intros Al. now rewrite alive_set, String.eqb_refl.
Qed.

Lemma membership_inv_call self (m : Membership.t clock) op :
  membership_inv self m ->
  membership_inv self (member_call timed_out hash_key m op).
Proof.
  destruct m as [cm sm]. intros H.
  pose proof H as (N & A & R & L & O & I).
  cbn [Membership.cluster_manager Membership.shard_manager] in N, A, R, L.
  destruct op as [id h p now|id h p now|id|id now|now]; cbn [member_call].
  - unfold Membership.add_cluster_node, Membership.on_cluster,
      ClusterManager.add_node.
    cbn [Membership.cluster_manager Membership.shard_manager].
    destruct (dict_get String.eqb (ClusterManager.nodes cm) id);
      cbn [Membership.cluster_manager Membership.shard_manager fold_left].
    + apply membership_inv_added; [|now apply alive_after_set].
      now apply membership_inv_revived.
    + rewrite A. cbn [ClusterManager.fire fold_left Membership.deliver].
      apply membership_inv_added; [|now apply alive_after_set].
      apply membership_inv_added; [|now apply alive_after_set].
      now apply membership_inv_revived.
  - unfold Membership.on_cluster, ClusterManager.add_node.
    cbn [Membership.cluster_manager Membership.shard_manager].
    destruct (dict_get String.eqb (ClusterManager.nodes cm) id);
      cbn [fold_left].
    + now apply membership_inv_revived.
    + rewrite A. cbn [ClusterManager.fire fold_left Membership.deliver].
      apply membership_inv_added; [|now apply alive_after_set].
      now apply membership_inv_revived.
  - unfold Membership.on_cluster, ClusterManager.remove_node.
    cbn [Membership.cluster_manager Membership.shard_manager].
    rewrite N.
    destruct (dict_mem String.eqb (ClusterManager.nodes cm) id
              && negb (String.eqb id self)) eqn:G; [|exact H].
    apply andb_true_iff in G. destruct G as [_ G].
    apply negb_true_iff in G.
    rewrite R. cbn [ClusterManager.fire fold_left Membership.deliver].
    apply membership_inv_dropped; [exact H|exact G|].
    intros id' D. rewrite alive_del. apply String.eqb_neq in D.
    now rewrite D.
  - unfold Membership.on_cluster, ClusterManager.update_heartbeat.
    cbn [Membership.cluster_manager Membership.shard_manager].
    destruct (dict_get String.eqb (ClusterManager.nodes cm) id) as [info|];
      [|exact H].
    destruct (ClusterManager.is_alive info); cbn [negb fold_left].
    + now apply membership_inv_revived.
    + rewrite A. cbn [ClusterManager.fire fold_left Membership.deliver].
      apply membership_inv_added; [|now apply alive_after_set].
      now apply membership_inv_revived.
  - unfold Membership.on_cluster, ClusterManager.monitor_round.
    cbn [Membership.cluster_manager Membership.shard_manager].
    pose proof (@membership_inv_round self now sm (ClusterManager.nodes cm)
                  cm [] H) as H'.
    now destruct (fold_left (ClusterManager.check_node timed_out now)
                    (ClusterManager.nodes cm) (cm, [])).
Qed.

Lemma membership_inv_calls self ops : forall (m : Membership.t clock),
  membership_inv self m ->
  membership_inv self (fold_left (member_call timed_out hash_key) ops m).
Proof.
  induction ops as [|op ops IH]; intros m H; [exact H|].
  cbn [fold_left]. apply IH. now apply membership_inv_call.
Qed.

Lemma membership_inv_init self h p rf (interval now : clock) :
  membership_inv self (Membership.init hash_key self h p rf interval now).
Proof.
  unfold membership_inv, Membership.init, on_shard_ring, alive,
    ClusterManager.get_node_info.
  cbn [Membership.cluster_manager Membership.shard_manager
       ClusterManager.set_callbacks ClusterManager.init
       ClusterManager.node_id ClusterManager.on_node_added
       ClusterManager.on_node_removed ClusterManager.nodes dict_get
       ShardRing.manager ShardRing.hash_ring].
  rewrite String.eqb_refl. cbn [ClusterManager.is_alive].
  rewrite ring_nodes_add, String.eqb_refl. cbn [orb].
  repeat split; auto.
  intros id. rewrite ring_nodes_add. cbn [ShardRing.init ShardRing.nodes
    set_mem existsb]. rewrite orb_false_r. intros E.
  now rewrite E.
Qed.

Lemma alive_listed (cm : ClusterManager.t clock) id :
  alive cm id = true -> In id (ClusterManager.get_alive_nodes cm).
Proof.
  unfold alive, ClusterManager.get_node_info, ClusterManager.get_alive_nodes.
  induction (ClusterManager.nodes cm) as [|[k info] d IH]; simpl;
    [discriminate|].
  destruct (String.eqb id k) eqn:E.
  - apply String.eqb_eq in E. subst k. intros Al. rewrite Al. now left.
  - intros Al. destruct (ClusterManager.is_alive info); [right|]; auto.
Qed.

End MembershipFacts.

(** X30. A node keeps itself in its cluster and on its shard ring, and
    its shard ring holds only nodes that its cluster manager lists as
    alive: this holds when the node is built, and stays so whatever
    initial cluster nodes are added and however the cluster manager is
    called (nodes added and removed, heartbeats, rounds of the monitor),
    with the callbacks that the node sets. *)
Theorem shard_ring_holds_alive_nodes :
  forall (clock : Type) (timed_out : clock -> clock -> clock -> bool)
         (hash_key : string -> Z) (self host : string) (port rf : Z)
         (interval now : clock) (ops : list (member_op clock)) (id : string),
    let m := fold_left (member_call timed_out hash_key) ops
               (Membership.init hash_key self host port rf interval now) in
    In self (ClusterManager.get_alive_nodes (Membership.cluster_manager m))
    /\ on_shard_ring m self = true
    /\ (on_shard_ring m id = true ->
        In id (ClusterManager.get_alive_nodes (Membership.cluster_manager m))).
Proof.
  intros clock timed_out hash_key self host port rf interval now ops id m.
  assert (H : membership_inv self m).
  { apply membership_inv_calls. apply membership_inv_init. }
  destruct H as (_ & _ & _ & L & O & I).
  split; [now apply alive_listed|]. split; [exact O|].
  intros R. apply alive_listed. now apply I.
Qed.
